(** * Hybrid A-star planner: a shallow embedding and its verified properties

    The development follows the Python sources
    [ref_hybrid_a_star/my_hybrid_astar.py],
    [hybrid_a_star/model/base_model.py] and
    [hybrid_a_star/model/tractor_trailer_model.py].

    Conventions of the embedding.
    - A Python [float] is a real number ([R]): rounding error, infinities and
      NaN are not represented.  Python [int]s are [Z].
    - A Python exception is the [Raise] outcome of the [res] type; the two
      [while True] loops take their iteration budget as a [fuel] argument and
      report [OutOfFuel] when it is exhausted.
    - [dict]s that are only accessed by key are [gmap]s; the dict whose
      [values()] are iterated keeps its insertion order in an association
      list. *)

From Stdlib Require Import String.
From Stdlib Require Import Reals Lra Lia ZArith List.
From stdpp Require Import gmap list.

Local Open Scope Z_scope.

(** ** Python outcomes *)

Inductive exn : Type :=
| Exception          (* a plain [Exception] raised by the code itself *)
| IndexError
| RuntimeError       (* raised inside the CasADi library *)
| KeyError
| ValueError
| ZeroDivisionError
| OutOfFuel.         (* the model's loop budget ran out; not a Python outcome *)

Inductive res (A : Type) : Type :=
| Ok (a : A)
| Raise (e : exn).

Arguments Ok {A} a.
Arguments Raise {A} e.

#[global] Instance res_ret : MRet res := fun A a => Ok a.

#[global] Instance res_bind : MBind res := fun A B k m =>
  match m with
  | Ok a => k a
  | Raise e => Raise e
  end.

(** Comparisons of floats are decided by the order of the reals. *)

#[global] Instance R_eq_dec : EqDecision R := Req_dec_T.
#[global] Instance Rlt_decision (a b : R) : Decision (a < b)%R := Rlt_dec a b.
#[global] Instance Rle_decision (a b : R) : Decision (a <= b)%R := Rle_dec a b.

(** ** Python arithmetic and sequences *)

Module Py.

Local Open Scope R_scope.

(** [a / b] on floats: a zero divisor raises. *)
Definition div (a b : R) : res R :=
  if Req_dec_T b 0 then Raise ZeroDivisionError else Ok (a / b).

Definition floor (a : R) : Z := (up a - 1)%Z.

(** [math.ceil]. *)
Definition ceil (a : R) : Z := (- floor (- a))%Z.

(** [round(a)] with one argument: the nearest integer, a tie going to the
    even neighbour. *)
Definition round (a : R) : Z :=
  let f := floor a in
  let d := a - IZR f in
  if Rlt_dec d (1 / 2) then f
  else if Rlt_dec (1 / 2) d then (f + 1)%Z
  else if Z.even f then f else (f + 1)%Z.

(** [l[-1]]. *)
Definition last {A : Type} (l : list A) : res A :=
  match List.last (List.map Some l) None with
  | Some a => Ok a
  | None => Raise IndexError
  end.

(** [l[i]] for a non-negative [i]. *)
Definition get {A : Type} (l : list A) (i : nat) : res A :=
  match l !! i with
  | Some a => Ok a
  | None => Raise IndexError
  end.

(** The position a (possibly negative) index [i] denotes in a sequence of
    length [n], when it is in range. *)
Definition index (n : nat) (i : Z) : option nat :=
  if (0 <=? i)%Z && (i <? Z.of_nat n)%Z then Some (Z.to_nat i)
  else if (- Z.of_nat n <=? i)%Z && (i <? 0)%Z then Some (Z.to_nat (Z.of_nat n + i))
  else None.

(** [l[i]] for an arbitrary integer [i]. *)
Definition getz {A : Type} (l : list A) (i : Z) : res A :=
  match index (length l) i with
  | Some k => get l k
  | None => Raise IndexError
  end.

(** [l[i] = v] for an arbitrary integer [i]. *)
Definition setz {A : Type} (l : list A) (i : Z) (v : A) : res (list A) :=
  match index (length l) i with
  | Some k => Ok (<[k := v]> l)
  | None => Raise IndexError
  end.

(** [l[1:-1]]. *)
Definition interior {A : Type} (l : list A) : list A :=
  List.removelast (List.tl l).

(** [range(0, n, step)] for a positive [step]. *)
Definition range_step (n step : nat) : list nat :=
  List.map (fun k => (k * step)%nat) (seq 0 (Nat.div (n + step - 1) step)).

(** [[l[k] for k in ind]]. *)
Definition gets {A : Type} (l : list A) (ind : list nat) : res (list A) :=
  mapM (get l) ind.

(** [d[k]] on a dict: a missing key raises. *)
Definition item {A : Type} (o : option A) : res A :=
  match o with
  | Some a => Ok a
  | None => Raise KeyError
  end.

(** [min(l)] and [max(l)] of a sequence of integers. *)
Definition min (l : list Z) : res Z :=
  match l with
  | [] => Raise ValueError
  | a :: l' => Ok (List.fold_left Z.min l' a)
  end.

Definition max (l : list Z) : res Z :=
  match l with
  | [] => Raise ValueError
  | a :: l' => Ok (List.fold_left Z.max l' a)
  end.

End Py.

(** ** Configuration: class [C] *)

Module C.

Local Open Scope R_scope.

Definition PI : R := Rtrigo1.PI.
Definition XY_RESO : R := 2 / 10.
Definition YAW_RESO : R := 15 * Rtrigo1.PI / 180.
Definition MOVE_STEP : R := 2 / 10.
Definition N_STEER : R := 10.
Definition MAX_ANGULAR_VELOCITY : R := 5 / 10.
Definition MIN_ANGULAR_VELOCITY : R := - (5 / 10).
Definition MAX_CURVATURE_RADIUS : R := 5 / 10.
Definition COLLISION_CHECK_STEP : nat := 2.
Definition GEAR_COST : R := 100.
Definition BACKWARD_COST : R := 50.
Definition ANGULAR_VELOCITY_CHANGE_COST : R := 2.
Definition H_COST : R := 10.
Definition RADIUS : R := 4 / 10.
Definition RF : R := 6 / 10.
Definition RB : R := 2 / 10.
Definition W : R := 6 / 10.

End C.

(** ** The Reeds-Shepp collaborator: module [reeds_shepp], imported as [rs] *)

Module RSPath.

Record t : Type := mk {
  x : list R;
  y : list R;
  yaw : list R;
  directions : list Z;
  lengths : list R   (* signed arc length of each primitive segment *)
}.

End RSPath.

Module rs.

Local Open Scope R_scope.

(** Modelled from the spec: [rs.pi_2_pi], whose module [reeds_shepp] is not
    part of the sources at hand.  The contract reads
    [pi_2_pi(θ) → θ ∈ (−π, π]]: the angle equivalent to [θ] modulo a full
    turn that lies in that interval. *)
Definition pi_2_pi (theta : R) : R :=
  theta - 2 * PI * IZR (1 - up ((PI - theta) / (2 * PI))).

End rs.

(** ** Tractor-trailer model: classes [BaseModel] and [TractorTrailerModel] *)

Module casadi.

(** A CasADi matrix ([SX] or [DM]): its shape and its entries, column by
    column.  Every matrix the library hands out is [wf]. *)
Record matrix : Type := mk {
  size1 : nat;
  size2 : nat;
  entries : list R
}.

Definition size (m : matrix) : nat * nat := (size1 m, size2 m).

Definition wf (m : matrix) : Prop :=
  length (entries m) = (size1 m * size2 m)%nat.

(** [m[i]]: a linear index outside the matrix is refused by the library,
    with a [RuntimeError]. *)
Definition getitem (m : matrix) (i : nat) : res R :=
  match entries m !! i with
  | Some a => Ok a
  | None => Raise RuntimeError
  end.

(** [cs.vertcat] applied to scalar rows: a column; no row at all gives the
    empty column, of size [(0, 1)]. *)
Definition vertcat (rows : list R) : matrix :=
  mk (length rows) 1 rows.

(** [cs.vertsplit(m)] of a column vector: its rows. *)
Definition vertsplit (m : matrix) : list R := entries m.

(** [c * m] for a float [c]. *)
Definition scale (c : R) (m : matrix) : matrix :=
  mk (size1 m) (size2 m) (List.map (Rmult c) (entries m)).

(** [a + b] for two matrices of the same shape: the sum entry by entry. *)
Definition plus (a b : matrix) : matrix :=
  mk (size1 a) (size2 a) (zip_with Rplus (entries a) (entries b)).

(** [m[:, i]]: a column of [m], as a column vector. *)
Definition column (m : matrix) (i : nat) : matrix :=
  mk (size1 m) 1 (take (size1 m) (drop (i * size1 m) (entries m))).

(** A matrix under construction, kept column by column: [zeros((n, m))],
    the assignment [full[r0:r0 + len(vals), i] = vals], and the finished
    matrix. *)
Definition zero_columns (n m : nat) : list (list R) := repeat (repeat 0%R n) m.

Definition set_rows (cols : list (list R)) (r0 i : nat) (vals : list R) : list (list R) :=
  alter (fun col => take r0 col ++ vals ++ drop (r0 + length vals) col) i cols.

Definition of_columns (n : nat) (cols : list (list R)) : matrix :=
  mk n (length cols) (concat cols).

End casadi.

Module TractorTrailerModel.

Local Open Scope R_scope.

(** The attributes set by [BaseModel.__init__] and
    [TractorTrailerModel.__init__]. *)
Record t : Type := mk {
  nx : nat;                    (* params["num_states"] *)
  nu : nat;                    (* params["num_inputs"] *)
  _lb : R;                     (* params["length_back"] *)
  _lf : R;                     (* params["length_front"] *)
  _trailer_based_model : bool
}.

Definition dynamics (self : t) (state input : casadi.matrix) : res casadi.matrix :=
  if negb (bool_decide (casadi.size state = (nx self, 1%nat))) then Raise Exception
  else if negb (bool_decide (casadi.size input = (nu self, 1%nat))) then Raise Exception
  else
    v1 ← casadi.getitem input 0;
    w1 ← casadi.getitem input 1;
    if (casadi.size1 state =? 6)%nat then
      match casadi.vertsplit state with
      | [x1; y1; theta1; x2; y2; theta2] =>
          let gamma := theta2 - theta1 in
          let x1_dot := v1 * cos theta1 in
          let y1_dot := v1 * sin theta1 in
          let theta1_dot := w1 in
          let x2_dot := v1 * cos theta2 * cos gamma - w1 * _lb self * cos theta2 * sin gamma in
          let y2_dot := v1 * sin theta2 * cos gamma - w1 * _lb self * sin theta2 * sin gamma in
          inv_lf ← Py.div 1 (_lf self);
          lb_lf ← Py.div (_lb self) (_lf self);
          let theta2_dot := - v1 * inv_lf * sin gamma - w1 * lb_lf * cos gamma in
          Ok (casadi.vertcat [x1_dot; y1_dot; theta1_dot; x2_dot; y2_dot; theta2_dot])
      | _ => Raise ValueError
      end
    else if (casadi.size1 state =? 4)%nat && _trailer_based_model self then
      match casadi.vertsplit state with
      | [x2; y2; theta2; gamma] =>
          let x2_dot := v1 * cos theta2 * cos gamma - w1 * _lb self * cos theta2 * sin gamma in
          let y2_dot := v1 * sin theta2 * cos gamma - w1 * _lb self * sin theta2 * sin gamma in
          inv_lf ← Py.div 1 (_lf self);
          lb_lf ← Py.div (_lb self) (_lf self);
          let theta2_dot := - v1 * inv_lf * sin gamma - w1 * lb_lf * cos gamma in
          inv_lf' ← Py.div 1 (_lf self);
          lb_lf' ← Py.div (_lb self) (_lf self);
          let gamma_dot := - v1 * inv_lf' * sin gamma - w1 * (lb_lf' * cos gamma + 1) in
          Ok (casadi.vertcat [x2_dot; y2_dot; theta2_dot; gamma_dot])
      | _ => Raise ValueError
      end
    else if (casadi.size1 state =? 4)%nat && negb (_trailer_based_model self) then
      match casadi.vertsplit state with
      | [x1; y1; theta1; gamma] =>
          let x1_dot := v1 * cos theta1 in
          let y1_dot := v1 * sin theta1 in
          let theta1_dot := w1 in
          inv_lf ← Py.div 1 (_lf self);
          lb_lf ← Py.div (_lb self) (_lf self);
          let gamma_dot := - v1 * inv_lf * sin gamma - w1 * (lb_lf * cos gamma + 1) in
          Ok (casadi.vertcat [x1_dot; y1_dot; theta1_dot; gamma_dot])
      | _ => Raise ValueError
      end
    else Ok (casadi.vertcat []).

Definition compute_tractor_pose_from_trailer_pose (self : t) (state : casadi.matrix)
  : res casadi.matrix :=
  if negb (bool_decide (casadi.size state = (nx self, 1%nat))) then Raise Exception
  else
    match casadi.vertsplit state with
    | [x2; y2; theta2; gamma] =>
        let theta1 := theta2 - gamma in
        let x1 := x2 + _lf self * cos theta2 + _lb self * cos theta1 in
        let y1 := y2 + _lf self * sin theta2 + _lb self * sin theta1 in
        Ok (casadi.vertcat [x1; y1; theta1])
    | _ => Raise ValueError
    end.

Definition compute_trailer_pose_from_tractor_pose (self : t) (state : casadi.matrix)
  : res casadi.matrix :=
  if negb (bool_decide (casadi.size state = (nx self, 1%nat))) then Raise Exception
  else
    match casadi.vertsplit state with
    | [x1; y1; theta1; gamma] =>
        let theta2 := theta1 + gamma in
        let x2 := x1 - _lf self * cos theta1 - _lb self * cos theta2 in
        let y2 := y1 - _lf self * sin theta1 - _lb self * sin theta2 in
        Ok (casadi.vertcat [x2; y2; theta2])
    | _ => Raise ValueError
    end.

(** The state [(x, y, theta, gamma)] a caller assembles from a pose and the
    hitch angle. *)
Definition state_of_pose (pose : casadi.matrix) (gamma : R) : casadi.matrix :=
  casadi.vertcat (casadi.vertsplit pose ++ [gamma]).

(** Tractor pose to trailer pose and back, with the same hitch angle. *)
Definition tractor_roundtrip (self : t) (x1 y1 theta1 gamma : R) : res casadi.matrix :=
  trailer ← compute_trailer_pose_from_tractor_pose self (casadi.vertcat [x1; y1; theta1; gamma]);
  compute_tractor_pose_from_trailer_pose self (state_of_pose trailer gamma).

(** The loops [for i in range(state_trajectory.shape[1])] of
    [get_full_state_trajectory]: the pose computed from column [i] is
    assigned to the rows [r0 .. r0 + 2] of column [i]. *)
Fixpoint fill_poses (convert : casadi.matrix -> res casadi.matrix)
    (state_trajectory : casadi.matrix) (r0 : nat) (full : list (list R)) (columns : list nat)
  : res (list (list R)) :=
  match columns with
  | [] => Ok full
  | i :: columns' =>
      pose ← convert (casadi.column state_trajectory i);
      fill_poses convert state_trajectory r0
        (casadi.set_rows full r0 i (casadi.entries pose)) columns'
  end.

(** The assignments [full[r0:r0 + 3, :] = state_trajectory[0:3, :]]. *)
Definition copy_poses (state_trajectory : casadi.matrix) (r0 : nat) (full : list (list R))
  : list (list R) :=
  List.fold_left (fun full i =>
      casadi.set_rows full r0 i (take 3 (casadi.entries (casadi.column state_trajectory i))))
    (seq 0 (casadi.size2 state_trajectory)) full.

Definition get_full_state_trajectory (self : t) (state_trajectory : casadi.matrix)
  : res casadi.matrix :=
  if negb (casadi.size1 state_trajectory =? nx self)%nat then Raise Exception
  else
    let n := casadi.size2 state_trajectory in
    let full_state_trajectory := casadi.zero_columns 6 n in
    if (casadi.size1 state_trajectory =? 6)%nat then Ok state_trajectory
    else if (casadi.size1 state_trajectory =? 4)%nat && negb (_trailer_based_model self) then
      let full := copy_poses state_trajectory 0 full_state_trajectory in   (* tractor state *)
      full ← fill_poses (compute_trailer_pose_from_tractor_pose self) state_trajectory 3 full
               (seq 0 n);
      Ok (casadi.of_columns 6 full)
    else if (casadi.size1 state_trajectory =? 4)%nat && _trailer_based_model self then
      let full := copy_poses state_trajectory 3 full_state_trajectory in   (* trailer state *)
      full ← fill_poses (compute_tractor_pose_from_trailer_pose self) state_trajectory 0 full
               (seq 0 n);
      Ok (casadi.of_columns 6 full)
    else Ok (casadi.of_columns 6 full_state_trajectory).

End TractorTrailerModel.

(** ** Class [BaseModel]: numerical integration *)

Module BaseModel.

Section Step.

Local Open Scope R_scope.

(** [step] is inherited by every model.  It is written against the abstract
    method [dynamics] and the arithmetic of the CasADi type of the state:
    [add] is [a + b], which the library refuses for operands of unrelated
    shapes, and [scale] is [c * a] for a float [c]. *)
Context {V : Type}.
Variable dynamics : V -> V -> res V.
Variable add : V -> V -> res V.
Variable scale : R -> V -> V.

Definition step (state input : V) (step_size : R) (method : string) : res V :=
  if String.eqb method "RK1" then
    state_dot ← dynamics state input;
    add state (scale step_size state_dot)
  else if String.eqb method "RK4" then
    k1 ← dynamics state input;
    s1 ← add state (scale (1 / 2 * step_size) k1);
    k2 ← dynamics s1 input;
    s2 ← add state (scale (1 / 2 * step_size) k2);
    k3 ← dynamics s2 input;
    s3 ← add state (scale step_size k3);
    k4 ← dynamics s3 input;
    sum ← add k1 (scale 2 k2);
    sum ← add sum (scale 2 k3);
    sum ← add sum k4;
    add state (scale (1 / 6 * step_size) sum)
  else Raise Exception.

End Step.

End BaseModel.

(** ** Values of the heuristic map and queue priorities

    The heuristic map is initialised with [np.inf], so its entries, and the
    priorities computed from them, range over the reals extended with
    [+inf]. *)

Module Float.

Local Open Scope R_scope.

Inductive t : Type :=
| fin (r : R)
| inf.

Definition add (a b : t) : t :=
  match a, b with
  | fin r, fin s => fin (r + s)
  | _, _ => inf
  end.

(** [c * a] for a positive finite factor [c]. *)
Definition scale (c : R) (a : t) : t :=
  match a with
  | fin r => fin (c * r)
  | inf => inf
  end.

(** [a < b]. *)
Definition ltb (a b : t) : bool :=
  match a, b with
  | fin r, fin s => bool_decide (r < s)
  | fin _, inf => true
  | inf, _ => false
  end.

End Float.

(** ** Library containers *)

(** [heapq] on a list of [(cost, key)] tuples.  Only the multiset of entries
    and the smallest of them are observable through [heappush] and
    [heappop], so the heap is kept as a plain list. *)
Module heapq.

Local Open Scope R_scope.

Definition entry : Type := R * Z.

(** Tuple comparison [a < b]. *)
Definition ltb (a b : entry) : bool :=
  if Rlt_dec a.1 b.1 then true
  else if Rlt_dec b.1 a.1 then false
  else (a.2 <? b.2)%Z.

Definition eqb (a b : entry) : bool := negb (ltb a b) && negb (ltb b a).

Fixpoint smallest (best : entry) (h : list entry) : entry :=
  match h with
  | [] => best
  | e :: h' => if ltb e best then smallest e h' else smallest best h'
  end.

Fixpoint remove (m : entry) (h : list entry) : list entry :=
  match h with
  | [] => []
  | e :: h' => if eqb e m then h' else e :: remove m h'
  end.

Definition heappush (h : list entry) (item : entry) : list entry := h ++ [item].

Definition heappop (h : list entry) : res (entry * list entry) :=
  match h with
  | [] => Raise IndexError
  | e :: h' => let m := smallest e h' in Ok (m, remove m h)
  end.

End heapq.

(** Class [QueuePrior], a wrapper around [heapdict]: one priority per item,
    [get] removes an item of lowest priority.  Entries are kept in insertion
    order.  Which of several items of equal lowest priority [heapdict] hands
    out depends on the layout of its heap, which is not modelled: here it is
    the earliest inserted one, and no property below relies on that
    choice. *)
Module QueuePrior.

Section Queue.

Context {K : Type} `{EqDecision K}.

Definition t : Type := list (K * Float.t).

Definition new : t := [].

Definition empty (q : t) : bool :=
  match q with
  | [] => true
  | _ => false
  end.

Definition discard (item : K) (q : t) : t :=
  List.filter (fun e => negb (bool_decide (e.1 = item))) q.

Definition put (q : t) (item : K) (priority : Float.t) : t :=
  discard item q ++ [(item, priority)].

Fixpoint lowest (best : K * Float.t) (q : t) : K * Float.t :=
  match q with
  | [] => best
  | e :: q' => if Float.ltb e.2 best.2 then lowest e q' else lowest best q'
  end.

Definition get (q : t) : res (K * t) :=
  match q with
  | [] => Raise IndexError
  | e :: q' => let m := lowest e q' in Ok (m.1, discard m.1 q)
  end.

End Queue.

Arguments t K : clear implicits.

End QueuePrior.

(** [scipy.spatial.kdtree.KDTree] over 2D points: the tree is represented by
    its data, and a radius query returns the indices of the points within
    distance [r] of the centre. *)
Module KDTree.

Local Open Scope R_scope.

Definition t : Type := list (R * R).

Definition hypot (a b : R) : R := sqrt (a * a + b * b).

Definition within (c : R * R) (r : R) (p : R * R) : bool :=
  bool_decide (hypot (p.1 - c.1) (p.2 - c.2) <= r).

Fixpoint query_from (k : nat) (tree : t) (c : R * R) (r : R) : list nat :=
  match tree with
  | [] => []
  | p :: tree' =>
      if within c r p then k :: query_from (S k) tree' c r
      else query_from (S k) tree' c r
  end.

Definition query_ball_point (tree : t) (c : R * R) (r : R) : list nat :=
  query_from 0 tree c r.

End KDTree.

(** ** Data classes of the planner *)

Module HolonomicNode.

Record t : Type := mk {
  x : Z;        (* x position of node *)
  y : Z;        (* y position of node *)
  cost : R;     (* g cost of node *)
  pind : Z      (* parent index of node *)
}.

End HolonomicNode.

Module Node.

Record t : Type := mk {
  xind : Z;
  yind : Z;
  yawind : Z;
  direction : Z;
  x : list R;
  y : list R;
  yaw : list R;
  directions : list Z;
  steer : R;
  cost : R;
  pind : Z
}.

End Node.

Module Para.

Record t : Type := mk {
  minx : Z;
  miny : Z;
  minyaw : Z;
  maxx : Z;
  maxy : Z;
  maxyaw : Z;
  xw : Z;
  yw : Z;
  yaww : Z;
  xyreso : R;
  yawreso : R;
  ox : list R;
  oy : list R;
  kdtree : KDTree.t
}.

End Para.

Module Path.

Record t : Type := mk {
  x : list R;
  y : list R;
  yaw : list R;
  direction : list Z;
  cost : R
}.

End Path.

(** A [dict] whose [values()] are iterated: entries in insertion order, one
    per key; assigning to a key that is present keeps its position. *)
Module OrderedDict.

Section Dict.

Context {V : Type}.

Definition t : Type := list (Z * V).

Fixpoint lookup (k : Z) (d : t) : option V :=
  match d with
  | [] => None
  | (k', v) :: d' => if bool_decide (k' = k) then Some v else lookup k d'
  end.

Definition mem (k : Z) (d : t) : bool :=
  match lookup k d with
  | Some _ => true
  | None => false
  end.

Fixpoint set (k : Z) (v : V) (d : t) : t :=
  match d with
  | [] => [(k, v)]
  | (k', v') :: d' => if bool_decide (k' = k) then (k', v) :: d' else (k', v') :: set k v d'
  end.

Definition values (d : t) : list V := List.map snd d.

End Dict.

Arguments t V : clear implicits.

End OrderedDict.

#[global] Instance HolonomicNode_eq_dec : EqDecision HolonomicNode.t.
Proof. solve_decision. Defined.

#[global] Instance Node_eq_dec : EqDecision Node.t.
Proof. solve_decision. Defined.

(** ** The holonomic heuristic *)

Local Open Scope R_scope.

Definition get_motion : list (Z * Z) :=
  [(-1, 0); (-1, 1); (0, 1); (1, 1); (1, 0); (1, -1); (0, -1); (-1, -1)]%Z.

(** Grid index of a world coordinate, [round(x / P.xyreso)]. *)
Definition grid_index (reso : R) (x : R) : res Z :=
  q ← Py.div x reso; Ok (Py.round q).

(** In the innermost loop [rr / P.xyreso] is only reached with an obstacle at
    hand, that is after the divisions of the first two lines went through;
    it cannot raise there. *)
Definition obstacles_map (P : Para.t) (rr : R) : res (list (list bool)) :=
  ox_grid ← mapM (grid_index (Para.xyreso P)) (Para.ox P);
  oy_grid ← mapM (grid_index (Para.xyreso P)) (Para.oy P);
  Ok (List.map (fun x =>
        let xx := (Z.of_nat x + Para.minx P)%Z in
        List.map (fun y =>
          let yy := (Z.of_nat y + Para.miny P)%Z in
          existsb (fun o : Z * Z =>
            bool_decide (KDTree.hypot (IZR (o.1 - xx)) (IZR (o.2 - yy))
                         <= rr / Para.xyreso P))
            (zip ox_grid oy_grid))
          (seq 0 (Z.to_nat (Para.yw P))))
        (seq 0 (Z.to_nat (Para.xw P)))).

Definition calc_holonomic_index (node : HolonomicNode.t) (P : Para.t) : Z :=
  ((HolonomicNode.y node - Para.miny P) * Para.xw P
   + (HolonomicNode.x node - Para.minx P))%Z.

Definition check_holonomic_node (node : HolonomicNode.t) (P : Para.t)
    (obsmap : list (list bool)) : res bool :=
  if (HolonomicNode.x node <=? Para.minx P)%Z || (HolonomicNode.x node >=? Para.maxx P)%Z
     || (HolonomicNode.y node <=? Para.miny P)%Z || (HolonomicNode.y node >=? Para.maxy P)%Z
  then Ok false
  else
    row ← Py.getz obsmap (HolonomicNode.x node - Para.minx P);
    blocked ← Py.getz row (HolonomicNode.y node - Para.miny P);
    if blocked : bool then Ok false else Ok true.

Definition u_cost (u : Z * Z) : R := KDTree.hypot (IZR u.1) (IZR u.2).

Module Dijkstra.

(** The variables the [while] loop of
    [calc_holonomic_heuristic_with_obstacle] updates. *)
Record state : Type := mk {
  open_set : gmap Z HolonomicNode.t;
  closed_set : OrderedDict.t HolonomicNode.t;
  q_priority : list heapq.entry
}.

(** One round of the inner [for] loop, for the motion [m]. *)
Definition relax (P : Para.t) (obsmap : list (list bool))
    (closed : OrderedDict.t HolonomicNode.t) (ind : Z) (n_curr : HolonomicNode.t)
    (oq : gmap Z HolonomicNode.t * list heapq.entry) (m : Z * Z)
  : res (gmap Z HolonomicNode.t * list heapq.entry) :=
  let node := HolonomicNode.mk (HolonomicNode.x n_curr + m.1)%Z
                               (HolonomicNode.y n_curr + m.2)%Z
                               (HolonomicNode.cost n_curr + u_cost m) ind in
  ok ← check_holonomic_node node P obsmap;
  if negb ok then Ok oq
  else
    let n_ind := calc_holonomic_index node P in
    if OrderedDict.mem n_ind closed then Ok oq
    else
      match oq.1 !! n_ind with
      | Some o =>
          if bool_decide (HolonomicNode.cost node < HolonomicNode.cost o)
          then Ok (<[n_ind := HolonomicNode.mk (HolonomicNode.x o) (HolonomicNode.y o)
                                               (HolonomicNode.cost node) ind]> oq.1, oq.2)
          else Ok oq
      | None =>
          Ok (<[n_ind := node]> oq.1,
              heapq.heappush oq.2 (HolonomicNode.cost node, calc_holonomic_index node P))
      end.

Fixpoint relax_all (P : Para.t) (obsmap : list (list bool))
    (closed : OrderedDict.t HolonomicNode.t) (ind : Z) (n_curr : HolonomicNode.t)
    (oq : gmap Z HolonomicNode.t * list heapq.entry) (motion : list (Z * Z))
  : res (gmap Z HolonomicNode.t * list heapq.entry) :=
  match motion with
  | [] => Ok oq
  | m :: motion' =>
      oq' ← relax P obsmap closed ind n_curr oq m;
      relax_all P obsmap closed ind n_curr oq' motion'
  end.

(** One pass through the body of the [while] loop; [None] is the [break]. *)
Definition iteration (P : Para.t) (obsmap : list (list bool)) (st : state)
  : res (option state) :=
  if bool_decide (open_set st = ∅) then Ok None
  else
    '(_, ind, q) ← heapq.heappop (q_priority st);
    n_curr ← Py.item (open_set st !! ind);
    let closed := OrderedDict.set ind n_curr (closed_set st) in
    let open := delete ind (open_set st) in
    oq ← relax_all P obsmap closed ind n_curr (open, q) get_motion;
    Ok (Some (mk oq.1 closed oq.2)).

Fixpoint loop (fuel : nat) (P : Para.t) (obsmap : list (list bool)) (st : state)
  : res state :=
  match fuel with
  | O => Raise OutOfFuel
  | S fuel' =>
      next ← iteration P obsmap st;
      match next with
      | None => Ok st
      | Some st' => loop fuel' P obsmap st'
      end
  end.

(** [hmap[n.x - P.minx][n.y - P.miny] = n.cost]. *)
Definition record_cost (P : Para.t) (hmap : list (list Float.t)) (n : HolonomicNode.t)
  : res (list (list Float.t)) :=
  row ← Py.getz hmap (HolonomicNode.x n - Para.minx P);
  row' ← Py.setz row (HolonomicNode.y n - Para.miny P) (Float.fin (HolonomicNode.cost n));
  Py.setz hmap (HolonomicNode.x n - Para.minx P) row'.

Fixpoint record_costs (P : Para.t) (hmap : list (list Float.t))
    (nodes : list HolonomicNode.t) : res (list (list Float.t)) :=
  match nodes with
  | [] => Ok hmap
  | n :: nodes' => hmap' ← record_cost P hmap n; record_costs P hmap' nodes'
  end.

End Dijkstra.

(** The goal cell [n_goal] built in the first line of
    [calc_holonomic_heuristic_with_obstacle]. *)
Definition holonomic_goal (node : Node.t) (P : Para.t) : res HolonomicNode.t :=
  gx ← Py.last (Node.x node);
  gxi ← grid_index (Para.xyreso P) gx;
  gy ← Py.last (Node.y node);
  gyi ← grid_index (Para.xyreso P) gy;
  Ok (HolonomicNode.mk gxi gyi 0 (-1)).

(** The closed set the Dijkstra loop ends with. *)
Definition holonomic_closed_set (fuel : nat) (node : Node.t) (P : Para.t) (radius : R)
  : res (OrderedDict.t HolonomicNode.t) :=
  n_goal ← holonomic_goal node P;
  obsmap ← obstacles_map P radius;
  let open_set : gmap Z HolonomicNode.t := <[calc_holonomic_index n_goal P := n_goal]> ∅ in
  let q_priority := heapq.heappush [] (HolonomicNode.cost n_goal, calc_holonomic_index n_goal P) in
  st ← Dijkstra.loop fuel P obsmap (Dijkstra.mk open_set [] q_priority);
  Ok (Dijkstra.closed_set st).

Definition calc_holonomic_heuristic_with_obstacle (fuel : nat) (node : Node.t)
    (P : Para.t) (radius : R) : res (list (list Float.t)) :=
  closed_set ← holonomic_closed_set fuel node P radius;
  let hmap := List.map (fun _ => List.map (fun _ => Float.inf) (seq 0 (Z.to_nat (Para.yw P))))
                       (seq 0 (Z.to_nat (Para.xw P))) in
  Dijkstra.record_costs P hmap (OrderedDict.values closed_set).

(** ** Collision checking and path costs *)

(** The inner loop [for i in ids] of [is_collision], for the pose whose
    footprint centre is [(cx, cy)]. *)
Fixpoint obstacle_scan (P : Para.t) (cx cy r iyaw : R) (ids : list nat) : res bool :=
  match ids with
  | [] => Ok false
  | i :: ids' =>
      oxi ← Py.get (Para.ox P) i;
      let xo := oxi - cx in
      oyi ← Py.get (Para.oy P) i;
      let yo := oyi - cy in
      let dx := xo * cos iyaw + yo * sin iyaw in
      let dy := - xo * sin iyaw + yo * cos iyaw in
      if bool_decide (Rabs dx < r) && bool_decide (Rabs dy < C.W / 2 + Para.xyreso P)
      then Ok true
      else obstacle_scan P cx cy r iyaw ids'
  end.

(** The body of the outer loop of [is_collision], for one pose. *)
Definition is_collision_at (P : Para.t) (ix iy iyaw : R) : res bool :=
  let car_length := C.RF + C.RB in
  let safety_margin := Para.xyreso P in
  let r := Rmax (car_length / 2) (C.W / 2) + safety_margin in
  let dl := (C.RF - C.RB) / 2 in
  let cx := ix + dl * cos iyaw in
  let cy := iy + dl * sin iyaw in
  let ids := KDTree.query_ball_point (Para.kdtree P) (cx, cy) r in
  obstacle_scan P cx cy r iyaw ids.

(** [is_collision(x, y, yaw, P)]: the loop runs over [zip(x, y, yaw)]. *)
Fixpoint is_collision (x y yaw : list R) (P : Para.t) : res bool :=
  match x, y, yaw with
  | ix :: x', iy :: y', iyaw :: yaw' =>
      hit ← is_collision_at P ix iy iyaw;
      if hit : bool then Ok true else is_collision x' y' yaw' P
  | _, _, _ => Ok false
  end.

Definition calc_rs_path_cost (rspath : RSPath.t) : R :=
  let cost := 0 in
  (* Distance cost *)
  let cost :=
    List.fold_left (fun cost lr =>
      if bool_decide (0 <= lr) then cost + 1
      else cost + Rabs lr * C.BACKWARD_COST) (RSPath.lengths rspath) cost in
  (* Direction change cost *)
  let cost :=
    List.fold_left (fun cost i =>
      if bool_decide (List.nth i (RSPath.lengths rspath) 0
                      * List.nth (i + 1) (RSPath.lengths rspath) 0 < 0)
      then cost + C.GEAR_COST
      else cost) (seq 0 (length (RSPath.lengths rspath) - 1)) cost in
  cost.

(** The cost section 4.G of the specification calls [rs_cost]: the absolute
    length of every forward segment, the absolute length times
    [BACKWARD_COST] of every backward one, and [GEAR_COST] for every pair of
    consecutive segments of opposite sign. *)
Fixpoint rs_cost_spec (lengths : list R) : R :=
  match lengths with
  | [] => 0
  | len :: rest =>
      (if bool_decide (0 <= len) then Rabs len else Rabs len * C.BACKWARD_COST)
      + match rest with
        | [] => 0
        | next :: _ => if bool_decide (len * next < 0) then C.GEAR_COST else 0
        end
      + rs_cost_spec rest
  end.

Definition calc_hybrid_cost (node : Node.t) (hmap : list (list Float.t)) (P : Para.t)
  : res Float.t :=
  row ← Py.getz hmap (Node.xind node - Para.minx P);
  h ← Py.getz row (Node.yind node - Para.miny P);
  Ok (Float.add (Float.fin (Node.cost node)) (Float.scale C.H_COST h)).

(** [np.arange(start, stop, step)]. *)
Definition arange (start stop step : R) : list R :=
  List.map (fun i => start + INR i * step)
           (seq 0 (Z.to_nat (Py.ceil ((stop - start) / step)))).

Definition calc_motion_set : list R * list R :=
  let angular_velocities :=
    arange C.MIN_ANGULAR_VELOCITY C.MAX_ANGULAR_VELOCITY
           ((C.MAX_ANGULAR_VELOCITY - C.MIN_ANGULAR_VELOCITY) / C.N_STEER) in
  let steer := angular_velocities ++ [0] ++ List.map Ropp angular_velocities in
  let direc := List.map (fun _ => 1) steer ++ List.map (fun _ => -1) steer in
  let steer := steer ++ steer in
  (steer, direc).

Definition is_same_grid (node1 node2 : Node.t) : bool :=
  if negb (Node.xind node1 =? Node.xind node2)%Z
     || negb (Node.yind node1 =? Node.yind node2)%Z
     || negb (Node.yawind node1 =? Node.yawind node2)%Z
  then false
  else true.

Definition calc_index (node : Node.t) (P : Para.t) : Z :=
  ((Node.yawind node - Para.minyaw P) * Para.xw P * Para.yw P
   + (Node.yind node - Para.miny P) * Para.xw P
   + (Node.xind node - Para.minx P))%Z.

Definition calc_parameters (ox_grid oy_grid : list Z) (xyreso yawreso : R) : res Para.t :=
  minx ← Py.min ox_grid;
  miny ← Py.min oy_grid;
  maxx ← Py.max ox_grid;
  maxy ← Py.max oy_grid;
  let xw := (maxx - minx)%Z in
  let yw := (maxy - miny)%Z in
  q ← Py.div (- C.PI) yawreso;
  let minyaw := (Py.round q - 1)%Z in
  q' ← Py.div C.PI yawreso;
  let maxyaw := Py.round q' in
  let yaww := (maxyaw - minyaw)%Z in
  let ox := List.map (fun i => IZR i * xyreso) ox_grid in
  let oy := List.map (fun i => IZR i * xyreso) oy_grid in
  let kdtree : KDTree.t := zip ox oy in
  Ok (Para.mk minx miny minyaw maxx maxy maxyaw xw yw yaww xyreso yawreso ox oy kdtree).

Definition is_index_ok (xind yind : Z) (xlist ylist yawlist : list R) (P : Para.t)
  : res bool :=
  if (xind <=? Para.minx P)%Z || (xind >=? Para.maxx P)%Z
     || (yind <=? Para.miny P)%Z || (yind >=? Para.maxy P)%Z
  then Ok false
  else
    let ind := Py.range_step (length xlist) C.COLLISION_CHECK_STEP in
    nodex ← Py.gets xlist ind;
    nodey ← Py.gets ylist ind;
    nodeyaw ← Py.gets yawlist ind;
    hit ← is_collision nodex nodey nodeyaw P;
    if hit : bool then Ok false else Ok true.

(** The samples [calc_next_node] appends: each one advances the previous
    pose by [MOVE_STEP] under the primitive [(u, d)]. *)
Fixpoint rollout (n : nat) (u d x y yaw : R) : list (R * R * R) :=
  match n with
  | O => []
  | S n' =>
      let x' := x + d * C.MOVE_STEP * cos yaw in
      let y' := y + d * C.MOVE_STEP * sin yaw in
      let yaw' := rs.pi_2_pi (yaw + d * C.MOVE_STEP * u) in
      (x', y', yaw') :: rollout n' u d x' y' yaw'
  end.

(** [None] stands for the [None] the function returns for a rejected
    successor. *)
Definition calc_next_node (n_curr : Node.t) (c_id : Z) (u d : R) (P : Para.t)
  : res (option Node.t) :=
  let step := C.XY_RESO * 2 in
  let nlist := Py.ceil (step / C.MOVE_STEP) in
  x0 ← Py.last (Node.x n_curr);
  yaw0 ← Py.last (Node.yaw n_curr);
  y0 ← Py.last (Node.y n_curr);
  let samples := rollout (S (Z.to_nat (nlist - 1))) u d x0 y0 yaw0 in
  let xlist := List.map (fun s => s.1.1) samples in
  let ylist := List.map (fun s => s.1.2) samples in
  let yawlist := List.map (fun s => s.2) samples in
  xl ← Py.last xlist;
  xind ← grid_index (Para.xyreso P) xl;
  yl ← Py.last ylist;
  yind ← grid_index (Para.xyreso P) yl;
  yawl ← Py.last yawlist;
  yawind ← grid_index (Para.yawreso P) yawl;
  ok ← is_index_ok xind yind xlist ylist yawlist P;
  if negb ok then Ok None
  else
    let cost := 0 in
    let '(direction, cost) :=
      if bool_decide (0 < d) then (1%Z, cost + Rabs step)
      else ((-1)%Z, cost + Rabs step * C.BACKWARD_COST) in
    let cost :=
      if negb (direction =? Node.direction n_curr)%Z   (* switch back penalty *)
      then cost + C.GEAR_COST else cost in
    let cost := cost + C.ANGULAR_VELOCITY_CHANGE_COST * Rabs (Node.steer n_curr - u) in
    let cost := Node.cost n_curr + cost in
    let directions := List.map (fun _ => direction) xlist in
    Ok (Some (Node.mk xind yind yawind direction xlist ylist yawlist directions u cost c_id)).

(** ** The hybrid search *)

Module Search.

(** The variables the [while] loop of [hybrid_astar_planning] updates. *)
Record state : Type := mk {
  open_set : gmap Z Node.t;
  closed_set : gmap Z Node.t;
  qp : QueuePrior.t Z
}.

(** How one pass through the loop body ends. *)
Inductive outcome : Type :=
| ReturnNone                                       (* [return None] *)
| Break (closed_set : gmap Z Node.t) (fnode : Node.t)   (* [break] *)
| Continue (st : state).

End Search.

Section Planner.

(** [rs.calc_all_paths(sx, sy, syaw, gx, gy, gyaw, maxc, step_size)]: the
    Reeds-Shepp generator is an external collaborator; the planner is
    parametric in it. *)
Variable calc_all_paths : R -> R -> R -> R -> R -> R -> R -> R -> list RSPath.t.

(** The [while not pq.empty()] loop of [analystic_expantion]; the queue holds
    the positions of the candidate paths in [paths]. *)
Fixpoint first_collision_free (n : nat) (paths : list RSPath.t)
    (pq : QueuePrior.t nat) (P : Para.t) : res (option RSPath.t) :=
  if QueuePrior.empty pq then Ok None
  else
    match n with
    | O => Raise OutOfFuel
    | S n' =>
        '(k, pq') ← QueuePrior.get pq;
        path ← Py.get paths k;
        let ind := Py.range_step (length (RSPath.x path)) C.COLLISION_CHECK_STEP in
        pathx ← Py.gets (RSPath.x path) ind;
        pathy ← Py.gets (RSPath.y path) ind;
        pathyaw ← Py.gets (RSPath.yaw path) ind;
        hit ← is_collision pathx pathy pathyaw P;
        if hit : bool then first_collision_free n' paths pq' P else Ok (Some path)
    end.

Definition analystic_expantion (node ngoal : Node.t) (P : Para.t) : res (option RSPath.t) :=
  sx ← Py.last (Node.x node);
  sy ← Py.last (Node.y node);
  syaw ← Py.last (Node.yaw node);
  gx ← Py.last (Node.x ngoal);
  gy ← Py.last (Node.y ngoal);
  gyaw ← Py.last (Node.yaw ngoal);
  (* Find all possible reeds-shepp paths between current and goal node *)
  let paths := calc_all_paths sx sy syaw gx gy gyaw C.MAX_CURVATURE_RADIUS C.MOVE_STEP in
  match paths with
  | [] => Ok None
  | _ =>
      (* Find path with lowest cost considering non-holonomic constraints *)
      let pq :=
        List.fold_left (fun pq k =>
          QueuePrior.put pq k
            (Float.fin (calc_rs_path_cost (List.nth k paths (RSPath.mk [] [] [] [] [])))))
          (seq 0 (length paths)) QueuePrior.new in
      (* Find first path in priority queue that is collision free *)
      first_collision_free (length pq) paths pq P
  end.

(** [None] stands for the pair [(False, None)], [Some fpath] for
    [(True, fpath)]. *)
Definition update_node_with_analystic_expantion (n_curr ngoal : Node.t) (P : Para.t)
  : res (option Node.t) :=
  path ← analystic_expantion n_curr ngoal P;   (* rs path: n -> ngoal *)
  match path with
  | None => Ok None
  | Some path =>
      let fx := Py.interior (RSPath.x path) in
      let fy := Py.interior (RSPath.y path) in
      let fyaw := Py.interior (RSPath.yaw path) in
      let fd := Py.interior (RSPath.directions path) in
      let fcost := Node.cost n_curr + calc_rs_path_cost path in
      let fpind := calc_index n_curr P in
      let fsteer := 0 in
      Ok (Some (Node.mk (Node.xind n_curr) (Node.yind n_curr) (Node.yawind n_curr)
                        (Node.direction n_curr) fx fy fyaw fd fsteer fcost fpind))
  end.

(** One round of the inner [for] loop, for the primitive [(u, d)]. *)
Definition expand (P : Para.t) (hmap : list (list Float.t))
    (closed_set : gmap Z Node.t) (ind : Z) (n_curr : Node.t)
    (oq : gmap Z Node.t * QueuePrior.t Z) (ud : R * R)
  : res (gmap Z Node.t * QueuePrior.t Z) :=
  node ← calc_next_node n_curr ind ud.1 ud.2 P;
  match node with
  | None => Ok oq
  | Some node =>
      let node_ind := calc_index node P in
      match closed_set !! node_ind with
      | Some _ => Ok oq
      | None =>
          match oq.1 !! node_ind with
          | None =>
              f ← calc_hybrid_cost node hmap P;
              Ok (<[node_ind := node]> oq.1, QueuePrior.put oq.2 node_ind f)
          | Some o =>
              if bool_decide (Node.cost node < Node.cost o)
              then
                f ← calc_hybrid_cost node hmap P;
                Ok (<[node_ind := node]> oq.1, QueuePrior.put oq.2 node_ind f)
              else Ok oq
          end
      end
  end.

Fixpoint expand_all (P : Para.t) (hmap : list (list Float.t))
    (closed_set : gmap Z Node.t) (ind : Z) (n_curr : Node.t)
    (oq : gmap Z Node.t * QueuePrior.t Z) (motion : list (R * R))
  : res (gmap Z Node.t * QueuePrior.t Z) :=
  match motion with
  | [] => Ok oq
  | ud :: motion' =>
      oq' ← expand P hmap closed_set ind n_curr oq ud;
      expand_all P hmap closed_set ind n_curr oq' motion'
  end.

(** One pass through the body of the [while] loop. *)
Definition iteration (P : Para.t) (hmap : list (list Float.t)) (ngoal : Node.t)
    (motion : list (R * R)) (st : Search.state) : res Search.outcome :=
  if bool_decide (Search.open_set st = ∅) then Ok Search.ReturnNone
  else
    '(ind, qp) ← QueuePrior.get (Search.qp st);
    n_curr ← Py.item (Search.open_set st !! ind);
    let closed_set := <[ind := n_curr]> (Search.closed_set st) in
    let open_set := delete ind (Search.open_set st) in
    update ← update_node_with_analystic_expantion n_curr ngoal P;
    match update with
    | Some fpath => Ok (Search.Break closed_set fpath)
    | None =>
        oq ← expand_all P hmap closed_set ind n_curr (open_set, qp) motion;
        Ok (Search.Continue (Search.mk oq.1 closed_set oq.2))
    end.

(** The [while True] loop: [None] when it is left by [return None], the
    closed set and the final node when it is left by [break]. *)
Fixpoint search (fuel : nat) (P : Para.t) (hmap : list (list Float.t)) (ngoal : Node.t)
    (motion : list (R * R)) (st : Search.state)
  : res (option (gmap Z Node.t * Node.t)) :=
  match fuel with
  | O => Raise OutOfFuel
  | S fuel' =>
      out ← iteration P hmap ngoal motion st;
      match out with
      | Search.ReturnNone => Ok None
      | Search.Break closed_set fnode => Ok (Some (closed_set, fnode))
      | Search.Continue st' => search fuel' P hmap ngoal motion st'
      end
  end.

(** The [while True] loop of [extract_path]: the samples are accumulated in
    reverse order along the parent links. *)
Fixpoint extract_walk (fuel : nat) (closed : gmap Z Node.t) (nstart node : Node.t)
    (acc : list R * list R * list R * list Z * R)
  : res (list R * list R * list R * list Z * R) :=
  match fuel with
  | O => Raise OutOfFuel
  | S fuel' =>
      let '(rx, ry, ryaw, direc, cost) := acc in
      let rx := rx ++ rev (Node.x node) in
      let ry := ry ++ rev (Node.y node) in
      let ryaw := ryaw ++ rev (Node.yaw node) in
      let direc := direc ++ rev (Node.directions node) in
      let cost := cost + Node.cost node in
      if is_same_grid node nstart then Ok (rx, ry, ryaw, direc, cost)
      else
        node' ← Py.item (closed !! Node.pind node);
        extract_walk fuel' closed nstart node' (rx, ry, ryaw, direc, cost)
  end.

Definition extract_path (fuel : nat) (closed : gmap Z Node.t) (ngoal nstart : Node.t)
  : res Path.t :=
  '(rx, ry, ryaw, direc, cost) ← extract_walk fuel closed nstart ngoal ([], [], [], [], 0);
  let rx := rev rx in
  let ry := rev ry in
  let ryaw := rev ryaw in
  let direc := rev direc in
  d1 ← Py.get direc 1;
  direc ← Py.setz direc 0 d1;
  Ok (Path.mk rx ry ryaw direc cost).

(** Everything [hybrid_astar_planning] sets up before its loop. *)
Record setup : Type := mk_setup {
  nstart : Node.t;
  ngoal : Node.t;
  P : Para.t;
  hmap : list (list Float.t);
  motion : list (R * R);
  initial : Search.state
}.

Definition prepare (fuel : nat) (sx sy syaw gx gy gyaw : R) (ox_grid oy_grid : list Z)
    (xyreso yawreso radius : R) : res setup :=
  sxr ← grid_index xyreso sx;
  syr ← grid_index xyreso sy;
  gxr ← grid_index xyreso gx;
  gyr ← grid_index xyreso gy;
  syawr ← grid_index yawreso (rs.pi_2_pi syaw);
  gyawr ← grid_index yawreso (rs.pi_2_pi gyaw);
  let nstart := Node.mk sxr syr syawr 1 [sx] [sy] [syaw] [1%Z] 0 0 (-1) in
  let ngoal := Node.mk gxr gyr gyawr 1 [gx] [gy] [gyaw] [1%Z] 0 0 (-1) in
  P ← calc_parameters ox_grid oy_grid xyreso yawreso;
  hmap ← calc_holonomic_heuristic_with_obstacle fuel ngoal P radius;
  let '(steer_set, direc_set) := calc_motion_set in
  let open_set : gmap Z Node.t := <[calc_index nstart P := nstart]> ∅ in
  f ← calc_hybrid_cost nstart hmap P;
  let qp := QueuePrior.put QueuePrior.new (calc_index nstart P) f in
  Ok (mk_setup nstart ngoal P hmap (zip steer_set direc_set) (Search.mk open_set ∅ qp)).

Definition hybrid_astar_planning (fuel : nat) (sx sy syaw gx gy gyaw : R)
    (ox_grid oy_grid : list Z) (xyreso yawreso radius : R) : res (option Path.t) :=
  s ← prepare fuel sx sy syaw gx gy gyaw ox_grid oy_grid xyreso yawreso radius;
  found ← search fuel (P s) (hmap s) (ngoal s) (motion s) (initial s);
  match found with
  | None => Ok None
  | Some (closed_set, fnode) =>
      path ← extract_path fuel closed_set fnode (nstart s);
      Ok (Some path)
  end.

End Planner.

(** * Properties *)

(** ** The outcome monad *)

Lemma bind_Ok {A B : Type} (m : res A) (k : A -> res B) (b : B) :
  m ≫= k = Ok b -> exists a, m = Ok a /\ k a = Ok b.
Proof. destruct m as [a|e]; simpl; [eauto | discriminate]. Qed.

Lemma bind_Raise {A B : Type} (m : res A) (k : A -> res B) (e : exn) :
  m ≫= k = Raise e -> m = Raise e \/ exists a, m = Ok a /\ k a = Raise e.
Proof. destruct m as [a|e']; simpl; [eauto | intros [= ->]; auto]. Qed.

(** Splits a hypothesis [H : (x ← m; k) = Ok b] into the outcome of [m] and
    the rest. *)
Ltac bind_ok H :=
  let a := fresh "a" in
  let Ha := fresh "E" in
  apply bind_Ok in H as (a & Ha & H).

Ltac decide_true := rewrite bool_decide_eq_true_2 by (simpl; lra).
Ltac decide_false := rewrite bool_decide_eq_false_2 by (simpl; lra).

(** ** Rounding *)

Lemma floor_IZR (n : Z) : Py.floor (IZR n) = n.
Proof.
  unfold Py.floor.
  assert (up (IZR n) = (n + 1)%Z) as ->; [| lia].
  symmetry. apply tech_up; rewrite plus_IZR; lra.
Qed.

Lemma floor_spec (a : R) : (IZR (Py.floor a) <= a < IZR (Py.floor a) + 1)%R.
Proof.
  unfold Py.floor. rewrite minus_IZR.
  destruct (archimed a). lra.
Qed.

Lemma floor_unique (a : R) (n : Z) : (IZR n <= a < IZR n + 1)%R -> Py.floor a = n.
Proof.
  intros H. unfold Py.floor.
  assert (up a = (n + 1)%Z) as ->; [| lia].
  symmetry. apply tech_up; rewrite plus_IZR; lra.
Qed.

Lemma round_IZR (n : Z) : Py.round (IZR n) = n.
Proof.
  unfold Py.round. rewrite floor_IZR.
  destruct (Rlt_dec _ _) as [|Hn]; [reflexivity | exfalso; apply Hn; lra].
Qed.

Lemma round_near (a : R) : (Rabs (IZR (Py.round a) - a) <= 1 / 2)%R.
Proof.
  unfold Py.round. pose proof (floor_spec a) as H.
  destruct (Rlt_dec _ _) as [H1|H1].
  - apply Rabs_le. lra.
  - destruct (Rlt_dec _ _) as [H2|H2].
    + rewrite plus_IZR. apply Rabs_le. lra.
    + destruct (Z.even _); [| rewrite plus_IZR]; apply Rabs_le; lra.
Qed.

Lemma round_below_half (a : R) (n : Z) :
  (IZR n <= a < IZR n + 1 / 2)%R -> Py.round a = n.
Proof.
  intros H. unfold Py.round.
  rewrite (floor_unique a n) by lra.
  destruct (Rlt_dec _ _) as [|Hn]; [reflexivity | exfalso; apply Hn; lra].
Qed.

Lemma ceil_IZR (n : Z) : Py.ceil (IZR n) = n.
Proof. unfold Py.ceil. rewrite <- opp_IZR, floor_IZR. lia. Qed.

Lemma div_Ok (a b : R) : b <> 0%R -> Py.div a b = Ok (a / b)%R.
Proof. intros H. unfold Py.div. destruct (Req_dec_T b 0); [contradiction | reflexivity]. Qed.

Lemma div_zero (a : R) : Py.div a 0 = Raise ZeroDivisionError.
Proof. unfold Py.div. destruct (Req_dec_T 0 0); [reflexivity | contradiction]. Qed.

Lemma div_inv (a b q : R) : Py.div a b = Ok q -> b <> 0%R /\ q = (a / b)%R.
Proof. unfold Py.div. destruct (Req_dec_T b 0); [discriminate | intros [= <-]; auto]. Qed.

Lemma div_Raise (a b : R) (e : exn) : Py.div a b = Raise e -> e = ZeroDivisionError /\ b = 0%R.
Proof. unfold Py.div. destruct (Req_dec_T b 0); [intros [= <-]; auto | discriminate]. Qed.

(** ** Angle wrapping *)

Lemma pi_2_pi_range (theta : R) : (- PI < rs.pi_2_pi theta <= PI)%R.
Proof.
  unfold rs.pi_2_pi. pose proof PI_RGT_0 as Hpi.
  destruct (archimed ((PI - theta) / (2 * PI))) as [H1 H2].
  set (k := up _) in *. rewrite minus_IZR.
  assert (2 * PI * ((PI - theta) / (2 * PI)) = PI - theta)%R as E by (field; lra).
  assert (0 < 2 * PI)%R as Hp by lra.
  split.
  - apply Rgt_lt in H1. apply (Rmult_lt_compat_l (2 * PI)) in H1; [| lra]. lra.
  - apply (Rmult_le_compat_l (2 * PI)) in H2; [| lra]. lra.
Qed.

Lemma pi_2_pi_id (theta : R) : (- PI < theta <= PI)%R -> rs.pi_2_pi theta = theta.
Proof.
  intros H. unfold rs.pi_2_pi. pose proof PI_RGT_0 as Hpi.
  assert (up ((PI - theta) / (2 * PI)) = 1%Z) as ->.
  { assert ((PI - theta) / (2 * PI) * (2 * PI) = PI - theta)%R as E by (field; lra).
    symmetry. apply tech_up.
    - apply (Rmult_lt_reg_r (2 * PI)); [lra |]. rewrite E. lra.
    - apply (Rmult_le_reg_r (2 * PI)); [lra |].
      rewrite Rmult_plus_distr_r, E. lra. }
  rewrite Z.sub_diag. ring.
Qed.

(** ** Reeds-Shepp path cost *)

(** What the first loop of [calc_rs_path_cost] adds up: every segment of
    non-negative length counts for 1, whatever its length. *)
Definition distance_cost (lengths : list R) : R :=
  List.fold_right (fun lr acc =>
    (if bool_decide (0 <= lr) then 1 else Rabs lr * C.BACKWARD_COST) + acc) 0 lengths.

Lemma distance_loop (lengths : list R) (cost : R) :
  List.fold_left (fun cost lr =>
      if bool_decide (0 <= lr) then cost + 1
      else cost + Rabs lr * C.BACKWARD_COST) lengths cost
  = cost + distance_cost lengths.
Proof.
  revert cost. induction lengths as [|lr lengths IH]; intros cost; simpl.
  - lra.
  - rewrite IH. case_bool_decide; lra.
Qed.

(** What the second loop adds up: [GEAR_COST] for every pair of consecutive
    segments of opposite sign. *)
Fixpoint gear_cost (lengths : list R) : R :=
  match lengths with
  | a :: (b :: _) as rest =>
      (if bool_decide (a * b < 0) then C.GEAR_COST else 0) + gear_cost rest
  | _ => 0
  end.

Lemma gear_loop (pre lengths : list R) (cost : R) :
  List.fold_left (fun cost i =>
      if bool_decide (List.nth i (pre ++ lengths) 0 * List.nth (i + 1) (pre ++ lengths) 0 < 0)
      then cost + C.GEAR_COST
      else cost) (seq (length pre) (length lengths - 1)) cost
  = cost + gear_cost lengths.
Proof.
  revert pre cost. induction lengths as [|a [|b rest] IH]; intros pre cost.
  - simpl. lra.
  - simpl. lra.
  - replace (length (a :: b :: rest) - 1)%nat with (S (length (b :: rest) - 1))
      by (simpl; lia).
    cbn [seq List.fold_left].
    replace (pre ++ a :: b :: rest) with ((pre ++ [a]) ++ b :: rest)
      by (rewrite <- List.app_assoc; reflexivity).
    replace (S (length pre)) with (length (pre ++ [a]))
      by (rewrite List.length_app; simpl; lia).
    rewrite IH.
    replace (List.nth (length pre) ((pre ++ [a]) ++ b :: rest) 0) with a.
    2:{ rewrite <- List.app_assoc. rewrite List.app_nth2 by lia.
        rewrite Nat.sub_diag. reflexivity. }
    replace (List.nth (length pre + 1) ((pre ++ [a]) ++ b :: rest) 0) with b.
    2:{ rewrite List.app_nth2 by (rewrite List.length_app; simpl; lia).
        rewrite List.length_app. simpl.
        replace (length pre + 1 - (length pre + 1))%nat with 0%nat by lia. reflexivity. }
    cbn [gear_cost]. case_bool_decide; lra.
Qed.

(** The value [calc_rs_path_cost] computes. *)
Lemma calc_rs_path_cost_value (rspath : RSPath.t) :
  calc_rs_path_cost rspath
  = distance_cost (RSPath.lengths rspath) + gear_cost (RSPath.lengths rspath).
Proof.
  unfold calc_rs_path_cost. rewrite distance_loop.
  rewrite (gear_loop [] (RSPath.lengths rspath)). lra.
Qed.

(** By how much the cost of the specification exceeds the computed one:
    every forward segment contributes its length minus 1. *)
Definition forward_excess (lengths : list R) : R :=
  List.fold_right (fun lr acc => (if bool_decide (0 <= lr) then Rabs lr - 1 else 0) + acc)
                  0 lengths.

Lemma rs_cost_spec_value (rspath : RSPath.t) :
  rs_cost_spec (RSPath.lengths rspath)
  = calc_rs_path_cost rspath + forward_excess (RSPath.lengths rspath).
Proof.
  rewrite calc_rs_path_cost_value.
  induction (RSPath.lengths rspath) as [|a [|b rest] IH].
  - simpl. lra.
  - simpl. case_bool_decide; lra.
  - cbn [rs_cost_spec distance_cost forward_excess gear_cost List.fold_right] in *.
    case_bool_decide; case_bool_decide; lra.
Qed.

(** A path of forward segments only costs the number of its segments, not
    their length. *)
Lemma calc_rs_path_cost_single (len : R) (x y yaw : list R) (directions : list Z) :
  0 <= len -> calc_rs_path_cost (RSPath.mk x y yaw directions [len]) = 1.
Proof.
  intros H. unfold calc_rs_path_cost. simpl.
  rewrite bool_decide_eq_true_2 by assumption. lra.
Qed.

(** C1 (the code departs from the claim).  On the path made of one forward
    segment of length 2, [calc_rs_path_cost] returns 1, whereas the sum of
    absolute segment lengths the claim describes is 2. *)
Theorem calc_rs_path_cost_ignores_forward_length :
  calc_rs_path_cost (RSPath.mk [] [] [] [] [2]) = 1
  /\ rs_cost_spec [2] = 2
  /\ calc_rs_path_cost (RSPath.mk [] [] [] [] [2]) <> rs_cost_spec [2].
Proof.
  assert (calc_rs_path_cost (RSPath.mk [] [] [] [] [2]) = 1) as E1
    by (apply calc_rs_path_cost_single; lra).
  assert (rs_cost_spec [2] = 2) as E2.
  { simpl. decide_true. rewrite Rabs_pos_eq by lra. lra. }
  rewrite E1, E2. repeat split; lra.
Qed.

(** ** Tractor-trailer model *)

Lemma size_check_true (m : casadi.matrix) (n : nat) :
  casadi.size m = (n, 1%nat) ->
  negb (bool_decide (casadi.size m = (n, 1%nat))) = false.
Proof. intros H. rewrite bool_decide_eq_true_2 by assumption. reflexivity. Qed.

Lemma size_check_false (m : casadi.matrix) (n : nat) :
  casadi.size m <> (n, 1%nat) ->
  negb (bool_decide (casadi.size m = (n, 1%nat))) = true.
Proof. intros H. rewrite bool_decide_eq_false_2 by assumption. reflexivity. Qed.

Lemma vertcat3_ext (a b c a' b' c' : R) :
  a = a' -> b = b' -> c = c' ->
  Ok (casadi.vertcat [a; b; c]) = Ok (casadi.vertcat [a'; b'; c']).
Proof. intros -> -> ->. reflexivity. Qed.

(** Over the reals the round trip moves the tractor by [(lb - lf)] times the
    difference of the two headings' direction vectors; the heading itself is
    recovered. *)
Lemma tractor_roundtrip_value (lb lf : R) (trailer_based : bool) (x1 y1 theta1 gamma : R) :
  TractorTrailerModel.tractor_roundtrip
    (TractorTrailerModel.mk 4 2 lb lf trailer_based) x1 y1 theta1 gamma
  = Ok (casadi.vertcat
          [x1 - lf * cos theta1 - lb * cos (theta1 + gamma)
             + lf * cos (theta1 + gamma) + lb * cos (theta1 + gamma - gamma);
           y1 - lf * sin theta1 - lb * sin (theta1 + gamma)
             + lf * sin (theta1 + gamma) + lb * sin (theta1 + gamma - gamma);
           theta1 + gamma - gamma]).
Proof. reflexivity. Qed.

(** With equal lengths the two conversions are inverse to each other. *)
Lemma tractor_roundtrip_equal_lengths (l : R) (trailer_based : bool) (x1 y1 theta1 gamma : R) :
  TractorTrailerModel.tractor_roundtrip
    (TractorTrailerModel.mk 4 2 l l trailer_based) x1 y1 theta1 gamma
  = Ok (casadi.vertcat [x1; y1; theta1]).
Proof.
  rewrite tractor_roundtrip_value.
  replace (theta1 + gamma - gamma) with theta1 by lra.
  apply vertcat3_ext; lra.
Qed.

(** C10 (the code departs from the claim).  For a tractor at the origin with
    heading 0, hitch angle [PI], [length_front = 2] and [length_back = 1],
    converting to the trailer pose and back yields the tractor pose
    [(-2, 0, 0)], not the original [(0, 0, 0)]. *)
Theorem tractor_roundtrip_not_identity :
  TractorTrailerModel.tractor_roundtrip (TractorTrailerModel.mk 4 2 1 2 false) 0 0 0 PI
  = Ok (casadi.vertcat [-2; 0; 0])
  /\ casadi.vertcat [-2; 0; 0] <> casadi.vertcat [0; 0; 0].
Proof.
  split.
  - rewrite tractor_roundtrip_value.
    replace (0 + PI - PI) with 0 by lra. rewrite Rplus_0_l.
    rewrite cos_0, sin_0, cos_PI, sin_PI.
    apply vertcat3_ext; lra.
  - intros [= H]. lra.
Qed.

(** The sizes [dynamics] compares against the configured model. *)
Definition size_mismatch (self : TractorTrailerModel.t) (state input : casadi.matrix) : Prop :=
  casadi.size state <> (TractorTrailerModel.nx self, 1%nat)
  \/ casadi.size input <> (TractorTrailerModel.nu self, 1%nat).

Definition raises {A : Type} (r : res A) : Prop := exists e, r = Raise e.

Lemma dynamics_mismatch (self : TractorTrailerModel.t) (state input : casadi.matrix) :
  size_mismatch self state input ->
  TractorTrailerModel.dynamics self state input = Raise Exception.
Proof.
  intros H. unfold TractorTrailerModel.dynamics.
  destruct (decide (casadi.size state = (TractorTrailerModel.nx self, 1%nat))) as [Hs|Hs].
  - rewrite (size_check_true _ _ Hs).
    destruct H as [H|H]; [contradiction |].
    rewrite (size_check_false _ _ H). reflexivity.
  - rewrite (size_check_false _ _ Hs). reflexivity.
Qed.

Ltac split_rows :=
  repeat match goal with
         | |- context [match ?l with [] => _ | _ :: _ => _ end] => destruct l; simpl
         end.

Lemma dynamics_Exception (self : TractorTrailerModel.t) (state input : casadi.matrix) :
  TractorTrailerModel.dynamics self state input = Raise Exception ->
  size_mismatch self state input.
Proof.
  unfold size_mismatch.
  destruct (decide (casadi.size state = (TractorTrailerModel.nx self, 1%nat))) as [Hs|Hs]; [| auto].
  destruct (decide (casadi.size input = (TractorTrailerModel.nu self, 1%nat))) as [Hi|Hi]; [| auto].
  unfold TractorTrailerModel.dynamics.
  rewrite (size_check_true _ _ Hs), (size_check_true _ _ Hi).
  unfold casadi.getitem.
  destruct (casadi.entries input !! 0%nat); simpl; [| discriminate].
  destruct (casadi.entries input !! 1%nat); simpl; [| discriminate].
  unfold casadi.vertsplit, Py.div.
  destruct (casadi.size1 state =? 6)%nat; simpl.
  { split_rows; try discriminate.
    destruct (Req_dec_T _ _); simpl; discriminate. }
  destruct ((casadi.size1 state =? 4)%nat); simpl; [| discriminate].
  destruct (TractorTrailerModel._trailer_based_model self); simpl;
    split_rows; try discriminate;
    destruct (Req_dec_T _ _); simpl; discriminate.
Qed.

Lemma dynamics_returns (self : TractorTrailerModel.t) (state input : casadi.matrix) :
  casadi.wf state -> casadi.wf input ->
  ~ size_mismatch self state input ->
  (2 <= TractorTrailerModel.nu self)%nat ->
  (casadi.size1 state = 4%nat \/ casadi.size1 state = 6%nat ->
   TractorTrailerModel._lf self <> 0) ->
  exists out, TractorTrailerModel.dynamics self state input = Ok out.
Proof.
  intros Ws Wi Hm Hnu Hlf. unfold size_mismatch in Hm.
  destruct (decide (casadi.size state = (TractorTrailerModel.nx self, 1%nat))) as [Hs|Hs];
    [| exfalso; auto].
  destruct (decide (casadi.size input = (TractorTrailerModel.nu self, 1%nat))) as [Hi|Hi];
    [| exfalso; auto].
  unfold TractorTrailerModel.dynamics.
  rewrite (size_check_true _ _ Hs), (size_check_true _ _ Hi).
  unfold casadi.wf in Ws, Wi. unfold casadi.size in Hs, Hi.
  injection Hs as Hs1 Hs2. injection Hi as Hi1 Hi2.
  rewrite Hs2 in Ws. rewrite Hi1, Hi2 in Wi.
  unfold casadi.getitem, casadi.vertsplit.
  destruct (casadi.entries input) as [|v1 [|w1 rest]]; simpl in Wi; [lia | lia |].
  simpl.
  destruct (casadi.size1 state =? 6)%nat eqn:E6.
  { apply Nat.eqb_eq in E6. rewrite E6 in Ws.
    destruct (casadi.entries state) as [|a [|b [|c [|d [|e [|f [|g r]]]]]]];
      simpl in Ws; try lia.
    rewrite !div_Ok by auto. simpl. eauto. }
  destruct (casadi.size1 state =? 4)%nat eqn:E4; simpl; [| eauto].
  apply Nat.eqb_eq in E4. rewrite E4 in Ws.
  destruct (casadi.entries state) as [|a [|b [|c [|d [|e r]]]]]; simpl in Ws; try lia.
  destruct (TractorTrailerModel._trailer_based_model self); simpl;
    rewrite !div_Ok by auto; simpl; eauto.
Qed.

(** C9, as amended.  [dynamics] raises its own [Exception] exactly when the
    state's size differs from [(nx, 1)] or the input's size from [(nu, 1)].
    For correctly sized state and input it returns, provided the input has
    at least two rows and [length_front] is not zero when the state has 4 or
    6 rows. *)
Theorem dynamics_size_check (self : TractorTrailerModel.t) (state input : casadi.matrix) :
  casadi.wf state -> casadi.wf input ->
  (TractorTrailerModel.dynamics self state input = Raise Exception
   <-> size_mismatch self state input)
  /\ (~ size_mismatch self state input ->
      (2 <= TractorTrailerModel.nu self)%nat ->
      (casadi.size1 state = 4%nat \/ casadi.size1 state = 6%nat ->
       TractorTrailerModel._lf self <> 0) ->
      exists out, TractorTrailerModel.dynamics self state input = Ok out).
Proof.
  intros Ws Wi. split.
  - split; [apply dynamics_Exception | apply dynamics_mismatch].
  - apply dynamics_returns; assumption.
Qed.

Definition six_state_model : TractorTrailerModel.t := TractorTrailerModel.mk 6 2 1 2 false.

Lemma dynamics_size_check_witness :
  casadi.wf (casadi.mk 6 1 [0; 0; 0; 0; 0; 0]) /\ casadi.wf (casadi.mk 2 1 [1; 0]) /\
  ((TractorTrailerModel.dynamics six_state_model (casadi.mk 6 1 [0; 0; 0; 0; 0; 0])
      (casadi.mk 2 1 [1; 0]) = Raise Exception
    <-> size_mismatch six_state_model (casadi.mk 6 1 [0; 0; 0; 0; 0; 0]) (casadi.mk 2 1 [1; 0]))
   /\ (~ size_mismatch six_state_model (casadi.mk 6 1 [0; 0; 0; 0; 0; 0]) (casadi.mk 2 1 [1; 0]) ->
       (2 <= TractorTrailerModel.nu six_state_model)%nat ->
       (casadi.size1 (casadi.mk 6 1 [0; 0; 0; 0; 0; 0]) = 4%nat
        \/ casadi.size1 (casadi.mk 6 1 [0; 0; 0; 0; 0; 0]) = 6%nat ->
        TractorTrailerModel._lf six_state_model <> 0) ->
       exists out, TractorTrailerModel.dynamics six_state_model
                     (casadi.mk 6 1 [0; 0; 0; 0; 0; 0]) (casadi.mk 2 1 [1; 0]) = Ok out)).
Proof.
  assert (casadi.wf (casadi.mk 6 1 [0; 0; 0; 0; 0; 0])) as Ws by reflexivity.
  assert (casadi.wf (casadi.mk 2 1 [1; 0])) as Wi by reflexivity.
  split; [exact Ws |]. split; [exact Wi |].
  exact (dynamics_size_check six_state_model _ _ Ws Wi).
Defined.

(** C9, counterexample to the claim as stated.  A six-state model configured
    with [length_front = 0] receives a state of size [(6, 1)] and an input of
    size [(2, 1)]: nothing is mismatched, yet [dynamics] raises
    (a [ZeroDivisionError]). *)
Lemma dynamics_raises_without_mismatch :
  let self := TractorTrailerModel.mk 6 2 1 0 false in
  let state := casadi.mk 6 1 [0; 0; 0; 0; 0; 0] in
  let input := casadi.mk 2 1 [1; 0] in
  TractorTrailerModel.dynamics self state input = Raise ZeroDivisionError
  /\ ~ (raises (TractorTrailerModel.dynamics self state input)
        <-> size_mismatch self state input).
Proof.
  intros self state input.
  assert (TractorTrailerModel.dynamics self state input = Raise ZeroDivisionError) as E.
  { unfold TractorTrailerModel.dynamics.
    rewrite !size_check_true by reflexivity. simpl.
    rewrite div_zero. reflexivity. }
  split; [exact E |].
  intros [H _].
  destruct H as [H|H]; [exists ZeroDivisionError; exact E | |]; apply H; reflexivity.
Qed.

(** ** Collision checker *)

(** The circumscribed radius and the footprint centre used by
    [is_collision]. *)
Definition footprint_radius (P : Para.t) : R :=
  Rmax ((C.RF + C.RB) / 2) (C.W / 2) + Para.xyreso P.

Definition footprint_center (ix iy iyaw : R) : R * R :=
  (ix + (C.RF - C.RB) / 2 * cos iyaw, iy + (C.RF - C.RB) / 2 * sin iyaw).

(** Obstacle [i] is a candidate returned by the radius query around the
    footprint centre of the pose, and its coordinates in the footprint frame
    are within the longitudinal and lateral bounds. *)
Definition obstacle_hits (P : Para.t) (ix iy iyaw : R) (i : nat) : Prop :=
  let r := footprint_radius P in
  let c := footprint_center ix iy iyaw in
  i ∈ KDTree.query_ball_point (Para.kdtree P) c r
  /\ exists oxi oyi,
      Para.ox P !! i = Some oxi /\ Para.oy P !! i = Some oyi
      /\ Rabs ((oxi - c.1) * cos iyaw + (oyi - c.2) * sin iyaw) < r
      /\ Rabs (- (oxi - c.1) * sin iyaw + (oyi - c.2) * cos iyaw) < C.W / 2 + Para.xyreso P.

Lemma query_from_bounds (tree : KDTree.t) (c : R * R) (r : R) (k i : nat) :
  i ∈ KDTree.query_from k tree c r -> (k <= i < k + length tree)%nat.
Proof.
  revert k. induction tree as [|p tree IH]; intros k; simpl.
  - intros H. inversion H.
  - destruct (KDTree.within c r p).
    + rewrite elem_of_cons. intros [-> | H]; [lia |]. apply IH in H. lia.
    + intros H. apply IH in H. lia.
Qed.

Lemma obstacle_scan_spec (P : Para.t) (cx cy r iyaw : R) (ids : list nat) :
  (forall i, i ∈ ids -> (i < length (Para.ox P))%nat /\ (i < length (Para.oy P))%nat) ->
  exists b, obstacle_scan P cx cy r iyaw ids = Ok b
    /\ (b = true <->
        exists i oxi oyi, i ∈ ids
          /\ Para.ox P !! i = Some oxi /\ Para.oy P !! i = Some oyi
          /\ Rabs ((oxi - cx) * cos iyaw + (oyi - cy) * sin iyaw) < r
          /\ Rabs (- (oxi - cx) * sin iyaw + (oyi - cy) * cos iyaw) < C.W / 2 + Para.xyreso P).
Proof.
  induction ids as [|i ids IH]; intros Hv; simpl.
  - exists false. split; [reflexivity |]. split; [discriminate |].
    intros (i & ? & ? & H & _). inversion H.
  - destruct (Hv i) as [Hx Hy]; [left |].
    apply lookup_lt_is_Some in Hx as [oxi Hx]. apply lookup_lt_is_Some in Hy as [oyi Hy].
    unfold Py.get. rewrite Hx, Hy. simpl.
    destruct (_ && _) eqn:E.
    + exists true. split; [reflexivity |]. split; [| reflexivity]. intros _.
      apply andb_true_iff in E as [E1 E2].
      apply bool_decide_eq_true_1 in E1, E2.
      exists i, oxi, oyi. repeat split; auto. left.
    + destruct IH as (b & Hb & Hiff); [intros j Hj; apply Hv; right; exact Hj |].
      exists b. split; [exact Hb |]. rewrite Hiff. clear Hiff.
      split.
      * intros (j & a & c & Hj & H). exists j, a, c. split; [right; exact Hj | exact H].
      * intros (j & a & c & Hj & Ha & Hc & H1 & H2).
        apply elem_of_cons in Hj as [-> | Hj].
        -- rewrite Hx in Ha. rewrite Hy in Hc. injection Ha as <-. injection Hc as <-.
           apply andb_false_iff in E as [E | E]; apply bool_decide_eq_false_1 in E;
             contradiction.
        -- exists j, a, c. auto.
Qed.

Lemma is_collision_at_spec (P : Para.t) (ix iy iyaw : R) :
  Para.kdtree P = zip (Para.ox P) (Para.oy P) ->
  exists b, is_collision_at P ix iy iyaw = Ok b
    /\ (b = true <-> exists i, obstacle_hits P ix iy iyaw i).
Proof.
  intros Hk. unfold is_collision_at.
  set (r := Rmax _ _ + _). set (cx := ix + _). set (cy := iy + _).
  destruct (obstacle_scan_spec P cx cy r iyaw
              (KDTree.query_ball_point (Para.kdtree P) (cx, cy) r)) as (b & Hb & Hiff).
  { intros i Hi. apply query_from_bounds in Hi. rewrite Hk, length_zip in Hi. lia. }
  exists b. split; [exact Hb |]. rewrite Hiff. unfold obstacle_hits.
  split.
  - intros (i & a & c & Hi & H). exists i. split; [exact Hi |]. exists a, c. exact H.
  - intros (i & Hi & a & c & H). exists i, a, c. split; [exact Hi | exact H].
Qed.

(** C8.  For a parameter set whose obstacle index is built over its obstacle
    coordinates, [is_collision] returns, and it reports a collision exactly
    when some sampled pose has a candidate obstacle, returned by the radius
    query with the circumscribed radius around the footprint centre, whose
    footprint-frame coordinates satisfy [|dx| < r] and
    [|dy| < W/2 + xyreso]. *)
Theorem is_collision_iff (x y yaw : list R) (P : Para.t) :
  Para.kdtree P = zip (Para.ox P) (Para.oy P) ->
  exists b, is_collision x y yaw P = Ok b
    /\ (b = true <->
        exists k ix iy iyaw i,
          x !! k = Some ix /\ y !! k = Some iy /\ yaw !! k = Some iyaw
          /\ obstacle_hits P ix iy iyaw i).
Proof.
  intros Hk. revert y yaw.
  induction x as [|ix x IH]; intros y yaw.
  - exists false. split; [reflexivity |]. split; [discriminate |].
    intros (k & ? & ? & ? & ? & H & _). rewrite lookup_nil in H. discriminate.
  - destruct y as [|iy y].
    { exists false. split; [reflexivity |]. split; [discriminate |].
      intros (k & ? & ? & ? & ? & _ & H & _). rewrite lookup_nil in H. discriminate. }
    destruct yaw as [|iyaw yaw].
    { exists false. split; [reflexivity |]. split; [discriminate |].
      intros (k & ? & ? & ? & ? & _ & _ & H & _). rewrite lookup_nil in H. discriminate. }
    simpl.
    destruct (is_collision_at_spec P ix iy iyaw Hk) as (hit & Hhit & Hiff).
    rewrite Hhit. simpl. destruct hit.
    + exists true. split; [reflexivity |]. split; [| reflexivity]. intros _.
      destruct Hiff as [Hiff _]. destruct (Hiff eq_refl) as [i Hi].
      exists 0%nat, ix, iy, iyaw, i. auto.
    + destruct (IH y yaw) as (b & Hb & Hrec).
      exists b. split; [exact Hb |]. rewrite Hrec. clear Hrec.
      split.
      * intros (k & a & c & d & i & H). exists (S k), a, c, d, i. exact H.
      * intros (k & a & c & d & i & Ha & Hc & Hd & Hi).
        destruct k as [|k].
        -- simpl in Ha, Hc, Hd. injection Ha as <-. injection Hc as <-. injection Hd as <-.
           destruct Hiff as [_ Hiff]. discriminate Hiff. exists i. exact Hi.
        -- exists k, a, c, d, i. auto.
Qed.

(** A parameter set with one obstacle, at [(1, 0)]. *)
Definition one_obstacle : Para.t :=
  Para.mk (-5) (-5) (-4) 5 5 3 10 10 7 1 1 [1] [0] [(1, 0)].

Lemma is_collision_iff_witness :
  Para.kdtree one_obstacle = zip (Para.ox one_obstacle) (Para.oy one_obstacle)
  /\ exists b, is_collision [0] [0] [0] one_obstacle = Ok b
       /\ (b = true <->
           exists k ix iy iyaw i,
             [0] !! k = Some ix /\ [0] !! k = Some iy /\ [0] !! k = Some iyaw
             /\ obstacle_hits one_obstacle ix iy iyaw i).
Proof.
  split; [reflexivity |].
  exact (is_collision_iff [0] [0] [0] one_obstacle eq_refl).
Defined.

(** Every parameter set [calc_parameters] builds has its obstacle index over
    its obstacle coordinates. *)
Lemma calc_parameters_kdtree (ox_grid oy_grid : list Z) (xyreso yawreso : R) (P : Para.t) :
  calc_parameters ox_grid oy_grid xyreso yawreso = Ok P ->
  Para.kdtree P = zip (Para.ox P) (Para.oy P).
Proof.
  unfold calc_parameters. intros H. repeat bind_ok H. injection H as <-. reflexivity.
Qed.

(** ** Cost of an expansion *)

(** The segment cost of section 4.G of the specification, in its words, for
    a resolution [delta_xy]: the arc length [2 * delta_xy], times
    [BACKWARD_COST] in reverse, plus [GEAR_COST] on a gear switch, plus the
    steering-change penalty. *)
Definition segment_cost_spec (delta_xy : R) (parent : Node.t) (u d : R) : R :=
  let base := 2 * delta_xy in
  let base := if bool_decide (d < 0) then base * C.BACKWARD_COST else base in
  let base := if bool_decide (d <> IZR (Node.direction parent)) then base + C.GEAR_COST else base in
  base + C.ANGULAR_VELOCITY_CHANGE_COST * Rabs (Node.steer parent - u).

Lemma gear_differs (g : Z) (z : Z) :
  negb (g =? z)%Z = bool_decide (IZR g <> IZR z).
Proof.
  destruct (Z.eqb_spec g z) as [->|Hne]; simpl.
  - rewrite bool_decide_eq_false_2; [reflexivity | intros H; apply H; reflexivity].
  - rewrite bool_decide_eq_true_2; [reflexivity | intros H; apply eq_IZR in H; contradiction].
Qed.

(** C5, as amended.  Whenever [calc_next_node] produces a child for a gear
    [d] of [+1] or [-1], the child's cost is the parent's cost plus the
    segment cost taken at the resolution [XY_RESO] of the configuration
    class [C], whatever resolution the parameter set [P] holds: the arc
    length [2 * C.XY_RESO], multiplied by [BACKWARD_COST] when [d < 0],
    increased by [GEAR_COST] when [d] differs from the parent's gear, and
    increased by [ANGULAR_VELOCITY_CHANGE_COST * |parent.u - u|]. *)
Theorem calc_next_node_cost (n_curr : Node.t) (c_id : Z) (u d : R) (P : Para.t)
    (node : Node.t) :
  d = 1 \/ d = -1 ->
  calc_next_node n_curr c_id u d P = Ok (Some node) ->
  Node.cost node = Node.cost n_curr + segment_cost_spec C.XY_RESO n_curr u d.
Proof.
  intros Hd H. unfold calc_next_node in H.
  repeat bind_ok H.
  destruct (negb _); [discriminate |].
  assert (Rabs (C.XY_RESO * 2) = 2 * C.XY_RESO) as Habs.
  { unfold C.XY_RESO. rewrite Rabs_pos_eq; lra. }
  unfold segment_cost_spec.
  destruct Hd as [-> | ->].
  - rewrite bool_decide_eq_true_2 in H by lra.
    cbv beta iota zeta in H.
    apply (f_equal (fun r => match r with Ok (Some n) => Node.cost n | _ => 0 end)) in H.
    cbn [Node.cost] in H. rewrite <- H.
    rewrite (gear_differs 1), Habs.
    rewrite (bool_decide_eq_false_2 (1 < 0)) by lra.
    destruct (bool_decide (1 <> _)); lra.
  - rewrite bool_decide_eq_false_2 in H by lra.
    cbv beta iota zeta in H.
    apply (f_equal (fun r => match r with Ok (Some n) => Node.cost n | _ => 0 end)) in H.
    cbn [Node.cost] in H. rewrite <- H.
    rewrite (gear_differs (-1)), Habs.
    rewrite (bool_decide_eq_true_2 (-1 < 0)) by lra.
    destruct (bool_decide (-1 <> _)); lra.
Qed.

(** A concrete expansion: from the pose [(0, 0, 0)], straight ahead in
    forward gear, on an obstacle-free grid of unit resolution. *)
Definition origin_node : Node.t := Node.mk 0 0 0 1 [0] [0] [0] [1%Z] 0 0 (-1).

Definition free_grid : Para.t := Para.mk (-5) (-5) (-4) 5 5 3 10 10 7 1 1 [] [] [].

Lemma nlist_value : Py.ceil (C.XY_RESO * 2 / C.MOVE_STEP) = 2%Z.
Proof.
  replace (C.XY_RESO * 2 / C.MOVE_STEP) with (IZR 2).
  - apply ceil_IZR.
  - unfold C.XY_RESO, C.MOVE_STEP. field.
Qed.

Lemma rollout_straight (x : R) :
  rollout 2 0 1 x 0 0
  = [(x + C.MOVE_STEP, 0, 0); (x + C.MOVE_STEP + C.MOVE_STEP, 0, 0)].
Proof.
  pose proof PI_RGT_0 as Hpi.
  simpl. rewrite sin_0. replace (0 + 1 * C.MOVE_STEP * 0) with 0 by lra.
  rewrite !pi_2_pi_id by lra. rewrite cos_0, sin_0.
  replace (0 + 1 * C.MOVE_STEP * 0) with 0 by lra.
  replace (x + 1 * C.MOVE_STEP * 1) with (x + C.MOVE_STEP) by lra.
  replace (x + C.MOVE_STEP + 1 * C.MOVE_STEP * 1) with (x + C.MOVE_STEP + C.MOVE_STEP) by lra.
  reflexivity.
Qed.

Lemma grid_index_unit (x : R) (n : Z) :
  IZR n <= x < IZR n + 1 / 2 -> grid_index 1 x = Ok n.
Proof.
  intros H. unfold grid_index. rewrite div_Ok by lra. simpl.
  rewrite (round_below_half _ n); [reflexivity |]. lra.
Qed.

Lemma calc_next_node_straight :
  exists node, calc_next_node origin_node 0 0 1 free_grid = Ok (Some node).
Proof.
  unfold calc_next_node. rewrite nlist_value.
  change (Py.last (Node.x origin_node)) with (Ok 0 : res R).
  change (Py.last (Node.yaw origin_node)) with (Ok 0 : res R).
  change (Py.last (Node.y origin_node)) with (Ok 0 : res R).
  change (S (Z.to_nat (2 - 1))) with 2%nat.
  cbn [mbind res_bind]. rewrite rollout_straight.
  cbn [List.map fst snd Py.last List.last mbind res_bind Para.xyreso Para.yawreso free_grid].
  rewrite (grid_index_unit (0 + C.MOVE_STEP + C.MOVE_STEP) 0) by (unfold C.MOVE_STEP; lra).
  rewrite (grid_index_unit 0 0) by lra.
  cbn [mbind res_bind].
  assert (is_index_ok 0 0 [0 + C.MOVE_STEP; 0 + C.MOVE_STEP + C.MOVE_STEP] [0; 0] [0; 0]
            free_grid = Ok true) as ->.
  { reflexivity. }
  cbn [mbind res_bind negb]. rewrite bool_decide_eq_true_2 by lra.
  eauto.
Qed.

Lemma calc_next_node_cost_witness :
  (1 = 1 \/ 1 = -1)
  /\ exists node, calc_next_node origin_node 0 0 1 free_grid = Ok (Some node)
       /\ Node.cost node
          = Node.cost origin_node + segment_cost_spec C.XY_RESO origin_node 0 1.
Proof.
  split; [left; reflexivity |].
  destruct calc_next_node_straight as [node H].
  exists node. split; [exact H |].
  exact (calc_next_node_cost origin_node 0 0 1 free_grid node (or_introl eq_refl) H).
Defined.

(** ** Containers *)

Lemma heapq_eqb_eq (a b : heapq.entry) : heapq.eqb a b = true <-> a = b.
Proof.
  destruct a as [c k], b as [c' k']. unfold heapq.eqb, heapq.ltb. simpl.
  split.
  - destruct (Rlt_dec c c'), (Rlt_dec c' c); simpl; try discriminate.
    destruct (Z.ltb_spec k k'), (Z.ltb_spec k' k); simpl; try discriminate.
    intros _. f_equal; [lra | lia].
  - intros [= -> ->].
    destruct (Rlt_dec c' c'); [lra |].
    rewrite Z.ltb_irrefl. reflexivity.
Qed.

Lemma heapq_smallest_in (e : heapq.entry) (h : list heapq.entry) :
  heapq.smallest e h ∈ e :: h.
Proof.
  revert e. induction h as [|a h IH]; intros e; simpl.
  - left.
  - destruct (heapq.ltb a e).
    + right. apply IH.
    + specialize (IH e). apply elem_of_cons in IH as [-> | IH]; [left | right; right; exact IH].
Qed.

Lemma heapq_remove_keys (m : heapq.entry) (h : list heapq.entry) :
  NoDup h.*2 -> m ∈ h ->
  NoDup (heapq.remove m h).*2
  /\ forall k, k ∈ (heapq.remove m h).*2 <-> k ∈ h.*2 /\ k <> m.2.
Proof.
  induction h as [|a h IH]; intros Hnd Hin; [inversion Hin |].
  simpl in *. apply NoDup_cons in Hnd as [Ha Hnd].
  destruct (heapq.eqb a m) eqn:E.
  - apply heapq_eqb_eq in E as ->. split; [exact Hnd |].
    intros k. rewrite elem_of_cons. split.
    + intros Hk. split; [right; exact Hk |]. intros ->. contradiction.
    + intros [[-> | Hk] Hne]; [contradiction | exact Hk].
  - apply elem_of_cons in Hin as [-> | Hin].
    { assert (heapq.eqb a a = true) as E' by (apply heapq_eqb_eq; reflexivity).
      rewrite E' in E. discriminate. }
    destruct (IH Hnd Hin) as [Hnd' Hk'].
    assert (a.2 <> m.2) as Hne.
    { intros Heq. apply Ha. rewrite Heq. apply list_elem_of_fmap. exists m. auto. }
    split.
    + simpl. apply NoDup_cons. split; [| exact Hnd'].
      intros Hc. apply Hk' in Hc as [Hc _]. contradiction.
    + intros k. simpl. rewrite !elem_of_cons, Hk'. split.
      * intros [-> | [Hk Hn]]; auto.
      * intros [[-> | Hk] Hn]; auto.
Qed.

Lemma heappop_spec (h : list heapq.entry) (m : heapq.entry) (h' : list heapq.entry) :
  NoDup h.*2 -> heapq.heappop h = Ok (m, h') ->
  m ∈ h /\ NoDup h'.*2 /\ forall k, k ∈ h'.*2 <-> k ∈ h.*2 /\ k <> m.2.
Proof.
  intros Hnd H. destruct h as [|e h0]; [discriminate |].
  unfold heapq.heappop in H. injection H as <- <-.
  pose proof (heapq_smallest_in e h0) as Hin.
  split; [exact Hin |].
  exact (heapq_remove_keys (heapq.smallest e h0) (e :: h0) Hnd Hin).
Qed.

Lemma heappop_nonempty (h : list heapq.entry) :
  h <> [] -> exists m h', heapq.heappop h = Ok (m, h').
Proof. destruct h; [contradiction | simpl; eauto]. Qed.

Lemma ordered_mem_spec {V : Type} (k : Z) (d : OrderedDict.t V) :
  OrderedDict.mem k d = true <-> k ∈ d.*1.
Proof.
  unfold OrderedDict.mem. induction d as [|[k' v] d IH]; simpl.
  - split; [discriminate | intros H; inversion H].
  - rewrite elem_of_cons. case_bool_decide as E.
    + subst. split; auto.
    + rewrite IH. split; [auto |]. intros [-> | H]; [contradiction | exact H].
Qed.

Lemma ordered_set_fresh {V : Type} (k : Z) (v : V) (d : OrderedDict.t V) :
  k ∉ d.*1 -> OrderedDict.set k v d = d ++ [(k, v)].
Proof.
  induction d as [|[k' v'] d IH]; simpl; intros H; [reflexivity |].
  apply not_elem_of_cons in H as [Hne H].
  rewrite bool_decide_eq_false_2 by auto. rewrite IH by exact H. reflexivity.
Qed.

Lemma ordered_lookup_elem {V : Type} (k : Z) (v : V) (d : OrderedDict.t V) :
  NoDup d.*1 -> (k, v) ∈ d -> OrderedDict.lookup k d = Some v.
Proof.
  induction d as [|[k' v'] d IH]; simpl; intros Hnd H; [inversion H |].
  apply NoDup_cons in Hnd as [Hk Hnd].
  apply elem_of_cons in H as [[= -> ->] | H].
  - rewrite bool_decide_eq_true_2 by reflexivity. reflexivity.
  - case_bool_decide as E.
    + subst. exfalso. apply Hk. apply list_elem_of_fmap. exists (k, v). auto.
    + apply IH; assumption.
Qed.

(** ** The holonomic Dijkstra: loop invariant *)

Lemma check_holonomic_node_bounds (n : HolonomicNode.t) (P : Para.t)
    (obsmap : list (list bool)) :
  check_holonomic_node n P obsmap = Ok true ->
  (Para.minx P < HolonomicNode.x n < Para.maxx P
   /\ Para.miny P < HolonomicNode.y n < Para.maxy P)%Z.
Proof.
  unfold check_holonomic_node.
  destruct (_ || _) eqn:E; [discriminate |]. intros _.
  apply orb_false_iff in E as [E E4]. apply orb_false_iff in E as [E E3].
  apply orb_false_iff in E as [E1 E2].
  rewrite Z.geb_leb in E2, E4. apply Z.leb_gt in E1, E2, E3, E4.
  lia.
Qed.

Section DijkstraInvariant.

Variable P : Para.t.
Variable obsmap : list (list bool).
Variable goal : HolonomicNode.t.

Let kg : Z := calc_holonomic_index goal P.

(** A node stored under key [k]: the key is the node's cell index, its cost
    is non-negative, and it is either on the goal's cell or passed
    [check_holonomic_node]; the latter only happens when the goal is not
    below the lower bounds of the grid. *)
Definition node_ok (k : Z) (n : HolonomicNode.t) : Prop :=
  calc_holonomic_index n P = k
  /\ 0 <= HolonomicNode.cost n
  /\ ((HolonomicNode.x n = HolonomicNode.x goal /\ HolonomicNode.y n = HolonomicNode.y goal)
      \/ (check_holonomic_node n P obsmap = Ok true
          /\ (Para.minx P <= HolonomicNode.x goal)%Z
          /\ (Para.miny P <= HolonomicNode.y goal)%Z)).

Definition unit_move (m : Z * Z) : Prop :=
  (-1 <= m.1 <= 1 /\ -1 <= m.2 <= 1)%Z.

(** The invariant of the inner [for] loop, for a fixed closed set. *)
Definition relax_inv (closed : OrderedDict.t HolonomicNode.t)
    (oq : gmap Z HolonomicNode.t * list heapq.entry) : Prop :=
  (forall k, k ∈ oq.2.*2 <-> k ∈ dom oq.1)
  /\ NoDup oq.2.*2
  /\ (forall k, k ∈ dom oq.1 -> k ∉ closed.*1)
  /\ (forall k n, oq.1 !! k = Some n -> node_ok k n).

(** The invariant of the [while] loop. *)
Record dijkstra_inv (st : Dijkstra.state) : Prop := {
  inv_relax : relax_inv (Dijkstra.closed_set st) (Dijkstra.open_set st, Dijkstra.q_priority st);
  inv_closed : forall k n, (k, n) ∈ Dijkstra.closed_set st -> node_ok k n;
  inv_closed_nodup : NoDup (Dijkstra.closed_set st).*1;
  inv_goal :
    (Dijkstra.closed_set st = [] /\ Dijkstra.open_set st = {[kg := goal]})
    \/ OrderedDict.lookup kg (Dijkstra.closed_set st) = Some goal
}.

Lemma u_cost_nonneg (m : Z * Z) : 0 <= u_cost m.
Proof. unfold u_cost, KDTree.hypot. apply sqrt_pos. Qed.

Lemma relax_preserves (closed : OrderedDict.t HolonomicNode.t) (ind : Z)
    (n_curr : HolonomicNode.t) (oq oq' : gmap Z HolonomicNode.t * list heapq.entry)
    (m : Z * Z) :
  node_ok ind n_curr -> unit_move m ->
  Dijkstra.relax P obsmap closed ind n_curr oq m = Ok oq' ->
  relax_inv closed oq -> relax_inv closed oq'.
Proof.
  intros (_ & Hc & Hcurr) Hm H Hinv. pose proof Hinv as (Hq & Hnd & Hdis & Hok).
  unfold Dijkstra.relax in H. bind_ok H.
  destruct a; simpl in H; [| injection H as <-; exact Hinv].
  set (node := HolonomicNode.mk _ _ _ _) in *.
  set (n_ind := calc_holonomic_index node P) in *.
  destruct (OrderedDict.mem n_ind closed) eqn:Hmem;
    [injection H as <-; exact Hinv |].
  assert (n_ind ∉ closed.*1) as Hfresh.
  { intros Hin. apply ordered_mem_spec in Hin. congruence. }
  pose proof (u_cost_nonneg m) as Hu.
  destruct (oq.1 !! n_ind) as [o|] eqn:Ho.
  - case_bool_decide as Hlt; injection H as <-; [| exact Hinv].
    destruct (Hok _ _ Ho) as (Hi & Hco & Hcell).
    assert (forall v k, k ∈ dom (<[n_ind := v]> oq.1) <-> k ∈ dom oq.1) as Hdom.
    { intros v k. rewrite dom_insert, elem_of_union, elem_of_singleton.
      split; [intros [-> | Hk]; [apply elem_of_dom; eauto | exact Hk] | auto]. }
    split; [intros k; simpl; rewrite Hdom; apply Hq |].
    split; [exact Hnd |].
    split; [intros k Hk; apply Hdom in Hk; apply Hdis, Hk |].
    intros k n. simpl. rewrite lookup_insert. case_decide as Hk.
    + intros [= <-]. subst k. split; [exact Hi |]. split; [simpl; lra | exact Hcell].
    + apply Hok.
  - injection H as <-. unfold relax_inv, heapq.heappush. cbn [fst snd].
    split.
    { intros k. rewrite fmap_app, elem_of_app, dom_insert, elem_of_union, elem_of_singleton.
      simpl. rewrite list_elem_of_singleton, Hq. tauto. }
    split.
    { rewrite fmap_app. apply NoDup_app. split; [exact Hnd |].
      split; [| apply NoDup_singleton].
      simpl. intros k Hk Hk'. apply list_elem_of_singleton in Hk' as ->.
      apply Hq, elem_of_dom in Hk as [? Hk]. congruence. }
    split.
    { intros k. rewrite dom_insert, elem_of_union, elem_of_singleton.
      intros [-> | Hk]; [exact Hfresh | apply Hdis, Hk]. }
    intros k n. rewrite lookup_insert. case_decide as Hk.
    + intros [= <-]. subst k. split; [reflexivity |]. split; [simpl; lra |].
      right. split; [exact E |].
      destruct Hcurr as [[Hx Hy] | (_ & Hx & Hy)]; [| auto].
      apply check_holonomic_node_bounds in E. unfold node in E. simpl in E.
      destruct Hm. lia.
    + apply Hok.
Qed.

Lemma relax_all_preserves (closed : OrderedDict.t HolonomicNode.t) (ind : Z)
    (n_curr : HolonomicNode.t) (motion : list (Z * Z))
    (oq oq' : gmap Z HolonomicNode.t * list heapq.entry) :
  node_ok ind n_curr -> Forall unit_move motion ->
  Dijkstra.relax_all P obsmap closed ind n_curr oq motion = Ok oq' ->
  relax_inv closed oq -> relax_inv closed oq'.
Proof.
  intros Hc. revert oq. induction motion as [|m motion IH]; intros oq Hm H Hinv; simpl in H.
  - injection H as <-. exact Hinv.
  - bind_ok H. apply Forall_cons in Hm as [Hm Hms].
    eapply IH; [exact Hms | exact H |]. eapply relax_preserves; eauto.
Qed.

Lemma get_motion_unit : Forall unit_move get_motion.
Proof. unfold get_motion, unit_move. repeat constructor; simpl; lia. Qed.

(** What one pass through the loop does to the state: the popped key moves
    from the open set to the end of the closed set. *)
Lemma iteration_inv (st st' : Dijkstra.state) :
  Dijkstra.iteration P obsmap st = Ok (Some st') ->
  dijkstra_inv st ->
  exists c ind q n_curr,
    heapq.heappop (Dijkstra.q_priority st) = Ok ((c, ind), q)
    /\ Dijkstra.open_set st !! ind = Some n_curr
    /\ (ind ∉ (Dijkstra.closed_set st).*1)
    /\ Dijkstra.closed_set st' = Dijkstra.closed_set st ++ [(ind, n_curr)]
    /\ dijkstra_inv st'.
Proof.
  intros H [(Hq & Hnd & Hdis & Hok) Hcl Hcnd Hgoal].
  cbn [fst snd] in Hq, Hnd, Hdis, Hok.
  unfold Dijkstra.iteration in H.
  case_bool_decide as Hempty; [discriminate |].
  bind_ok H. destruct a as [[c ind] q].
  bind_ok H. rename a into n_curr.
  bind_ok H. destruct a as [open' q']. injection H as <-.
  cbn [Dijkstra.closed_set Dijkstra.open_set Dijkstra.q_priority fst snd].
  destruct (Dijkstra.open_set st !! ind) as [n|] eqn:Hn; [| discriminate].
  injection E0 as ->.
  destruct (heappop_spec _ _ _ Hnd E) as (Hin & Hnd' & Hq').
  assert (ind ∉ (Dijkstra.closed_set st).*1) as Hfresh.
  { apply Hdis, elem_of_dom. eauto. }
  rewrite (ordered_set_fresh _ _ _ Hfresh) in *.
  destruct (Hok _ _ Hn) as (Hi & Hc0 & Hcell).
  exists c, ind, q, n_curr.
  split; [exact E |]. split; [exact Hn |]. split; [exact Hfresh |].
  split; [reflexivity |].
  constructor; cbn [Dijkstra.closed_set Dijkstra.open_set Dijkstra.q_priority].
  - eapply relax_all_preserves; [exact (Hok _ _ Hn) | apply get_motion_unit | exact E1 |].
    split; [| split; [exact Hnd' | split]].
    + intros k. simpl. rewrite Hq', Hq, dom_delete, elem_of_difference, elem_of_singleton.
      reflexivity.
    + intros k. simpl. rewrite dom_delete, elem_of_difference, elem_of_singleton.
      intros [Hk Hne]. rewrite fmap_app, elem_of_app. simpl.
      rewrite list_elem_of_singleton. intros [Hc | Hc]; [apply (Hdis k); auto | auto].
    + intros k n'. simpl. rewrite lookup_delete. case_decide; [discriminate | apply Hok].
  - intros k n'. rewrite elem_of_app, list_elem_of_singleton.
    intros [Hk | [= -> ->]]; [apply Hcl, Hk | apply Hok, Hn].
  - rewrite fmap_app. apply NoDup_app. split; [exact Hcnd |].
    split; [| apply NoDup_singleton].
    simpl. intros k Hk Hk'. apply list_elem_of_singleton in Hk' as ->. contradiction.
  - right. destruct Hgoal as [[Hnil Hop] | Hg].
    + rewrite Hnil. simpl. rewrite Hop in Hn.
      apply lookup_singleton_Some in Hn as [<- <-].
      rewrite bool_decide_eq_true_2 by reflexivity. reflexivity.
    + apply ordered_lookup_elem.
      * rewrite fmap_app. apply NoDup_app. split; [exact Hcnd |].
        split; [| apply NoDup_singleton].
        simpl. intros k Hk Hk'. apply list_elem_of_singleton in Hk' as ->. contradiction.
      * apply elem_of_app. left. clear -Hg.
        induction (Dijkstra.closed_set st) as [|[k v] d IH]; simpl in Hg; [discriminate |].
        case_bool_decide as Hk; [injection Hg as ->; subst; left | right; auto].
Qed.

End DijkstraInvariant.

(** ** Outcomes other than an exhausted loop budget *)

Definition finishes {A : Type} (r : res A) : Prop := r <> Raise OutOfFuel.

Lemma finishes_Ok {A : Type} (a : A) : finishes (Ok a).
Proof. discriminate. Qed.

Lemma finishes_bind {A B : Type} (m : res A) (k : A -> res B) :
  finishes m -> (forall a, m = Ok a -> finishes (k a)) -> finishes (m ≫= k).
Proof.
  destruct m as [a|e]; simpl; [auto |].
  intros H _ [= ->]. apply H. reflexivity.
Qed.

Lemma finishes_div (a b : R) : finishes (Py.div a b).
Proof. unfold Py.div. destruct (Req_dec_T b 0); discriminate. Qed.

Lemma finishes_get {A : Type} (l : list A) (i : nat) : finishes (Py.get l i).
Proof. unfold Py.get. destruct (l !! i); discriminate. Qed.

Lemma finishes_getz {A : Type} (l : list A) (i : Z) : finishes (Py.getz l i).
Proof. unfold Py.getz. destruct (Py.index _ _); [apply finishes_get | discriminate]. Qed.

Lemma finishes_setz {A : Type} (l : list A) (i : Z) (v : A) : finishes (Py.setz l i v).
Proof. unfold Py.setz. destruct (Py.index _ _); discriminate. Qed.

Lemma finishes_last {A : Type} (l : list A) : finishes (Py.last l).
Proof. unfold Py.last. destruct (List.last _ _); discriminate. Qed.

Lemma finishes_item {A : Type} (o : option A) : finishes (Py.item o).
Proof. destruct o; discriminate. Qed.

Lemma finishes_mapM {A B : Type} (f : A -> res B) (l : list A) :
  (forall a, finishes (f a)) -> finishes (mapM f l).
Proof.
  intros Hf. induction l as [|a l IH]; simpl; [discriminate |].
  apply finishes_bind; [apply Hf |]. intros b _.
  apply finishes_bind; [exact IH |]. intros bs _. discriminate.
Qed.

Lemma finishes_gets {A : Type} (l : list A) (ind : list nat) : finishes (Py.gets l ind).
Proof. apply finishes_mapM. intros i. apply finishes_get. Qed.

Lemma finishes_grid_index (reso x : R) : finishes (grid_index reso x).
Proof.
  unfold grid_index. apply finishes_bind; [apply finishes_div |]. intros; discriminate.
Qed.

Lemma finishes_heappop (h : list heapq.entry) : finishes (heapq.heappop h).
Proof. destruct h; discriminate. Qed.

Create HintDb finishes.

#[local] Hint Resolve finishes_Ok finishes_div finishes_get finishes_getz finishes_setz
  finishes_last finishes_item finishes_gets finishes_grid_index finishes_heappop : finishes.

(** Walks through a computation in the outcome monad, leaving the calls
    that are not known to finish. *)
Ltac finish :=
  repeat first
    [ progress auto with finishes
    | apply finishes_bind; [| intros ? ?]
    | match goal with
      | |- finishes (if ?b then _ else _) => destruct b
      | |- finishes (match ?x with _ => _ end) => destruct x
      | |- finishes (let '(_, _) := ?x in _) => destruct x
      end ].

Lemma finishes_check_holonomic_node (node : HolonomicNode.t) (P : Para.t)
    (obsmap : list (list bool)) : finishes (check_holonomic_node node P obsmap).
Proof. unfold check_holonomic_node. finish. Qed.

#[local] Hint Resolve finishes_check_holonomic_node : finishes.

Lemma finishes_relax (P : Para.t) (obsmap : list (list bool))
    (closed : OrderedDict.t HolonomicNode.t) (ind : Z) (n_curr : HolonomicNode.t)
    (oq : gmap Z HolonomicNode.t * list heapq.entry) (m : Z * Z) :
  finishes (Dijkstra.relax P obsmap closed ind n_curr oq m).
Proof. unfold Dijkstra.relax. finish. Qed.

Lemma finishes_relax_all (P : Para.t) (obsmap : list (list bool))
    (closed : OrderedDict.t HolonomicNode.t) (ind : Z) (n_curr : HolonomicNode.t)
    (motion : list (Z * Z)) (oq : gmap Z HolonomicNode.t * list heapq.entry) :
  finishes (Dijkstra.relax_all P obsmap closed ind n_curr oq motion).
Proof.
  revert oq. induction motion as [|m motion IH]; intros oq; simpl; [discriminate |].
  apply finishes_bind; [apply finishes_relax | intros; apply IH].
Qed.

#[local] Hint Resolve finishes_relax_all : finishes.

Lemma finishes_dijkstra_iteration (P : Para.t) (obsmap : list (list bool))
    (st : Dijkstra.state) : finishes (Dijkstra.iteration P obsmap st).
Proof. unfold Dijkstra.iteration. finish. Qed.

Lemma finishes_record_costs (P : Para.t) (nodes : list HolonomicNode.t)
    (hmap : list (list Float.t)) : finishes (Dijkstra.record_costs P hmap nodes).
Proof.
  revert hmap. induction nodes as [|n nodes IH]; intros hmap; simpl; [discriminate |].
  apply finishes_bind; [unfold Dijkstra.record_cost; finish | intros; apply IH].
Qed.

Lemma finishes_obstacles_map (P : Para.t) (rr : R) : finishes (obstacles_map P rr).
Proof.
  unfold obstacles_map.
  apply finishes_bind; [apply finishes_mapM; intros; apply finishes_grid_index |].
  intros ? _.
  apply finishes_bind; [apply finishes_mapM; intros; apply finishes_grid_index |].
  intros; discriminate.
Qed.

Lemma finishes_holonomic_goal (node : Node.t) (P : Para.t) : finishes (holonomic_goal node P).
Proof. unfold holonomic_goal. finish. Qed.

(** ** The holonomic Dijkstra: runs and termination *)

Section DijkstraRun.

Variable P : Para.t.
Variable obsmap : list (list bool).

(** [st'] is the state at the head of the loop some passes after [st]. *)
Inductive dijkstra_reaches : Dijkstra.state -> Dijkstra.state -> Prop :=
| dijkstra_here (st : Dijkstra.state) : dijkstra_reaches st st
| dijkstra_pass (st st' st'' : Dijkstra.state) :
    Dijkstra.iteration P obsmap st = Ok (Some st') ->
    dijkstra_reaches st' st'' ->
    dijkstra_reaches st st''.

Lemma dijkstra_break (st : Dijkstra.state) :
  Dijkstra.iteration P obsmap st = Ok None <-> Dijkstra.open_set st = ∅.
Proof.
  unfold Dijkstra.iteration. case_bool_decide as E.
  - split; auto.
  - split; [| contradiction]. intros H. exfalso.
    repeat bind_ok H. destruct a as [[c ind] q]. repeat bind_ok H. discriminate.
Qed.

Lemma dijkstra_loop_Ok (fuel : nat) (st st' : Dijkstra.state) :
  Dijkstra.loop fuel P obsmap st = Ok st' ->
  dijkstra_reaches st st' /\ Dijkstra.open_set st' = ∅.
Proof.
  revert st. induction fuel as [|fuel IH]; intros st H; simpl in H; [discriminate |].
  bind_ok H. destruct a as [st1|].
  - apply IH in H as [Hr He]. split; [econstructor; eauto | exact He].
  - injection H as <-. split; [constructor | apply dijkstra_break, E].
Qed.

Lemma dijkstra_loop_mono (fuel fuel' : nat) (st : Dijkstra.state) :
  finishes (Dijkstra.loop fuel P obsmap st) -> (fuel <= fuel')%nat ->
  Dijkstra.loop fuel' P obsmap st = Dijkstra.loop fuel P obsmap st.
Proof.
  revert fuel' st. induction fuel as [|fuel IH]; intros fuel' st Hf Hle.
  - exfalso. apply Hf. reflexivity.
  - destruct fuel' as [|fuel']; [lia |]. simpl in *.
    destruct (Dijkstra.iteration P obsmap st) as [[st1|]|e]; simpl in *; try reflexivity.
    apply IH; [exact Hf | lia].
Qed.

Variable goal : HolonomicNode.t.

(** The keys the search can ever use: the goal's and those of the cells
    strictly inside the bounds. *)
Definition holonomic_keys : gset Z :=
  {[calc_holonomic_index goal P]}
  ∪ list_to_set
      (x ← seqZ (Para.minx P + 1) (Para.maxx P - Para.minx P - 1);
       y ← seqZ (Para.miny P + 1) (Para.maxy P - Para.miny P - 1);
       [((y - Para.miny P) * Para.xw P + (x - Para.minx P))%Z]).

Lemma node_ok_key (k : Z) (n : HolonomicNode.t) :
  node_ok P obsmap goal k n -> k ∈ holonomic_keys.
Proof.
  intros (Hk & _ & [[Hx Hy] | (Hc & _)]); unfold holonomic_keys; apply elem_of_union.
  - left. apply elem_of_singleton. rewrite <- Hk. unfold calc_holonomic_index.
    rewrite Hx, Hy. reflexivity.
  - right. apply check_holonomic_node_bounds in Hc as [Hx Hy].
    apply elem_of_list_to_set, list_elem_of_bind.
    exists (HolonomicNode.x n). split; [| apply elem_of_seqZ; lia].
    apply list_elem_of_bind.
    exists (HolonomicNode.y n). split; [| apply elem_of_seqZ; lia].
    apply list_elem_of_singleton. rewrite <- Hk. reflexivity.
Qed.

(** The number of keys not yet closed. *)
Definition dijkstra_measure (st : Dijkstra.state) : nat :=
  size (holonomic_keys ∖ list_to_set (Dijkstra.closed_set st).*1).

Lemma dijkstra_measure_decreases (st st' : Dijkstra.state) :
  Dijkstra.iteration P obsmap st = Ok (Some st') ->
  dijkstra_inv P obsmap goal st ->
  (dijkstra_measure st' < dijkstra_measure st)%nat.
Proof.
  intros H Hinv.
  destruct (iteration_inv P obsmap goal st st' H Hinv)
    as (c & ind & q & n_curr & _ & Hn & Hfresh & Hcl & _).
  unfold dijkstra_measure. rewrite Hcl. apply subset_size.
  assert (ind ∈ holonomic_keys) as Hk.
  { apply (node_ok_key ind n_curr). destruct Hinv as [(_ & _ & _ & Hok) _ _ _].
    apply Hok. exact Hn. }
  rewrite fmap_app, list_to_set_app_L. simpl.
  assert (ind ∉ (list_to_set (Dijkstra.closed_set st).*1 : gset Z)) as Hnew
    by (rewrite elem_of_list_to_set; exact Hfresh).
  split.
  - intros k. rewrite !elem_of_difference, elem_of_union.
    intros [Hin Hout]. split; [exact Hin | intros Hc; apply Hout; left; exact Hc].
  - intros Hsub. specialize (Hsub ind).
    rewrite !elem_of_difference, elem_of_union, elem_of_union, elem_of_singleton in Hsub.
    destruct Hsub as [_ Hsub]; [split; assumption |]. apply Hsub. right. left. reflexivity.
Qed.

Lemma dijkstra_reaches_inv (st st' : Dijkstra.state) :
  dijkstra_reaches st st' -> dijkstra_inv P obsmap goal st -> dijkstra_inv P obsmap goal st'.
Proof.
  induction 1 as [|st st1 st2 H _ IH]; intros Hinv; [exact Hinv |].
  apply IH. destruct (iteration_inv P obsmap goal st st1 H Hinv) as (? & ? & ? & ? & Hi).
  apply Hi.
Qed.

Lemma dijkstra_loop_finishes (fuel : nat) (st : Dijkstra.state) :
  dijkstra_inv P obsmap goal st ->
  (dijkstra_measure st < fuel)%nat ->
  finishes (Dijkstra.loop fuel P obsmap st).
Proof.
  revert st. induction fuel as [|fuel IH]; intros st Hinv Hm; [lia |].
  simpl. apply finishes_bind; [apply finishes_dijkstra_iteration |].
  intros [st1|] H; [| discriminate].
  apply IH.
  - destruct (iteration_inv P obsmap goal st st1 H Hinv) as (? & ? & ? & ? & Hi). apply Hi.
  - pose proof (dijkstra_measure_decreases st st1 H Hinv). lia.
Qed.

End DijkstraRun.

(** ** The heuristic map *)


(** The entry in row [i], column [j]. *)
Definition cell (hmap : list (list Float.t)) (i j : nat) : option Float.t :=
  row ← hmap !! i; row !! j.

(** The entry [(i, j)] is the one the final loop writes for node [n]. *)
Definition written_at (P : Para.t) (n : HolonomicNode.t) (i j : nat) : Prop :=
  Py.index (Z.to_nat (Para.xw P)) (HolonomicNode.x n - Para.minx P) = Some i
  /\ Py.index (Z.to_nat (Para.yw P)) (HolonomicNode.y n - Para.miny P) = Some j.

#[local] Instance written_at_dec (P : Para.t) (n : HolonomicNode.t) (i j : nat) :
  Decision (written_at P n i j).
Proof. unfold written_at. apply _. Defined.

Definition grid_shaped (P : Para.t) (hmap : list (list Float.t)) : Prop :=
  length hmap = Z.to_nat (Para.xw P)
  /\ forall i row, hmap !! i = Some row -> length row = Z.to_nat (Para.yw P).

Lemma index_lt (n : nat) (i : Z) (k : nat) : Py.index n i = Some k -> (k < n)%nat.
Proof.
  unfold Py.index.
  destruct (_ && _) eqn:E1.
  - intros [= <-]. apply andb_true_iff in E1 as [E1 E2].
    apply Z.leb_le in E1. apply Z.ltb_lt in E2. lia.
  - destruct ((- Z.of_nat n <=? i)%Z && (i <? 0)%Z) eqn:E2; [| intros; discriminate].
    intros [= <-]. apply andb_true_iff in E2 as [E2 E3].
    apply Z.leb_le in E2. apply Z.ltb_lt in E3. lia.
Qed.

Lemma index_nonneg (n : nat) (i : Z) (k : nat) :
  (0 <= i)%Z -> Py.index n i = Some k -> k = Z.to_nat i.
Proof.
  intros Hi. unfold Py.index.
  destruct (_ && _) eqn:E1; [intros [= <-]; reflexivity |].
  destruct ((- Z.of_nat n <=? i)%Z && (i <? 0)%Z) eqn:E2; [| intros; discriminate].
  apply andb_true_iff in E2 as [_ E3]. apply Z.ltb_lt in E3. lia.
Qed.

Lemma getz_Ok {A : Type} (l : list A) (i : Z) (a : A) :
  Py.getz l i = Ok a <-> exists k, Py.index (length l) i = Some k /\ l !! k = Some a.
Proof.
  unfold Py.getz, Py.get. destruct (Py.index _ _) as [k|].
  - destruct (l !! k) as [b|] eqn:E.
    + split; [intros [= ->]; eauto | intros (k' & [= <-] & Hk); congruence].
    + split; [discriminate | intros (k' & [= <-] & Hk); congruence].
  - split; [discriminate | intros (k' & Hk & _); discriminate].
Qed.

Lemma setz_Ok {A : Type} (l : list A) (i : Z) (v : A) (l' : list A) :
  Py.setz l i v = Ok l' <-> exists k, Py.index (length l) i = Some k /\ l' = <[k := v]> l.
Proof.
  unfold Py.setz. destruct (Py.index _ _) as [k|].
  - split; [intros [= <-]; eauto | intros (k' & [= <-] & ->); reflexivity].
  - split; [discriminate | intros (k' & Hk & _); discriminate].
Qed.

Lemma record_cost_spec (P : Para.t) (hmap hmap' : list (list Float.t))
    (n : HolonomicNode.t) :
  grid_shaped P hmap ->
  Dijkstra.record_cost P hmap n = Ok hmap' ->
  exists i j row,
    written_at P n i j /\ hmap !! i = Some row
    /\ hmap' = <[i := <[j := Float.fin (HolonomicNode.cost n)]> row]> hmap
    /\ grid_shaped P hmap'.
Proof.
  intros [Hlen Hrows] H. unfold Dijkstra.record_cost in H.
  bind_ok H. rename a into row. bind_ok H. rename a into row'.
  apply getz_Ok in E as (i & Hi & Hrow).
  apply setz_Ok in E0 as (j & Hj & ->).
  apply setz_Ok in H as (i' & Hi' & ->).
  rewrite Hi in Hi'. injection Hi' as <-.
  rewrite (Hrows _ _ Hrow) in Hj. rewrite Hlen in Hi.
  exists i, j, row. split; [split; assumption |]. split; [exact Hrow |].
  split; [reflexivity |]. split.
  - rewrite length_insert. exact Hlen.
  - intros i' r. destruct (decide (i = i')) as [<- | Hne].
    + rewrite list_lookup_insert_eq by (eapply lookup_lt_Some; eauto).
      intros [= <-]. rewrite length_insert. eapply Hrows; eauto.
    + rewrite list_lookup_insert_ne by exact Hne. apply Hrows.
Qed.

Lemma cell_insert_eq (hmap : list (list Float.t)) (i j : nat) (row : list Float.t)
    (v : Float.t) :
  hmap !! i = Some row -> (j < length row)%nat ->
  cell (<[i := <[j := v]> row]> hmap) i j = Some v.
Proof.
  intros Hrow Hj. unfold cell.
  rewrite list_lookup_insert_eq by (eapply lookup_lt_Some; eauto). simpl.
  apply list_lookup_insert_eq. exact Hj.
Qed.

Lemma cell_insert_ne (hmap : list (list Float.t)) (i j i' j' : nat)
    (row : list Float.t) (v : Float.t) :
  hmap !! i = Some row -> (i, j) <> (i', j') ->
  cell (<[i := <[j := v]> row]> hmap) i' j' = cell hmap i' j'.
Proof.
  intros Hrow Hne. unfold cell. destruct (decide (i = i')) as [<- | Hi].
  - rewrite list_lookup_insert_eq by (eapply lookup_lt_Some; eauto). rewrite Hrow. simpl.
    apply list_lookup_insert_ne. congruence.
  - rewrite list_lookup_insert_ne by exact Hi. reflexivity.
Qed.


Lemma dijkstra_initial_inv (P : Para.t) (obsmap : list (list bool)) (goal : HolonomicNode.t) :
  0 <= HolonomicNode.cost goal ->
  dijkstra_inv P obsmap goal
    (Dijkstra.mk (<[calc_holonomic_index goal P := goal]> ∅) []
       (heapq.heappush [] (HolonomicNode.cost goal, calc_holonomic_index goal P))).
Proof.
  intros Hc. constructor; simpl.
  - split; [| split; [| split]]; simpl.
    + intros k. rewrite dom_insert, dom_empty, elem_of_union, elem_of_singleton.
      rewrite list_elem_of_singleton, elem_of_empty. tauto.
    + apply NoDup_singleton.
    + intros k _ Hk. inversion Hk.
    + intros k n. rewrite lookup_insert. case_decide as Hk; [| rewrite lookup_empty; discriminate].
      intros [= <-]. split; [exact Hk |]. split; [exact Hc | left; auto].
  - intros k n Hk. inversion Hk.
  - constructor.
  - left. split; [reflexivity | apply insert_empty].
Qed.

Definition initial_map (P : Para.t) : list (list Float.t) :=
  List.map (fun _ => List.map (fun _ => Float.inf) (seq 0 (Z.to_nat (Para.yw P))))
           (seq 0 (Z.to_nat (Para.xw P))).

Lemma initial_map_shaped (P : Para.t) : grid_shaped P (initial_map P).
Proof.
  unfold initial_map. split.
  - rewrite length_map, length_seq. reflexivity.
  - intros i row H. apply list_lookup_fmap_Some in H as (k & -> & _).
    rewrite length_map, length_seq. reflexivity.
Qed.

Lemma initial_map_cell (P : Para.t) (i j : nat) (v : Float.t) :
  cell (initial_map P) i j = Some v <->
  v = Float.inf /\ (i < Z.to_nat (Para.xw P))%nat /\ (j < Z.to_nat (Para.yw P))%nat.
Proof.
  unfold cell, initial_map. rewrite list_lookup_fmap.
  destruct (seq 0 (Z.to_nat (Para.xw P)) !! i) as [k|] eqn:Ei; simpl.
  - apply lookup_lt_Some in Ei as Hi. rewrite length_seq in Hi.
    rewrite list_lookup_fmap.
    destruct (seq 0 (Z.to_nat (Para.yw P)) !! j) as [k'|] eqn:Ej; simpl.
    + apply lookup_lt_Some in Ej as Hj. rewrite length_seq in Hj.
      split; [intros [= <-]; auto | intros (-> & _); reflexivity].
    + apply lookup_ge_None in Ej. rewrite length_seq in Ej.
      split; [discriminate | intros (_ & _ & Hj); lia].
  - apply lookup_ge_None in Ei. rewrite length_seq in Ei.
    split; [discriminate | intros (_ & Hi & _); lia].
Qed.

(** The goal is the only closed node on its cell; every other closed node
    passed [check_holonomic_node]: it is inside the bounds and not blocked. *)
Lemma closed_node_admitted (P : Para.t) (obsmap : list (list bool)) (goal : HolonomicNode.t)
    (st : Dijkstra.state) (n : HolonomicNode.t) :
  dijkstra_inv P obsmap goal st ->
  OrderedDict.lookup (calc_holonomic_index goal P) (Dijkstra.closed_set st) = Some goal ->
  n ∈ OrderedDict.values (Dijkstra.closed_set st) ->
  n = goal
  \/ (check_holonomic_node n P obsmap = Ok true
      /\ (Para.minx P <= HolonomicNode.x goal)%Z /\ (Para.miny P <= HolonomicNode.y goal)%Z
      /\ (HolonomicNode.x n, HolonomicNode.y n) <> (HolonomicNode.x goal, HolonomicNode.y goal)).
Proof.
  intros [_ Hcl Hnd _] Hg Hn.
  apply list_elem_of_fmap in Hn as ([k n'] & -> & Hin). simpl.
  destruct (Hcl _ _ Hin) as (Hk & _ & Hcell).
  destruct (decide ((HolonomicNode.x n', HolonomicNode.y n')
                    = (HolonomicNode.x goal, HolonomicNode.y goal))) as [[= Hx Hy] | Hne].
  - left.
    assert (k = calc_holonomic_index goal P) as ->.
    { rewrite <- Hk. unfold calc_holonomic_index. rewrite Hx, Hy. reflexivity. }
    apply (ordered_lookup_elem _ _ _ Hnd) in Hin. congruence.
  - right. destruct Hcell as [[Hx Hy] | (Hc & Hxg & Hyg)]; [congruence | auto].
Qed.


Lemma holonomic_closed_set_inv (fuel : nat) (node : Node.t) (P : Para.t) (radius : R)
    (closed : OrderedDict.t HolonomicNode.t) :
  holonomic_closed_set fuel node P radius = Ok closed ->
  exists goal obsmap st,
    holonomic_goal node P = Ok goal
    /\ HolonomicNode.cost goal = 0
    /\ obstacles_map P radius = Ok obsmap
    /\ Dijkstra.closed_set st = closed
    /\ Dijkstra.open_set st = ∅
    /\ dijkstra_inv P obsmap goal st
    /\ OrderedDict.lookup (calc_holonomic_index goal P) closed = Some goal.
Proof.
  intros H. unfold holonomic_closed_set in H.
  bind_ok H. rename a into goal. bind_ok H. rename a into obsmap.
  bind_ok H. rename a into st. injection H as <-.
  assert (HolonomicNode.cost goal = 0) as Hc.
  { unfold holonomic_goal in E. repeat bind_ok E. injection E as <-. reflexivity. }
  apply dijkstra_loop_Ok in E1 as [Hreach Hempty].
  assert (dijkstra_inv P obsmap goal st) as Hinv.
  { eapply dijkstra_reaches_inv; [exact Hreach |].
    apply dijkstra_initial_inv. lra. }
  exists goal, obsmap, st.
  split; [exact E |]. split; [exact Hc |]. split; [exact E0 |].
  split; [reflexivity |]. split; [exact Hempty |]. split; [exact Hinv |].
  destruct (inv_goal _ _ _ _ Hinv) as [[_ Ho] | Hg]; [| exact Hg].
  rewrite Hempty in Ho. exfalso.
  apply (f_equal (fun m => m !! calc_holonomic_index goal P)) in Ho.
  rewrite lookup_empty, lookup_singleton_eq in Ho. discriminate.
Qed.

Lemma holonomic_heuristic_finishes (node : Node.t) (P : Para.t) (radius : R) :
  exists fuel, forall fuel', (fuel <= fuel')%nat ->
    finishes (calc_holonomic_heuristic_with_obstacle fuel' node P radius).
Proof.
  destruct (holonomic_goal node P) as [goal|e] eqn:Eg.
  - exists (S (size (holonomic_keys P goal))). intros fuel' Hle.
    unfold calc_holonomic_heuristic_with_obstacle, holonomic_closed_set. rewrite Eg. simpl.
    apply finishes_bind.
    + apply finishes_bind; [apply finishes_obstacles_map |]. intros obsmap _.
      apply finishes_bind; [| intros; discriminate].
      assert (HolonomicNode.cost goal = 0) as Hc.
      { unfold holonomic_goal in Eg. repeat bind_ok Eg. injection Eg as <-. reflexivity. }
      apply (dijkstra_loop_finishes P obsmap goal).
      * apply dijkstra_initial_inv. lra.
      * unfold dijkstra_measure.
        eapply Nat.le_lt_trans; [apply subseteq_size, subseteq_difference_l; reflexivity |].
        lia.
    + intros closed _. apply finishes_record_costs.
  - exists 0%nat. intros fuel' _.
    unfold calc_holonomic_heuristic_with_obstacle, holonomic_closed_set. rewrite Eg. simpl.
    pose proof (finishes_holonomic_goal node P) as Hf. rewrite Eg in Hf.
    intros [= ->]. apply Hf. reflexivity.
Qed.








(** ** The priority queue *)

Section QueueFacts.

Context {K : Type} `{EqDecision K}.

Implicit Types q : QueuePrior.t K.

Lemma discard_keys q (item k : K) :
  k ∈ (QueuePrior.discard item q).*1 <-> k ∈ q.*1 /\ k <> item.
Proof.
  unfold QueuePrior.discard. induction q as [|[k' p] q IH]; simpl.
  - split; [intros H; inversion H | intros [H _]; inversion H].
  - case_bool_decide as E; simpl.
    + rewrite IH, elem_of_cons. subst. split; [tauto |]. intros [[-> | Hk] Hne]; tauto.
    + rewrite !elem_of_cons, IH. split.
      * intros [-> | [Hk Hne]]; auto.
      * intros [[-> | Hk] Hne]; auto.
Qed.

Lemma discard_length q (item : K) :
  (length (QueuePrior.discard item q) <= length q)%nat.
Proof. unfold QueuePrior.discard. apply List.filter_length_le. Qed.

Lemma discard_shrinks q (item : K) :
  item ∈ q.*1 -> (length (QueuePrior.discard item q) < length q)%nat.
Proof.
  unfold QueuePrior.discard. induction q as [|[k' p] q IH]; simpl; intros H; [inversion H |].
  case_bool_decide as E; simpl.
  - pose proof (discard_length q item). unfold QueuePrior.discard in *. lia.
  - apply elem_of_cons in H as [-> | H]; [contradiction |]. apply IH in H. lia.
Qed.

Lemma put_keys q (item k : K) (p : Float.t) :
  k ∈ (QueuePrior.put q item p).*1 <-> k = item \/ k ∈ q.*1.
Proof.
  unfold QueuePrior.put. rewrite fmap_app, elem_of_app, discard_keys. simpl.
  rewrite list_elem_of_singleton.
  destruct (decide (k = item)); tauto.
Qed.

Lemma lowest_in (e : K * Float.t) q : QueuePrior.lowest e q ∈ e :: q.
Proof.
  revert e. induction q as [|a q IH]; intros e; simpl.
  - left.
  - destruct (Float.ltb a.2 e.2).
    + right. apply IH.
    + specialize (IH e). apply elem_of_cons in IH as [-> | IH]; [left | right; right; exact IH].
Qed.

Lemma get_spec q (k : K) q' :
  QueuePrior.get q = Ok (k, q') ->
  k ∈ q.*1
  /\ (forall k', k' ∈ q'.*1 <-> k' ∈ q.*1 /\ k' <> k)
  /\ (length q' < length q)%nat.
Proof.
  destruct q as [|e q0]; [discriminate |]. unfold QueuePrior.get.
  set (m := QueuePrior.lowest e q0). intros [= <- <-].
  assert (m.1 ∈ (e :: q0).*1) as Hin.
  { apply list_elem_of_fmap. exists m. split; [reflexivity | apply lowest_in]. }
  split; [exact Hin |].
  split; [intros k'; exact (discard_keys (e :: q0) m.1 k') |].
  exact (discard_shrinks (e :: q0) m.1 Hin).
Qed.

Lemma get_nonempty q : q <> [] -> exists k q', QueuePrior.get q = Ok (k, q').
Proof. destruct q; [contradiction | simpl; eauto]. Qed.

Lemma finishes_queue_get q : finishes (QueuePrior.get q).
Proof. destruct q; discriminate. Qed.

End QueueFacts.

#[local] Hint Resolve finishes_queue_get : finishes.

(** ** The hybrid search never exhausts a budget it does not have *)

Lemma finishes_obstacle_scan (P : Para.t) (cx cy r iyaw : R) (ids : list nat) :
  finishes (obstacle_scan P cx cy r iyaw ids).
Proof.
  induction ids as [|i ids IH]; simpl; [discriminate |].
  apply finishes_bind; [apply finishes_get |]. intros oxi _.
  apply finishes_bind; [apply finishes_get |]. intros oyi _.
  destruct (_ && _); [discriminate | exact IH].
Qed.

Lemma finishes_is_collision (x y yaw : list R) (P : Para.t) :
  finishes (is_collision x y yaw P).
Proof.
  revert y yaw. induction x as [|ix x IH]; intros [|iy y] [|iyaw yaw]; simpl; try discriminate.
  apply finishes_bind; [apply finishes_obstacle_scan |].
  intros [|] _; [discriminate | apply IH].
Qed.

#[local] Hint Resolve finishes_is_collision : finishes.

Lemma finishes_is_index_ok (xind yind : Z) (xlist ylist yawlist : list R) (P : Para.t) :
  finishes (is_index_ok xind yind xlist ylist yawlist P).
Proof. unfold is_index_ok. finish. Qed.

#[local] Hint Resolve finishes_is_index_ok : finishes.

Lemma finishes_calc_next_node (n_curr : Node.t) (c_id : Z) (u d : R) (P : Para.t) :
  finishes (calc_next_node n_curr c_id u d P).
Proof. unfold calc_next_node. finish. Qed.

Lemma finishes_calc_hybrid_cost (node : Node.t) (hmap : list (list Float.t)) (P : Para.t) :
  finishes (calc_hybrid_cost node hmap P).
Proof. unfold calc_hybrid_cost. finish. Qed.

#[local] Hint Resolve finishes_calc_next_node finishes_calc_hybrid_cost : finishes.

Lemma finishes_calc_parameters (ox_grid oy_grid : list Z) (xyreso yawreso : R) :
  finishes (calc_parameters ox_grid oy_grid xyreso yawreso).
Proof.
  unfold calc_parameters.
  assert (forall l, finishes (Py.min l)) as Hmin by (intros [|]; discriminate).
  assert (forall l, finishes (Py.max l)) as Hmax by (intros [|]; discriminate).
  finish.
Qed.

#[local] Hint Resolve finishes_calc_parameters : finishes.

(** ** Successors *)

Lemma last_Ok_in {A : Type} (l : list A) (a : A) : Py.last l = Ok a -> a ∈ l.
Proof.
  unfold Py.last. induction l as [|b [|c l] IH]; simpl; [discriminate | |].
  - intros [= ->]. left.
  - intros H. right. apply IH. exact H.
Qed.

Lemma rollout_yaw_range (n : nat) (u d x y yaw : R) :
  Forall (fun s : R * R * R => - PI < s.2 <= PI) (rollout n u d x y yaw).
Proof.
  revert x y yaw. induction n as [|n IH]; intros x y yaw; simpl; constructor.
  - simpl. apply pi_2_pi_range.
  - apply IH.
Qed.

Lemma Rabs_le_bounds (a b : R) : Rabs a <= b -> - b <= a <= b.
Proof. unfold Rabs. destruct (Rcase_abs a); lra. Qed.

(** The largest yaw index a wrapped angle can round to, plus one. *)
Definition yaw_bound (P : Para.t) : Z := up (PI / Rabs (Para.yawreso P) + 1 / 2).

Lemma yaw_index_bound (P : Para.t) (yaw : R) (yawind : Z) :
  - PI < yaw <= PI ->
  grid_index (Para.yawreso P) yaw = Ok yawind ->
  (- yaw_bound P < yawind < yaw_bound P)%Z.
Proof.
  intros Hyaw H. unfold grid_index in H. bind_ok H. injection H as <-.
  apply div_inv in E as [Hne ->].
  pose proof (round_near (yaw / Para.yawreso P)) as Hr.
  assert (Rabs (yaw / Para.yawreso P) <= PI / Rabs (Para.yawreso P)) as Hq.
  { unfold Rdiv. rewrite Rabs_mult, Rabs_inv.
    apply Rmult_le_compat_r.
    - left. apply Rinv_0_lt_compat, Rabs_pos_lt, Hne.
    - apply Rabs_le. lra. }
  destruct (archimed (PI / Rabs (Para.yawreso P) + 1 / 2)) as [Hup _].
  fold (yaw_bound P) in Hup.
  set (r := Py.round _) in *. set (q := yaw / Para.yawreso P) in *.
  apply Rabs_le_bounds in Hr. apply Rabs_le_bounds in Hq.
  split; apply lt_IZR; [rewrite opp_IZR |]; lra.
Qed.

(** What a successful expansion guarantees about the child. *)
Record child_ok (P : Para.t) (c_id : Z) (node : Node.t) : Prop := {
  child_x : (Para.minx P < Node.xind node < Para.maxx P)%Z;
  child_y : (Para.miny P < Node.yind node < Para.maxy P)%Z;
  child_yawind : (- yaw_bound P < Node.yawind node < yaw_bound P)%Z;
  child_yaw : Forall (fun yaw => - PI < yaw <= PI) (Node.yaw node);
  child_pind : Node.pind node = c_id
}.

Lemma is_index_ok_bounds (xind yind : Z) (xlist ylist yawlist : list R) (P : Para.t) :
  is_index_ok xind yind xlist ylist yawlist P = Ok true ->
  (Para.minx P < xind < Para.maxx P /\ Para.miny P < yind < Para.maxy P)%Z.
Proof.
  unfold is_index_ok.
  destruct (_ || _) eqn:E; [discriminate |]. intros _.
  apply orb_false_iff in E as [E E4]. apply orb_false_iff in E as [E E3].
  apply orb_false_iff in E as [E1 E2].
  rewrite Z.geb_leb in E2, E4. apply Z.leb_gt in E1, E2, E3, E4.
  lia.
Qed.

Lemma calc_next_node_child (n_curr : Node.t) (c_id : Z) (u d : R) (P : Para.t)
    (node : Node.t) :
  calc_next_node n_curr c_id u d P = Ok (Some node) -> child_ok P c_id node.
Proof.
  intros H. unfold calc_next_node in H. repeat bind_ok H.
  destruct a8; simpl in H; [| discriminate].
  apply is_index_ok_bounds in E8 as [Hx Hy].
  set (samples := rollout _ u d a a1 a0) in *.
  pose proof (rollout_yaw_range (S (Z.to_nat (Py.ceil (C.XY_RESO * 2 / C.MOVE_STEP) - 1)))
                u d a a1 a0) as Hyaws.
  fold samples in Hyaws.
  assert (Forall (fun yaw => - PI < yaw <= PI) (List.map (fun s : R * R * R => s.2) samples))
    as Hrange.
  { apply Forall_fmap. exact Hyaws. }
  assert (- PI < a6 <= PI) as Ha6.
  { apply last_Ok_in in E6. rewrite Forall_forall in Hrange. apply Hrange, E6. }
  pose proof (yaw_index_bound P a6 a7 Ha6 E7) as Hyi.
  destruct (bool_decide (0 < d)); injection H as <-; constructor; simpl; auto.
Qed.

(** ** The hybrid search: loop invariant *)

Section SearchInvariant.

Variable calc_all_paths : R -> R -> R -> R -> R -> R -> R -> R -> list RSPath.t.
Variable P : Para.t.
Variable hmap : list (list Float.t).
Variable ngoal nstart : Node.t.
Variable motion : list (R * R).

(** [node] is [d] parent links away from the start node, all of them
    resolved by the closed set. *)
Inductive rooted (closed : gmap Z Node.t) : nat -> Node.t -> Prop :=
| rooted_start : rooted closed 0 nstart
| rooted_child (d : nat) (node parent : Node.t) :
    closed !! Node.pind node = Some parent ->
    rooted closed d parent ->
    rooted closed (S d) node.

Lemma rooted_mono (closed closed' : gmap Z Node.t) (d : nat) (node : Node.t) :
  closed ⊆ closed' -> rooted closed d node -> rooted closed' d node.
Proof.
  intros Hsub. induction 1 as [|d node parent Hp _ IH]; [constructor |].
  econstructor; [| exact IH]. eapply lookup_weaken; eauto.
Qed.

(** A node stored under key [k]: the key is the node's index, the node is
    the start node or a checked successor, and its parent chain leads to the
    start node through the closed set. *)
Definition snode_ok (closed : gmap Z Node.t) (k : Z) (n : Node.t) : Prop :=
  calc_index n P = k
  /\ (n = nstart \/ child_ok P (Node.pind n) n)
  /\ exists d, rooted closed d n.

(** The invariant of the inner [for] loop, for a fixed closed set. *)
Definition expand_inv (closed : gmap Z Node.t)
    (oq : gmap Z Node.t * QueuePrior.t Z) : Prop :=
  (forall k, k ∈ oq.2.*1 <-> k ∈ dom oq.1)
  /\ (forall k, k ∈ dom oq.1 -> k ∉ dom closed)
  /\ (forall k n, oq.1 !! k = Some n -> snode_ok closed k n).

(** The invariant of the [while] loop. *)
Record search_inv (st : Search.state) : Prop := {
  sinv_expand : expand_inv (Search.closed_set st) (Search.open_set st, Search.qp st);
  sinv_closed : forall k n, Search.closed_set st !! k = Some n ->
                            snode_ok (Search.closed_set st) k n
}.

Lemma expand_preserves (closed : gmap Z Node.t) (ind : Z) (n_curr : Node.t)
    (oq oq' : gmap Z Node.t * QueuePrior.t Z) (ud : R * R) :
  closed !! ind = Some n_curr ->
  (exists d, rooted closed d n_curr) ->
  expand P hmap closed ind n_curr oq ud = Ok oq' ->
  expand_inv closed oq -> expand_inv closed oq'.
Proof.
  intros Hcurr [d Hd] H Hinv. pose proof Hinv as (Hq & Hdis & Hok).
  unfold expand in H. bind_ok H.
  destruct a as [node|]; [| injection H as <-; exact Hinv].
  set (node_ind := calc_index node P) in *.
  destruct (closed !! node_ind) eqn:Hclosed; [injection H as <-; exact Hinv |].
  assert (snode_ok closed node_ind node) as Hnode.
  { pose proof (calc_next_node_child _ _ _ _ _ _ E) as Hchild.
    split; [reflexivity |]. split.
    - right. rewrite (child_pind _ _ _ Hchild). exact Hchild.
    - exists (S d). econstructor; [| exact Hd]. rewrite (child_pind _ _ _ Hchild). exact Hcurr. }
  assert (forall f, expand_inv closed
            (<[node_ind := node]> oq.1, QueuePrior.put oq.2 node_ind f)) as Hins.
  { intros f. split; [| split]; cbn [fst snd].
    - intros k. rewrite put_keys, dom_insert, elem_of_union, elem_of_singleton, Hq. tauto.
    - intros k. rewrite dom_insert, elem_of_union, elem_of_singleton.
      intros [-> | Hk]; [apply not_elem_of_dom; exact Hclosed | apply Hdis, Hk].
    - intros k n. rewrite lookup_insert. case_decide as Hk; [| apply Hok].
      intros [= <-]. subst k. exact Hnode. }
  destruct (oq.1 !! node_ind) as [o|] eqn:Ho.
  - case_bool_decide; [| injection H as <-; exact Hinv].
    bind_ok H. injection H as <-. apply Hins.
  - bind_ok H. injection H as <-. apply Hins.
Qed.

Lemma expand_all_preserves (closed : gmap Z Node.t) (ind : Z) (n_curr : Node.t)
    (prims : list (R * R)) (oq oq' : gmap Z Node.t * QueuePrior.t Z) :
  closed !! ind = Some n_curr ->
  (exists d, rooted closed d n_curr) ->
  expand_all P hmap closed ind n_curr oq prims = Ok oq' ->
  expand_inv closed oq -> expand_inv closed oq'.
Proof.
  intros Hcurr Hd. revert oq.
  induction prims as [|ud prims IH]; intros oq H Hinv; simpl in H.
  - injection H as <-. exact Hinv.
  - bind_ok H. eapply IH; [exact H |]. eapply expand_preserves; eauto.
Qed.

(** The first half of a pass, shared by both ways of leaving it: the popped
    key moves from the open set to the closed set. *)
Lemma pop_inv (st : Search.state) (ind : Z) (qp : QueuePrior.t Z) (n_curr : Node.t) :
  search_inv st ->
  QueuePrior.get (Search.qp st) = Ok (ind, qp) ->
  Search.open_set st !! ind = Some n_curr ->
  (ind ∉ dom (Search.closed_set st))
  /\ Search.closed_set st ⊆ <[ind := n_curr]> (Search.closed_set st)
  /\ (exists d, rooted (<[ind := n_curr]> (Search.closed_set st)) d n_curr)
  /\ calc_index n_curr P = ind
  /\ expand_inv (<[ind := n_curr]> (Search.closed_set st))
                (delete ind (Search.open_set st), qp)
  /\ (forall k n, <[ind := n_curr]> (Search.closed_set st) !! k = Some n ->
                  snode_ok (<[ind := n_curr]> (Search.closed_set st)) k n).
Proof.
  intros [(Hq & Hdis & Hok) Hcl] Hget Hn. cbn [fst snd] in *.
  destruct (get_spec _ _ _ Hget) as (Hin & Hq' & _).
  assert (ind ∉ dom (Search.closed_set st)) as Hfresh
    by (apply Hdis, elem_of_dom; eauto).
  assert (Search.closed_set st ⊆ <[ind := n_curr]> (Search.closed_set st)) as Hsub
    by (apply insert_subseteq, not_elem_of_dom, Hfresh).
  assert (forall k n, snode_ok (Search.closed_set st) k n ->
                      snode_ok (<[ind := n_curr]> (Search.closed_set st)) k n) as Hup.
  { intros k n (Hk & Hc & d & Hd). split; [exact Hk |]. split; [exact Hc |].
    exists d. eapply rooted_mono; eauto. }
  destruct (Hup _ _ (Hok _ _ Hn)) as (Hk & Hc & Hd).
  split; [exact Hfresh |]. split; [exact Hsub |]. split; [exact Hd |]. split; [exact Hk |].
  split.
  - split; [| split]; cbn [fst snd].
    + intros k. rewrite Hq', Hq, dom_delete, elem_of_difference, elem_of_singleton. reflexivity.
    + intros k. rewrite dom_delete, elem_of_difference, elem_of_singleton.
      rewrite dom_insert, elem_of_union, elem_of_singleton.
      intros [Hk' Hne] [Hc' | Hc']; [contradiction | apply (Hdis k); assumption].
    + intros k n. rewrite lookup_delete. case_decide; [discriminate |].
      intros Hkn. apply Hup, Hok, Hkn.
  - intros k n. rewrite lookup_insert. case_decide as Hkk.
    + intros [= <-]. subst k. apply Hup, (Hok _ _ Hn).
    + intros Hkn. apply Hup, Hcl, Hkn.
Qed.

Lemma search_continue_inv (st st' : Search.state) :
  iteration calc_all_paths P hmap ngoal motion st = Ok (Search.Continue st') ->
  search_inv st ->
  exists ind qp n_curr,
    QueuePrior.get (Search.qp st) = Ok (ind, qp)
    /\ Search.open_set st !! ind = Some n_curr
    /\ (ind ∉ dom (Search.closed_set st))
    /\ update_node_with_analystic_expantion calc_all_paths n_curr ngoal P = Ok None
    /\ Search.closed_set st' = <[ind := n_curr]> (Search.closed_set st)
    /\ search_inv st'.
Proof.
  intros H Hinv. unfold iteration in H.
  case_bool_decide as Hempty; [discriminate |].
  bind_ok H. destruct a as [ind qp].
  bind_ok H. rename a into n_curr.
  bind_ok H. destruct a as [fpath|]; [discriminate |].
  bind_ok H. destruct a as [open' qp']. injection H as <-.
  destruct (Search.open_set st !! ind) as [n|] eqn:Hn; [| discriminate].
  injection E0 as ->.
  destruct (pop_inv st ind qp n_curr Hinv E Hn) as (Hfresh & Hsub & Hd & Hk & Hexp & Hcl).
  exists ind, qp, n_curr.
  split; [exact E |]. split; [exact Hn |]. split; [exact Hfresh |]. split; [exact E1 |].
  split; [reflexivity |].
  constructor; cbn [Search.closed_set Search.open_set Search.qp fst snd].
  - eapply expand_all_preserves; [| exact Hd | exact E2 | exact Hexp].
    apply lookup_insert_eq.
  - exact Hcl.
Qed.

Lemma search_break_inv (st : Search.state) (closed : gmap Z Node.t) (fnode : Node.t) :
  iteration calc_all_paths P hmap ngoal motion st = Ok (Search.Break closed fnode) ->
  search_inv st ->
  exists ind qp n_curr,
    QueuePrior.get (Search.qp st) = Ok (ind, qp)
    /\ Search.open_set st !! ind = Some n_curr
    /\ update_node_with_analystic_expantion calc_all_paths n_curr ngoal P = Ok (Some fnode)
    /\ closed = <[ind := n_curr]> (Search.closed_set st)
    /\ exists d, rooted closed d fnode.
Proof.
  intros H Hinv. unfold iteration in H.
  case_bool_decide as Hempty; [discriminate |].
  bind_ok H. destruct a as [ind qp].
  bind_ok H. rename a into n_curr.
  bind_ok H. destruct a as [fpath|]; [| bind_ok H; discriminate].
  injection H as <- <-.
  destruct (Search.open_set st !! ind) as [n|] eqn:Hn; [| discriminate].
  injection E0 as ->.
  destruct (pop_inv st ind qp n_curr Hinv E Hn) as (Hfresh & Hsub & [d Hd] & Hk & Hexp & Hcl).
  exists ind, qp, n_curr.
  split; [exact E |]. split; [exact Hn |]. split; [exact E1 |]. split; [reflexivity |].
  exists (S d). econstructor; [| exact Hd].
  unfold update_node_with_analystic_expantion in E1. bind_ok E1.
  destruct a as [path|]; [| discriminate]. injection E1 as <-.
  cbn [Node.pind]. rewrite Hk. apply lookup_insert_eq.
Qed.

End SearchInvariant.

(** ** The hybrid search: runs and termination *)

Section SearchRun.

Variable calc_all_paths : R -> R -> R -> R -> R -> R -> R -> R -> list RSPath.t.

Lemma finishes_first_collision_free (n : nat) (paths : list RSPath.t)
    (pq : QueuePrior.t nat) (P : Para.t) :
  (length pq <= n)%nat -> finishes (first_collision_free n paths pq P).
Proof.
  revert pq. induction n as [|n IH]; intros pq Hlen.
  - destruct pq; [discriminate | simpl in Hlen; lia].
  - simpl. destruct (QueuePrior.empty pq); [discriminate |].
    apply finishes_bind; [apply finishes_queue_get |]. intros [k pq'] Hget.
    apply get_spec in Hget as (_ & _ & Hlt).
    finish. apply IH. lia.
Qed.

Lemma finishes_analystic_expantion (node ngoal : Node.t) (P : Para.t) :
  finishes (analystic_expantion calc_all_paths node ngoal P).
Proof.
  unfold analystic_expantion. finish.
  apply finishes_first_collision_free. lia.
Qed.

Lemma finishes_update_node (n_curr ngoal : Node.t) (P : Para.t) :
  finishes (update_node_with_analystic_expantion calc_all_paths n_curr ngoal P).
Proof.
  unfold update_node_with_analystic_expantion.
  apply finishes_bind; [apply finishes_analystic_expantion |].
  intros [path|] _; discriminate.
Qed.

Variable P : Para.t.
Variable hmap : list (list Float.t).
Variable ngoal nstart : Node.t.
Variable motion : list (R * R).

Lemma finishes_expand_all (closed : gmap Z Node.t) (ind : Z) (n_curr : Node.t)
    (prims : list (R * R)) (oq : gmap Z Node.t * QueuePrior.t Z) :
  finishes (expand_all P hmap closed ind n_curr oq prims).
Proof.
  revert oq. induction prims as [|ud prims IH]; intros oq; simpl; [discriminate |].
  apply finishes_bind; [unfold expand; finish | intros; apply IH].
Qed.

Lemma finishes_iteration (st : Search.state) :
  finishes (iteration calc_all_paths P hmap ngoal motion st).
Proof.
  unfold iteration. case_bool_decide; [discriminate |].
  apply finishes_bind; [apply finishes_queue_get |]. intros [ind qp] _.
  apply finishes_bind; [apply finishes_item |]. intros n_curr _.
  apply finishes_bind; [apply finishes_update_node |]. intros [fpath|] _; [discriminate |].
  apply finishes_bind; [apply finishes_expand_all | intros; discriminate].
Qed.

(** [st'] is the state at the head of the loop [n] passes after [st]; none
    of these passes left the loop, so in each of them the analytic expansion
    failed. *)
Inductive search_reaches : nat -> Search.state -> Search.state -> Prop :=
| search_here (st : Search.state) : search_reaches 0 st st
| search_pass (n : nat) (st st' st'' : Search.state) :
    iteration calc_all_paths P hmap ngoal motion st = Ok (Search.Continue st') ->
    search_reaches n st' st'' ->
    search_reaches (S n) st st''.

Lemma search_return_none (st : Search.state) :
  iteration calc_all_paths P hmap ngoal motion st = Ok Search.ReturnNone
  <-> Search.open_set st = ∅.
Proof.
  unfold iteration. case_bool_decide as E.
  - split; auto.
  - split; [| contradiction]. intros H. exfalso.
    bind_ok H. destruct a as [ind qp]. bind_ok H. bind_ok H.
    destruct a0; [discriminate |]. bind_ok H. discriminate.
Qed.

Lemma search_None (fuel : nat) (st : Search.state) :
  search calc_all_paths fuel P hmap ngoal motion st = Ok None
  <-> exists n st', (n < fuel)%nat /\ search_reaches n st st' /\ Search.open_set st' = ∅.
Proof.
  revert st. induction fuel as [|fuel IH]; intros st; simpl.
  - split; [discriminate | intros (n & _ & Hn & _); lia].
  - split.
    + intros H. bind_ok H. destruct a as [| |st1]; [| discriminate |].
      * exists 0%nat, st. split; [lia |]. split; [constructor | apply search_return_none, E].
      * apply IH in H as (n & st' & Hn & Hr & He).
        exists (S n), st'. split; [lia |]. split; [econstructor; eauto | exact He].
    + intros (n & st' & Hn & Hr & He). inversion Hr; subst.
      * apply search_return_none in He. rewrite He. reflexivity.
      * rewrite H. simpl. apply IH. exists n0, st'. split; [lia | auto].
Qed.

Lemma search_Some (fuel : nat) (st : Search.state) (closed : gmap Z Node.t)
    (fnode : Node.t) :
  search calc_all_paths fuel P hmap ngoal motion st = Ok (Some (closed, fnode))
  <-> exists n st', (n < fuel)%nat /\ search_reaches n st st'
        /\ iteration calc_all_paths P hmap ngoal motion st' = Ok (Search.Break closed fnode).
Proof.
  revert st. induction fuel as [|fuel IH]; intros st; simpl.
  - split; [discriminate | intros (n & _ & Hn & _); lia].
  - split.
    + intros H. bind_ok H. destruct a as [|c f|st1]; [discriminate | |].
      * injection H as -> ->. exists 0%nat, st. split; [lia |]. split; [constructor | exact E].
      * apply IH in H as (n & st' & Hn & Hr & He).
        exists (S n), st'. split; [lia |]. split; [econstructor; eauto | exact He].
    + intros (n & st' & Hn & Hr & He). inversion Hr; subst.
      * rewrite He. reflexivity.
      * rewrite H. simpl. apply IH. exists n0, st'. split; [lia | auto].
Qed.

Lemma search_mono (fuel fuel' : nat) (st : Search.state) :
  finishes (search calc_all_paths fuel P hmap ngoal motion st) -> (fuel <= fuel')%nat ->
  search calc_all_paths fuel' P hmap ngoal motion st
  = search calc_all_paths fuel P hmap ngoal motion st.
Proof.
  revert fuel' st. induction fuel as [|fuel IH]; intros fuel' st Hf Hle.
  - exfalso. apply Hf. reflexivity.
  - destruct fuel' as [|fuel']; [lia |]. simpl in *.
    destruct (iteration calc_all_paths P hmap ngoal motion st) as [[| |st1]|e];
      simpl in *; try reflexivity.
    apply IH; [exact Hf | lia].
Qed.

(** The keys the search can ever use: the start node's and those of the
    cells strictly inside the bounds, for every yaw index a wrapped angle
    can round to. *)
Definition hybrid_keys : gset Z :=
  {[calc_index nstart P]}
  ∪ list_to_set
      (x ← seqZ (Para.minx P + 1) (Para.maxx P - Para.minx P - 1);
       y ← seqZ (Para.miny P + 1) (Para.maxy P - Para.miny P - 1);
       yaw ← seqZ (- yaw_bound P + 1) (2 * yaw_bound P - 1);
       [((yaw - Para.minyaw P) * Para.xw P * Para.yw P
         + (y - Para.miny P) * Para.xw P + (x - Para.minx P))%Z]).

Lemma snode_ok_key (closed : gmap Z Node.t) (k : Z) (n : Node.t) :
  snode_ok P nstart closed k n -> k ∈ hybrid_keys.
Proof.
  intros (Hk & [-> | Hc] & _); unfold hybrid_keys; apply elem_of_union.
  - left. apply elem_of_singleton. auto.
  - right. destruct Hc as [Hx Hy Hyaw _ _].
    apply elem_of_list_to_set, list_elem_of_bind.
    exists (Node.xind n). split; [| apply elem_of_seqZ; lia].
    apply list_elem_of_bind.
    exists (Node.yind n). split; [| apply elem_of_seqZ; lia].
    apply list_elem_of_bind.
    exists (Node.yawind n). split; [| apply elem_of_seqZ; lia].
    apply list_elem_of_singleton. rewrite <- Hk. reflexivity.
Qed.

Definition search_measure (st : Search.state) : nat :=
  size (hybrid_keys ∖ dom (Search.closed_set st)).

Lemma search_measure_decreases (st st' : Search.state) :
  iteration calc_all_paths P hmap ngoal motion st = Ok (Search.Continue st') ->
  search_inv P nstart st ->
  (search_measure st' < search_measure st)%nat.
Proof.
  intros H Hinv.
  destruct (search_continue_inv calc_all_paths P hmap ngoal nstart motion st st' H Hinv)
    as (ind & qp & n_curr & _ & Hn & Hfresh & _ & Hcl & _).
  unfold search_measure. rewrite Hcl. apply subset_size.
  assert (ind ∈ hybrid_keys) as Hk.
  { apply (snode_ok_key (Search.closed_set st) ind n_curr).
    destruct Hinv as [(_ & _ & Hok) _]. apply Hok. exact Hn. }
  split.
  - intros k. rewrite !elem_of_difference, dom_insert, elem_of_union.
    intros [Hin Hout]. split; [exact Hin | intros Hc; apply Hout; right; exact Hc].
  - intros Hsub. specialize (Hsub ind).
    rewrite !elem_of_difference, dom_insert, elem_of_union, elem_of_singleton in Hsub.
    destruct Hsub as [_ Hsub]; [split; assumption |]. apply Hsub. left. reflexivity.
Qed.

Lemma search_finishes (fuel : nat) (st : Search.state) :
  search_inv P nstart st ->
  (search_measure st < fuel)%nat ->
  finishes (search calc_all_paths fuel P hmap ngoal motion st).
Proof.
  revert st. induction fuel as [|fuel IH]; intros st Hinv Hm; [lia |].
  simpl. apply finishes_bind; [apply finishes_iteration |].
  intros [| |st1] H; [discriminate | discriminate |].
  apply IH.
  - destruct (search_continue_inv calc_all_paths P hmap ngoal nstart motion st st1 H Hinv)
      as (? & ? & ? & ? & ? & ? & ? & ? & Hi). exact Hi.
  - pose proof (search_measure_decreases st st1 H Hinv). lia.
Qed.

Lemma search_reaches_inv (n : nat) (st st' : Search.state) :
  search_reaches n st st' -> search_inv P nstart st -> search_inv P nstart st'.
Proof.
  induction 1 as [|n st st1 st2 H _ IH]; intros Hinv; [exact Hinv |].
  apply IH.
  destruct (search_continue_inv calc_all_paths P hmap ngoal nstart motion st st1 H Hinv)
    as (? & ? & ? & ? & ? & ? & ? & ? & Hi). exact Hi.
Qed.

(** *** Path extraction *)

Lemma is_same_grid_refl (n : Node.t) : is_same_grid n n = true.
Proof. unfold is_same_grid. rewrite !Z.eqb_refl. reflexivity. Qed.

Lemma extract_walk_finishes (fuel : nat) (closed : gmap Z Node.t) (d : nat)
    (node : Node.t) (acc : list R * list R * list R * list Z * R) :
  rooted nstart closed d node -> (d < fuel)%nat ->
  finishes (extract_walk fuel closed nstart node acc).
Proof.
  intros Hr. revert fuel acc.
  induction Hr as [|d node parent Hp _ IH]; intros fuel acc Hd;
    (destruct fuel as [|fuel]; [lia |]); simpl;
    destruct acc as [[[[rx ry] ryaw] direc] cost].
  - rewrite is_same_grid_refl. discriminate.
  - destruct (is_same_grid node nstart); [discriminate |].
    rewrite Hp. simpl. apply IH. lia.
Qed.

Lemma extract_walk_mono (fuel fuel' : nat) (closed : gmap Z Node.t) (node : Node.t)
    (acc : list R * list R * list R * list Z * R) :
  finishes (extract_walk fuel closed nstart node acc) -> (fuel <= fuel')%nat ->
  extract_walk fuel' closed nstart node acc = extract_walk fuel closed nstart node acc.
Proof.
  revert fuel' node acc. induction fuel as [|fuel IH]; intros fuel' node acc Hf Hle.
  - exfalso. apply Hf. reflexivity.
  - destruct fuel' as [|fuel']; [lia |]. simpl in *.
    destruct acc as [[[[rx ry] ryaw] direc] cost].
    destruct (is_same_grid node nstart); [reflexivity |].
    destruct (closed !! Node.pind node) as [p|]; simpl in *; [| reflexivity].
    apply IH; [exact Hf | lia].
Qed.

Lemma extract_path_finishes (fuel : nat) (closed : gmap Z Node.t) (d : nat)
    (fnode : Node.t) :
  rooted nstart closed d fnode -> (d < fuel)%nat ->
  finishes (extract_path fuel closed fnode nstart).
Proof.
  intros Hr Hd. unfold extract_path.
  apply finishes_bind; [eapply extract_walk_finishes; eauto |].
  intros [[[[rx ry] ryaw] direc] cost] _. finish.
Qed.

Lemma extract_path_mono (fuel fuel' : nat) (closed : gmap Z Node.t) (fnode : Node.t) :
  finishes (extract_path fuel closed fnode nstart) -> (fuel <= fuel')%nat ->
  extract_path fuel' closed fnode nstart = extract_path fuel closed fnode nstart.
Proof.
  intros Hf Hle. unfold extract_path in *.
  rewrite (extract_walk_mono fuel fuel'); [reflexivity | | exact Hle].
  intros Hw. apply Hf. rewrite Hw. reflexivity.
Qed.

End SearchRun.

(** ** The planner as a whole *)

Lemma finishes_bind_inv {A B : Type} (m : res A) (k : A -> res B) :
  finishes (m ≫= k) -> finishes m.
Proof. intros H ->. apply H. reflexivity. Qed.

Lemma holonomic_closed_set_mono (fuel fuel' : nat) (node : Node.t) (P : Para.t) (radius : R) :
  finishes (holonomic_closed_set fuel node P radius) -> (fuel <= fuel')%nat ->
  holonomic_closed_set fuel' node P radius = holonomic_closed_set fuel node P radius.
Proof.
  unfold holonomic_closed_set. intros Hf Hle.
  destruct (holonomic_goal node P) as [goal|]; simpl in *; [| reflexivity].
  destruct (obstacles_map P radius) as [obsmap|]; simpl in *; [| reflexivity].
  apply finishes_bind_inv in Hf.
  rewrite (dijkstra_loop_mono P obsmap fuel fuel'); auto.
Qed.

Lemma holonomic_heuristic_mono (fuel fuel' : nat) (node : Node.t) (P : Para.t) (radius : R) :
  finishes (calc_holonomic_heuristic_with_obstacle fuel node P radius) ->
  (fuel <= fuel')%nat ->
  calc_holonomic_heuristic_with_obstacle fuel' node P radius
  = calc_holonomic_heuristic_with_obstacle fuel node P radius.
Proof.
  unfold calc_holonomic_heuristic_with_obstacle. intros Hf Hle.
  apply finishes_bind_inv in Hf.
  rewrite (holonomic_closed_set_mono fuel fuel'); auto.
Qed.

Section Planning.

Variable calc_all_paths : R -> R -> R -> R -> R -> R -> R -> R -> list RSPath.t.
Variables sx sy syaw gx gy gyaw : R.
Variables ox_grid oy_grid : list Z.
Variables xyreso yawreso radius : R.

Let prepare_at (fuel : nat) : res setup :=
  prepare fuel sx sy syaw gx gy gyaw ox_grid oy_grid xyreso yawreso radius.

Let plan_at (fuel : nat) : res (option Path.t) :=
  hybrid_astar_planning calc_all_paths fuel sx sy syaw gx gy gyaw ox_grid oy_grid
    xyreso yawreso radius.

(** What [prepare] hands to the loop: the start node carries the start pose
    as given, and it is the only entry of the open set and of the queue. *)
Lemma prepare_shape (fuel : nat) (s : setup) :
  prepare_at fuel = Ok s ->
  Node.x (nstart s) = [sx] /\ Node.y (nstart s) = [sy] /\ Node.yaw (nstart s) = [syaw]
  /\ exists f,
      initial s = Search.mk (<[calc_index (nstart s) (P s) := nstart s]> ∅) ∅
                            (QueuePrior.put QueuePrior.new (calc_index (nstart s) (P s)) f).
Proof.
  unfold prepare_at, prepare. intros H. repeat bind_ok H.
  destruct calc_motion_set as [steer_set direc_set].
  repeat bind_ok H. injection H as <-. simpl. eauto 10.
Qed.

Lemma prepare_mono (fuel fuel' : nat) :
  finishes (prepare_at fuel) -> (fuel <= fuel')%nat -> prepare_at fuel' = prepare_at fuel.
Proof.
  unfold prepare_at, prepare. intros Hf Hle.
  repeat match goal with
         | H : finishes (?m ≫= _) |- _ =>
             lazymatch m with
             | calc_holonomic_heuristic_with_obstacle _ _ _ _ => fail
             | _ => destruct m; simpl in *; [| reflexivity]
             end
         end.
  apply finishes_bind_inv in Hf.
  rewrite (holonomic_heuristic_mono fuel fuel'); auto.
Qed.

Lemma prepare_finishes :
  exists fuel, forall fuel', (fuel <= fuel')%nat -> finishes (prepare_at fuel').
Proof.
  unfold prepare_at, prepare.
  destruct (grid_index xyreso sx) as [sxr|e] eqn:E1; simpl;
    [| exists 0%nat; intros ? _; pose proof (finishes_grid_index xyreso sx) as F;
       rewrite E1 in F; intros [= ->]; apply F; reflexivity].
  destruct (grid_index xyreso sy) as [syr|e] eqn:E2; simpl;
    [| exists 0%nat; intros ? _; pose proof (finishes_grid_index xyreso sy) as F;
       rewrite E2 in F; intros [= ->]; apply F; reflexivity].
  destruct (grid_index xyreso gx) as [gxr|e] eqn:E3; simpl;
    [| exists 0%nat; intros ? _; pose proof (finishes_grid_index xyreso gx) as F;
       rewrite E3 in F; intros [= ->]; apply F; reflexivity].
  destruct (grid_index xyreso gy) as [gyr|e] eqn:E4; simpl;
    [| exists 0%nat; intros ? _; pose proof (finishes_grid_index xyreso gy) as F;
       rewrite E4 in F; intros [= ->]; apply F; reflexivity].
  destruct (grid_index yawreso (rs.pi_2_pi syaw)) as [syawr|e] eqn:E5; simpl;
    [| exists 0%nat; intros ? _; pose proof (finishes_grid_index yawreso (rs.pi_2_pi syaw)) as F;
       rewrite E5 in F; intros [= ->]; apply F; reflexivity].
  destruct (grid_index yawreso (rs.pi_2_pi gyaw)) as [gyawr|e] eqn:E6; simpl;
    [| exists 0%nat; intros ? _; pose proof (finishes_grid_index yawreso (rs.pi_2_pi gyaw)) as F;
       rewrite E6 in F; intros [= ->]; apply F; reflexivity].
  destruct (calc_parameters ox_grid oy_grid xyreso yawreso) as [P0|e] eqn:E7; simpl;
    [| exists 0%nat; intros ? _;
       pose proof (finishes_calc_parameters ox_grid oy_grid xyreso yawreso) as F;
       rewrite E7 in F; intros [= ->]; apply F; reflexivity].
  set (goal_node := Node.mk gxr gyr gyawr 1 [gx] [gy] [gyaw] [1%Z] 0 0 (-1)).
  destruct (holonomic_heuristic_finishes goal_node P0 radius) as [fuel Hfuel].
  exists fuel. intros fuel' Hle.
  apply finishes_bind; [apply Hfuel, Hle |]. intros hmap0 _.
  destruct calc_motion_set as [steer_set direc_set]. finish.
Qed.

Lemma search_initial_inv (P0 : Para.t) (start : Node.t) (f : Float.t) :
  search_inv P0 start
    (Search.mk (<[calc_index start P0 := start]> ∅) ∅
               (QueuePrior.put QueuePrior.new (calc_index start P0) f)).
Proof.
  constructor; cbn [Search.closed_set Search.open_set Search.qp].
  - split; [| split]; cbn [fst snd].
    + intros k. rewrite put_keys, dom_insert, dom_empty, elem_of_union, elem_of_singleton.
      unfold QueuePrior.new. simpl. rewrite elem_of_empty.
      split; [intros [-> | Hk]; [auto | inversion Hk] | intros [-> | []]; auto].
    + intros k _. rewrite dom_empty. apply not_elem_of_empty.
    + intros k n. rewrite lookup_insert. case_decide as Hk; [| rewrite lookup_empty; discriminate].
      intros [= <-]. split; [exact Hk |]. split; [left; reflexivity |].
      exists 0%nat. constructor.
  - intros k n. rewrite lookup_empty. discriminate.
Qed.

Lemma prepare_inv (fuel : nat) (s : setup) :
  prepare_at fuel = Ok s -> search_inv (P s) (nstart s) (initial s).
Proof.
  intros H. apply prepare_shape in H as (_ & _ & _ & f & ->). apply search_initial_inv.
Qed.

(** The planner terminates: with enough budget its outcome is [None], a
    path or a Python exception. *)
Lemma planning_finishes : exists fuel, finishes (plan_at fuel).
Proof.
  destruct prepare_finishes as [fuel1 H1].
  destruct (prepare_at fuel1) as [s|e] eqn:Eprep.
  2:{ exists fuel1. unfold plan_at, hybrid_astar_planning. fold (prepare_at fuel1).
      rewrite Eprep. simpl. intros [= ->]. apply (H1 fuel1); [lia | exact Eprep]. }
  assert (forall fuel, (fuel1 <= fuel)%nat -> prepare_at fuel = Ok s) as Hprep.
  { intros fuel Hle. rewrite (prepare_mono fuel1 fuel); [exact Eprep | | exact Hle].
    apply H1. lia. }
  pose proof (prepare_inv fuel1 s Eprep) as Hinv.
  set (fuel2 := (fuel1 + S (search_measure (P s) (nstart s) (initial s)))%nat).
  assert (finishes (search calc_all_paths fuel2 (P s) (hmap s) (ngoal s) (motion s) (initial s)))
    as Hs.
  { apply (search_finishes calc_all_paths (P s) (hmap s) (ngoal s) (nstart s)); [exact Hinv |].
    unfold fuel2. lia. }
  destruct (search calc_all_paths fuel2 (P s) (hmap s) (ngoal s) (motion s) (initial s))
    as [[[closed fnode]|]|e] eqn:Es.
  - apply search_Some in Es as Hrun. destruct Hrun as (n & st' & _ & Hr & Hb).
    apply search_reaches_inv with (nstart := nstart s) in Hr; [| exact Hinv].
    destruct (search_break_inv _ _ _ _ _ _ _ _ _ Hb Hr) as (_ & _ & _ & _ & _ & _ & _ & d & Hd).
    exists (fuel2 + S d)%nat.
    unfold plan_at, hybrid_astar_planning. fold (prepare_at (fuel2 + S d)).
    rewrite Hprep by (unfold fuel2; lia). simpl.
    rewrite (search_mono calc_all_paths (P s) (hmap s) (ngoal s) (motion s)
               fuel2 (fuel2 + S d) (initial s)); [| rewrite Es; discriminate | lia].
    rewrite Es. simpl.
    apply finishes_bind; [| intros; discriminate].
    eapply extract_path_finishes; [exact Hd | lia].
  - exists fuel2. unfold plan_at, hybrid_astar_planning. fold (prepare_at fuel2).
    rewrite Hprep by (unfold fuel2; lia). simpl. rewrite Es. discriminate.
  - exists fuel2. unfold plan_at, hybrid_astar_planning. fold (prepare_at fuel2).
    rewrite Hprep by (unfold fuel2; lia). simpl. rewrite Es. simpl.
    intros [= ->]. apply Hs. reflexivity.
Qed.

(** A larger budget does not change an outcome that was reached. *)
Lemma planning_mono (fuel fuel' : nat) :
  finishes (plan_at fuel) -> (fuel <= fuel')%nat -> plan_at fuel' = plan_at fuel.
Proof.
  unfold plan_at, hybrid_astar_planning. fold (prepare_at fuel) (prepare_at fuel').
  intros Hf Hle.
  rewrite (prepare_mono fuel fuel'); [| eapply finishes_bind_inv; exact Hf | exact Hle].
  destruct (prepare_at fuel) as [s|e]; simpl in *; [| reflexivity].
  rewrite (search_mono _ _ _ _ _ fuel fuel'); [| eapply finishes_bind_inv; exact Hf | exact Hle].
  destruct (search calc_all_paths fuel (P s) (hmap s) (ngoal s) (motion s) (initial s))
    as [[[closed fnode]|]|e]; simpl in *; try reflexivity.
  rewrite (extract_path_mono _ fuel fuel'); [reflexivity | | exact Hle].
  eapply finishes_bind_inv; exact Hf.
Qed.

End Planning.

(** A pass leaves the loop by [break] exactly when the analytic expansion
    from the popped node succeeds, and goes on only when it fails. *)
Lemma break_is_rs_success (calc_all_paths : R -> R -> R -> R -> R -> R -> R -> R -> list RSPath.t)
    (P : Para.t) (hmap : list (list Float.t)) (ngoal : Node.t) (motion : list (R * R))
    (st : Search.state) (closed : gmap Z Node.t) (fnode : Node.t) :
  iteration calc_all_paths P hmap ngoal motion st = Ok (Search.Break closed fnode)
  <-> Search.open_set st <> ∅
      /\ exists ind qp n_curr,
          QueuePrior.get (Search.qp st) = Ok (ind, qp)
          /\ Search.open_set st !! ind = Some n_curr
          /\ update_node_with_analystic_expantion calc_all_paths n_curr ngoal P = Ok (Some fnode)
          /\ closed = <[ind := n_curr]> (Search.closed_set st).
Proof.
  unfold iteration. case_bool_decide as Hempty.
  - split; [discriminate | intros [H _]; contradiction].
  - split.
    + intros H. split; [exact Hempty |].
      bind_ok H. destruct a as [ind qp]. bind_ok H. rename a into n_curr.
      bind_ok H. destruct a as [fpath|]; [| bind_ok H; discriminate].
      injection H as <- <-.
      destruct (Search.open_set st !! ind) as [n|] eqn:Hn; [| discriminate].
      injection E0 as ->. exists ind, qp, n_curr. auto.
    + intros (_ & ind & qp & n_curr & Hg & Hn & Hu & ->).
      rewrite Hg. simpl. rewrite Hn. simpl. rewrite Hu. reflexivity.
Qed.

Lemma continue_is_rs_failure (calc_all_paths : R -> R -> R -> R -> R -> R -> R -> R -> list RSPath.t)
    (P : Para.t) (hmap : list (list Float.t)) (ngoal : Node.t) (motion : list (R * R))
    (st st' : Search.state) :
  iteration calc_all_paths P hmap ngoal motion st = Ok (Search.Continue st') ->
  Search.open_set st <> ∅
  /\ exists ind qp n_curr,
      QueuePrior.get (Search.qp st) = Ok (ind, qp)
      /\ Search.open_set st !! ind = Some n_curr
      /\ update_node_with_analystic_expantion calc_all_paths n_curr ngoal P = Ok None.
Proof.
  unfold iteration. case_bool_decide as Hempty; [discriminate |].
  intros H. split; [exact Hempty |].
  bind_ok H. destruct a as [ind qp]. bind_ok H. rename a into n_curr.
  bind_ok H. destruct a as [fpath|]; [discriminate |].
  destruct (Search.open_set st !! ind) as [n|] eqn:Hn; [| discriminate].
  injection E0 as ->. exists ind, qp, n_curr. auto.
Qed.

(** ** What the analytic expansion decides *)

Section AnalyticOutcome.

Variable calc_all_paths : R -> R -> R -> R -> R -> R -> R -> R -> list RSPath.t.
Variable P : Para.t.
Variable hmap : list (list Float.t).
Variable ngoal : Node.t.
Variable motion : list (R * R).

(** The pass that starts in [st] pops the node [n_curr] under the key [ind],
    and [update_node_with_analystic_expantion] from it to the goal returns
    [update]: [None] for [(False, None)], [Some fpath] for [(True, fpath)]. *)
Definition rs_attempt (st : Search.state) (ind : Z) (qp : QueuePrior.t Z) (n_curr : Node.t)
    (update : option Node.t) : Prop :=
  Search.open_set st <> ∅
  /\ QueuePrior.get (Search.qp st) = Ok (ind, qp)
  /\ Search.open_set st !! ind = Some n_curr
  /\ update_node_with_analystic_expantion calc_all_paths n_curr ngoal P = Ok update.

(** A pass in which the analytic expansion fails: the popped node is closed
    and its successors are merged into the open set, which gives [st']. *)
Definition rs_failure (st st' : Search.state) : Prop :=
  exists ind qp n_curr oq,
    rs_attempt st ind qp n_curr None
    /\ expand_all P hmap (<[ind := n_curr]> (Search.closed_set st)) ind n_curr
         (delete ind (Search.open_set st), qp) motion = Ok oq
    /\ st' = Search.mk oq.1 (<[ind := n_curr]> (Search.closed_set st)) oq.2.

(** A pass in which the analytic expansion succeeds with the node [fnode];
    [closed] is the closed set at that moment. *)
Definition rs_success (st : Search.state) (closed : gmap Z Node.t) (fnode : Node.t) : Prop :=
  exists ind qp n_curr,
    rs_attempt st ind qp n_curr (Some fnode)
    /\ closed = <[ind := n_curr]> (Search.closed_set st).

(** [n] passes in a row, from [st] to [st'], in each of which the analytic
    expansion failed. *)
Inductive rs_failures : nat -> Search.state -> Search.state -> Prop :=
| rs_failures_none (st : Search.state) : rs_failures 0 st st
| rs_failures_more (n : nat) (st st' st'' : Search.state) :
    rs_failure st st' -> rs_failures n st' st'' -> rs_failures (S n) st st''.

Lemma continue_iff_rs_failure (st st' : Search.state) :
  iteration calc_all_paths P hmap ngoal motion st = Ok (Search.Continue st')
  <-> rs_failure st st'.
Proof.
  unfold iteration, rs_failure, rs_attempt. case_bool_decide as Hempty.
  - split; [discriminate | intros (? & ? & ? & ? & (H & _) & _); contradiction].
  - split.
    + intros H. bind_ok H. destruct a as [ind qp]. bind_ok H. rename a into n_curr.
      bind_ok H. destruct a as [fpath|]; [discriminate |].
      bind_ok H. rename a into oq. injection H as <-.
      destruct (Search.open_set st !! ind) as [n|] eqn:Hn; [| discriminate].
      injection E0 as ->. exists ind, qp, n_curr, oq. auto 10.
    + intros (ind & qp & n_curr & oq & (_ & Hg & Hn & Hu) & He & ->).
      rewrite Hg. cbn [mbind res_bind]. rewrite Hn. cbn [Py.item mbind res_bind].
      rewrite Hu. cbn [mbind res_bind]. rewrite He. reflexivity.
Qed.

Lemma break_iff_rs_success (st : Search.state) (closed : gmap Z Node.t) (fnode : Node.t) :
  iteration calc_all_paths P hmap ngoal motion st = Ok (Search.Break closed fnode)
  <-> rs_success st closed fnode.
Proof.
  rewrite break_is_rs_success. unfold rs_success, rs_attempt. split.
  - intros (He & ind & qp & n_curr & Hg & Hn & Hu & ->). exists ind, qp, n_curr. auto.
  - intros (ind & qp & n_curr & (He & Hg & Hn & Hu) & ->).
    split; [exact He |]. exists ind, qp, n_curr. auto.
Qed.

Lemma reaches_iff_rs_failures (n : nat) (st st' : Search.state) :
  search_reaches calc_all_paths P hmap ngoal motion n st st' <-> rs_failures n st st'.
Proof.
  split.
  - induction 1 as [| n st st1 st2 H _ IH]; [constructor |].
    econstructor; [apply continue_iff_rs_failure; exact H | exact IH].
  - induction 1 as [| n st st1 st2 H _ IH]; [constructor |].
    econstructor; [apply continue_iff_rs_failure; exact H | exact IH].
Qed.

End AnalyticOutcome.

Lemma grid_index_Ok (reso x : R) :
  reso <> 0 -> grid_index reso x = Ok (Py.round (x / reso)).
Proof. intros H. unfold grid_index. rewrite div_Ok by exact H. reflexivity. Qed.

(** Without obstacles [calc_parameters] takes the minimum of an empty
    sequence. *)
Lemma no_obstacles_raise
    (calc_all_paths : R -> R -> R -> R -> R -> R -> R -> R -> list RSPath.t) (fuel : nat)
    (sx sy syaw gx gy gyaw : R) (ox_grid oy_grid : list Z) (xyreso yawreso radius : R) :
  xyreso <> 0 -> yawreso <> 0 -> ox_grid = [] \/ oy_grid = [] ->
  hybrid_astar_planning calc_all_paths fuel sx sy syaw gx gy gyaw ox_grid oy_grid
    xyreso yawreso radius
  = Raise ValueError.
Proof.
  intros Hxy Hyaw Hempty. unfold hybrid_astar_planning, prepare.
  rewrite !grid_index_Ok by assumption. cbn [mbind res_bind].
  assert (calc_parameters ox_grid oy_grid xyreso yawreso = Raise ValueError) as ->;
    [| reflexivity].
  unfold calc_parameters.
  destruct Hempty as [-> | ->]; [reflexivity |].
  destruct ox_grid; reflexivity.
Qed.

(** C4, as amended.  [hybrid_astar_planning] always terminates, with an
    outcome that does not depend on the loop budget once it is reached.  It
    returns [None] exactly when the set-up goes through and the open set
    becomes empty after passes in each of which the analytic expansion from
    the popped node failed; it returns a path exactly when the set-up goes
    through, after such passes the analytic expansion from the popped node
    succeeds, and the path extraction from the node it returns goes
    through.  Every other outcome is an exception, which nothing catches:
    without obstacles, for one, [ValueError]. *)
Theorem planning_outcome
    (calc_all_paths : R -> R -> R -> R -> R -> R -> R -> R -> list RSPath.t)
    (sx sy syaw gx gy gyaw : R) (ox_grid oy_grid : list Z) (xyreso yawreso radius : R) :
  let plan fuel :=
    hybrid_astar_planning calc_all_paths fuel sx sy syaw gx gy gyaw ox_grid oy_grid
      xyreso yawreso radius in
  let prep fuel := prepare fuel sx sy syaw gx gy gyaw ox_grid oy_grid xyreso yawreso radius in
  (exists fuel, finishes (plan fuel))
  /\ (forall fuel fuel', finishes (plan fuel) -> (fuel <= fuel')%nat -> plan fuel' = plan fuel)
  /\ (forall fuel,
        plan fuel = Ok None
        <-> exists s, prep fuel = Ok s
            /\ exists n st, (n < fuel)%nat
                /\ rs_failures calc_all_paths (P s) (hmap s) (ngoal s) (motion s) n (initial s) st
                /\ Search.open_set st = ∅)
  /\ (forall fuel path,
        plan fuel = Ok (Some path)
        <-> exists s closed fnode, prep fuel = Ok s
            /\ (exists n st, (n < fuel)%nat
                 /\ rs_failures calc_all_paths (P s) (hmap s) (ngoal s) (motion s) n (initial s) st
                 /\ rs_success calc_all_paths (P s) (ngoal s) st closed fnode)
            /\ extract_path fuel closed fnode (nstart s) = Ok path)
  /\ (xyreso <> 0 -> yawreso <> 0 -> ox_grid = [] \/ oy_grid = [] ->
      forall fuel, plan fuel = Raise ValueError).
Proof.
  intros plan prep. subst plan prep. cbv beta.
  split; [exact (planning_finishes calc_all_paths sx sy syaw gx gy gyaw ox_grid oy_grid
                   xyreso yawreso radius) |].
  split; [exact (planning_mono calc_all_paths sx sy syaw gx gy gyaw ox_grid oy_grid
                   xyreso yawreso radius) |].
  split; [| split].
  - intros fuel. unfold hybrid_astar_planning. split.
    + intros H. bind_ok H. rename a into s. exists s. split; [exact E |].
      bind_ok H. destruct a as [[closed fnode]|].
      * bind_ok H. discriminate.
      * apply search_None in E0 as (n & st & Hn & Hr & He).
        exists n, st. split; [exact Hn |].
        split; [apply reaches_iff_rs_failures; exact Hr | exact He].
    + intros (s & Hs & n & st & Hn & Hr & He). rewrite Hs.
      assert (search calc_all_paths fuel (P s) (hmap s) (ngoal s) (motion s) (initial s)
              = Ok None) as Hrun.
      { apply search_None. exists n, st. split; [exact Hn |].
        split; [apply reaches_iff_rs_failures; exact Hr | exact He]. }
      cbn [mbind res_bind]. rewrite Hrun. reflexivity.
  - intros fuel path. unfold hybrid_astar_planning. split.
    + intros H. bind_ok H. rename a into s.
      bind_ok H. destruct a as [[closed fnode]|]; [| discriminate].
      bind_ok H. injection H as <-.
      exists s, closed, fnode. split; [exact E |]. split; [| exact E1].
      apply search_Some in E0 as (n & st & Hn & Hr & Hb).
      exists n, st. split; [exact Hn |].
      split; [apply reaches_iff_rs_failures; exact Hr |].
      apply (break_iff_rs_success calc_all_paths (P s) (hmap s) (ngoal s) (motion s)).
      exact Hb.
    + intros (s & closed & fnode & Hs & (n & st & Hn & Hr & Hb) & Hpath). rewrite Hs.
      assert (search calc_all_paths fuel (P s) (hmap s) (ngoal s) (motion s) (initial s)
              = Ok (Some (closed, fnode))) as Hrun.
      { apply search_Some. exists n, st. split; [exact Hn |].
        split; [apply reaches_iff_rs_failures; exact Hr |].
        apply break_iff_rs_success. exact Hb. }
      cbn [mbind res_bind]. rewrite Hrun.
      cbn [mbind res_bind]. rewrite Hpath. reflexivity.
  - intros Hxy Hyaw Hempty fuel.
    exact (no_obstacles_raise calc_all_paths fuel sx sy syaw gx gy gyaw ox_grid oy_grid
             xyreso yawreso radius Hxy Hyaw Hempty).
Qed.

(** Without obstacles [calc_parameters] takes the minimum of an empty
    sequence. *)
Lemma empty_map_raises
    (calc_all_paths : R -> R -> R -> R -> R -> R -> R -> R -> list RSPath.t) (fuel : nat)
    (sx sy syaw gx gy gyaw xyreso yawreso radius : R) :
  xyreso <> 0 -> yawreso <> 0 ->
  hybrid_astar_planning calc_all_paths fuel sx sy syaw gx gy gyaw [] [] xyreso yawreso radius
  = Raise ValueError.
Proof.
  intros Hxy Hyaw. unfold hybrid_astar_planning, prepare.
  rewrite !grid_index_Ok by assumption. reflexivity.
Qed.

(** A Reeds-Shepp generator that finds no path. *)
Definition no_rs_path : R -> R -> R -> R -> R -> R -> R -> R -> list RSPath.t :=
  fun _ _ _ _ _ _ _ _ => [].

(** C4, counterexample to the claim as stated.  Scenario S1 of the
    specification (start [(0, 0, 0)], goal [(4, 0, 0)], no obstacles, default
    resolutions) neither returns [None] nor a path: it raises
    [ValueError]. *)
Lemma planning_raises_on_empty_map :
  hybrid_astar_planning no_rs_path 1 0 0 0 4 0 0 [] [] C.XY_RESO C.YAW_RESO C.RADIUS
  = Raise ValueError.
Proof.
  apply empty_map_raises.
  - unfold C.XY_RESO. lra.
  - unfold C.YAW_RESO. pose proof PI_RGT_0. lra.
Qed.

(** ** Closed cells are never expanded again *)

Lemma dijkstra_pop_inv (P : Para.t) (obsmap : list (list bool)) (goal : HolonomicNode.t)
    (st : Dijkstra.state) (c : R) (ind : Z) (q : list heapq.entry) (n_curr : HolonomicNode.t) :
  dijkstra_inv P obsmap goal st ->
  heapq.heappop (Dijkstra.q_priority st) = Ok ((c, ind), q) ->
  Dijkstra.open_set st !! ind = Some n_curr ->
  node_ok P obsmap goal ind n_curr
  /\ relax_inv P obsmap goal (OrderedDict.set ind n_curr (Dijkstra.closed_set st))
               (delete ind (Dijkstra.open_set st), q)
  /\ forall k, k ∈ (OrderedDict.set ind n_curr (Dijkstra.closed_set st)).*1
               <-> k = ind \/ k ∈ (Dijkstra.closed_set st).*1.
Proof.
  intros [(Hq & Hnd & Hdis & Hok) Hcl Hcnd Hgoal] Hpop Hn. cbn [fst snd] in *.
  destruct (heappop_spec _ _ _ Hnd Hpop) as (Hin & Hnd' & Hq').
  assert (ind ∉ (Dijkstra.closed_set st).*1) as Hfresh by (apply Hdis, elem_of_dom; eauto).
  rewrite (ordered_set_fresh _ _ _ Hfresh).
  assert (forall k, k ∈ (Dijkstra.closed_set st ++ [(ind, n_curr)]).*1
                    <-> k = ind \/ k ∈ (Dijkstra.closed_set st).*1) as Hkeys.
  { intros k. rewrite fmap_app, elem_of_app. simpl. rewrite list_elem_of_singleton. tauto. }
  split; [apply Hok, Hn |]. split; [| exact Hkeys].
  split; [| split; [exact Hnd' | split]]; cbn [fst snd].
  - intros k. rewrite Hq', Hq, dom_delete, elem_of_difference, elem_of_singleton. reflexivity.
  - intros k. rewrite dom_delete, elem_of_difference, elem_of_singleton, Hkeys.
    intros [Hk Hne] [Hc | Hc]; [contradiction | apply (Hdis k); assumption].
  - intros k n'. rewrite lookup_delete. case_decide; [discriminate | apply Hok].
Qed.

Lemma dijkstra_closed_grows (P : Para.t) (obsmap : list (list bool)) (goal : HolonomicNode.t)
    (st st' : Dijkstra.state) (k : Z) :
  dijkstra_reaches P obsmap st st' -> dijkstra_inv P obsmap goal st ->
  k ∈ (Dijkstra.closed_set st).*1 -> k ∈ (Dijkstra.closed_set st').*1.
Proof.
  induction 1 as [|st st1 st2 H _ IH]; intros Hinv Hk; [exact Hk |].
  destruct (iteration_inv P obsmap goal st st1 H Hinv) as (c & ind & q & n & _ & _ & _ & Hcl & Hi).
  apply IH; [exact Hi |]. rewrite Hcl, fmap_app, elem_of_app. left. exact Hk.
Qed.

Lemma search_closed_grows
    (calc_all_paths : R -> R -> R -> R -> R -> R -> R -> R -> list RSPath.t)
    (P : Para.t) (hmap : list (list Float.t)) (ngoal nstart : Node.t) (motion : list (R * R))
    (n : nat) (st st' : Search.state) (k : Z) :
  search_reaches calc_all_paths P hmap ngoal motion n st st' -> search_inv P nstart st ->
  k ∈ dom (Search.closed_set st) -> k ∈ dom (Search.closed_set st').
Proof.
  induction 1 as [|n st st1 st2 H _ IH]; intros Hinv Hk; [exact Hk |].
  destruct (search_continue_inv calc_all_paths P hmap ngoal nstart motion st st1 H Hinv)
    as (ind & qp & n_curr & _ & _ & _ & _ & Hcl & Hi).
  apply IH; [exact Hi |]. rewrite Hcl, dom_insert, elem_of_union. right. exact Hk.
Qed.

(** C7.  In the hybrid search and in the holonomic Dijkstra alike, started
    from the state the code builds: a key of the closed set is neither in
    the open set nor in the priority queue at the head of any pass, is not
    the key the pass pops, is not inserted by any round of the pass's inner
    loop, and remains in the closed set in every later pass. *)
Theorem closed_cells_never_reexpanded :
  (forall (calc_all_paths : R -> R -> R -> R -> R -> R -> R -> R -> list RSPath.t)
          (P : Para.t) (hmap : list (list Float.t)) (ngoal start : Node.t)
          (motion : list (R * R)) (f : Float.t) (n : nat) (st : Search.state),
      search_reaches calc_all_paths P hmap ngoal motion n
        (Search.mk (<[calc_index start P := start]> ∅) ∅
                   (QueuePrior.put QueuePrior.new (calc_index start P) f)) st ->
      (forall k, k ∈ dom (Search.closed_set st) ->
         (k ∉ dom (Search.open_set st))
         /\ (k ∉ (Search.qp st).*1)
         /\ (forall ind qp, QueuePrior.get (Search.qp st) = Ok (ind, qp) -> ind <> k)
         /\ (forall m st', search_reaches calc_all_paths P hmap ngoal motion m st st' ->
                           k ∈ dom (Search.closed_set st')))
      /\ (forall ind qp n_curr prims oq,
            QueuePrior.get (Search.qp st) = Ok (ind, qp) ->
            Search.open_set st !! ind = Some n_curr ->
            expand_all P hmap (<[ind := n_curr]> (Search.closed_set st)) ind n_curr
                       (delete ind (Search.open_set st), qp) prims = Ok oq ->
            forall k, k ∈ dom (<[ind := n_curr]> (Search.closed_set st)) ->
                      (k ∉ dom oq.1) /\ (k ∉ oq.2.*1)))
  /\ (forall (P : Para.t) (obsmap : list (list bool)) (gxi gyi : Z) (st : Dijkstra.state),
        let goal := HolonomicNode.mk gxi gyi 0 (-1) in
        dijkstra_reaches P obsmap
          (Dijkstra.mk (<[calc_holonomic_index goal P := goal]> ∅) []
             (heapq.heappush [] (HolonomicNode.cost goal, calc_holonomic_index goal P))) st ->
        (forall k, k ∈ (Dijkstra.closed_set st).*1 ->
           (k ∉ dom (Dijkstra.open_set st))
           /\ (k ∉ (Dijkstra.q_priority st).*2)
           /\ (forall c ind q, heapq.heappop (Dijkstra.q_priority st) = Ok ((c, ind), q) ->
                               ind <> k)
           /\ (forall st', dijkstra_reaches P obsmap st st' ->
                           k ∈ (Dijkstra.closed_set st').*1))
        /\ (forall c ind q n_curr motion oq,
              heapq.heappop (Dijkstra.q_priority st) = Ok ((c, ind), q) ->
              Dijkstra.open_set st !! ind = Some n_curr ->
              Forall unit_move motion ->
              Dijkstra.relax_all P obsmap (OrderedDict.set ind n_curr (Dijkstra.closed_set st))
                ind n_curr (delete ind (Dijkstra.open_set st), q) motion = Ok oq ->
              forall k, k ∈ (OrderedDict.set ind n_curr (Dijkstra.closed_set st)).*1 ->
                        (k ∉ dom oq.1) /\ (k ∉ oq.2.*2))).
Proof.
  split.
  - intros calc_all_paths P hmap ngoal start motion f n st Hreach.
    assert (search_inv P start st) as Hinv.
    { eapply search_reaches_inv; [exact Hreach | apply search_initial_inv]. }
    split.
    + intros k Hk. pose proof Hinv as [(Hq & Hdis & _) _]. cbn [fst snd] in *.
      assert (k ∉ dom (Search.open_set st)) as Hopen by (intros Ho; apply (Hdis k); assumption).
      split; [exact Hopen |]. split; [rewrite Hq; exact Hopen |]. split.
      * intros ind qp Hget ->. apply get_spec in Hget as (Hin & _). apply Hq in Hin. auto.
      * intros m st' Hr. eapply search_closed_grows; eauto.
    + intros ind qp n_curr prims oq Hget Hn Hexp k Hk.
      destruct (pop_inv P start st ind qp n_curr Hinv Hget Hn) as (_ & _ & Hd & _ & Hi & _).
      assert (expand_inv P start (<[ind := n_curr]> (Search.closed_set st)) oq) as (Hq & Hdis & _).
      { eapply expand_all_preserves; [| exact Hd | exact Hexp | exact Hi]. apply lookup_insert_eq. }
      assert (k ∉ dom oq.1) as Hopen by (intros Ho; apply (Hdis k); assumption).
      split; [exact Hopen | rewrite Hq; exact Hopen].
  - intros P obsmap gxi gyi st goal Hreach.
    assert (dijkstra_inv P obsmap goal st) as Hinv.
    { eapply dijkstra_reaches_inv; [exact Hreach |]. apply dijkstra_initial_inv. simpl. lra. }
    split.
    + intros k Hk. pose proof Hinv as [(Hq & Hnd & Hdis & _) _ _ _]. cbn [fst snd] in *.
      assert (k ∉ dom (Dijkstra.open_set st)) as Hopen by (intros Ho; apply (Hdis k); assumption).
      split; [exact Hopen |]. split; [rewrite Hq; exact Hopen |]. split.
      * intros c ind q Hpop ->. apply (heappop_spec _ _ _ Hnd) in Hpop as (Hin & _).
        apply Hopen, Hq, list_elem_of_fmap. exists (c, k). auto.
      * intros st' Hr. eapply dijkstra_closed_grows; eauto.
    + intros c ind q n_curr motion oq Hpop Hn Hunit Hrel k Hk.
      destruct (dijkstra_pop_inv P obsmap goal st c ind q n_curr Hinv Hpop Hn) as (Hok & Hi & _).
      assert (relax_inv P obsmap goal (OrderedDict.set ind n_curr (Dijkstra.closed_set st)) oq)
        as (Hq & _ & Hdis & _).
      { eapply relax_all_preserves; [exact Hok | exact Hunit | exact Hrel | exact Hi]. }
      assert (k ∉ dom oq.1) as Hopen by (intros Ho; apply (Hdis k); assumption).
      split; [exact Hopen | rewrite Hq; exact Hopen].
Qed.

(** ** A concrete run: two obstacle cells, start and goal on the same pose *)

(** Obstacle cells [(0, 0)] and [(2, 2)] at resolution 10: the only free
    cell is [(1, 1)], whose centre [(10, 10)] is far from both obstacles. *)
Definition two_posts : list Z := [0; 2]%Z.

Definition post_para (yawreso : R) : Para.t :=
  Para.mk 0 0 (Py.round (- C.PI / yawreso) - 1) 2 2 (Py.round (C.PI / yawreso)) 2 2
          (Py.round (C.PI / yawreso) - (Py.round (- C.PI / yawreso) - 1))
          10 yawreso [IZR 0 * 10; IZR 2 * 10] [IZR 0 * 10; IZR 2 * 10]
          [(IZR 0 * 10, IZR 0 * 10); (IZR 2 * 10, IZR 2 * 10)].

Definition post_goal : HolonomicNode.t := HolonomicNode.mk 1 1 0 (-1).

Definition post_hmap : list (list Float.t) :=
  [[Float.inf; Float.inf]; [Float.inf; Float.fin 0]].

Lemma post_parameters (yawreso : R) :
  yawreso <> 0 -> calc_parameters two_posts two_posts 10 yawreso = Ok (post_para yawreso).
Proof.
  intros H. unfold calc_parameters. simpl. rewrite !div_Ok by exact H. reflexivity.
Qed.

Lemma grid_index_center : grid_index 10 10 = Ok 1%Z.
Proof.
  rewrite grid_index_Ok by lra.
  replace (10 / 10) with (IZR 1) by (simpl; field). rewrite round_IZR. reflexivity.
Qed.

Lemma mapM_Ok {A B : Type} (f : A -> res B) (l : list A) :
  (forall a, exists b, f a = Ok b) -> exists l', mapM f l = Ok l'.
Proof.
  intros Hf. induction l as [|a l [l' IH]]; simpl; [eauto |].
  destruct (Hf a) as [b ->]. simpl. rewrite IH. simpl. eauto.
Qed.

Lemma obstacles_map_Ok (P : Para.t) (rr : R) :
  Para.xyreso P <> 0 -> exists obsmap, obstacles_map P rr = Ok obsmap.
Proof.
  intros H. unfold obstacles_map.
  destruct (mapM_Ok (grid_index (Para.xyreso P)) (Para.ox P)) as [xs ->];
    [intros a; rewrite grid_index_Ok by exact H; eauto |].
  destruct (mapM_Ok (grid_index (Para.xyreso P)) (Para.oy P)) as [ys ->];
    [intros a; rewrite grid_index_Ok by exact H; eauto |].
  simpl. eauto.
Qed.

Lemma post_neighbours_rejected (yawreso : R) (obsmap : list (list bool))
    (closed : OrderedDict.t HolonomicNode.t) (ind : Z)
    (oq : gmap Z HolonomicNode.t * list heapq.entry) :
  Dijkstra.relax_all (post_para yawreso) obsmap closed ind post_goal oq get_motion = Ok oq.
Proof. reflexivity. Qed.

Lemma post_dijkstra_first_pass (yawreso : R) (obsmap : list (list bool)) :
  Dijkstra.iteration (post_para yawreso) obsmap
    (Dijkstra.mk (<[3%Z := post_goal]> ∅) [] (heapq.heappush [] (0, 3%Z)))
  = Ok (Some (Dijkstra.mk ∅ [(3%Z, post_goal)] [])).
Proof.
  unfold Dijkstra.iteration. cbn [Dijkstra.open_set Dijkstra.q_priority Dijkstra.closed_set].
  rewrite bool_decide_eq_false_2 by apply insert_non_empty.
  unfold heapq.heappush, heapq.heappop. cbn [app heapq.smallest heapq.remove].
  rewrite (proj2 (heapq_eqb_eq (0, 3%Z) (0, 3%Z)) eq_refl).
  cbn [mbind res_bind]. rewrite lookup_insert_eq. cbn [Py.item mbind res_bind].
  rewrite post_neighbours_rejected. cbn [mbind res_bind fst snd].
  rewrite delete_insert_eq, delete_empty. reflexivity.
Qed.

Lemma post_dijkstra (yawreso : R) (obsmap : list (list bool)) (fuel : nat) :
  Dijkstra.loop (S (S fuel)) (post_para yawreso) obsmap
    (Dijkstra.mk (<[3%Z := post_goal]> ∅) [] (heapq.heappush [] (0, 3%Z)))
  = Ok (Dijkstra.mk ∅ [(3%Z, post_goal)] []).
Proof.
  cbn [Dijkstra.loop]. rewrite post_dijkstra_first_pass. cbn [mbind res_bind].
  unfold Dijkstra.iteration. cbn [Dijkstra.open_set].
  rewrite bool_decide_eq_true_2 by reflexivity. reflexivity.
Qed.

Lemma post_heuristic (yawreso radius : R) (fuel : nat) (xind yind yawind : Z) (yaw : R) :
  calc_holonomic_heuristic_with_obstacle (S (S fuel))
    (Node.mk xind yind yawind 1 [10] [10] [yaw] [1%Z] 0 0 (-1)) (post_para yawreso) radius
  = Ok post_hmap.
Proof.
  unfold calc_holonomic_heuristic_with_obstacle, holonomic_closed_set, holonomic_goal.
  cbn [Node.x Node.y Py.last List.map List.last mbind res_bind post_para Para.xyreso].
  rewrite grid_index_center. cbn [mbind res_bind].
  destruct (obstacles_map_Ok (post_para yawreso) radius) as [obsmap Hobs];
    [simpl; lra |].
  fold (post_para yawreso). rewrite Hobs. cbn [mbind res_bind].
  change (calc_holonomic_index (HolonomicNode.mk 1 1 0 (-1)) (post_para yawreso)) with 3%Z.
  change (HolonomicNode.cost (HolonomicNode.mk 1 1 0 (-1))) with 0.
  fold post_goal. rewrite post_dijkstra. reflexivity.
Qed.











(** The set-up for a start and a goal on the centre of the free cell. *)
Definition post_node (yawreso yaw : R) : Node.t :=
  Node.mk 1 1 (Py.round (rs.pi_2_pi yaw / yawreso)) 1 [10] [10] [yaw] [1%Z] 0 0 (-1).

Definition post_setup (yawreso syaw gyaw : R) : setup :=
  let nstart := post_node yawreso syaw in
  let k0 := calc_index nstart (post_para yawreso) in
  mk_setup nstart (post_node yawreso gyaw) (post_para yawreso) post_hmap
    (zip calc_motion_set.1 calc_motion_set.2)
    (Search.mk (<[k0 := nstart]> ∅) ∅
       (QueuePrior.put QueuePrior.new k0
          (Float.add (Float.fin 0) (Float.scale C.H_COST (Float.fin 0))))).

Lemma post_prepare (yawreso radius syaw gyaw : R) (fuel : nat) :
  yawreso <> 0 ->
  prepare (S (S fuel)) 10 10 syaw 10 10 gyaw two_posts two_posts 10 yawreso radius
  = Ok (post_setup yawreso syaw gyaw).
Proof.
  intros H. unfold prepare.
  rewrite grid_index_center. cbn [mbind res_bind].
  rewrite !(grid_index_Ok yawreso) by exact H. cbn [mbind res_bind].
  rewrite post_parameters by exact H. cbn [mbind res_bind].
  rewrite post_heuristic. cbn [mbind res_bind].
  unfold post_setup. destruct calc_motion_set as [steer_set direc_set].
  assert (forall n, Node.xind n = 1%Z -> Node.yind n = 1%Z ->
                    calc_hybrid_cost n post_hmap (post_para yawreso)
                    = Ok (Float.add (Float.fin (Node.cost n))
                                    (Float.scale C.H_COST (Float.fin 0)))) as Hcost.
  { intros n Hx Hy. unfold calc_hybrid_cost. rewrite Hx, Hy. reflexivity. }
  rewrite Hcost by reflexivity. reflexivity.
Qed.

(** ** Short paths *)

Lemma interior_length {A : Type} (l : list A) :
  length (Py.interior l) = (length l - 2)%nat.
Proof.
  unfold Py.interior. destruct l as [|a l]; [reflexivity |]. simpl.
  rewrite List.removelast_firstn_len, List.length_firstn. lia.
Qed.

Lemma get_beyond {A : Type} (l : list A) (i : nat) :
  (length l <= i)%nat -> Py.get l i = Raise IndexError.
Proof. intros H. unfold Py.get. rewrite lookup_ge_None_2 by exact H. reflexivity. Qed.

Lemma update_node_fields
    (calc_all_paths : R -> R -> R -> R -> R -> R -> R -> R -> list RSPath.t)
    (n_curr ngoal fnode : Node.t) (P : Para.t) :
  update_node_with_analystic_expantion calc_all_paths n_curr ngoal P = Ok (Some fnode) ->
  exists path,
    analystic_expantion calc_all_paths n_curr ngoal P = Ok (Some path)
    /\ is_same_grid fnode n_curr = true
    /\ Node.yaw fnode = Py.interior (RSPath.yaw path)
    /\ Node.directions fnode = Py.interior (RSPath.directions path).
Proof.
  unfold update_node_with_analystic_expantion. intros H. bind_ok H.
  destruct a as [path|]; [| discriminate]. injection H as <-.
  exists path. split; [exact E |]. split; [| auto].
  unfold is_same_grid. cbn [Node.xind Node.yind Node.yawind].
  rewrite !Z.eqb_refl. reflexivity.
Qed.

(** When the analytic expansion succeeds on the very first pass with a
    Reeds-Shepp path of at most three samples, the extracted trajectory has
    fewer than two samples and [direc[0] = direc[1]] raises. *)
Lemma short_rs_path_raises
    (calc_all_paths : R -> R -> R -> R -> R -> R -> R -> R -> list RSPath.t) (fuel : nat)
    (sx sy syaw gx gy gyaw : R) (ox_grid oy_grid : list Z) (xyreso yawreso radius : R)
    (s : setup) (path : RSPath.t) :
  prepare (S fuel) sx sy syaw gx gy gyaw ox_grid oy_grid xyreso yawreso radius = Ok s ->
  analystic_expantion calc_all_paths (nstart s) (ngoal s) (P s) = Ok (Some path) ->
  (length (RSPath.directions path) <= 3)%nat ->
  hybrid_astar_planning calc_all_paths (S fuel) sx sy syaw gx gy gyaw ox_grid oy_grid
    xyreso yawreso radius = Raise IndexError.
Proof.
  intros Hprep Hrs Hlen. unfold hybrid_astar_planning. rewrite Hprep. cbn [mbind res_bind].
  destruct (prepare_shape _ _ _ _ _ _ _ _ _ _ _ _ _ Hprep) as (_ & _ & _ & f & Hinit).
  set (k0 := calc_index (nstart s) (P s)) in *.
  assert (update_node_with_analystic_expantion calc_all_paths (nstart s) (ngoal s) (P s)
          = Ok (Some (Node.mk (Node.xind (nstart s)) (Node.yind (nstart s))
                        (Node.yawind (nstart s)) (Node.direction (nstart s))
                        (Py.interior (RSPath.x path)) (Py.interior (RSPath.y path))
                        (Py.interior (RSPath.yaw path)) (Py.interior (RSPath.directions path))
                        0 (Node.cost (nstart s) + calc_rs_path_cost path) k0))) as Hupd.
  { unfold update_node_with_analystic_expantion. rewrite Hrs. reflexivity. }
  set (fnode := Node.mk _ _ _ _ _ _ _ _ _ _ _) in Hupd.
  assert (iteration calc_all_paths (P s) (hmap s) (ngoal s) (motion s) (initial s)
          = Ok (Search.Break (<[k0 := nstart s]> ∅) fnode)) as Hit.
  { apply break_is_rs_success. rewrite Hinit. cbn [Search.open_set Search.qp Search.closed_set].
    split; [apply insert_non_empty |].
    exists k0, (QueuePrior.discard k0 (QueuePrior.put QueuePrior.new k0 f)), (nstart s).
    split; [reflexivity |]. split; [apply lookup_insert_eq |]. split; [exact Hupd | reflexivity]. }
  cbn [search]. rewrite Hit. cbn [mbind res_bind].
  unfold extract_path. cbn [extract_walk].
  assert (is_same_grid fnode (nstart s) = true) as ->.
  { unfold is_same_grid, fnode. cbn [Node.xind Node.yind Node.yawind].
    rewrite !Z.eqb_refl. reflexivity. }
  cbn [mbind res_bind app]. rewrite get_beyond; [reflexivity |].
  rewrite length_rev, length_rev. unfold fnode. cbn [Node.directions].
  rewrite interior_length. lia.
Qed.

(** A Reeds-Shepp generator that answers with the identity path: the single
    sample of the start pose. *)
Definition identity_rs : R -> R -> R -> R -> R -> R -> R -> R -> list RSPath.t :=
  fun sx sy syaw _ _ _ _ _ => [RSPath.mk [sx] [sy] [syaw] [1%Z] [0; 0; 0]].

Lemma within_outside (c p : R * R) (r : R) :
  0 <= r -> r * r < (p.1 - c.1) * (p.1 - c.1) + (p.2 - c.2) * (p.2 - c.2) ->
  KDTree.within c r p = false.
Proof.
  intros Hr H. unfold KDTree.within, KDTree.hypot.
  apply bool_decide_eq_false_2. intros Hle.
  assert (sqrt (r * r) < sqrt ((p.1 - c.1) * (p.1 - c.1) + (p.2 - c.2) * (p.2 - c.2))) as Hs
    by (apply sqrt_lt_1_alt; split; [nra | exact H]).
  rewrite sqrt_square in Hs by exact Hr. lra.
Qed.

Lemma center_is_free (yawreso : R) :
  is_collision [10] [10] [0] (post_para yawreso) = Ok false.
Proof.
  assert (is_collision_at (post_para yawreso) 10 10 0 = Ok false) as H.
  { unfold is_collision_at. cbn [post_para Para.kdtree Para.xyreso].
    rewrite cos_0, sin_0.
    assert (Rmax ((C.RF + C.RB) / 2) (C.W / 2) + 10 = 104 / 10) as ->.
    { unfold C.RF, C.RB, C.W. rewrite Rmax_left by lra. lra. }
    unfold KDTree.query_ball_point. cbn [KDTree.query_from].
    rewrite !within_outside; [reflexivity | | | |];
      unfold C.RF, C.RB; cbn [fst snd]; lra. }
  cbn [is_collision]. rewrite H. reflexivity.
Qed.

Lemma identity_path_found (yawreso : R) (n_curr ngoal : Node.t) :
  Node.x n_curr = [10] -> Node.y n_curr = [10] -> Node.yaw n_curr = [0] ->
  Node.x ngoal = [10] -> Node.y ngoal = [10] -> Node.yaw ngoal = [0] ->
  analystic_expantion identity_rs n_curr ngoal (post_para yawreso)
  = Ok (Some (RSPath.mk [10] [10] [0] [1%Z] [0; 0; 0])).
Proof.
  intros Hx Hy Hyaw Hgx Hgy Hgyaw. unfold analystic_expantion, identity_rs.
  rewrite Hx, Hy, Hyaw, Hgx, Hgy, Hgyaw.
  cbn [Py.last List.map List.last mbind res_bind identity_rs length seq List.fold_left
       QueuePrior.put QueuePrior.new QueuePrior.discard List.filter app List.nth
       first_collision_free QueuePrior.empty QueuePrior.get QueuePrior.lowest fst snd].
  cbn [Py.get lookup list_lookup mbind res_bind RSPath.x RSPath.y RSPath.yaw].
  change (Py.range_step (length [10]) C.COLLISION_CHECK_STEP) with [0%nat].
  cbn [Py.gets mapM Py.get lookup list_lookup mbind res_bind mret res_ret].
  rewrite center_is_free. reflexivity.
Qed.

(** C3 (the code departs from the claim).  Start and goal are the same pose
    [(10, 10, 0)], the centre of the free cell, and the Reeds-Shepp
    generator answers with the identity path.  The planner does not return a
    path of length 1: it raises [IndexError] in [extract_path]. *)
Theorem identical_start_and_goal_raises :
  hybrid_astar_planning identity_rs 2 10 10 0 10 10 0 two_posts two_posts 10 1 C.RADIUS
  = Raise IndexError.
Proof.
  assert (1 <> 0) as H1 by lra.
  apply (short_rs_path_raises identity_rs 1 10 10 0 10 10 0 two_posts two_posts 10 1 C.RADIUS
           (post_setup 1 0 0) (RSPath.mk [10] [10] [0] [1%Z] [0; 0; 0])
           (post_prepare 1 C.RADIUS 0 0 0 H1)).
  - apply identity_path_found; reflexivity.
  - simpl. lia.
Qed.

(** ** Yaw values *)

(** Every yaw a successor stores went through [pi_2_pi]. *)
Lemma successor_yaw_wrapped (n_curr : Node.t) (c_id : Z) (u d : R) (P : Para.t)
    (node : Node.t) :
  calc_next_node n_curr c_id u d P = Ok (Some node) ->
  Forall (fun yaw => - PI < yaw <= PI) (Node.yaw node).
Proof. intros H. apply (child_yaw _ _ _ (calc_next_node_child _ _ _ _ _ _ H)). Qed.

(** C2 (the code departs from the claim).  Called with the start yaw 5,
    outside [(-PI, PI]], the planner builds the start node with the yaw as
    given: the node it puts into the open set stores the yaw 5. *)
Theorem start_yaw_stored_unwrapped :
  exists s,
    prepare 2 10 10 5 10 10 0 two_posts two_posts 10 1 C.RADIUS = Ok s
    /\ Search.open_set (initial s) !! calc_index (nstart s) (P s) = Some (nstart s)
    /\ Node.yaw (nstart s) = [5]
    /\ ~ (- PI < 5 <= PI).
Proof.
  assert (1 <> 0) as H1 by lra.
  exists (post_setup 1 5 0). split; [exact (post_prepare 1 C.RADIUS 5 0 0 H1) |].
  split; [apply lookup_insert_eq |]. split; [reflexivity |].
  pose proof PI_4. lra.
Qed.

(** ** A search that exhausts the open set *)

Lemma round_within_half (a : R) (n : Z) : Rabs (a - IZR n) < 1 / 2 -> Py.round a = n.
Proof.
  intros H. apply Rabs_def2 in H as [H1 H2].
  destruct (Rle_lt_dec (IZR n) a) as [Hle | Hlt].
  - apply round_below_half. lra.
  - unfold Py.round. rewrite (floor_unique a (n - 1)) by (rewrite minus_IZR; lra).
    rewrite minus_IZR.
    destruct (Rlt_dec _ _) as [Hd|Hd]; [exfalso; lra |].
    destruct (Rlt_dec _ _) as [Hd'|Hd']; [lia | exfalso; lra].
Qed.

(** A motion primitive of the default configuration: an angular velocity of
    at most one half, in forward or in backward gear. *)
Definition small_primitive (ud : R * R) : Prop :=
  Rabs ud.1 <= 1 / 2 /\ (ud.2 = 1 \/ ud.2 = -1).

Lemma motion_set_small : Forall small_primitive (zip calc_motion_set.1 calc_motion_set.2).
Proof.
  unfold calc_motion_set, arange.
  assert ((C.MAX_ANGULAR_VELOCITY - C.MIN_ANGULAR_VELOCITY)
          / ((C.MAX_ANGULAR_VELOCITY - C.MIN_ANGULAR_VELOCITY) / C.N_STEER) = IZR 10) as ->.
  { unfold C.MAX_ANGULAR_VELOCITY, C.MIN_ANGULAR_VELOCITY, C.N_STEER. field. }
  rewrite ceil_IZR. change (Z.to_nat 10) with 10%nat.
  unfold C.MAX_ANGULAR_VELOCITY, C.MIN_ANGULAR_VELOCITY, C.N_STEER.
  cbn [seq List.map app zip zip_with fst snd].
  repeat (apply List.Forall_cons;
          [split; cbn [fst snd]; [apply Rabs_le; simpl; lra | auto] |]).
  apply List.Forall_nil.
Qed.

Lemma post_yawind : Py.round (rs.pi_2_pi 0 / 1) = 0%Z.
Proof.
  pose proof PI_RGT_0. rewrite pi_2_pi_id by lra.
  replace (0 / 1) with (IZR 0) by lra. apply round_IZR.
Qed.

Lemma is_collision_returns (x y yaw : list R) (P : Para.t) :
  Para.kdtree P = zip (Para.ox P) (Para.oy P) ->
  exists b, is_collision x y yaw P = Ok b.
Proof.
  intros Hk. revert y yaw.
  induction x as [| ix x IH]; intros y yaw; [exists false; reflexivity |].
  destruct y as [| iy y]; [exists false; reflexivity |].
  destruct yaw as [| iyaw yaw]; [exists false; reflexivity |].
  simpl. destruct (is_collision_at_spec P ix iy iyaw Hk) as (hit & Hhit & _).
  rewrite Hhit. simpl. destruct hit; [exists true; reflexivity | apply IH].
Qed.

Lemma post_index_ok (yawreso x1 x2 y1 y2 w1 w2 : R) :
  exists b, is_index_ok 1 1 [x1; x2] [y1; y2] [w1; w2] (post_para yawreso) = Ok b.
Proof.
  unfold is_index_ok.
  change (Py.range_step (length [x1; x2]) C.COLLISION_CHECK_STEP) with [0%nat].
  cbn [post_para Para.minx Para.maxx Para.miny Para.maxy Z.leb Z.geb Z.compare Pos.compare
       Pos.compare_cont orb Py.gets mapM Py.get lookup list_lookup mbind res_bind mret res_ret].
  destruct (is_collision_returns [x1] [y1] [w1] (post_para yawreso) eq_refl) as (b & Hb).
  fold (post_para yawreso). rewrite Hb. cbn [mbind res_bind].
  destruct b; eauto.
Qed.

(** Every successor of the start pose [(10, 10, 0)] under a default
    primitive, when it is not rejected, lies in the cell of the start
    pose. *)
Lemma post_next_node (c_id : Z) (u d : R) :
  small_primitive (u, d) ->
  exists r, calc_next_node (post_node 1 0) c_id u d (post_para 1) = Ok r
    /\ forall node, r = Some node ->
         Node.xind node = 1%Z /\ Node.yind node = 1%Z /\ Node.yawind node = 0%Z.
Proof.
  intros [Hu Hd]. cbn [fst snd] in Hu, Hd. apply Rabs_le_bounds in Hu.
  assert (3 < PI) as Hpi by (pose proof PI2_3_2; unfold PI2 in *; lra).
  unfold calc_next_node. rewrite nlist_value.
  change (S (Z.to_nat (2 - 1))) with 2%nat.
  cbn [post_node Node.x Node.y Node.yaw Py.last List.map List.last mbind res_bind rollout
       fst snd post_para Para.xyreso Para.yawreso].
  rewrite !(grid_index_Ok 10) by lra. rewrite (grid_index_Ok 1) by lra.
  cbn [mbind res_bind].
  assert (rs.pi_2_pi (0 + d * C.MOVE_STEP * u) = d * C.MOVE_STEP * u) as Hw1.
  { rewrite pi_2_pi_id; [lra |]. unfold C.MOVE_STEP. destruct Hd as [-> | ->]; lra. }
  assert (rs.pi_2_pi (rs.pi_2_pi (0 + d * C.MOVE_STEP * u) + d * C.MOVE_STEP * u)
          = 2 * (d * C.MOVE_STEP * u)) as Hw2.
  { rewrite Hw1. rewrite pi_2_pi_id; [lra |]. unfold C.MOVE_STEP. destruct Hd as [-> | ->]; lra. }
  set (w1 := rs.pi_2_pi (0 + d * C.MOVE_STEP * u)) in *.
  set (w2 := rs.pi_2_pi (w1 + d * C.MOVE_STEP * u)) in *.
  assert (Py.round ((10 + d * C.MOVE_STEP * cos 0 + d * C.MOVE_STEP * cos w1) / 10) = 1%Z) as ->.
  { apply round_within_half. pose proof (COS_bound 0). pose proof (COS_bound w1).
    unfold C.MOVE_STEP. apply Rabs_def1; destruct Hd as [-> | ->]; lra. }
  assert (Py.round ((10 + d * C.MOVE_STEP * sin 0 + d * C.MOVE_STEP * sin w1) / 10) = 1%Z) as ->.
  { apply round_within_half. pose proof (SIN_bound 0). pose proof (SIN_bound w1).
    unfold C.MOVE_STEP. apply Rabs_def1; destruct Hd as [-> | ->]; lra. }
  assert (Py.round (w2 / 1) = 0%Z) as ->.
  { apply round_within_half. rewrite Hw2.
    unfold C.MOVE_STEP. apply Rabs_def1; destruct Hd as [-> | ->]; lra. }
  fold (post_para 1).
  destruct (post_index_ok 1 (10 + d * C.MOVE_STEP * cos 0)
              (10 + d * C.MOVE_STEP * cos 0 + d * C.MOVE_STEP * cos w1)
              (10 + d * C.MOVE_STEP * sin 0)
              (10 + d * C.MOVE_STEP * sin 0 + d * C.MOVE_STEP * sin w1) w1 w2) as [b Hb].
  rewrite Hb. cbn [mbind res_bind].
  destruct b; cbn [negb].
  - destruct (bool_decide (0 < d)); eexists; (split; [reflexivity |]);
      intros node [= <-]; auto.
  - exists None. split; [reflexivity | discriminate].
Qed.

(** The key of the start pose, and the state of the search after the pass
    that closes it. *)
Definition post_key : Z := calc_index (post_node 1 0) (post_para 1).

Definition post_closed : Search.state :=
  Search.mk ∅ (<[post_key := post_node 1 0]> ∅) [].

(** The first sample of the straight successor of the pose [(10, 10, 0)] is
    far from both posts. *)
Lemma post_first_sample_free :
  is_collision_at (post_para 1) (10 + 1 * C.MOVE_STEP * cos 0) (10 + 1 * C.MOVE_STEP * sin 0)
    (rs.pi_2_pi (0 + 1 * C.MOVE_STEP * 0)) = Ok false.
Proof.
  pose proof PI_RGT_0 as Hpi.
  replace (0 + 1 * C.MOVE_STEP * 0) with 0 by lra. rewrite pi_2_pi_id by lra.
  unfold is_collision_at. cbn [post_para Para.kdtree Para.xyreso].
  rewrite cos_0, sin_0.
  assert (Rmax ((C.RF + C.RB) / 2) (C.W / 2) + 10 = 104 / 10) as ->.
  { unfold C.RF, C.RB, C.W. rewrite Rmax_left by lra. lra. }
  unfold KDTree.query_ball_point. cbn [KDTree.query_from].
  rewrite !within_outside; [reflexivity | | | |];
    unfold C.RF, C.RB, C.MOVE_STEP; cbn [fst snd]; lra.
Qed.

(** C5, counterexample to the claim as stated.  On the grid of resolution
    10 that [calc_parameters] builds for two posts, the straight forward
    successor of the pose [(10, 10, 0)] costs the parent's cost plus
    [2 * C.XY_RESO = 0.4], not the parent's cost plus twice the resolution of
    the grid. *)
Lemma calc_next_node_cost_not_grid_resolution :
  exists node,
    calc_next_node (post_node 1 0) 0 0 1 (post_para 1) = Ok (Some node)
    /\ Node.cost node = Node.cost (post_node 1 0) + 2 * C.XY_RESO
    /\ Node.cost node
       <> Node.cost (post_node 1 0)
          + segment_cost_spec (Para.xyreso (post_para 1)) (post_node 1 0) 0 1.
Proof.
  pose proof PI_RGT_0 as Hpi.
  unfold calc_next_node. rewrite nlist_value.
  change (S (Z.to_nat (2 - 1))) with 2%nat.
  cbn [post_node Node.x Node.y Node.yaw Py.last List.map List.last mbind res_bind rollout
       fst snd post_para Para.xyreso Para.yawreso].
  rewrite !(grid_index_Ok 10) by lra. rewrite (grid_index_Ok 1) by lra.
  cbn [mbind res_bind].
  set (w1 := rs.pi_2_pi (0 + 1 * C.MOVE_STEP * 0)).
  set (w2 := rs.pi_2_pi (w1 + 1 * C.MOVE_STEP * 0)).
  assert (w1 = 0) as Hw1 by (unfold w1; rewrite pi_2_pi_id; lra).
  assert (w2 = 0) as Hw2 by (unfold w2; rewrite Hw1, pi_2_pi_id; lra).
  assert (Py.round ((10 + 1 * C.MOVE_STEP * cos 0 + 1 * C.MOVE_STEP * cos w1) / 10) = 1%Z) as ->.
  { apply round_within_half. pose proof (COS_bound 0). pose proof (COS_bound w1).
    unfold C.MOVE_STEP. apply Rabs_def1; lra. }
  assert (Py.round ((10 + 1 * C.MOVE_STEP * sin 0 + 1 * C.MOVE_STEP * sin w1) / 10) = 1%Z) as ->.
  { apply round_within_half. pose proof (SIN_bound 0). pose proof (SIN_bound w1).
    unfold C.MOVE_STEP. apply Rabs_def1; lra. }
  assert (Py.round (w2 / 1) = 0%Z) as ->.
  { apply round_within_half. rewrite Hw2. apply Rabs_def1; lra. }
  fold (post_para 1).
  assert (is_index_ok 1 1
            [10 + 1 * C.MOVE_STEP * cos 0;
             10 + 1 * C.MOVE_STEP * cos 0 + 1 * C.MOVE_STEP * cos w1]
            [10 + 1 * C.MOVE_STEP * sin 0;
             10 + 1 * C.MOVE_STEP * sin 0 + 1 * C.MOVE_STEP * sin w1]
            [w1; w2] (post_para 1) = Ok true) as ->.
  { unfold is_index_ok.
    change (Py.range_step (length [10 + 1 * C.MOVE_STEP * cos 0;
                                   10 + 1 * C.MOVE_STEP * cos 0 + 1 * C.MOVE_STEP * cos w1])
              C.COLLISION_CHECK_STEP) with [0%nat].
    cbn [post_para Para.minx Para.maxx Para.miny Para.maxy Z.leb Z.geb Z.compare Pos.compare
         Pos.compare_cont orb Py.gets mapM Py.get lookup list_lookup mbind res_bind mret
         res_ret is_collision].
    fold (post_para 1). unfold w1. rewrite post_first_sample_free. reflexivity. }
  cbn [mbind res_bind negb]. rewrite bool_decide_eq_true_2 by lra.
  eexists. split; [reflexivity |]. cbn [Node.cost post_node Node.direction Node.steer].
  change (negb (1 =? 1)%Z) with false. cbv iota.
  assert (Rabs (C.XY_RESO * 2) = 2 * C.XY_RESO) as ->
    by (unfold C.XY_RESO; rewrite Rabs_pos_eq; lra).
  rewrite Rminus_diag, Rabs_R0.
  split; [lra |].
  unfold segment_cost_spec. cbn [Node.steer Node.direction].
  rewrite (bool_decide_eq_false_2 (1 < 0)) by lra.
  rewrite (bool_decide_eq_false_2 (1 <> IZR 1)) by (intros H; apply H; reflexivity).
  rewrite Rminus_diag, Rabs_R0. unfold C.XY_RESO, C.ANGULAR_VELOCITY_CHANGE_COST. lra.
Qed.

Lemma post_expand_skipped (closed : gmap Z Node.t) (ind : Z)
    (oq : gmap Z Node.t * QueuePrior.t Z) (ud : R * R) :
  small_primitive ud -> is_Some (closed !! post_key) ->
  expand (post_para 1) post_hmap closed ind (post_node 1 0) oq ud = Ok oq.
Proof.
  intros Hud [n Hn]. destruct ud as [u d].
  destruct (post_next_node ind u d Hud) as (r & Hr & Hcell).
  unfold expand. cbn [fst snd]. rewrite Hr. cbn [mbind res_bind].
  destruct r as [node|]; [| reflexivity].
  destruct (Hcell node eq_refl) as (Hx & Hy & Hw).
  assert (calc_index node (post_para 1) = post_key) as ->.
  { unfold post_key, calc_index. rewrite Hx, Hy, Hw.
    cbn [post_node Node.xind Node.yind Node.yawind]. rewrite post_yawind. reflexivity. }
  rewrite Hn. reflexivity.
Qed.

Lemma post_expand_all_skipped (closed : gmap Z Node.t) (ind : Z)
    (oq : gmap Z Node.t * QueuePrior.t Z) (prims : list (R * R)) :
  Forall small_primitive prims -> is_Some (closed !! post_key) ->
  expand_all (post_para 1) post_hmap closed ind (post_node 1 0) oq prims = Ok oq.
Proof.
  intros Hprims Hclosed. induction Hprims as [|ud prims Hud _ IH]; [reflexivity |].
  cbn [expand_all]. rewrite post_expand_skipped by assumption. exact IH.
Qed.

(** The first pass pops the start node, finds no Reeds-Shepp path, and
    inserts none of the 42 successors: each of them lies in the cell that
    was just closed. *)
Lemma post_first_pass :
  iteration no_rs_path (post_para 1) post_hmap (post_node 1 0)
    (zip calc_motion_set.1 calc_motion_set.2) (initial (post_setup 1 0 0))
  = Ok (Search.Continue post_closed).
Proof.
  unfold iteration, post_setup. fold post_key.
  cbn [initial Search.open_set Search.closed_set Search.qp].
  rewrite bool_decide_eq_false_2 by apply insert_non_empty.
  cbn [QueuePrior.put QueuePrior.new QueuePrior.discard List.filter app QueuePrior.get
       QueuePrior.lowest fst snd mbind res_bind].
  rewrite bool_decide_eq_true_2 by reflexivity.
  cbn [negb]. rewrite lookup_insert_eq. cbn [Py.item mbind res_bind].
  assert (update_node_with_analystic_expantion no_rs_path (post_node 1 0) (post_node 1 0)
            (post_para 1) = Ok None) as -> by reflexivity.
  rewrite post_expand_all_skipped.
  - cbn [mbind res_bind fst snd]. rewrite delete_insert_eq, delete_empty. reflexivity.
  - apply motion_set_small.
  - rewrite lookup_insert_eq. eauto.
Qed.

Lemma post_second_pass (ngoal : Node.t) (prims : list (R * R)) :
  iteration no_rs_path (post_para 1) post_hmap ngoal prims post_closed = Ok Search.ReturnNone.
Proof. unfold iteration. rewrite bool_decide_eq_true_2 by reflexivity. reflexivity. Qed.

(** With start and goal on the pose [(10, 10, 0)] between the two posts and
    a Reeds-Shepp generator that finds nothing, the planner returns [None]
    in its second pass. *)
Lemma post_planning_none :
  hybrid_astar_planning no_rs_path 2 10 10 0 10 10 0 two_posts two_posts 10 1 C.RADIUS
  = Ok None.
Proof.
  assert (1 <> 0) as H1 by lra.
  unfold hybrid_astar_planning. rewrite (post_prepare 1 C.RADIUS 0 0 0 H1).
  cbn [mbind res_bind search].
  change (P (post_setup 1 0 0)) with (post_para 1).
  change (hmap (post_setup 1 0 0)) with post_hmap.
  change (ngoal (post_setup 1 0 0)) with (post_node 1 0).
  change (motion (post_setup 1 0 0)) with (zip calc_motion_set.1 calc_motion_set.2).
  rewrite post_first_pass. cbn [mbind res_bind].
  rewrite post_second_pass. reflexivity.
Qed.

Lemma planning_outcome_witness :
  hybrid_astar_planning no_rs_path 2 10 10 0 10 10 0 two_posts two_posts 10 1 C.RADIUS = Ok None
  /\ exists s,
       prepare 2 10 10 0 10 10 0 two_posts two_posts 10 1 C.RADIUS = Ok s
       /\ exists n st, (n < 2)%nat
            /\ rs_failures no_rs_path (P s) (hmap s) (ngoal s) (motion s) n (initial s) st
            /\ Search.open_set st = ∅.
Proof.
  split; [exact post_planning_none |].
  exact (proj1 (proj1 (proj2 (proj2 (planning_outcome no_rs_path 10 10 0 10 10 0
                                       two_posts two_posts 10 1 C.RADIUS))) 2%nat)
           post_planning_none).
Defined.

Lemma closed_cells_never_reexpanded_witness :
  (search_reaches no_rs_path (post_para 1) post_hmap (post_node 1 0)
     (zip calc_motion_set.1 calc_motion_set.2) 1 (initial (post_setup 1 0 0)) post_closed
   /\ post_key ∈ dom (Search.closed_set post_closed)
   /\ (post_key ∉ dom (Search.open_set post_closed))
   /\ (post_key ∉ (Search.qp post_closed).*1))
  /\ exists obsmap,
       obstacles_map (post_para 1) C.RADIUS = Ok obsmap
       /\ dijkstra_reaches (post_para 1) obsmap
            (Dijkstra.mk (<[3%Z := post_goal]> ∅) [] (heapq.heappush [] (0, 3%Z)))
            (Dijkstra.mk ∅ [(3%Z, post_goal)] [])
       /\ 3%Z ∈ [(3%Z, post_goal)].*1
       /\ (3%Z ∉ dom (∅ : gmap Z HolonomicNode.t))
       /\ (3%Z ∉ ([] : list heapq.entry).*2).
Proof.
  assert (search_reaches no_rs_path (post_para 1) post_hmap (post_node 1 0)
            (zip calc_motion_set.1 calc_motion_set.2) 1 (initial (post_setup 1 0 0))
            post_closed) as Hreach.
  { eapply search_pass; [exact post_first_pass | apply search_here]. }
  assert (post_key ∈ dom (Search.closed_set post_closed)) as Hin.
  { apply elem_of_dom. cbn [post_closed Search.closed_set]. rewrite lookup_insert_eq. eauto. }
  assert (3%Z ∈ [(3%Z, post_goal)].*1) as Hin3 by (left).
  split.
  - split; [exact Hreach |]. split; [exact Hin |].
    destruct (proj1 (proj1 closed_cells_never_reexpanded no_rs_path (post_para 1) post_hmap
                       (post_node 1 0) (post_node 1 0) (zip calc_motion_set.1 calc_motion_set.2)
                       (Float.add (Float.fin 0) (Float.scale C.H_COST (Float.fin 0)))
                       1%nat post_closed Hreach) post_key Hin) as (Ho & Hq & _).
    split; [exact Ho | exact Hq].
  - destruct (obstacles_map_Ok (post_para 1) C.RADIUS) as [obsmap Hobs]; [simpl; lra |].
    exists obsmap. split; [exact Hobs |].
    assert (dijkstra_reaches (post_para 1) obsmap
              (Dijkstra.mk (<[3%Z := post_goal]> ∅) [] (heapq.heappush [] (0, 3%Z)))
              (Dijkstra.mk ∅ [(3%Z, post_goal)] [])) as Hd.
    { eapply dijkstra_pass; [apply post_dijkstra_first_pass | apply dijkstra_here]. }
    split; [exact Hd |]. split; [exact Hin3 |].
    destruct (proj1 (proj2 closed_cells_never_reexpanded (post_para 1) obsmap 1%Z 1%Z
                       (Dijkstra.mk ∅ [(3%Z, post_goal)] []) Hd) 3%Z Hin3) as (Ho & Hq & _).
    split; [exact Ho | exact Hq].
Defined.

(** * Further properties of the planner *)

(** ** Grid parameters *)

Lemma fold_min_spec (l : list Z) (a : Z) :
  (forall x, x ∈ a :: l -> (List.fold_left Z.min l a <= x)%Z)
  /\ List.fold_left Z.min l a ∈ a :: l.
Proof.
  revert a. induction l as [|b l IH]; intros a; cbn [List.fold_left].
  - split; [| left]. intros x Hx. apply list_elem_of_singleton in Hx as ->. lia.
  - destruct (IH (Z.min a b)) as [Hle Hin]. split.
    + intros x Hx. apply elem_of_cons in Hx as [-> | Hx].
      * specialize (Hle (Z.min a b)). pose proof (Z.le_min_l a b).
        assert (Z.min a b ∈ Z.min a b :: l) as H0 by left. apply Hle in H0. lia.
      * apply elem_of_cons in Hx as [-> | Hx].
        -- pose proof (Z.le_min_r a b).
           assert (Z.min a b ∈ Z.min a b :: l) as H0 by left. apply Hle in H0. lia.
        -- apply Hle. right. exact Hx.
    + apply elem_of_cons in Hin as [-> | Hin].
      * destruct (Z.min_spec a b) as [[_ ->] | [_ ->]]; [left | right; left].
      * right. right. exact Hin.
Qed.

Lemma fold_max_spec (l : list Z) (a : Z) :
  (forall x, x ∈ a :: l -> (x <= List.fold_left Z.max l a)%Z)
  /\ List.fold_left Z.max l a ∈ a :: l.
Proof.
  revert a. induction l as [|b l IH]; intros a; cbn [List.fold_left].
  - split; [| left]. intros x Hx. apply list_elem_of_singleton in Hx as ->. lia.
  - destruct (IH (Z.max a b)) as [Hle Hin]. split.
    + intros x Hx. apply elem_of_cons in Hx as [-> | Hx].
      * pose proof (Z.le_max_l a b).
        assert (Z.max a b ∈ Z.max a b :: l) as H0 by left. apply Hle in H0. lia.
      * apply elem_of_cons in Hx as [-> | Hx].
        -- pose proof (Z.le_max_r a b).
           assert (Z.max a b ∈ Z.max a b :: l) as H0 by left. apply Hle in H0. lia.
        -- apply Hle. right. exact Hx.
    + apply elem_of_cons in Hin as [-> | Hin].
      * destruct (Z.max_spec a b) as [[_ ->] | [_ ->]]; [right; left | left].
      * right. right. exact Hin.
Qed.

(** What [calc_parameters] guarantees about the parameter set it returns. *)
Record parameters_ok (ox_grid oy_grid : list Z) (xyreso yawreso : R) (P : Para.t) : Prop := {
  par_minx : Para.minx P ∈ ox_grid /\ Forall (fun x => (Para.minx P <= x)%Z) ox_grid;
  par_maxx : Para.maxx P ∈ ox_grid /\ Forall (fun x => (x <= Para.maxx P)%Z) ox_grid;
  par_miny : Para.miny P ∈ oy_grid /\ Forall (fun y => (Para.miny P <= y)%Z) oy_grid;
  par_maxy : Para.maxy P ∈ oy_grid /\ Forall (fun y => (y <= Para.maxy P)%Z) oy_grid;
  par_xw : Para.xw P = (Para.maxx P - Para.minx P)%Z;
  par_yw : Para.yw P = (Para.maxy P - Para.miny P)%Z;
  par_yaww : Para.yaww P = (Para.maxyaw P - Para.minyaw P)%Z;
  par_reso : Para.xyreso P = xyreso /\ Para.yawreso P = yawreso;
  par_ox : Para.ox P = List.map (fun i => IZR i * xyreso) ox_grid;
  par_oy : Para.oy P = List.map (fun i => IZR i * xyreso) oy_grid;
  par_kdtree : Para.kdtree P = zip (Para.ox P) (Para.oy P)
}.

(** X1.  [calc_parameters] raises [ValueError] when one of the obstacle
    lists is empty; otherwise it raises [ZeroDivisionError] when [yawreso] is
    zero; in every other case, also for a zero [xyreso], it returns a
    parameter set whose bounds are the least and the greatest obstacle
    indices, whose widths are the differences of the bounds, and whose
    obstacle coordinates are the indices scaled by [xyreso]. *)
Theorem calc_parameters_outcome (ox_grid oy_grid : list Z) (xyreso yawreso : R) :
  match calc_parameters ox_grid oy_grid xyreso yawreso with
  | Raise e =>
      (e = ValueError /\ (ox_grid = [] \/ oy_grid = []))
      \/ (e = ZeroDivisionError /\ ox_grid <> [] /\ oy_grid <> [] /\ yawreso = 0)
  | Ok P =>
      ox_grid <> [] /\ oy_grid <> [] /\ yawreso <> 0
      /\ parameters_ok ox_grid oy_grid xyreso yawreso P
  end.
Proof.
  unfold calc_parameters.
  destruct ox_grid as [|a ox]; [left; auto |].
  destruct oy_grid as [|b oy]; [left; auto |].
  cbn [Py.min Py.max mbind res_bind].
  destruct (Req_dec_T yawreso 0) as [-> | Hyaw].
  - rewrite !div_zero. cbn [mbind res_bind]. right.
    split; [reflexivity |]. split; [discriminate |].
    split; [discriminate | reflexivity].
  - rewrite !div_Ok by exact Hyaw. cbn [mbind res_bind].
    destruct (fold_min_spec ox a) as [Hx1 Hx2]. destruct (fold_max_spec ox a) as [Hx3 Hx4].
    destruct (fold_min_spec oy b) as [Hy1 Hy2]. destruct (fold_max_spec oy b) as [Hy3 Hy4].
    split; [discriminate |]. split; [discriminate |]. split; [exact Hyaw |].
    constructor; cbn [Para.minx Para.maxx Para.miny Para.maxy Para.xw Para.yw Para.yaww
                      Para.maxyaw Para.minyaw Para.xyreso Para.yawreso Para.ox Para.oy
                      Para.kdtree]; auto.
    + split; [exact Hx2 | apply Forall_forall; exact Hx1].
    + split; [exact Hx4 | apply Forall_forall; exact Hx3].
    + split; [exact Hy2 | apply Forall_forall; exact Hy1].
    + split; [exact Hy4 | apply Forall_forall; exact Hy3].
Qed.

(** ** Cell indices *)

Lemma mixed_radix_unique (w q1 r1 q2 r2 : Z) :
  (0 <= r1 < w)%Z -> (0 <= r2 < w)%Z -> (q1 * w + r1 = q2 * w + r2)%Z ->
  q1 = q2 /\ r1 = r2.
Proof.
  intros H1 H2 H. assert (q1 = q2) as -> by nia. split; [reflexivity | lia].
Qed.

Lemma is_same_grid_true (node1 node2 : Node.t) :
  is_same_grid node1 node2 = true
  <-> Node.xind node1 = Node.xind node2 /\ Node.yind node1 = Node.yind node2
      /\ Node.yawind node1 = Node.yawind node2.
Proof.
  unfold is_same_grid.
  destruct (Z.eqb_spec (Node.xind node1) (Node.xind node2));
    destruct (Z.eqb_spec (Node.yind node1) (Node.yind node2));
    destruct (Z.eqb_spec (Node.yawind node1) (Node.yawind node2));
    cbn [negb orb]; split; try discriminate; try tauto; auto.
Qed.

(** The cells [calc_index] can tell apart: those within the widths of the
    grid, counted from its lower bounds. *)
Definition in_grid (P : Para.t) (xind yind : Z) : Prop :=
  (Para.minx P <= xind < Para.minx P + Para.xw P)%Z
  /\ (Para.miny P <= yind < Para.miny P + Para.yw P)%Z.

(** X2.  On cells within the widths of the grid [calc_index] is injective:
    two such nodes have the same index exactly when [is_same_grid] holds of
    them. *)
Theorem calc_index_injective (P : Para.t) (node1 node2 : Node.t) :
  in_grid P (Node.xind node1) (Node.yind node1) ->
  in_grid P (Node.xind node2) (Node.yind node2) ->
  calc_index node1 P = calc_index node2 P <-> is_same_grid node1 node2 = true.
Proof.
  intros [Hx1 Hy1] [Hx2 Hy2]. rewrite is_same_grid_true. unfold calc_index. split.
  - intros H.
    destruct (mixed_radix_unique (Para.xw P)
                ((Node.yawind node1 - Para.minyaw P) * Para.yw P
                 + (Node.yind node1 - Para.miny P))
                (Node.xind node1 - Para.minx P)
                ((Node.yawind node2 - Para.minyaw P) * Para.yw P
                 + (Node.yind node2 - Para.miny P))
                (Node.xind node2 - Para.minx P)) as [Hq Hr]; [lia | lia | lia |].
    destruct (mixed_radix_unique (Para.yw P)
                (Node.yawind node1 - Para.minyaw P) (Node.yind node1 - Para.miny P)
                (Node.yawind node2 - Para.minyaw P) (Node.yind node2 - Para.miny P))
      as [Hq' Hr']; [lia | lia | exact Hq |].
    lia.
  - intros (-> & -> & ->). reflexivity.
Qed.

Lemma calc_index_injective_witness :
  in_grid free_grid 0 0 /\ in_grid free_grid 1 0
  /\ (calc_index origin_node free_grid
      = calc_index (Node.mk 1 0 0 1 [1] [0] [0] [1%Z] 0 0 (-1)) free_grid
      <-> is_same_grid origin_node (Node.mk 1 0 0 1 [1] [0] [0] [1%Z] 0 0 (-1)) = true).
Proof.
  assert (in_grid free_grid 0 0) as H0 by (unfold in_grid; simpl; lia).
  assert (in_grid free_grid 1 0) as H1 by (unfold in_grid; simpl; lia).
  split; [exact H0 |]. split; [exact H1 |].
  exact (calc_index_injective free_grid origin_node
           (Node.mk 1 0 0 1 [1] [0] [0] [1%Z] 0 0 (-1)) H0 H1).
Defined.

(** X3.  [calc_holonomic_index] is injective on the nodes whose [x] lies
    within the width of the grid, whatever their [y]. *)
Theorem calc_holonomic_index_injective (P : Para.t) (node1 node2 : HolonomicNode.t) :
  (Para.minx P <= HolonomicNode.x node1 < Para.minx P + Para.xw P)%Z ->
  (Para.minx P <= HolonomicNode.x node2 < Para.minx P + Para.xw P)%Z ->
  calc_holonomic_index node1 P = calc_holonomic_index node2 P
  <-> HolonomicNode.x node1 = HolonomicNode.x node2
      /\ HolonomicNode.y node1 = HolonomicNode.y node2.
Proof.
  intros H1 H2. unfold calc_holonomic_index. split.
  - intros H.
    destruct (mixed_radix_unique (Para.xw P)
                (HolonomicNode.y node1 - Para.miny P) (HolonomicNode.x node1 - Para.minx P)
                (HolonomicNode.y node2 - Para.miny P) (HolonomicNode.x node2 - Para.minx P))
      as [Hq Hr]; [lia | lia | exact H |].
    lia.
  - intros [-> ->]. reflexivity.
Qed.

Lemma calc_holonomic_index_injective_witness :
  (Para.minx free_grid <= 0 < Para.minx free_grid + Para.xw free_grid)%Z
  /\ (Para.minx free_grid <= 1 < Para.minx free_grid + Para.xw free_grid)%Z
  /\ (calc_holonomic_index (HolonomicNode.mk 0 7 0 (-1)) free_grid
      = calc_holonomic_index (HolonomicNode.mk 1 7 1 0) free_grid
      <-> 0%Z = 1%Z /\ 7%Z = 7%Z).
Proof.
  assert (Para.minx free_grid <= 0 < Para.minx free_grid + Para.xw free_grid)%Z as H0
    by (simpl; lia).
  assert (Para.minx free_grid <= 1 < Para.minx free_grid + Para.xw free_grid)%Z as H1
    by (simpl; lia).
  split; [exact H0 |]. split; [exact H1 |].
  exact (calc_holonomic_index_injective free_grid (HolonomicNode.mk 0 7 0 (-1))
           (HolonomicNode.mk 1 7 1 0) H0 H1).
Defined.

(** ** The obstacle map *)

Lemma mapM_res_Ok {A B : Type} (f : A -> res B) (l : list A) (l' : list B) :
  mapM f l = Ok l' -> Forall2 (fun a b => f a = Ok b) l l'.
Proof.
  revert l'. induction l as [|a l IH]; intros l' H; simpl in H.
  - injection H as <-. constructor.
  - bind_ok H. bind_ok H. injection H as <-. constructor; [exact E | apply IH, E0].
Qed.

(** The entry of row [i], column [j] of a nested list. *)
Definition entry_at {A : Type} (m : list (list A)) (i j : nat) : option A :=
  row ← m !! i; row !! j.

(** Some obstacle lies, in grid units, within [rr / P.xyreso] of the cell
    [(xx, yy)]. *)
Definition obstacle_near (P : Para.t) (rr : R) (xx yy : Z) : Prop :=
  exists k ox oy oxx oyy,
    Para.ox P !! k = Some ox /\ Para.oy P !! k = Some oy
    /\ grid_index (Para.xyreso P) ox = Ok oxx /\ grid_index (Para.xyreso P) oy = Ok oyy
    /\ KDTree.hypot (IZR (oxx - xx)) (IZR (oyy - yy)) <= rr / Para.xyreso P.

(** The shape and the entries of the map, cell by cell. *)
Lemma obstacles_map_entries (P : Para.t) (rr : R) (obsmap : list (list bool)) :
  obstacles_map P rr = Ok obsmap ->
  length obsmap = Z.to_nat (Para.xw P)
  /\ (forall i row, obsmap !! i = Some row -> length row = Z.to_nat (Para.yw P))
  /\ forall i j, (i < Z.to_nat (Para.xw P))%nat -> (j < Z.to_nat (Para.yw P))%nat ->
       exists b, entry_at obsmap i j = Some b
         /\ (b = true
             <-> obstacle_near P rr (Z.of_nat i + Para.minx P) (Z.of_nat j + Para.miny P)).
Proof.
  unfold obstacles_map. intros H. bind_ok H. rename a into xs. bind_ok H. rename a into ys.
  apply mapM_res_Ok in E, E0. injection H as <-.
  split; [rewrite length_map, length_seq; reflexivity |].
  split.
  { intros i row Hrow. rewrite list_lookup_fmap in Hrow.
    destruct (seq 0 (Z.to_nat (Para.xw P)) !! i) as [x|]; [| discriminate].
    injection Hrow as <-. rewrite length_map, length_seq. reflexivity. }
  intros i j Hi Hj. unfold entry_at.
  rewrite list_lookup_fmap, lookup_seq_lt by exact Hi. cbn [fmap option_fmap option_map mbind
    option_bind]. rewrite list_lookup_fmap, lookup_seq_lt by exact Hj.
  cbn [fmap option_fmap option_map Nat.add]. eexists. split; [reflexivity |].
  rewrite existsb_exists. unfold obstacle_near. split.
  - intros ([oxx oyy] & Hin & Hnear). apply bool_decide_eq_true_1 in Hnear.
    apply list_elem_of_In, list_elem_of_lookup in Hin as [k Hk].
    apply lookup_zip_with_Some in Hk as (a & b & [= <- <-] & Ha & Hb).
    destruct (Forall2_lookup_r _ _ _ _ _ E Ha) as (ox & Hox & Hgx).
    destruct (Forall2_lookup_r _ _ _ _ _ E0 Hb) as (oy & Hoy & Hgy).
    exists k, ox, oy, oxx, oyy. auto.
  - intros (k & ox & oy & oxx & oyy & Hox & Hoy & Hgx & Hgy & Hnear).
    destruct (Forall2_lookup_l _ _ _ _ _ E Hox) as (a & Ha & Hga).
    destruct (Forall2_lookup_l _ _ _ _ _ E0 Hoy) as (b & Hb & Hgb).
    rewrite Hgx in Hga. rewrite Hgy in Hgb. injection Hga as <-. injection Hgb as <-.
    exists (oxx, oyy). split.
    + apply list_elem_of_In, list_elem_of_lookup. exists k.
      apply lookup_zip_with_Some. exists oxx, oyy. auto.
    + apply bool_decide_eq_true_2. exact Hnear.
Qed.

(** X4.  A map [obstacles_map] returns has [P.xw] rows of [P.yw] entries,
    and its entry [(x, y)] is [True] exactly when some obstacle lies, in grid
    units, within [rr / P.xyreso] of the cell [(x + P.minx, y + P.miny)]. *)
Theorem obstacles_map_spec (P : Para.t) (rr : R) (obsmap : list (list bool)) :
  obstacles_map P rr = Ok obsmap ->
  length obsmap = Z.to_nat (Para.xw P)
  /\ (forall i row, obsmap !! i = Some row -> length row = Z.to_nat (Para.yw P))
  /\ forall i j, (i < Z.to_nat (Para.xw P))%nat -> (j < Z.to_nat (Para.yw P))%nat ->
       exists b, entry_at obsmap i j = Some b
         /\ (b = true
             <-> obstacle_near P rr (Z.of_nat i + Para.minx P) (Z.of_nat j + Para.miny P)).
Proof. intros H. exact (obstacles_map_entries P rr obsmap H). Qed.

Lemma obstacles_map_spec_witness :
  exists obsmap,
    obstacles_map one_obstacle C.RADIUS = Ok obsmap
    /\ length obsmap = Z.to_nat (Para.xw one_obstacle)
    /\ (forall i row, obsmap !! i = Some row -> length row = Z.to_nat (Para.yw one_obstacle))
    /\ forall i j, (i < Z.to_nat (Para.xw one_obstacle))%nat ->
         (j < Z.to_nat (Para.yw one_obstacle))%nat ->
         exists b, entry_at obsmap i j = Some b
           /\ (b = true
               <-> obstacle_near one_obstacle C.RADIUS (Z.of_nat i + Para.minx one_obstacle)
                     (Z.of_nat j + Para.miny one_obstacle)).
Proof.
  destruct (obstacles_map_Ok one_obstacle C.RADIUS) as [obsmap H]; [simpl; lra |].
  exists obsmap. split; [exact H |].
  exact (obstacles_map_spec one_obstacle C.RADIUS obsmap H).
Defined.

Lemma index_in_range (n : nat) (i : Z) :
  (0 <= i < Z.of_nat n)%Z -> Py.index n i = Some (Z.to_nat i).
Proof.
  intros H. unfold Py.index.
  destruct (Z.leb_spec 0 i); [| lia]. destruct (Z.ltb_spec i (Z.of_nat n)); [| lia].
  reflexivity.
Qed.

Lemma getz_in_range {A : Type} (l : list A) (i : Z) (a : A) :
  (0 <= i)%Z -> l !! Z.to_nat i = Some a -> Py.getz l i = Ok a.
Proof.
  intros Hi Ha. apply getz_Ok. exists (Z.to_nat i). split; [| exact Ha].
  apply index_in_range. apply lookup_lt_Some in Ha. lia.
Qed.

Lemma check_on_obstacles_map (P : Para.t) (rr : R) (obsmap : list (list bool))
    (node : HolonomicNode.t) :
  obstacles_map P rr = Ok obsmap ->
  Para.xw P = (Para.maxx P - Para.minx P)%Z ->
  Para.yw P = (Para.maxy P - Para.miny P)%Z ->
  exists b, check_holonomic_node node P obsmap = Ok b
    /\ (b = true
        <-> (Para.minx P < HolonomicNode.x node < Para.maxx P)%Z
            /\ (Para.miny P < HolonomicNode.y node < Para.maxy P)%Z
            /\ ~ obstacle_near P rr (HolonomicNode.x node) (HolonomicNode.y node)).
Proof.
  intros Hmap Hxw Hyw. unfold check_holonomic_node.
  destruct (_ || _) eqn:Hout.
  - exists false. split; [reflexivity |]. split; [discriminate |].
    intros (Hx & Hy & _). exfalso.
    apply orb_true_iff in Hout as [Hout | Hout];
      [apply orb_true_iff in Hout as [Hout | Hout];
       [apply orb_true_iff in Hout as [Hout | Hout] |] |];
      rewrite ?Z.geb_leb in Hout; apply Z.leb_le in Hout; lia.
  - apply orb_false_iff in Hout as [Hout H4]. apply orb_false_iff in Hout as [Hout H3].
    apply orb_false_iff in Hout as [H1 H2].
    rewrite Z.geb_leb in H2, H4. apply Z.leb_gt in H1, H2, H3, H4.
    destruct (obstacles_map_entries P rr obsmap Hmap) as (Hlen & Hrows & Hcells).
    destruct (Hcells (Z.to_nat (HolonomicNode.x node - Para.minx P))
                     (Z.to_nat (HolonomicNode.y node - Para.miny P)))
      as (b & Hb & Hiff); [lia | lia |].
    rewrite !Z2Nat.id in Hiff by lia.
    replace (HolonomicNode.x node - Para.minx P + Para.minx P)%Z
      with (HolonomicNode.x node) in Hiff by lia.
    replace (HolonomicNode.y node - Para.miny P + Para.miny P)%Z
      with (HolonomicNode.y node) in Hiff by lia.
    unfold entry_at in Hb.
    destruct (obsmap !! Z.to_nat (HolonomicNode.x node - Para.minx P)) as [row|] eqn:Hrow;
      [| discriminate].
    cbn [mbind option_bind] in Hb.
    rewrite (getz_in_range obsmap _ row) by (lia || exact Hrow). cbn [mbind res_bind].
    rewrite (getz_in_range row _ b) by (lia || exact Hb). cbn [mbind res_bind].
    destruct b.
    + exists false. split; [reflexivity |]. split; [discriminate |].
      intros (_ & _ & Hn). exfalso. apply Hn, Hiff. reflexivity.
    + exists true. split; [reflexivity |]. split; [| reflexivity]. intros _.
      split; [lia |]. split; [lia |]. intros Hn. apply Hiff in Hn. discriminate.
Qed.

(** X5.  On a map returned by [obstacles_map], for a parameter set whose
    widths are the differences of its bounds, [check_holonomic_node] raises
    nothing, and it admits a node exactly when the node lies strictly within
    the bounds and no obstacle is near its cell. *)
Theorem check_holonomic_node_on_map (P : Para.t) (rr : R) (obsmap : list (list bool))
    (node : HolonomicNode.t) :
  obstacles_map P rr = Ok obsmap ->
  Para.xw P = (Para.maxx P - Para.minx P)%Z ->
  Para.yw P = (Para.maxy P - Para.miny P)%Z ->
  exists b, check_holonomic_node node P obsmap = Ok b
    /\ (b = true
        <-> (Para.minx P < HolonomicNode.x node < Para.maxx P)%Z
            /\ (Para.miny P < HolonomicNode.y node < Para.maxy P)%Z
            /\ ~ obstacle_near P rr (HolonomicNode.x node) (HolonomicNode.y node)).
Proof.
  intros Hmap Hxw Hyw.
  destruct (check_on_obstacles_map P rr obsmap node Hmap Hxw Hyw) as (b & Hb & Hiff).
  exists b. split; [exact Hb | exact Hiff].
Qed.

Lemma check_holonomic_node_on_map_witness :
  Para.xw one_obstacle = (Para.maxx one_obstacle - Para.minx one_obstacle)%Z
  /\ Para.yw one_obstacle = (Para.maxy one_obstacle - Para.miny one_obstacle)%Z
  /\ exists obsmap,
       obstacles_map one_obstacle C.RADIUS = Ok obsmap
       /\ exists b, check_holonomic_node (HolonomicNode.mk 0 0 0 (-1)) one_obstacle obsmap = Ok b
            /\ (b = true
                <-> (Para.minx one_obstacle < 0 < Para.maxx one_obstacle)%Z
                    /\ (Para.miny one_obstacle < 0 < Para.maxy one_obstacle)%Z
                    /\ ~ obstacle_near one_obstacle C.RADIUS 0 0).
Proof.
  split; [reflexivity |]. split; [reflexivity |].
  destruct (obstacles_map_Ok one_obstacle C.RADIUS) as [obsmap H]; [simpl; lra |].
  exists obsmap. split; [exact H |].
  exact (check_holonomic_node_on_map one_obstacle C.RADIUS obsmap (HolonomicNode.mk 0 0 0 (-1))
           H eq_refl eq_refl).
Defined.

(** ** Reading the heuristic map *)

Lemma index_negative (n : nat) (i : Z) :
  (- Z.of_nat n <= i < 0)%Z -> Py.index n i = Some (Z.to_nat (Z.of_nat n + i)).
Proof.
  intros H. unfold Py.index.
  destruct (Z.leb_spec 0 i); [lia |]. cbn [andb].
  destruct (Z.leb_spec (- Z.of_nat n) i); [| lia]. destruct (Z.ltb_spec i 0); [| lia].
  reflexivity.
Qed.

Lemma index_out_of_range (n : nat) (i : Z) :
  (Z.of_nat n <= i \/ i < - Z.of_nat n)%Z -> Py.index n i = None.
Proof.
  intros H. unfold Py.index.
  destruct (Z.leb_spec 0 i), (Z.ltb_spec i (Z.of_nat n)),
    (Z.leb_spec (- Z.of_nat n) i), (Z.ltb_spec i 0); cbn [andb]; try reflexivity; lia.
Qed.

(** The node [node] moved to the column [xind]. *)
Definition at_column (node : Node.t) (xind : Z) : Node.t :=
  Node.mk xind (Node.yind node) (Node.yawind node) (Node.direction node) (Node.x node)
          (Node.y node) (Node.yaw node) (Node.directions node) (Node.steer node)
          (Node.cost node) (Node.pind node).

Lemma calc_hybrid_cost_row (node : Node.t) (hmap : list (list Float.t)) (P : Para.t)
    (k : nat) (row : list Float.t) :
  Py.index (length hmap) (Node.xind node - Para.minx P) = Some k ->
  hmap !! k = Some row ->
  calc_hybrid_cost node hmap P
  = (h ← Py.getz row (Node.yind node - Para.miny P);
     Ok (Float.add (Float.fin (Node.cost node)) (Float.scale C.H_COST h))).
Proof.
  intros Hk Hrow. unfold calc_hybrid_cost.
  assert (Py.getz hmap (Node.xind node - Para.minx P) = Ok row) as ->; [| reflexivity].
  unfold Py.getz. rewrite Hk. unfold Py.get. rewrite Hrow. reflexivity.
Qed.

Lemma calc_hybrid_cost_no_row (node : Node.t) (hmap : list (list Float.t)) (P : Para.t) :
  Py.index (length hmap) (Node.xind node - Para.minx P) = None ->
  calc_hybrid_cost node hmap P = Raise IndexError.
Proof.
  intros Hk. unfold calc_hybrid_cost.
  assert (Py.getz hmap (Node.xind node - Para.minx P) = Raise IndexError) as ->;
    [| reflexivity].
  unfold Py.getz. rewrite Hk. reflexivity.
Qed.

(** The position Python reads for an index [i] into a sequence of [n]
    elements: a negative index counts from the end. *)
Definition wrapped (n i : Z) : Z := if (i <? 0)%Z then (i + n)%Z else i.

Lemma index_wrapped (n : nat) (i : Z) :
  (- Z.of_nat n <= i < Z.of_nat n)%Z ->
  Py.index n i = Some (Z.to_nat (wrapped (Z.of_nat n) i)) /\ (Z.to_nat (wrapped (Z.of_nat n) i) < n)%nat.
Proof.
  intros H. unfold wrapped. destruct (Z.ltb_spec i 0) as [Hneg | Hpos].
  - rewrite index_negative by lia. split; [f_equal; lia | lia].
  - rewrite index_in_range by lia. split; [reflexivity | lia].
Qed.

(** X6.  On a map of the grid's shape [calc_hybrid_cost] follows Python's
    indexing.  It returns exactly when the offset of the node from the lower
    bound lies in [[-P.xw, P.xw)] in [x] and in [[-P.yw, P.yw)] in [y], and
    raises [IndexError] otherwise.  The entry it prices the node with is the
    one Python reads: for a node left of or below the lower bound, the entry
    of the cell [P.xw] columns to the right or [P.yw] rows up, not an entry
    of the node's own cell. *)
Theorem calc_hybrid_cost_indexing (P : Para.t) (hmap : list (list Float.t)) (node : Node.t) :
  grid_shaped P hmap ->
  ((- Para.xw P <= Node.xind node - Para.minx P < Para.xw P)%Z ->
   (- Para.yw P <= Node.yind node - Para.miny P < Para.yw P)%Z ->
   exists h,
     entry_at hmap (Z.to_nat (wrapped (Para.xw P) (Node.xind node - Para.minx P)))
              (Z.to_nat (wrapped (Para.yw P) (Node.yind node - Para.miny P))) = Some h
     /\ calc_hybrid_cost node hmap P
        = Ok (Float.add (Float.fin (Node.cost node)) (Float.scale C.H_COST h)))
  /\ (~ ((- Para.xw P <= Node.xind node - Para.minx P < Para.xw P)%Z
         /\ (- Para.yw P <= Node.yind node - Para.miny P < Para.yw P)%Z) ->
      calc_hybrid_cost node hmap P = Raise IndexError).
Proof.
  intros [Hlen Hrows].
  assert (forall row, (- Para.xw P <= Node.xind node - Para.minx P < Para.xw P)%Z ->
            hmap !! Z.to_nat (wrapped (Para.xw P) (Node.xind node - Para.minx P)) = Some row ->
            calc_hybrid_cost node hmap P
            = (h ← Py.getz row (Node.yind node - Para.miny P);
               Ok (Float.add (Float.fin (Node.cost node)) (Float.scale C.H_COST h))))
    as Hrow_read.
  { intros row Hx Hrow.
    apply (calc_hybrid_cost_row node hmap P
             (Z.to_nat (wrapped (Para.xw P) (Node.xind node - Para.minx P))) row);
      [| exact Hrow].
    rewrite Hlen.
    destruct (index_wrapped (Z.to_nat (Para.xw P)) (Node.xind node - Para.minx P)) as [Hk _];
      [lia |].
    replace (Z.of_nat (Z.to_nat (Para.xw P))) with (Para.xw P) in Hk by lia. exact Hk. }
  assert ((- Para.xw P <= Node.xind node - Para.minx P < Para.xw P)%Z ->
          exists row,
            hmap !! Z.to_nat (wrapped (Para.xw P) (Node.xind node - Para.minx P)) = Some row)
    as Hrow_there.
  { intros Hx. apply lookup_lt_is_Some_2. rewrite Hlen.
    destruct (index_wrapped (Z.to_nat (Para.xw P)) (Node.xind node - Para.minx P)) as [_ Hk];
      [lia |].
    replace (Z.of_nat (Z.to_nat (Para.xw P))) with (Para.xw P) in Hk by lia. exact Hk. }
  split.
  - intros Hx Hy. destruct (Hrow_there Hx) as [row Hrow].
    pose proof (Hrows _ _ Hrow) as Hrl.
    destruct (index_wrapped (length row) (Node.yind node - Para.miny P)) as [Hk Hlt];
      [lia |].
    replace (Z.of_nat (length row)) with (Para.yw P) in Hk, Hlt by lia.
    destruct (lookup_lt_is_Some_2 row _ Hlt) as [h Hh].
    exists h. unfold entry_at. rewrite Hrow. cbn [mbind option_bind]. split; [exact Hh |].
    rewrite (Hrow_read row Hx Hrow). unfold Py.getz. rewrite Hk. unfold Py.get. rewrite Hh.
    reflexivity.
  - intros Hout.
    destruct (decide (- Para.xw P <= Node.xind node - Para.minx P < Para.xw P)%Z) as [Hx | Hx].
    + destruct (Hrow_there Hx) as [row Hrow]. pose proof (Hrows _ _ Hrow) as Hrl.
      rewrite (Hrow_read row Hx Hrow). unfold Py.getz.
      rewrite index_out_of_range by lia. reflexivity.
    + apply calc_hybrid_cost_no_row. rewrite Hlen. apply index_out_of_range. lia.
Qed.

Lemma calc_hybrid_cost_indexing_witness :
  grid_shaped (post_para 1) post_hmap
  /\ (- Para.xw (post_para 1) <= Node.xind (at_column (post_node 1 0) (-1))
                                 - Para.minx (post_para 1) < Para.xw (post_para 1))%Z
  /\ (- Para.yw (post_para 1) <= Node.yind (at_column (post_node 1 0) (-1))
                                 - Para.miny (post_para 1) < Para.yw (post_para 1))%Z
  /\ exists h,
       entry_at post_hmap
         (Z.to_nat (wrapped (Para.xw (post_para 1))
                      (Node.xind (at_column (post_node 1 0) (-1)) - Para.minx (post_para 1))))
         (Z.to_nat (wrapped (Para.yw (post_para 1))
                      (Node.yind (at_column (post_node 1 0) (-1)) - Para.miny (post_para 1))))
       = Some h
       /\ calc_hybrid_cost (at_column (post_node 1 0) (-1)) post_hmap (post_para 1)
          = Ok (Float.add (Float.fin (Node.cost (at_column (post_node 1 0) (-1))))
                  (Float.scale C.H_COST h)).
Proof.
  assert (grid_shaped (post_para 1) post_hmap) as Hs.
  { split; [reflexivity |]. intros [|[|i]] row; simpl; intros [= <-]; reflexivity. }
  assert (- Para.xw (post_para 1) <= Node.xind (at_column (post_node 1 0) (-1))
                                     - Para.minx (post_para 1) < Para.xw (post_para 1))%Z
    as Hx by (simpl; lia).
  assert (- Para.yw (post_para 1) <= Node.yind (at_column (post_node 1 0) (-1))
                                     - Para.miny (post_para 1) < Para.yw (post_para 1))%Z
    as Hy by (simpl; lia).
  split; [exact Hs |]. split; [exact Hx |]. split; [exact Hy |].
  exact (proj1 (calc_hybrid_cost_indexing (post_para 1) post_hmap
                  (at_column (post_node 1 0) (-1)) Hs) Hx Hy).
Defined.

(** ** Motion primitives *)

(** X7.  [calc_motion_set] returns 42 steering commands and as many gears:
    21 commands paired with the forward gear [1], then the same 21 commands
    paired with the backward gear [-1].  No command exceeds
    [MAX_ANGULAR_VELOCITY] in absolute value, and the straight command [0]
    is among them. *)
Theorem calc_motion_set_shape :
  length calc_motion_set.1 = 42%nat
  /\ length calc_motion_set.2 = 42%nat
  /\ take 21 calc_motion_set.2 = replicate 21 1
  /\ drop 21 calc_motion_set.2 = replicate 21 (-1)
  /\ take 21 calc_motion_set.1 = drop 21 calc_motion_set.1
  /\ Forall (fun u => Rabs u <= C.MAX_ANGULAR_VELOCITY) calc_motion_set.1
  /\ 0 ∈ calc_motion_set.1.
Proof.
  unfold calc_motion_set, arange.
  assert ((C.MAX_ANGULAR_VELOCITY - C.MIN_ANGULAR_VELOCITY)
          / ((C.MAX_ANGULAR_VELOCITY - C.MIN_ANGULAR_VELOCITY) / C.N_STEER) = IZR 10) as ->.
  { unfold C.MAX_ANGULAR_VELOCITY, C.MIN_ANGULAR_VELOCITY, C.N_STEER. field. }
  rewrite ceil_IZR. change (Z.to_nat 10) with 10%nat.
  cbn [seq List.map app fst snd].
  split; [reflexivity |]. split; [reflexivity |]. split; [reflexivity |].
  split; [reflexivity |]. split; [reflexivity |].
  split.
  - unfold C.MAX_ANGULAR_VELOCITY, C.MIN_ANGULAR_VELOCITY, C.N_STEER.
    repeat (apply List.Forall_cons; [apply Rabs_le; simpl; lra |]).
    apply List.Forall_nil.
  - do 10 right. left.
Qed.

(** ** The priority queue *)

Lemma float_ltb_below (a b c : Float.t) :
  Float.ltb a b = true -> Float.ltb a c = false -> Float.ltb b c = false.
Proof.
  destruct a as [r|], b as [s|], c as [t|]; cbn [Float.ltb]; try discriminate; try reflexivity.
  - intros H1 H2. apply bool_decide_eq_true_1 in H1. apply bool_decide_eq_false_1 in H2.
    apply bool_decide_eq_false_2. lra.
Qed.

Lemma float_ltb_chain (a b c : Float.t) :
  Float.ltb a b = false -> Float.ltb b c = false -> Float.ltb a c = false.
Proof.
  destruct a as [r|], b as [s|], c as [t|]; cbn [Float.ltb]; try discriminate; try reflexivity.
  intros H1 H2. apply bool_decide_eq_false_1 in H1, H2. apply bool_decide_eq_false_2. lra.
Qed.

Lemma float_ltb_irrefl (a : Float.t) : Float.ltb a a = false.
Proof. destruct a; cbn [Float.ltb]; [apply bool_decide_eq_false_2; lra | reflexivity]. Qed.

Lemma lowest_least {K : Type} (best : K * Float.t) (q : QueuePrior.t K) (e : K * Float.t) :
  e ∈ best :: q -> Float.ltb e.2 (QueuePrior.lowest best q).2 = false.
Proof.
  revert best e. induction q as [|a q IH]; intros best e He; cbn [QueuePrior.lowest].
  - apply list_elem_of_singleton in He as ->. apply float_ltb_irrefl.
  - destruct (Float.ltb a.2 best.2) eqn:Hlt.
    + apply elem_of_cons in He as [-> | He]; [| apply IH, He].
      apply (float_ltb_below a.2); [exact Hlt | apply IH; left].
    + apply elem_of_cons in He as [-> | He]; [apply IH; left |].
      apply elem_of_cons in He as [-> | He]; [| apply IH; right; exact He].
      apply (float_ltb_chain _ best.2); [exact Hlt | apply IH; left].
Qed.

Lemma discard_entries {K : Type} `{EqDecision K} (q : QueuePrior.t K) (item : K)
    (e : K * Float.t) :
  e ∈ QueuePrior.discard item q <-> e ∈ q /\ e.1 <> item.
Proof.
  unfold QueuePrior.discard. rewrite !list_elem_of_In, List.filter_In, negb_true_iff.
  split; intros [He Hk]; (split; [exact He |]).
  - apply bool_decide_eq_false_1 in Hk. exact Hk.
  - apply bool_decide_eq_false_2. exact Hk.
Qed.

(** X8.  The queue [QueuePrior] keeps one priority per item.  [get] on an
    empty queue raises [IndexError]; [put] replaces whatever priority the
    item had and leaves the other items alone; [get] hands out an item whose
    priority no other item undercuts, and removes exactly that item. *)
Theorem queue_put_get {K : Type} `{EqDecision K} (q : QueuePrior.t K) :
  QueuePrior.get (QueuePrior.new : QueuePrior.t K) = Raise IndexError
  /\ (forall item priority e,
        e ∈ QueuePrior.put q item priority
        <-> e = (item, priority) \/ (e ∈ q /\ e.1 <> item))
  /\ (forall item q',
        QueuePrior.get q = Ok (item, q') ->
        (exists priority,
            (item, priority) ∈ q
            /\ forall e, e ∈ q -> Float.ltb e.2 priority = false)
        /\ forall e, e ∈ q' <-> e ∈ q /\ e.1 <> item).
Proof.
  split; [reflexivity |]. split.
  - intros item priority e. unfold QueuePrior.put.
    rewrite elem_of_app, list_elem_of_singleton, discard_entries. tauto.
  - intros item q' Hget. destruct q as [|e0 q0]; [discriminate |].
    unfold QueuePrior.get in Hget. cbv zeta in Hget.
    set (d := QueuePrior.discard (QueuePrior.lowest e0 q0).1 (e0 :: q0)) in Hget.
    injection Hget as <- <-.
    split; [| intros e; exact (discard_entries (e0 :: q0) (QueuePrior.lowest e0 q0).1 e)].
    exists (QueuePrior.lowest e0 q0).2. split.
    + rewrite <- surjective_pairing. apply lowest_in.
    + intros e He. apply lowest_least. exact He.
Qed.

Lemma queue_put_get_witness :
  QueuePrior.get (QueuePrior.put (QueuePrior.put QueuePrior.new 7%Z (Float.fin 2)) 3%Z
                    (Float.fin 1))
  = Ok (3%Z, [(7%Z, Float.fin 2)])
  /\ (exists priority,
        (3%Z, priority) ∈ QueuePrior.put (QueuePrior.put QueuePrior.new 7%Z (Float.fin 2)) 3%Z
                            (Float.fin 1)
        /\ forall e, e ∈ QueuePrior.put (QueuePrior.put QueuePrior.new 7%Z (Float.fin 2)) 3%Z
                            (Float.fin 1) ->
                     Float.ltb e.2 priority = false)
  /\ forall e, e ∈ [(7%Z, Float.fin 2)]
               <-> e ∈ QueuePrior.put (QueuePrior.put QueuePrior.new 7%Z (Float.fin 2)) 3%Z
                         (Float.fin 1)
                   /\ e.1 <> 3%Z.
Proof.
  assert (QueuePrior.get (QueuePrior.put (QueuePrior.put QueuePrior.new 7%Z (Float.fin 2)) 3%Z
                            (Float.fin 1))
          = Ok (3%Z, [(7%Z, Float.fin 2)])) as Hget.
  { cbn [QueuePrior.put QueuePrior.new QueuePrior.discard List.filter app QueuePrior.get
         QueuePrior.lowest fst snd negb].
    rewrite (bool_decide_eq_false_2 (7%Z = 3%Z)) by lia.
    cbn [negb app QueuePrior.get QueuePrior.lowest snd Float.ltb].
    rewrite bool_decide_eq_true_2 by lra.
    cbn [fst QueuePrior.discard List.filter].
    rewrite (bool_decide_eq_false_2 (7%Z = 3%Z)) by lia.
    rewrite (bool_decide_eq_true_2 (3%Z = 3%Z)) by reflexivity. reflexivity. }
  split; [exact Hget |].
  exact (proj2 (proj2 (queue_put_get
                         (QueuePrior.put (QueuePrior.put QueuePrior.new 7%Z (Float.fin 2)) 3%Z
                            (Float.fin 1))))
           3%Z [(7%Z, Float.fin 2)] Hget).
Defined.

(** ** Successors: which samples are checked *)

Lemma is_index_ok_first_sample (xind yind : Z) (x1 x2 y1 y2 w1 w2 : R) (P : Para.t) :
  (Para.minx P < xind < Para.maxx P)%Z -> (Para.miny P < yind < Para.maxy P)%Z ->
  is_index_ok xind yind [x1; x2] [y1; y2] [w1; w2] P
  = (hit ← is_collision [x1] [y1] [w1] P; if hit : bool then Ok false else Ok true).
Proof.
  intros Hx Hy. unfold is_index_ok.
  destruct (Z.leb_spec xind (Para.minx P)); [lia |].
  rewrite Z.geb_leb. destruct (Z.leb_spec (Para.maxx P) xind); [lia |].
  destruct (Z.leb_spec yind (Para.miny P)); [lia |].
  rewrite Z.geb_leb. destruct (Z.leb_spec (Para.maxy P) yind); [lia |].
  reflexivity.
Qed.

(** X9.  [calc_next_node] rolls out two samples and checks only the first
    of them for collision: [COLLISION_CHECK_STEP] is 2, so [is_index_ok]
    looks at the samples in even positions.  When the cell of the second
    sample lies strictly within the bounds and the first sample is free, the
    successor is accepted, whatever the second sample, the pose the
    successor ends on, collides with. *)
Theorem calc_next_node_checks_first_sample (n_curr : Node.t) (c_id : Z) (u d : R) (P : Para.t)
    (x0 y0 yaw0 x1 y1 w1 x2 y2 w2 : R) (xind yind : Z) :
  Py.last (Node.x n_curr) = Ok x0 ->
  Py.last (Node.y n_curr) = Ok y0 ->
  Py.last (Node.yaw n_curr) = Ok yaw0 ->
  rollout 2 u d x0 y0 yaw0 = [(x1, y1, w1); (x2, y2, w2)] ->
  grid_index (Para.xyreso P) x2 = Ok xind ->
  grid_index (Para.xyreso P) y2 = Ok yind ->
  Para.yawreso P <> 0 ->
  (Para.minx P < xind < Para.maxx P)%Z ->
  (Para.miny P < yind < Para.maxy P)%Z ->
  is_collision [x1] [y1] [w1] P = Ok false ->
  exists node,
    calc_next_node n_curr c_id u d P = Ok (Some node)
    /\ Node.x node = [x1; x2] /\ Node.y node = [y1; y2] /\ Node.yaw node = [w1; w2]
    /\ Node.xind node = xind /\ Node.yind node = yind.
Proof.
  intros Hx0 Hy0 Hw0 Hroll Hgx Hgy Hyaw Hbx Hby Hfree.
  unfold calc_next_node. rewrite nlist_value, Hx0, Hy0, Hw0.
  change (S (Z.to_nat (2 - 1))) with 2%nat.
  cbn [mbind res_bind]. rewrite Hroll.
  cbn [List.map fst snd Py.last List.last mbind res_bind].
  rewrite Hgx. cbn [mbind res_bind]. rewrite Hgy. cbn [mbind res_bind].
  rewrite (grid_index_Ok (Para.yawreso P)) by exact Hyaw. cbn [mbind res_bind].
  rewrite is_index_ok_first_sample by assumption.
  rewrite Hfree. cbn [mbind res_bind negb].
  destruct (bool_decide (0 < d)); eexists; (split; [reflexivity |]); cbn; auto.
Qed.

(** A parameter set with one obstacle, at [(1.9, 0)], ahead of the
    origin. *)
Definition obstacle_ahead : Para.t :=
  Para.mk (-5) (-5) (-4) 5 5 3 10 10 7 1 1 [19 / 10] [0] [(19 / 10, 0)].

Lemma within_inside (c p : R * R) (r : R) :
  0 <= r -> (p.1 - c.1) * (p.1 - c.1) + (p.2 - c.2) * (p.2 - c.2) <= r * r ->
  KDTree.within c r p = true.
Proof.
  intros Hr H. unfold KDTree.within, KDTree.hypot. apply bool_decide_eq_true_2.
  rewrite <- (sqrt_square r) by exact Hr. apply sqrt_le_1_alt. exact H.
Qed.

Lemma obstacle_ahead_first_free :
  is_collision [0 + C.MOVE_STEP] [0] [0] obstacle_ahead = Ok false.
Proof.
  assert (is_collision_at obstacle_ahead (0 + C.MOVE_STEP) 0 0 = Ok false) as H.
  { unfold is_collision_at. cbn [obstacle_ahead Para.kdtree Para.xyreso].
    rewrite cos_0, sin_0.
    assert (Rmax ((C.RF + C.RB) / 2) (C.W / 2) + 1 = 14 / 10) as ->.
    { unfold C.RF, C.RB, C.W. rewrite Rmax_left by lra. lra. }
    unfold KDTree.query_ball_point. cbn [KDTree.query_from].
    rewrite within_outside; [reflexivity | lra |].
    unfold C.RF, C.RB, C.MOVE_STEP. cbn [fst snd]. lra. }
  cbn [is_collision]. rewrite H. reflexivity.
Qed.

Lemma obstacle_ahead_second_hit :
  is_collision [0 + C.MOVE_STEP + C.MOVE_STEP] [0] [0] obstacle_ahead = Ok true.
Proof.
  assert (is_collision_at obstacle_ahead (0 + C.MOVE_STEP + C.MOVE_STEP) 0 0 = Ok true) as H.
  { unfold is_collision_at. cbn [obstacle_ahead Para.kdtree Para.xyreso].
    rewrite cos_0, sin_0.
    assert (Rmax ((C.RF + C.RB) / 2) (C.W / 2) + 1 = 14 / 10) as ->.
    { unfold C.RF, C.RB, C.W. rewrite Rmax_left by lra. lra. }
    unfold KDTree.query_ball_point. cbn [KDTree.query_from].
    rewrite within_inside; [| lra | unfold C.RF, C.RB, C.MOVE_STEP; cbn [fst snd]; lra].
    cbn [obstacle_scan Py.get lookup list_lookup Para.ox Para.oy mbind res_bind Para.xyreso
         obstacle_ahead].
    rewrite cos_0, sin_0.
    rewrite !bool_decide_eq_true_2
      by (unfold C.RF, C.RB, C.MOVE_STEP, C.W; apply Rabs_def1; lra).
    reflexivity. }
  cbn [is_collision]. rewrite H. reflexivity.
Qed.

Lemma calc_next_node_checks_first_sample_witness :
  is_collision [0 + C.MOVE_STEP + C.MOVE_STEP] [0] [0] obstacle_ahead = Ok true
  /\ exists node,
       calc_next_node origin_node 0 0 1 obstacle_ahead = Ok (Some node)
       /\ Node.x node = [0 + C.MOVE_STEP; 0 + C.MOVE_STEP + C.MOVE_STEP]
       /\ Node.y node = [0; 0] /\ Node.yaw node = [0; 0]
       /\ Node.xind node = 0%Z /\ Node.yind node = 0%Z.
Proof.
  split; [exact obstacle_ahead_second_hit |].
  assert (1 <> 0) as H1 by lra.
  assert (-5 < 0 < 5)%Z as Hb by lia.
  exact (calc_next_node_checks_first_sample origin_node 0 0 1 obstacle_ahead
           0 0 0 (0 + C.MOVE_STEP) 0 0 (0 + C.MOVE_STEP + C.MOVE_STEP) 0 0 0 0
           eq_refl eq_refl eq_refl (rollout_straight 0)
           (grid_index_unit (0 + C.MOVE_STEP + C.MOVE_STEP) 0
              ltac:(unfold C.MOVE_STEP; simpl; lra))
           (grid_index_unit 0 0 ltac:(simpl; lra))
           H1 Hb Hb obstacle_ahead_first_free).
Defined.

(** ** Successors: samples and cost *)

(** X10.  A successor [calc_next_node] returns carries exactly two samples.
    Each sample lies [|d| * MOVE_STEP] away from the one before it, starting
    from the last sample of the parent; each yaw is the wrapped yaw before it
    advanced by [d * MOVE_STEP * u]; both samples carry the gear of the
    successor, which is [1] for a positive [d] and [-1] otherwise; the
    successor records the command [u] and the parent key [c_id]. *)
Theorem calc_next_node_samples (n_curr : Node.t) (c_id : Z) (u d : R) (P : Para.t)
    (node : Node.t) :
  calc_next_node n_curr c_id u d P = Ok (Some node) ->
  exists x0 y0 yaw0 x1 y1 yaw1 x2 y2 yaw2,
    Py.last (Node.x n_curr) = Ok x0 /\ Py.last (Node.y n_curr) = Ok y0
    /\ Py.last (Node.yaw n_curr) = Ok yaw0
    /\ Node.x node = [x1; x2] /\ Node.y node = [y1; y2] /\ Node.yaw node = [yaw1; yaw2]
    /\ (x1 - x0) * (x1 - x0) + (y1 - y0) * (y1 - y0) = (d * C.MOVE_STEP) * (d * C.MOVE_STEP)
    /\ (x2 - x1) * (x2 - x1) + (y2 - y1) * (y2 - y1) = (d * C.MOVE_STEP) * (d * C.MOVE_STEP)
    /\ yaw1 = rs.pi_2_pi (yaw0 + d * C.MOVE_STEP * u)
    /\ yaw2 = rs.pi_2_pi (yaw1 + d * C.MOVE_STEP * u)
    /\ Node.direction node = (if bool_decide (0 < d) then 1%Z else (-1)%Z)
    /\ Node.directions node = [Node.direction node; Node.direction node]
    /\ Node.steer node = u /\ Node.pind node = c_id.
Proof.
  intros H. unfold calc_next_node in H. rewrite nlist_value in H.
  change (S (Z.to_nat (2 - 1))) with 2%nat in H.
  bind_ok H. rename a into x0, E into Hx0.
  bind_ok H. rename a into yaw0, E into Hw0.
  bind_ok H. rename a into y0, E into Hy0.
  cbn [rollout List.map fst snd Py.last List.last mbind res_bind] in H.
  bind_ok H. bind_ok H. bind_ok H. bind_ok H.
  destruct a2; cbn [negb] in H; [| discriminate].
  exists x0, y0, yaw0.
  exists (x0 + d * C.MOVE_STEP * cos yaw0), (y0 + d * C.MOVE_STEP * sin yaw0),
    (rs.pi_2_pi (yaw0 + d * C.MOVE_STEP * u)).
  set (yaw1 := rs.pi_2_pi (yaw0 + d * C.MOVE_STEP * u)) in *.
  exists (x0 + d * C.MOVE_STEP * cos yaw0 + d * C.MOVE_STEP * cos yaw1),
    (y0 + d * C.MOVE_STEP * sin yaw0 + d * C.MOVE_STEP * sin yaw1),
    (rs.pi_2_pi (yaw1 + d * C.MOVE_STEP * u)).
  pose proof (sin2_cos2 yaw0) as H0. pose proof (sin2_cos2 yaw1) as H1.
  unfold Rsqr in H0, H1.
  split; [exact Hx0 |]. split; [exact Hy0 |]. split; [exact Hw0 |].
  assert (forall a c s : R, s * s + c * c = 1 -> (a * c) * (a * c) + (a * s) * (a * s) = a * a)
    as Hnorm by (intros; nra).
  destruct (bool_decide (0 < d)); injection H as <-;
    cbn [Node.x Node.y Node.yaw Node.direction Node.directions Node.steer Node.pind];
    (split; [reflexivity |]); (split; [reflexivity |]); (split; [reflexivity |]);
    (split; [rewrite <- (Hnorm (d * C.MOVE_STEP) (cos yaw0) (sin yaw0) H0); ring |]);
    (split; [rewrite <- (Hnorm (d * C.MOVE_STEP) (cos yaw1) (sin yaw1) H1); ring |]);
    auto 10.
Qed.

Lemma calc_next_node_samples_witness :
  exists node,
    calc_next_node origin_node 0 0 1 free_grid = Ok (Some node)
    /\ exists x0 y0 yaw0 x1 y1 yaw1 x2 y2 yaw2,
         Py.last (Node.x origin_node) = Ok x0 /\ Py.last (Node.y origin_node) = Ok y0
         /\ Py.last (Node.yaw origin_node) = Ok yaw0
         /\ Node.x node = [x1; x2] /\ Node.y node = [y1; y2] /\ Node.yaw node = [yaw1; yaw2]
         /\ (x1 - x0) * (x1 - x0) + (y1 - y0) * (y1 - y0)
            = (1 * C.MOVE_STEP) * (1 * C.MOVE_STEP)
         /\ (x2 - x1) * (x2 - x1) + (y2 - y1) * (y2 - y1)
            = (1 * C.MOVE_STEP) * (1 * C.MOVE_STEP)
         /\ yaw1 = rs.pi_2_pi (yaw0 + 1 * C.MOVE_STEP * 0)
         /\ yaw2 = rs.pi_2_pi (yaw1 + 1 * C.MOVE_STEP * 0)
         /\ Node.direction node = (if bool_decide (0 < 1) then 1%Z else (-1)%Z)
         /\ Node.directions node = [Node.direction node; Node.direction node]
         /\ Node.steer node = 0 /\ Node.pind node = 0%Z.
Proof.
  destruct calc_next_node_straight as [node H]. exists node. split; [exact H |].
  exact (calc_next_node_samples origin_node 0 0 1 free_grid node H).
Defined.

(** X11.  The cost of a successor exceeds the cost of its parent by at least
    the arc length [2 * XY_RESO], whatever the command and the gear. *)
Theorem calc_next_node_cost_grows (n_curr : Node.t) (c_id : Z) (u d : R) (P : Para.t)
    (node : Node.t) :
  calc_next_node n_curr c_id u d P = Ok (Some node) ->
  Node.cost n_curr + 2 * C.XY_RESO <= Node.cost node.
Proof.
  intros H. unfold calc_next_node in H. repeat bind_ok H.
  destruct a8; cbn [negb] in H; [| discriminate].
  pose proof (Rabs_pos (Node.steer n_curr - u)) as Hs.
  assert (Rabs (C.XY_RESO * 2) = 2 * C.XY_RESO) as Habs
    by (unfold C.XY_RESO; rewrite Rabs_pos_eq; lra).
  destruct (bool_decide (0 < d));
    destruct (negb (_ =? Node.direction n_curr)%Z);
    injection H as <-; cbn [Node.cost]; rewrite Habs;
    unfold C.XY_RESO, C.BACKWARD_COST, C.GEAR_COST, C.ANGULAR_VELOCITY_CHANGE_COST; lra.
Qed.

Lemma calc_next_node_cost_grows_witness :
  exists node,
    calc_next_node origin_node 0 0 1 free_grid = Ok (Some node)
    /\ Node.cost origin_node + 2 * C.XY_RESO <= Node.cost node.
Proof.
  destruct calc_next_node_straight as [node H]. exists node. split; [exact H |].
  exact (calc_next_node_cost_grows origin_node 0 0 1 free_grid node H).
Defined.

(** ** Reeds-Shepp path cost: sign *)

Lemma distance_cost_nonneg (lengths : list R) : 0 <= distance_cost lengths.
Proof.
  induction lengths as [|lr lengths IH]; simpl; [lra |].
  pose proof (Rabs_pos lr). case_bool_decide; unfold C.BACKWARD_COST; nra.
Qed.

Lemma gear_cost_nonneg (lengths : list R) : 0 <= gear_cost lengths.
Proof.
  induction lengths as [|a [|b rest] IH]; [simpl; lra | simpl; lra |].
  change (gear_cost (a :: b :: rest))
    with ((if bool_decide (a * b < 0) then C.GEAR_COST else 0) + gear_cost (b :: rest)).
  case_bool_decide; unfold C.GEAR_COST; lra.
Qed.

(** X12.  [calc_rs_path_cost] is never negative, and it is zero only for a
    path without segments: every segment, whatever its length, adds a
    positive amount. *)
Theorem calc_rs_path_cost_sign (rspath : RSPath.t) :
  0 <= calc_rs_path_cost rspath
  /\ (calc_rs_path_cost rspath = 0 <-> RSPath.lengths rspath = []).
Proof.
  rewrite calc_rs_path_cost_value.
  pose proof (distance_cost_nonneg (RSPath.lengths rspath)) as Hd.
  pose proof (gear_cost_nonneg (RSPath.lengths rspath)) as Hg.
  split; [lra |]. split.
  - destruct (RSPath.lengths rspath) as [|lr rest]; [reflexivity |]. intros H. exfalso.
    pose proof (distance_cost_nonneg rest) as Hr.
    unfold distance_cost in Hd, H, Hr. cbn [List.fold_right] in Hd, H.
    case_bool_decide as Hlr.
    + lra.
    + assert (0 < Rabs lr) by (apply Rabs_pos_lt; lra).
      unfold C.BACKWARD_COST in *. nra.
  - intros ->. simpl. lra.
Qed.

(** ** The planner: arguments it cannot handle *)

Lemma grid_index_zero (x : R) : grid_index 0 x = Raise ZeroDivisionError.
Proof. unfold grid_index. rewrite div_zero. reflexivity. Qed.

(** X13.  [hybrid_astar_planning] checks none of its arguments.  A zero
    [xyreso] or a zero [yawreso] raises [ZeroDivisionError] in the first
    lines; with non-zero resolutions, an empty obstacle list raises
    [ValueError] in [calc_parameters].  This happens for every start, goal
    and radius and before the search begins. *)
Theorem planning_input_errors
    (calc_all_paths : R -> R -> R -> R -> R -> R -> R -> R -> list RSPath.t) (fuel : nat)
    (sx sy syaw gx gy gyaw : R) (ox_grid oy_grid : list Z) (xyreso yawreso radius : R) :
  xyreso = 0 \/ yawreso = 0 \/ ox_grid = [] \/ oy_grid = [] ->
  hybrid_astar_planning calc_all_paths fuel sx sy syaw gx gy gyaw ox_grid oy_grid
    xyreso yawreso radius
  = Raise (if bool_decide (xyreso = 0 \/ yawreso = 0) then ZeroDivisionError else ValueError).
Proof.
  intros H. unfold hybrid_astar_planning, prepare.
  destruct (Req_dec_T xyreso 0) as [-> | Hxy].
  { rewrite (grid_index_zero sx), bool_decide_eq_true_2 by (left; reflexivity).
    reflexivity. }
  rewrite !(grid_index_Ok xyreso) by exact Hxy. cbn [mbind res_bind].
  destruct (Req_dec_T yawreso 0) as [-> | Hyaw].
  { rewrite (grid_index_zero (rs.pi_2_pi syaw)), bool_decide_eq_true_2
      by (right; reflexivity).
    reflexivity. }
  rewrite !(grid_index_Ok yawreso) by exact Hyaw. cbn [mbind res_bind].
  rewrite bool_decide_eq_false_2 by tauto.
  destruct H as [H | [H | [-> | ->]]]; [contradiction | contradiction | reflexivity |].
  unfold calc_parameters. destruct ox_grid; reflexivity.
Qed.

Lemma planning_input_errors_witness :
  (10 = 0 \/ 0 = 0 \/ two_posts = [] \/ two_posts = [])
  /\ hybrid_astar_planning no_rs_path 2 10 10 0 10 10 0 two_posts two_posts 10 0 C.RADIUS
     = Raise (if bool_decide (10 = 0 \/ 0 = 0) then ZeroDivisionError else ValueError).
Proof.
  assert (10 = 0 \/ 0 = 0 \/ two_posts = [] \/ two_posts = []) as H
    by (right; left; reflexivity).
  split; [exact H |].
  exact (planning_input_errors no_rs_path 2 10 10 0 10 10 0 two_posts two_posts 10 0
           C.RADIUS H).
Defined.

(** ** The planner: which exceptions it can raise *)

Section Exceptions.

(** An exception the planner is about to be shown never to raise. *)
Variable bad : exn.
Hypothesis bad_kind : bad = KeyError \/ bad = Exception.

Definition avoids {A : Type} (r : res A) : Prop := r <> Raise bad.

Lemma avoids_Ok {A : Type} (a : A) : avoids (Ok a).
Proof. discriminate. Qed.

Lemma avoids_other {A : Type} (e : exn) :
  e = ZeroDivisionError \/ e = ValueError \/ e = IndexError \/ e = OutOfFuel ->
  avoids (Raise e : res A).
Proof.
  intros He [= ->]. destruct bad_kind as [-> | ->];
    destruct He as [He | [He | [He | He]]]; discriminate.
Qed.

Lemma avoids_bind {A B : Type} (m : res A) (k : A -> res B) :
  avoids m -> (forall a, m = Ok a -> avoids (k a)) -> avoids (m ≫= k).
Proof.
  intros Hm Hk. destruct m as [a|e]; simpl; [apply Hk; reflexivity |].
  intros [= ->]. apply Hm. reflexivity.
Qed.

Lemma avoids_div (a b : R) : avoids (Py.div a b).
Proof. unfold Py.div. destruct (Req_dec_T b 0); [apply avoids_other; auto | discriminate]. Qed.

Lemma avoids_get {A : Type} (l : list A) (i : nat) : avoids (Py.get l i).
Proof. unfold Py.get. destruct (l !! i); [discriminate | apply avoids_other; auto]. Qed.

Lemma avoids_getz {A : Type} (l : list A) (i : Z) : avoids (Py.getz l i).
Proof.
  unfold Py.getz. destruct (Py.index _ _); [apply avoids_get | apply avoids_other; auto].
Qed.

Lemma avoids_setz {A : Type} (l : list A) (i : Z) (v : A) : avoids (Py.setz l i v).
Proof. unfold Py.setz. destruct (Py.index _ _); [discriminate | apply avoids_other; auto]. Qed.

Lemma avoids_last {A : Type} (l : list A) : avoids (Py.last l).
Proof. unfold Py.last. destruct (List.last _ _); [discriminate | apply avoids_other; auto]. Qed.

Lemma avoids_item {A : Type} (o : option A) : is_Some o -> avoids (Py.item o).
Proof. intros [a ->]. discriminate. Qed.

Lemma avoids_mapM {A B : Type} (f : A -> res B) (l : list A) :
  (forall a, avoids (f a)) -> avoids (mapM f l).
Proof.
  intros Hf. induction l as [|a l IH]; simpl; [discriminate |].
  apply avoids_bind; [apply Hf |]. intros b _.
  apply avoids_bind; [exact IH | intros; discriminate].
Qed.

Lemma avoids_gets {A : Type} (l : list A) (ind : list nat) : avoids (Py.gets l ind).
Proof. apply avoids_mapM. intros. apply avoids_get. Qed.

Lemma avoids_grid_index (reso x : R) : avoids (grid_index reso x).
Proof.
  unfold grid_index. apply avoids_bind; [apply avoids_div | intros; discriminate].
Qed.

Lemma avoids_heappop (h : list heapq.entry) : avoids (heapq.heappop h).
Proof. destruct h; [apply avoids_other; auto | discriminate]. Qed.

Lemma avoids_queue_get {K : Type} `{EqDecision K} (q : QueuePrior.t K) :
  avoids (QueuePrior.get q).
Proof. destruct q; [apply avoids_other; auto | discriminate]. Qed.

Lemma avoids_min (l : list Z) : avoids (Py.min l).
Proof. destruct l; [apply avoids_other; auto | discriminate]. Qed.

Lemma avoids_max (l : list Z) : avoids (Py.max l).
Proof. destruct l; [apply avoids_other; auto | discriminate]. Qed.

Create HintDb avoids.

#[local] Hint Resolve avoids_Ok avoids_div avoids_get avoids_getz avoids_setz avoids_last
  avoids_gets avoids_grid_index avoids_heappop avoids_queue_get avoids_min avoids_max : avoids.

Ltac avoid :=
  repeat first
    [ progress auto with avoids
    | apply avoids_bind; [| intros ? ?]
    | match goal with
      | |- avoids (if ?b then _ else _) => destruct b
      | |- avoids (match ?x with _ => _ end) => destruct x
      | |- avoids (let '(_, _) := ?x in _) => destruct x
      end ].

Lemma avoids_check_holonomic_node (node : HolonomicNode.t) (P : Para.t)
    (obsmap : list (list bool)) : avoids (check_holonomic_node node P obsmap).
Proof. unfold check_holonomic_node. avoid. Qed.

#[local] Hint Resolve avoids_check_holonomic_node : avoids.

Lemma avoids_relax_all (P : Para.t) (obsmap : list (list bool))
    (closed : OrderedDict.t HolonomicNode.t) (ind : Z) (n_curr : HolonomicNode.t)
    (motion : list (Z * Z)) (oq : gmap Z HolonomicNode.t * list heapq.entry) :
  avoids (Dijkstra.relax_all P obsmap closed ind n_curr oq motion).
Proof.
  revert oq. induction motion as [|m motion IH]; intros oq; simpl; [discriminate |].
  apply avoids_bind; [unfold Dijkstra.relax; avoid | intros; apply IH].
Qed.

Lemma avoids_record_costs (P : Para.t) (nodes : list HolonomicNode.t)
    (hmap : list (list Float.t)) : avoids (Dijkstra.record_costs P hmap nodes).
Proof.
  revert hmap. induction nodes as [|n nodes IH]; intros hmap; simpl; [discriminate |].
  apply avoids_bind; [unfold Dijkstra.record_cost; avoid | intros; apply IH].
Qed.

Lemma avoids_obstacles_map (P : Para.t) (rr : R) : avoids (obstacles_map P rr).
Proof.
  unfold obstacles_map.
  apply avoids_bind; [apply avoids_mapM; intros; apply avoids_grid_index |].
  intros ? _.
  apply avoids_bind; [apply avoids_mapM; intros; apply avoids_grid_index |].
  intros; discriminate.
Qed.

Lemma avoids_holonomic_goal (node : Node.t) (P : Para.t) : avoids (holonomic_goal node P).
Proof. unfold holonomic_goal. avoid. Qed.

(** In the Dijkstra loop the key popped from the heap is always a key of
    the open set. *)
Lemma avoids_dijkstra_iteration (P : Para.t) (obsmap : list (list bool))
    (goal : HolonomicNode.t) (st : Dijkstra.state) :
  dijkstra_inv P obsmap goal st -> avoids (Dijkstra.iteration P obsmap st).
Proof.
  intros [(Hq & Hnd & _ & _) _ _ _]. cbn [fst snd] in Hq, Hnd.
  unfold Dijkstra.iteration. case_bool_decide; [discriminate |].
  apply avoids_bind; [apply avoids_heappop |]. intros [[c ind] q] Hpop.
  apply (heappop_spec _ _ _ Hnd) in Hpop as (Hin & _).
  apply avoids_bind.
  - apply avoids_item, elem_of_dom, Hq, list_elem_of_fmap. exists (c, ind). auto.
  - intros n_curr _. apply avoids_bind; [apply avoids_relax_all | intros; discriminate].
Qed.

Lemma avoids_dijkstra_loop (fuel : nat) (P : Para.t) (obsmap : list (list bool))
    (goal : HolonomicNode.t) (st : Dijkstra.state) :
  dijkstra_inv P obsmap goal st -> avoids (Dijkstra.loop fuel P obsmap st).
Proof.
  revert st. induction fuel as [|fuel IH]; intros st Hinv; simpl;
    [apply avoids_other; auto |].
  apply avoids_bind; [eapply avoids_dijkstra_iteration; exact Hinv |].
  intros [st1|] Hit; [| discriminate].
  apply IH. destruct (iteration_inv P obsmap goal st st1 Hit Hinv) as (? & ? & ? & ? & H).
  apply H.
Qed.

Lemma avoids_heuristic (fuel : nat) (node : Node.t) (P : Para.t) (radius : R) :
  avoids (calc_holonomic_heuristic_with_obstacle fuel node P radius).
Proof.
  unfold calc_holonomic_heuristic_with_obstacle, holonomic_closed_set.
  apply avoids_bind; [| intros; apply avoids_record_costs].
  apply avoids_bind; [apply avoids_holonomic_goal |]. intros goal Hgoal.
  apply avoids_bind; [apply avoids_obstacles_map |]. intros obsmap _.
  apply avoids_bind; [| intros; discriminate].
  apply (avoids_dijkstra_loop fuel P obsmap goal), dijkstra_initial_inv.
  unfold holonomic_goal in Hgoal. repeat bind_ok Hgoal. injection Hgoal as <-. simpl. lra.
Qed.

Lemma avoids_obstacle_scan (P : Para.t) (cx cy r iyaw : R) (ids : list nat) :
  avoids (obstacle_scan P cx cy r iyaw ids).
Proof.
  induction ids as [|i ids IH]; simpl; [discriminate |].
  apply avoids_bind; [apply avoids_get |]. intros oxi _.
  apply avoids_bind; [apply avoids_get |]. intros oyi _.
  destruct (_ && _); [discriminate | exact IH].
Qed.

Lemma avoids_is_collision (x y yaw : list R) (P : Para.t) : avoids (is_collision x y yaw P).
Proof.
  revert y yaw. induction x as [|ix x IH]; intros [|iy y] [|iyaw yaw]; simpl; try discriminate.
  apply avoids_bind; [apply avoids_obstacle_scan |].
  intros [|] _; [discriminate | apply IH].
Qed.

#[local] Hint Resolve avoids_is_collision : avoids.

Lemma avoids_is_index_ok (xind yind : Z) (xlist ylist yawlist : list R) (P : Para.t) :
  avoids (is_index_ok xind yind xlist ylist yawlist P).
Proof. unfold is_index_ok. avoid. Qed.

#[local] Hint Resolve avoids_is_index_ok : avoids.

Lemma avoids_calc_next_node (n_curr : Node.t) (c_id : Z) (u d : R) (P : Para.t) :
  avoids (calc_next_node n_curr c_id u d P).
Proof. unfold calc_next_node. avoid. Qed.

Lemma avoids_calc_hybrid_cost (node : Node.t) (hmap : list (list Float.t)) (P : Para.t) :
  avoids (calc_hybrid_cost node hmap P).
Proof. unfold calc_hybrid_cost. avoid. Qed.

#[local] Hint Resolve avoids_calc_next_node avoids_calc_hybrid_cost : avoids.

Lemma avoids_calc_parameters (ox_grid oy_grid : list Z) (xyreso yawreso : R) :
  avoids (calc_parameters ox_grid oy_grid xyreso yawreso).
Proof. unfold calc_parameters. avoid. Qed.

Lemma avoids_prepare (fuel : nat) (sx sy syaw gx gy gyaw : R) (ox_grid oy_grid : list Z)
    (xyreso yawreso radius : R) :
  avoids (prepare fuel sx sy syaw gx gy gyaw ox_grid oy_grid xyreso yawreso radius).
Proof.
  unfold prepare.
  do 6 (apply avoids_bind; [apply avoids_grid_index | intros ? _]).
  apply avoids_bind; [apply avoids_calc_parameters | intros ? _].
  apply avoids_bind; [apply avoids_heuristic | intros ? _].
  destruct calc_motion_set. avoid.
Qed.

Variable calc_all_paths : R -> R -> R -> R -> R -> R -> R -> R -> list RSPath.t.

Lemma avoids_first_collision_free (n : nat) (paths : list RSPath.t)
    (pq : QueuePrior.t nat) (P : Para.t) :
  avoids (first_collision_free n paths pq P).
Proof.
  revert pq. induction n as [|n IH]; intros pq; simpl.
  - destruct (QueuePrior.empty pq); [discriminate | apply avoids_other; auto].
  - destruct (QueuePrior.empty pq); [discriminate |].
    apply avoids_bind; [apply avoids_queue_get |]. intros [k pq'] _. avoid.
Qed.

Lemma avoids_update_node (n_curr ngoal : Node.t) (P : Para.t) :
  avoids (update_node_with_analystic_expantion calc_all_paths n_curr ngoal P).
Proof.
  unfold update_node_with_analystic_expantion.
  apply avoids_bind; [| intros [path|] _; discriminate].
  unfold analystic_expantion. avoid. apply avoids_first_collision_free.
Qed.

Lemma avoids_expand_all (P : Para.t) (hmap : list (list Float.t)) (closed : gmap Z Node.t)
    (ind : Z) (n_curr : Node.t) (prims : list (R * R)) (oq : gmap Z Node.t * QueuePrior.t Z) :
  avoids (expand_all P hmap closed ind n_curr oq prims).
Proof.
  revert oq. induction prims as [|ud prims IH]; intros oq; simpl; [discriminate |].
  apply avoids_bind; [unfold expand; avoid | intros; apply IH].
Qed.

(** In the hybrid search the key handed out by the queue is always a key of
    the open set. *)
Lemma avoids_iteration (P : Para.t) (hmap : list (list Float.t)) (ngoal nstart : Node.t)
    (motion : list (R * R)) (st : Search.state) :
  search_inv P nstart st -> avoids (iteration calc_all_paths P hmap ngoal motion st).
Proof.
  intros [(Hq & _ & _) _]. cbn [fst snd] in Hq.
  unfold iteration. case_bool_decide; [discriminate |].
  apply avoids_bind; [apply avoids_queue_get |]. intros [ind qp] Hget.
  apply get_spec in Hget as (Hin & _).
  apply avoids_bind; [apply avoids_item, elem_of_dom, Hq, Hin |]. intros n_curr _.
  apply avoids_bind; [apply avoids_update_node |]. intros [fpath|] _; [discriminate |].
  apply avoids_bind; [apply avoids_expand_all | intros; discriminate].
Qed.

Lemma avoids_search (fuel : nat) (P : Para.t) (hmap : list (list Float.t))
    (ngoal nstart : Node.t) (motion : list (R * R)) (st : Search.state) :
  search_inv P nstart st -> avoids (search calc_all_paths fuel P hmap ngoal motion st).
Proof.
  revert st. induction fuel as [|fuel IH]; intros st Hinv; simpl;
    [apply avoids_other; auto |].
  apply avoids_bind; [eapply avoids_iteration; exact Hinv |].
  intros [| |st1] Hit; [discriminate | discriminate |].
  apply IH.
  destruct (search_continue_inv calc_all_paths P hmap ngoal nstart motion st st1 Hit Hinv)
    as (? & ? & ? & ? & ? & ? & ? & ? & Hi).
  exact Hi.
Qed.

(** Along the parent links of a node of the search every key is a key of
    the closed set. *)
Lemma avoids_extract_walk (fuel : nat) (closed : gmap Z Node.t) (nstart : Node.t) (d : nat)
    (node : Node.t) (acc : list R * list R * list R * list Z * R) :
  rooted nstart closed d node -> avoids (extract_walk fuel closed nstart node acc).
Proof.
  intros Hr. revert fuel acc.
  induction Hr as [|d node parent Hp _ IH]; intros fuel acc;
    (destruct fuel as [|fuel]; [apply avoids_other; auto |]); simpl;
    destruct acc as [[[[rx ry] ryaw] direc] cost].
  - rewrite is_same_grid_refl. discriminate.
  - destruct (is_same_grid node nstart); [discriminate |].
    rewrite Hp. simpl. apply IH.
Qed.

Lemma avoids_extract_path (fuel : nat) (closed : gmap Z Node.t) (nstart : Node.t) (d : nat)
    (fnode : Node.t) :
  rooted nstart closed d fnode -> avoids (extract_path fuel closed fnode nstart).
Proof.
  intros Hr. unfold extract_path.
  apply avoids_bind; [eapply avoids_extract_walk; exact Hr |].
  intros [[[[rx ry] ryaw] direc] cost] _. avoid.
Qed.

Lemma avoids_planning (fuel : nat) (sx sy syaw gx gy gyaw : R) (ox_grid oy_grid : list Z)
    (xyreso yawreso radius : R) :
  avoids (hybrid_astar_planning calc_all_paths fuel sx sy syaw gx gy gyaw ox_grid oy_grid
            xyreso yawreso radius).
Proof.
  unfold hybrid_astar_planning.
  apply avoids_bind; [apply avoids_prepare |]. intros s Hs.
  pose proof (prepare_inv sx sy syaw gx gy gyaw ox_grid oy_grid xyreso yawreso radius fuel s Hs)
    as Hinv.
  apply avoids_bind; [apply (avoids_search fuel (P s) (hmap s) (ngoal s) (nstart s)), Hinv |].
  intros [[closed fnode]|] Hrun; [| discriminate].
  apply search_Some in Hrun as (n & st' & _ & Hr & Hb).
  apply search_reaches_inv with (nstart := nstart s) in Hr; [| exact Hinv].
  destruct (search_break_inv _ _ _ _ _ _ _ _ _ Hb Hr) as (_ & _ & _ & _ & _ & _ & _ & d & Hd).
  apply avoids_bind; [eapply avoids_extract_path; exact Hd | intros; discriminate].
Qed.

End Exceptions.

(** X14.  Whatever its arguments, [hybrid_astar_planning] never raises
    [KeyError]: every key it looks up in the open set, in the closed set or
    along the parent links is there, in the heuristic search as in the main
    loop and in the path extraction. *)
Theorem planning_exceptions
    (calc_all_paths : R -> R -> R -> R -> R -> R -> R -> R -> list RSPath.t) (fuel : nat)
    (sx sy syaw gx gy gyaw : R) (ox_grid oy_grid : list Z) (xyreso yawreso radius : R)
    (e : exn) :
  hybrid_astar_planning calc_all_paths fuel sx sy syaw gx gy gyaw ox_grid oy_grid
    xyreso yawreso radius = Raise e ->
  e <> KeyError.
Proof.
  intros H ->.
  exact (avoids_planning KeyError (or_introl eq_refl) calc_all_paths fuel sx sy syaw
           gx gy gyaw ox_grid oy_grid xyreso yawreso radius H).
Qed.

Lemma planning_exceptions_witness :
  hybrid_astar_planning no_rs_path 1 0 0 0 4 0 0 [] [] 1 1 C.RADIUS = Raise ValueError
  /\ ValueError <> KeyError.
Proof.
  assert (1 <> 0) as H1 by lra.
  pose proof (empty_map_raises no_rs_path 1 0 0 0 4 0 0 1 1 C.RADIUS H1 H1) as H.
  split; [exact H |].
  exact (planning_exceptions no_rs_path 1 0 0 0 4 0 0 [] [] 1 1 C.RADIUS ValueError H).
Defined.

(** ** The heuristic map on a proper grid *)

Section HeuristicReturns.

Variable P : Para.t.
Variable rr : R.
Variable obsmap : list (list bool).
Variable goal : HolonomicNode.t.

Hypothesis map_built : obstacles_map P rr = Ok obsmap.
Hypothesis width_x : Para.xw P = (Para.maxx P - Para.minx P)%Z.
Hypothesis width_y : Para.yw P = (Para.maxy P - Para.miny P)%Z.

Lemma relax_all_Ok (closed : OrderedDict.t HolonomicNode.t) (ind : Z)
    (n_curr : HolonomicNode.t) (motion : list (Z * Z))
    (oq : gmap Z HolonomicNode.t * list heapq.entry) :
  exists oq', Dijkstra.relax_all P obsmap closed ind n_curr oq motion = Ok oq'.
Proof.
  revert oq. induction motion as [|m motion IH]; intros oq; cbn [Dijkstra.relax_all];
    [eauto |].
  assert (exists oq1, Dijkstra.relax P obsmap closed ind n_curr oq m = Ok oq1) as [oq1 ->].
  { unfold Dijkstra.relax.
    set (node := HolonomicNode.mk _ _ _ _).
    destruct (check_on_obstacles_map P rr obsmap node map_built width_x width_y)
      as (b & -> & _).
    cbn [mbind res_bind]. destruct b; cbn [negb]; [| eauto].
    destruct (OrderedDict.mem _ closed); [eauto |].
    destruct (oq.1 !! _); [case_bool_decide |]; eauto. }
  cbn [mbind res_bind]. apply IH.
Qed.

Lemma dijkstra_iteration_Ok (st : Dijkstra.state) :
  dijkstra_inv P obsmap goal st -> exists next, Dijkstra.iteration P obsmap st = Ok next.
Proof.
  intros [(Hq & Hnd & _ & _) _ _ _]. cbn [fst snd] in Hq, Hnd.
  unfold Dijkstra.iteration. case_bool_decide as Hempty; [eauto |].
  destruct (heappop_nonempty (Dijkstra.q_priority st)) as ([c ind] & q & Hpop).
  { intros Hnil. apply Hempty. apply map_eq. intros k. rewrite lookup_empty.
    apply not_elem_of_dom. intros Hk. apply Hq in Hk. rewrite Hnil in Hk. inversion Hk. }
  rewrite Hpop. cbn [mbind res_bind].
  apply (heappop_spec _ _ _ Hnd) in Hpop as (Hin & _).
  assert (ind ∈ dom (Dijkstra.open_set st)) as Hdom.
  { apply Hq, list_elem_of_fmap. exists (c, ind). auto. }
  apply elem_of_dom in Hdom as [n_curr ->]. cbn [Py.item mbind res_bind].
  destruct (relax_all_Ok (OrderedDict.set ind n_curr (Dijkstra.closed_set st)) ind n_curr
              get_motion (delete ind (Dijkstra.open_set st), q)) as [oq ->].
  cbn [mbind res_bind]. eauto.
Qed.

Lemma dijkstra_loop_Ok_enough (fuel : nat) (st : Dijkstra.state) :
  dijkstra_inv P obsmap goal st ->
  (dijkstra_measure P goal st < fuel)%nat ->
  exists st', Dijkstra.loop fuel P obsmap st = Ok st'.
Proof.
  revert st. induction fuel as [|fuel IH]; intros st Hinv Hm; [lia |].
  cbn [Dijkstra.loop]. destruct (dijkstra_iteration_Ok st Hinv) as [[st1|] Hit]; rewrite Hit;
    cbn [mbind res_bind]; [| eauto].
  apply IH.
  - destruct (iteration_inv P obsmap goal st st1 Hit Hinv) as (? & ? & ? & ? & _ & _ & _ & _ & H).
    exact H.
  - pose proof (dijkstra_measure_decreases P obsmap goal st st1 Hit Hinv). lia.
Qed.

Lemma record_costs_Ok (nodes : list HolonomicNode.t) (hmap : list (list Float.t)) :
  grid_shaped P hmap ->
  Forall (fun n => (0 <= HolonomicNode.x n - Para.minx P < Para.xw P)%Z
                   /\ (0 <= HolonomicNode.y n - Para.miny P < Para.yw P)%Z) nodes ->
  exists hmap', Dijkstra.record_costs P hmap nodes = Ok hmap' /\ grid_shaped P hmap'.
Proof.
  intros Hs Hn. revert hmap Hs. induction Hn as [|n nodes [Hx Hy] _ IH]; intros hmap Hs;
    cbn [Dijkstra.record_costs]; [eauto |].
  assert (exists hmap1, Dijkstra.record_cost P hmap n = Ok hmap1) as [hmap1 H1].
  { destruct Hs as [Hlen Hrows]. unfold Dijkstra.record_cost.
    destruct (lookup_lt_is_Some_2 hmap (Z.to_nat (HolonomicNode.x n - Para.minx P)))
      as [row Hrow]; [lia |].
    rewrite (getz_in_range hmap _ row) by (lia || exact Hrow). cbn [mbind res_bind].
    pose proof (Hrows _ _ Hrow) as Hrl.
    unfold Py.setz. rewrite !index_in_range by lia. cbn [mbind res_bind]. eauto. }
  rewrite H1. cbn [mbind res_bind]. apply IH.
  destruct (record_cost_spec P hmap hmap1 n Hs H1) as (? & ? & ? & _ & _ & _ & H). exact H.
Qed.

End HeuristicReturns.

(** X15.  On a parameter set with a non-zero [xyreso] whose widths are the
    differences of its bounds, and for a goal whose cell lies within the
    widths of the grid, [calc_holonomic_heuristic_with_obstacle] raises
    nothing: it returns a map of [P.xw] rows of [P.yw] entries. *)
Theorem heuristic_returns (node : Node.t) (P : Para.t) (radius gx gy : R) :
  Para.xyreso P <> 0 ->
  Para.xw P = (Para.maxx P - Para.minx P)%Z ->
  Para.yw P = (Para.maxy P - Para.miny P)%Z ->
  Py.last (Node.x node) = Ok gx ->
  Py.last (Node.y node) = Ok gy ->
  (0 <= Py.round (gx / Para.xyreso P) - Para.minx P < Para.xw P)%Z ->
  (0 <= Py.round (gy / Para.xyreso P) - Para.miny P < Para.yw P)%Z ->
  exists fuel hmap,
    calc_holonomic_heuristic_with_obstacle fuel node P radius = Ok hmap
    /\ grid_shaped P hmap.
Proof.
  intros Hreso Hxw Hyw Hgx Hgy Hx Hy.
  set (goal := HolonomicNode.mk (Py.round (gx / Para.xyreso P))
                                (Py.round (gy / Para.xyreso P)) 0 (-1)).
  assert (holonomic_goal node P = Ok goal) as Hgoal.
  { unfold holonomic_goal. rewrite Hgx, Hgy. cbn [mbind res_bind].
    rewrite !grid_index_Ok by exact Hreso. reflexivity. }
  destruct (obstacles_map_Ok P radius Hreso) as [obsmap Hobs].
  set (fuel := S (size (holonomic_keys P goal))).
  destruct (dijkstra_loop_Ok_enough P radius obsmap goal Hobs Hxw Hyw fuel
              (Dijkstra.mk (<[calc_holonomic_index goal P := goal]> ∅) []
                 (heapq.heappush [] (HolonomicNode.cost goal, calc_holonomic_index goal P))))
    as [st Hloop].
  { apply dijkstra_initial_inv. simpl. lra. }
  { unfold dijkstra_measure, fuel.
    eapply Nat.le_lt_trans; [apply subseteq_size, subseteq_difference_l; reflexivity |].
    lia. }
  assert (holonomic_closed_set fuel node P radius = Ok (Dijkstra.closed_set st)) as Hclosed.
  { unfold holonomic_closed_set. rewrite Hgoal. cbn [mbind res_bind].
    rewrite Hobs. cbn [mbind res_bind]. rewrite Hloop. reflexivity. }
  destruct (holonomic_closed_set_inv fuel node P radius _ Hclosed)
    as (goal' & obsmap' & st' & Hg' & _ & Ho' & Hcl' & _ & Hinv & Hlook).
  rewrite Hgoal in Hg'. injection Hg' as <-. rewrite Hobs in Ho'. injection Ho' as <-.
  destruct (record_costs_Ok P (OrderedDict.values (Dijkstra.closed_set st)) (initial_map P)
              (initial_map_shaped P)) as (hmap & Hrec & Hshape).
  { apply Forall_forall. intros n Hn. rewrite <- Hcl' in Hn, Hlook.
    destruct (closed_node_admitted P obsmap goal st' n Hinv Hlook Hn) as [-> | (Hc & _)].
    - split; assumption.
    - apply check_holonomic_node_bounds in Hc. lia. }
  exists fuel, hmap. split; [| exact Hshape].
  unfold calc_holonomic_heuristic_with_obstacle. rewrite Hclosed. exact Hrec.
Qed.

Lemma heuristic_returns_witness :
  exists fuel hmap,
    calc_holonomic_heuristic_with_obstacle fuel (post_node 1 0) (post_para 1) C.RADIUS
    = Ok hmap
    /\ grid_shaped (post_para 1) hmap.
Proof.
  assert (Para.xyreso (post_para 1) <> 0) as H1 by (simpl; lra).
  assert (Py.round (10 / Para.xyreso (post_para 1)) = 1%Z) as Hr.
  { cbn [post_para Para.xyreso]. replace (10 / 10) with (IZR 1) by lra. apply round_IZR. }
  assert (0 <= Py.round (10 / Para.xyreso (post_para 1)) - Para.minx (post_para 1)
          < Para.xw (post_para 1))%Z as Hx by (rewrite Hr; simpl; lia).
  assert (0 <= Py.round (10 / Para.xyreso (post_para 1)) - Para.miny (post_para 1)
          < Para.yw (post_para 1))%Z as Hy by (rewrite Hr; simpl; lia).
  exact (heuristic_returns (post_node 1 0) (post_para 1) C.RADIUS 10 10 H1 eq_refl eq_refl
           eq_refl eq_refl Hx Hy).
Defined.

(** ** The heuristic map and the straight-line distance *)

Lemma hypot_triangle (a b c d : R) :
  KDTree.hypot (a + c) (b + d) <= KDTree.hypot a b + KDTree.hypot c d.
Proof.
  unfold KDTree.hypot.
  assert (0 <= a * a + b * b) as HA by nra.
  assert (0 <= c * c + d * d) as HB by nra.
  pose proof (sqrt_pos (a * a + b * b)) as Hs.
  pose proof (sqrt_pos (c * c + d * d)) as Ht.
  pose proof (sqrt_sqrt _ HA) as Hss.
  pose proof (sqrt_sqrt _ HB) as Htt.
  set (s := sqrt (a * a + b * b)) in *. set (t := sqrt (c * c + d * d)) in *.
  rewrite <- (sqrt_square (s + t)) by lra.
  apply sqrt_le_1_alt.
  assert (a * c + b * d <= s * t) as Hcs.
  { destruct (Rle_dec (a * c + b * d) 0) as [Hn | Hp]; [nra |].
    assert ((a * c + b * d) * (a * c + b * d) <= (s * t) * (s * t)) as Hsq.
    { replace ((s * t) * (s * t)) with ((s * s) * (t * t)) by ring.
      rewrite Hss, Htt.
      assert ((a * a + b * b) * (c * c + d * d) - (a * c + b * d) * (a * c + b * d)
              = (a * d - b * c) * (a * d - b * c)) as Hd by ring.
      pose proof (Rle_0_sqr (a * d - b * c)) as Hq. unfold Rsqr in Hq. lra. }
    assert (0 <= s * t) as Hst by (apply Rmult_le_pos; assumption).
    set (p := a * c + b * d) in *. set (q := s * t) in *.
    destruct (Rle_dec p q) as [Hle | Hgt]; [exact Hle |]. exfalso.
    assert (0 < (p - q) * (p + q)) by (apply Rmult_lt_0_compat; lra).
    lra. }
  nra.
Qed.

(** Whatever [record_costs] leaves in an entry was there before or is the
    cost of a node written at that entry. *)
Lemma record_costs_origin (P : Para.t) (nodes : list HolonomicNode.t)
    (hmap hmap' : list (list Float.t)) (i j : nat) (v : Float.t) :
  grid_shaped P hmap ->
  Dijkstra.record_costs P hmap nodes = Ok hmap' ->
  cell hmap' i j = Some v ->
  cell hmap i j = Some v
  \/ exists n, n ∈ nodes /\ written_at P n i j /\ v = Float.fin (HolonomicNode.cost n).
Proof.
  revert hmap. induction nodes as [|n nodes IH]; intros hmap Hs H Hv; cbn [Dijkstra.record_costs] in H.
  - injection H as <-. left. exact Hv.
  - bind_ok H. rename a into hmap1.
    destruct (record_cost_spec P hmap hmap1 n Hs E) as (i0 & j0 & row & Hw & Hrow & -> & Hs1).
    destruct (IH _ Hs1 H Hv) as [Hv1 | (n' & Hn' & Hw' & ->)].
    + destruct (decide ((i0, j0) = (i, j))) as [[= <- <-] | Hne].
      * right. exists n. split; [left |]. split; [exact Hw |].
        rewrite cell_insert_eq in Hv1; [congruence | exact Hrow |].
        destruct Hs as [_ Hrows]. rewrite (Hrows _ _ Hrow).
        destruct Hw as [_ Hj]. apply index_lt in Hj. exact Hj.
      * left. rewrite cell_insert_ne in Hv1; [exact Hv1 | exact Hrow | exact Hne].
    + right. exists n'. split; [right; exact Hn' | auto].
Qed.

Section HeuristicBound.

Variable P : Para.t.
Variable obsmap : list (list bool).
Variable goal : HolonomicNode.t.

Hypothesis width_x : Para.xw P = (Para.maxx P - Para.minx P)%Z.
Hypothesis width_y : Para.yw P = (Para.maxy P - Para.miny P)%Z.
Hypothesis goal_x : (0 <= HolonomicNode.x goal - Para.minx P < Para.xw P)%Z.
Hypothesis goal_y : (0 <= HolonomicNode.y goal - Para.miny P < Para.yw P)%Z.

(** The straight-line distance, in cells, between a node and the goal. *)
Definition from_goal (n : HolonomicNode.t) : R :=
  KDTree.hypot (IZR (HolonomicNode.x n - HolonomicNode.x goal))
               (IZR (HolonomicNode.y n - HolonomicNode.y goal)).

Definition far_enough (n : HolonomicNode.t) : Prop := from_goal n <= HolonomicNode.cost n.

Lemma node_ok_in_range (k : Z) (n : HolonomicNode.t) :
  node_ok P obsmap goal k n ->
  (0 <= HolonomicNode.x n - Para.minx P < Para.xw P)%Z
  /\ (0 <= HolonomicNode.y n - Para.miny P < Para.yw P)%Z.
Proof.
  intros (_ & _ & [[-> ->] | (Hc & _)]); [auto |].
  apply check_holonomic_node_bounds in Hc. lia.
Qed.

Lemma node_ok_same_cell (k : Z) (n n' : HolonomicNode.t) :
  node_ok P obsmap goal k n -> node_ok P obsmap goal k n' ->
  HolonomicNode.x n = HolonomicNode.x n' /\ HolonomicNode.y n = HolonomicNode.y n'.
Proof.
  intros H H'. pose proof (node_ok_in_range k n H) as [Hx Hy].
  pose proof (node_ok_in_range k n' H') as [Hx' Hy'].
  destruct H as (Hk & _), H' as (Hk' & _). unfold calc_holonomic_index in Hk, Hk'.
  destruct (mixed_radix_unique (Para.xw P)
              (HolonomicNode.y n - Para.miny P) (HolonomicNode.x n - Para.minx P)
              (HolonomicNode.y n' - Para.miny P) (HolonomicNode.x n' - Para.minx P));
    lia.
Qed.

Lemma step_far_enough (n_curr : HolonomicNode.t) (m : Z * Z) (ind : Z) :
  far_enough n_curr ->
  far_enough (HolonomicNode.mk (HolonomicNode.x n_curr + m.1) (HolonomicNode.y n_curr + m.2)
                               (HolonomicNode.cost n_curr + u_cost m) ind).
Proof.
  unfold far_enough, from_goal, u_cost. cbn [HolonomicNode.x HolonomicNode.y HolonomicNode.cost].
  intros H.
  replace (HolonomicNode.x n_curr + m.1 - HolonomicNode.x goal)%Z
    with ((HolonomicNode.x n_curr - HolonomicNode.x goal) + m.1)%Z by lia.
  replace (HolonomicNode.y n_curr + m.2 - HolonomicNode.y goal)%Z
    with ((HolonomicNode.y n_curr - HolonomicNode.y goal) + m.2)%Z by lia.
  rewrite !plus_IZR.
  pose proof (hypot_triangle (IZR (HolonomicNode.x n_curr - HolonomicNode.x goal))
                (IZR (HolonomicNode.y n_curr - HolonomicNode.y goal)) (IZR m.1) (IZR m.2)).
  lra.
Qed.

Definition all_far_enough (open : gmap Z HolonomicNode.t) : Prop :=
  forall k n, open !! k = Some n -> far_enough n.

Lemma relax_far_enough (closed : OrderedDict.t HolonomicNode.t) (ind : Z)
    (n_curr : HolonomicNode.t) (oq oq' : gmap Z HolonomicNode.t * list heapq.entry)
    (m : Z * Z) :
  node_ok P obsmap goal ind n_curr -> far_enough n_curr ->
  Dijkstra.relax P obsmap closed ind n_curr oq m = Ok oq' ->
  relax_inv P obsmap goal closed oq ->
  all_far_enough oq.1 -> all_far_enough oq'.1.
Proof.
  intros Hcurr Hfar H (_ & _ & _ & Hok) Hall.
  pose proof (step_far_enough n_curr m ind Hfar) as Hstep.
  unfold Dijkstra.relax in H. bind_ok H.
  destruct a; cbn [negb] in H; [| injection H as <-; exact Hall].
  set (node := HolonomicNode.mk _ _ _ _) in *.
  set (n_ind := calc_holonomic_index node P) in *.
  destruct (OrderedDict.mem n_ind closed); [injection H as <-; exact Hall |].
  destruct (oq.1 !! n_ind) as [o|] eqn:Ho.
  - case_bool_decide as Hlt; injection H as <-; [| exact Hall].
    intros k n. cbn [fst]. rewrite lookup_insert. case_decide as Hk; [| apply Hall].
    intros [= <-].
    assert (node_ok P obsmap goal n_ind node) as Hnode.
    { split; [reflexivity |]. split.
      - destruct Hcurr as (_ & Hc & _). pose proof (u_cost_nonneg m). unfold node. simpl. lra.
      - right. split; [exact E |]. lia. }
    destruct (node_ok_same_cell n_ind o node (Hok _ _ Ho) Hnode) as [Hx Hy].
    unfold far_enough, from_goal in *. cbn [HolonomicNode.x HolonomicNode.y HolonomicNode.cost].
    rewrite Hx, Hy. exact Hstep.
  - injection H as <-. intros k n. cbn [fst]. rewrite lookup_insert.
    case_decide as Hk; [| apply Hall]. intros [= <-]. exact Hstep.
Qed.

Lemma relax_all_far_enough (closed : OrderedDict.t HolonomicNode.t) (ind : Z)
    (n_curr : HolonomicNode.t) (motion : list (Z * Z))
    (oq oq' : gmap Z HolonomicNode.t * list heapq.entry) :
  node_ok P obsmap goal ind n_curr -> far_enough n_curr -> Forall unit_move motion ->
  Dijkstra.relax_all P obsmap closed ind n_curr oq motion = Ok oq' ->
  relax_inv P obsmap goal closed oq ->
  all_far_enough oq.1 -> all_far_enough oq'.1.
Proof.
  intros Hcurr Hfar. revert oq.
  induction motion as [|m motion IH]; intros oq Hm H Hinv Hall; cbn [Dijkstra.relax_all] in H.
  - injection H as <-. exact Hall.
  - bind_ok H. apply Forall_cons in Hm as [Hm Hms].
    eapply IH; [exact Hms | exact H | |].
    + eapply relax_preserves; eauto.
    + eapply relax_far_enough; eauto.
Qed.

(** The invariant of the Dijkstra loop: no node, open or closed, costs less
    than its straight-line distance from the goal. *)
Definition state_far_enough (st : Dijkstra.state) : Prop :=
  all_far_enough (Dijkstra.open_set st)
  /\ forall k n, (k, n) ∈ Dijkstra.closed_set st -> far_enough n.

Lemma iteration_far_enough (st st' : Dijkstra.state) :
  Dijkstra.iteration P obsmap st = Ok (Some st') ->
  dijkstra_inv P obsmap goal st ->
  state_far_enough st -> state_far_enough st'.
Proof.
  intros H Hinv [Hopen Hclosed]. unfold Dijkstra.iteration in H.
  case_bool_decide as Hempty; [discriminate |].
  bind_ok H. destruct a as [[c ind] q].
  bind_ok H. rename a into n_curr.
  bind_ok H. destruct a as [open' q']. injection H as <-.
  destruct (Dijkstra.open_set st !! ind) as [n|] eqn:Hn; [| discriminate].
  injection E0 as ->.
  destruct (dijkstra_pop_inv P obsmap goal st c ind q n_curr Hinv E Hn) as (Hok & Hrel & _).
  assert (ind ∉ (Dijkstra.closed_set st).*1) as Hfresh.
  { destruct Hinv as [(_ & _ & Hdis & _) _ _ _]. apply Hdis, elem_of_dom. eauto. }
  split; cbn [Dijkstra.open_set Dijkstra.closed_set fst].
  - apply (relax_all_far_enough (OrderedDict.set ind n_curr (Dijkstra.closed_set st)) ind
             n_curr get_motion (delete ind (Dijkstra.open_set st), q) (open', q') Hok
             (Hopen _ _ Hn) (get_motion_unit P goal) E1 Hrel).
    intros k n. cbn [fst]. rewrite lookup_delete. case_decide; [discriminate | apply Hopen].
  - intros k n. rewrite (ordered_set_fresh _ _ _ Hfresh), elem_of_app, list_elem_of_singleton.
    intros [Hin | [= -> ->]]; [exact (Hclosed _ _ Hin) | exact (Hopen _ _ Hn)].
Qed.

Lemma reaches_far_enough (st st' : Dijkstra.state) :
  dijkstra_reaches P obsmap st st' ->
  dijkstra_inv P obsmap goal st -> state_far_enough st -> state_far_enough st'.
Proof.
  induction 1 as [|st st1 st2 H _ IH]; intros Hinv Hfar; [exact Hfar |].
  apply IH.
  - destruct (iteration_inv P obsmap goal st st1 H Hinv) as (? & ? & ? & ? & _ & _ & _ & _ & Hi).
    exact Hi.
  - eapply iteration_far_enough; eauto.
Qed.

End HeuristicBound.

Lemma grid_index_inv (reso x : R) (k : Z) :
  grid_index reso x = Ok k -> reso <> 0 /\ k = Py.round (x / reso).
Proof.
  unfold grid_index. intros H. bind_ok H. injection H as <-.
  apply div_inv in E as [Hne ->]. auto.
Qed.

(** X16.  On a parameter set whose widths are the differences of its bounds
    and for a goal whose cell lies within the widths of the grid, no entry
    of the heuristic map is smaller than the straight-line distance, in
    cells, between its cell and the goal's cell. *)
Theorem heuristic_lower_bound (fuel : nat) (node : Node.t) (P : Para.t) (radius gx gy : R)
    (hmap : list (list Float.t)) :
  Para.xw P = (Para.maxx P - Para.minx P)%Z ->
  Para.yw P = (Para.maxy P - Para.miny P)%Z ->
  Py.last (Node.x node) = Ok gx ->
  Py.last (Node.y node) = Ok gy ->
  (0 <= Py.round (gx / Para.xyreso P) - Para.minx P < Para.xw P)%Z ->
  (0 <= Py.round (gy / Para.xyreso P) - Para.miny P < Para.yw P)%Z ->
  calc_holonomic_heuristic_with_obstacle fuel node P radius = Ok hmap ->
  forall i j v,
    cell hmap i j = Some (Float.fin v) ->
    KDTree.hypot (IZR (Z.of_nat i + Para.minx P - Py.round (gx / Para.xyreso P)))
                 (IZR (Z.of_nat j + Para.miny P - Py.round (gy / Para.xyreso P)))
    <= v.
Proof.
  intros Hxw Hyw Hgx Hgy Hx Hy H i j v Hv.
  unfold calc_holonomic_heuristic_with_obstacle in H. bind_ok H. rename a into closed.
  unfold holonomic_closed_set in E. bind_ok E. rename a into goal.
  bind_ok E. rename a into obsmap. bind_ok E. rename a into st. injection E as <-.
  assert (goal = HolonomicNode.mk (Py.round (gx / Para.xyreso P))
                                  (Py.round (gy / Para.xyreso P)) 0 (-1)) as Hgoal.
  { unfold holonomic_goal in E0. rewrite Hgx, Hgy in E0. cbn [mbind res_bind] in E0.
    bind_ok E0. apply grid_index_inv in E as [_ ->].
    bind_ok E0. apply grid_index_inv in E as [_ ->].
    injection E0 as <-. reflexivity. }
  assert (0 <= HolonomicNode.x goal - Para.minx P < Para.xw P)%Z as Hgx' by (rewrite Hgoal; exact Hx).
  assert (0 <= HolonomicNode.y goal - Para.miny P < Para.yw P)%Z as Hgy' by (rewrite Hgoal; exact Hy).
  apply dijkstra_loop_Ok in E2 as [Hreach _].
  assert (dijkstra_inv P obsmap goal
            (Dijkstra.mk (<[calc_holonomic_index goal P := goal]> ∅) []
               (heapq.heappush [] (HolonomicNode.cost goal, calc_holonomic_index goal P))))
    as Hinit by (apply dijkstra_initial_inv; rewrite Hgoal; simpl; lra).
  pose proof (dijkstra_reaches_inv P obsmap goal _ _ Hreach Hinit) as Hinv.
  assert (state_far_enough goal st) as [_ Hfar].
  { apply (reaches_far_enough P obsmap goal Hxw Hyw Hgx' Hgy' _ _ Hreach Hinit).
    split; cbn [Dijkstra.open_set Dijkstra.closed_set].
    - intros k n. rewrite lookup_insert. case_decide; [| rewrite lookup_empty; discriminate].
      intros [= <-]. unfold far_enough, from_goal, KDTree.hypot.
      rewrite !Z.sub_diag, Hgoal. cbn [HolonomicNode.cost].
      replace (0 * 0 + 0 * 0) with 0 by ring. rewrite sqrt_0. lra.
    - intros k n Hin. inversion Hin. }
  destruct (record_costs_origin P _ _ _ i j _ (initial_map_shaped P) H Hv)
    as [Hinitial | (n & Hn & [Hi Hj] & [= ->])].
  { apply initial_map_cell in Hinitial as [[=] _]. }
  apply list_elem_of_fmap in Hn as ([k n'] & -> & Hin). cbn [snd] in *.
  pose proof (Hfar _ _ Hin) as Hbound.
  destruct (node_ok_in_range P obsmap goal Hxw Hyw Hgx' Hgy' k n'
              (inv_closed _ _ _ _ Hinv _ _ Hin)) as [Hnx Hny].
  apply index_nonneg in Hi; [| lia]. apply index_nonneg in Hj; [| lia].
  unfold far_enough, from_goal in Hbound. rewrite Hgoal in Hbound.
  cbn [HolonomicNode.x HolonomicNode.y] in Hbound.
  replace (Z.of_nat i + Para.minx P)%Z with (HolonomicNode.x n') by lia.
  replace (Z.of_nat j + Para.miny P)%Z with (HolonomicNode.y n') by lia.
  exact Hbound.
Qed.

Lemma heuristic_lower_bound_witness :
  calc_holonomic_heuristic_with_obstacle 2 (post_node 1 0) (post_para 1) C.RADIUS
  = Ok post_hmap
  /\ forall i j v,
       cell post_hmap i j = Some (Float.fin v) ->
       KDTree.hypot
         (IZR (Z.of_nat i + Para.minx (post_para 1)
               - Py.round (10 / Para.xyreso (post_para 1))))
         (IZR (Z.of_nat j + Para.miny (post_para 1)
               - Py.round (10 / Para.xyreso (post_para 1))))
       <= v.
Proof.
  assert (Py.round (10 / Para.xyreso (post_para 1)) = 1%Z) as Hr.
  { cbn [post_para Para.xyreso]. replace (10 / 10) with (IZR 1) by lra. apply round_IZR. }
  assert (0 <= Py.round (10 / Para.xyreso (post_para 1)) - Para.minx (post_para 1)
          < Para.xw (post_para 1))%Z as Hx by (rewrite Hr; simpl; lia).
  assert (0 <= Py.round (10 / Para.xyreso (post_para 1)) - Para.miny (post_para 1)
          < Para.yw (post_para 1))%Z as Hy by (rewrite Hr; simpl; lia).
  pose proof (post_heuristic 1 C.RADIUS 0 1 (Py.round (rs.pi_2_pi 0 / 1)) 1 0) as H.
  split; [exact H |].
  exact (heuristic_lower_bound 2 (post_node 1 0) (post_para 1) C.RADIUS 10 10 post_hmap
           eq_refl eq_refl eq_refl eq_refl Hx Hy H).
Defined.

(** ** The analytic expansion *)

(** The collision check the loop of [analystic_expantion] applies to a
    candidate path: every second sample is looked at. *)
Definition rs_path_hit (path : RSPath.t) (P : Para.t) : res bool :=
  let ind := Py.range_step (length (RSPath.x path)) C.COLLISION_CHECK_STEP in
  pathx ← Py.gets (RSPath.x path) ind;
  pathy ← Py.gets (RSPath.y path) ind;
  pathyaw ← Py.gets (RSPath.yaw path) ind;
  is_collision pathx pathy pathyaw P.

Lemma first_collision_free_step (n : nat) (paths : list RSPath.t) (pq pq' : QueuePrior.t nat)
    (P : Para.t) (k : nat) (path : RSPath.t) :
  QueuePrior.empty pq = false ->
  QueuePrior.get pq = Ok (k, pq') ->
  paths !! k = Some path ->
  first_collision_free (S n) paths pq P
  = (hit ← rs_path_hit path P;
     if hit : bool then first_collision_free n paths pq' P else Ok (Some path)).
Proof.
  intros He Hget Hk. cbn [first_collision_free]. rewrite He, Hget. cbn [mbind res_bind].
  unfold Py.get at 1. rewrite Hk. cbn [mbind res_bind]. unfold rs_path_hit.
  destruct (Py.gets (RSPath.x path) _); [| reflexivity]. cbn [mbind res_bind].
  destruct (Py.gets (RSPath.y path) _); [| reflexivity]. cbn [mbind res_bind].
  destruct (Py.gets (RSPath.yaw path) _); reflexivity.
Qed.

Lemma put_entries {K : Type} `{EqDecision K} (q : QueuePrior.t K) (item : K)
    (priority : Float.t) (e : K * Float.t) :
  e ∈ QueuePrior.put q item priority <-> e = (item, priority) \/ (e ∈ q /\ e.1 <> item).
Proof.
  unfold QueuePrior.put. rewrite elem_of_app, list_elem_of_singleton, discard_entries. tauto.
Qed.

Lemma fold_put_entries (f : nat -> Float.t) (l : list nat) (q : QueuePrior.t nat)
    (e : nat * Float.t) :
  NoDup l ->
  e ∈ List.fold_left (fun pq k => QueuePrior.put pq k (f k)) l q
  <-> (e.1 ∈ l /\ e.2 = f e.1) \/ (e ∈ q /\ e.1 ∉ l).
Proof.
  intros Hnd. revert q. induction Hnd as [|k l Hk Hnd IH]; intros q; cbn [List.fold_left].
  - split; [intros H; right; split; [exact H | apply not_elem_of_nil] |].
    intros [[H _] | [H _]]; [inversion H | exact H].
  - rewrite IH, put_entries. destruct e as [k' p]. cbn [fst snd].
    rewrite !elem_of_cons. split.
    + intros [[Hin Hp] | [[[= -> ->] | [Hq Hne]] Hout]]; [tauto | tauto |].
      right. split; [exact Hq |]. intros [-> | Hin]; [apply Hne; reflexivity | exact (Hout Hin)].
    + intros [[[-> | Hin] Hp] | [Hq Hout]].
      * right. split; [left; rewrite Hp; reflexivity | exact Hk].
      * left. auto.
      * right. split; [right; split; [exact Hq | intros ->; apply Hout; left; reflexivity] |].
        intros Hin. apply Hout. right. exact Hin.
Qed.

Section AnalyticExpansion.

Variable paths : list RSPath.t.
Variable P : Para.t.

(** The priority the candidate at position [k] is queued with. *)
Definition cost_at (k : nat) : Float.t :=
  Float.fin (calc_rs_path_cost (List.nth k paths (RSPath.mk [] [] [] [] []))).

(** The invariant of the loop: the queue holds positions of candidates with
    their costs, and every candidate that has left the queue collides. *)
Definition candidates_inv (pq : QueuePrior.t nat) : Prop :=
  (forall e, e ∈ pq -> (e.1 < length paths)%nat /\ e.2 = cost_at e.1)
  /\ (forall k path, paths !! k = Some path -> k ∉ pq.*1 -> rs_path_hit path P = Ok true).

(** [path] is a collision-free candidate that no collision-free candidate
    undercuts. *)
Definition cheapest_free (path : RSPath.t) : Prop :=
  path ∈ paths
  /\ rs_path_hit path P = Ok false
  /\ forall path', path' ∈ paths -> rs_path_hit path' P = Ok false ->
                   calc_rs_path_cost path <= calc_rs_path_cost path'.

Lemma first_collision_free_spec (n : nat) (pq : QueuePrior.t nat) :
  candidates_inv pq ->
  (forall path, first_collision_free n paths pq P = Ok (Some path) -> cheapest_free path)
  /\ (first_collision_free n paths pq P = Ok None ->
      forall path, path ∈ paths -> rs_path_hit path P = Ok true).
Proof.
  revert pq. induction n as [|n IH]; intros pq [Hentries Hgone].
  - cbn [first_collision_free]. destruct pq as [|e pq]; cbn [QueuePrior.empty].
    + split; [discriminate |]. intros _ path Hin.
      apply list_elem_of_lookup in Hin as [k Hk]. apply (Hgone k path Hk), not_elem_of_nil.
    + split; discriminate.
  - destruct pq as [|e0 pq0].
    { cbn [first_collision_free QueuePrior.empty]. split; [discriminate |]. intros _ path Hin.
      apply list_elem_of_lookup in Hin as [k Hk]. apply (Hgone k path Hk), not_elem_of_nil. }
    set (pq := e0 :: pq0) in *.
    set (m := QueuePrior.lowest e0 pq0).
    assert (QueuePrior.get pq = Ok (m.1, QueuePrior.discard m.1 pq)) as Hget by reflexivity.
    assert (m ∈ pq) as Hm by apply lowest_in.
    destruct (Hentries m Hm) as [Hlt Hcost].
    destruct (lookup_lt_is_Some_2 paths m.1 Hlt) as [path Hpath].
    rewrite (first_collision_free_step n paths pq _ P m.1 path eq_refl Hget Hpath).
    assert (List.nth m.1 paths (RSPath.mk [] [] [] [] []) = path) as Hnth.
    { apply nth_lookup_Some. exact Hpath. }
    destruct (rs_path_hit path P) as [[|]|e] eqn:Hhit; cbn [mbind res_bind].
    + apply IH. split.
      * intros e He. apply discard_entries in He as [He _]. apply Hentries, He.
      * intros k path' Hk Hout.
        destruct (decide (k = m.1)) as [-> | Hne]; [congruence |].
        apply (Hgone k path' Hk). intros Hin. apply Hout.
        apply list_elem_of_fmap in Hin as (e & -> & He).
        apply list_elem_of_fmap. exists e. split; [reflexivity |].
        apply discard_entries. auto.
    + split; [| discriminate]. intros path0 [= <-].
      split; [apply list_elem_of_lookup; eauto |]. split; [exact Hhit |].
      intros path' Hin' Hfree'. apply list_elem_of_lookup in Hin' as [k' Hk'].
      destruct (decide (k' ∈ pq.*1)) as [Hin | Hout].
      * apply list_elem_of_fmap in Hin as (e & -> & He).
        destruct (Hentries e He) as [_ Hce].
        pose proof (lowest_least e0 pq0 e He) as Hleast. fold m in Hleast.
        rewrite Hce, Hcost in Hleast. unfold cost_at in Hleast. rewrite Hnth in Hleast.
        cbn [Float.ltb] in Hleast. apply bool_decide_eq_false_1 in Hleast.
        assert (List.nth e.1 paths (RSPath.mk [] [] [] [] []) = path') as Hnth'.
        { apply nth_lookup_Some. exact Hk'. }
        rewrite Hnth' in Hleast. lra.
      * rewrite (Hgone k' path' Hk' Hout) in Hfree'. discriminate.
    + split; discriminate.
Qed.

End AnalyticExpansion.

(** X17.  [analystic_expantion] returns a cheapest collision-free candidate:
    the path it returns is one of the Reeds-Shepp paths of the generator, its
    even samples are collision free, and no collision-free candidate has a
    smaller [calc_rs_path_cost].  It returns [None] only when every
    candidate collides (or there is none). *)
Theorem analystic_expantion_cheapest
    (calc_all_paths : R -> R -> R -> R -> R -> R -> R -> R -> list RSPath.t)
    (node ngoal : Node.t) (P : Para.t) (sx sy syaw gx gy gyaw : R) :
  Py.last (Node.x node) = Ok sx -> Py.last (Node.y node) = Ok sy ->
  Py.last (Node.yaw node) = Ok syaw ->
  Py.last (Node.x ngoal) = Ok gx -> Py.last (Node.y ngoal) = Ok gy ->
  Py.last (Node.yaw ngoal) = Ok gyaw ->
  (forall path,
      analystic_expantion calc_all_paths node ngoal P = Ok (Some path) ->
      cheapest_free (calc_all_paths sx sy syaw gx gy gyaw C.MAX_CURVATURE_RADIUS C.MOVE_STEP)
                    P path)
  /\ (analystic_expantion calc_all_paths node ngoal P = Ok None ->
      forall path,
        path ∈ calc_all_paths sx sy syaw gx gy gyaw C.MAX_CURVATURE_RADIUS C.MOVE_STEP ->
        rs_path_hit path P = Ok true).
Proof.
  intros Hsx Hsy Hsyaw Hgx Hgy Hgyaw. unfold analystic_expantion.
  rewrite Hsx, Hsy, Hsyaw, Hgx, Hgy, Hgyaw. cbn [mbind res_bind].
  set (paths := calc_all_paths sx sy syaw gx gy gyaw C.MAX_CURVATURE_RADIUS C.MOVE_STEP).
  destruct paths as [|p0 rest] eqn:Hpaths.
  { split; [discriminate |]. intros _ path Hin. inversion Hin. }
  rewrite <- Hpaths. clear Hpaths p0 rest.
  set (pq := List.fold_left _ _ _).
  apply first_collision_free_spec.
  assert (forall e, e ∈ pq <-> (e.1 < length paths)%nat /\ e.2 = cost_at paths e.1) as Hpq.
  { intros e. unfold pq.
    rewrite (fold_put_entries (cost_at paths) (seq 0 (length paths)) QueuePrior.new e)
      by apply NoDup_seq.
    rewrite elem_of_seq. split.
    - intros [[Hlt He] | [Hin _]]; [split; [lia | exact He] | inversion Hin].
    - intros [Hlt He]. left. split; [lia | exact He]. }
  split.
  - intros e He. apply Hpq, He.
  - intros k path Hk Hout. exfalso. apply Hout.
    apply list_elem_of_fmap. exists (k, cost_at paths k). split; [reflexivity |].
    apply Hpq. cbn [fst snd]. split; [| reflexivity]. apply lookup_lt_Some in Hk. exact Hk.
Qed.

Lemma analystic_expantion_cheapest_witness :
  analystic_expantion identity_rs (post_node 1 0) (post_node 1 0) (post_para 1)
  = Ok (Some (RSPath.mk [10] [10] [0] [1%Z] [0; 0; 0]))
  /\ cheapest_free (identity_rs 10 10 0 10 10 0 C.MAX_CURVATURE_RADIUS C.MOVE_STEP)
                   (post_para 1) (RSPath.mk [10] [10] [0] [1%Z] [0; 0; 0]).
Proof.
  pose proof (identity_path_found 1 (post_node 1 0) (post_node 1 0)
                eq_refl eq_refl eq_refl eq_refl eq_refl eq_refl) as H.
  split; [exact H |].
  exact (proj1 (analystic_expantion_cheapest identity_rs (post_node 1 0) (post_node 1 0)
                  (post_para 1) 10 10 0 10 10 0 eq_refl eq_refl eq_refl eq_refl eq_refl
                  eq_refl)
           (RSPath.mk [10] [10] [0] [1%Z] [0; 0; 0]) H).
Defined.

(** ** A Reeds-Shepp path found on the first pass *)

Lemma prepare_start_cost (fuel : nat) (sx sy syaw gx gy gyaw : R) (ox_grid oy_grid : list Z)
    (xyreso yawreso radius : R) (s : setup) :
  prepare fuel sx sy syaw gx gy gyaw ox_grid oy_grid xyreso yawreso radius = Ok s ->
  Node.cost (nstart s) = 0.
Proof.
  unfold prepare. intros H. repeat bind_ok H.
  destruct calc_motion_set as [steer_set direc_set].
  repeat bind_ok H. injection H as <-. reflexivity.
Qed.

(** X18.  When the analytic expansion succeeds from the start node, in the
    first pass, the planner returns the Reeds-Shepp path without its first
    and its last sample, so neither the start pose nor the goal pose is part
    of the trajectory; the first gear is overwritten by the second one, and
    the cost is the Reeds-Shepp cost of the path.  This needs at least two
    samples between the first and the last one. *)
Theorem first_pass_path
    (calc_all_paths : R -> R -> R -> R -> R -> R -> R -> R -> list RSPath.t) (fuel : nat)
    (sx sy syaw gx gy gyaw : R) (ox_grid oy_grid : list Z) (xyreso yawreso radius : R)
    (s : setup) (path : RSPath.t) (d0 d1 : Z) (dirs : list Z) :
  prepare (S fuel) sx sy syaw gx gy gyaw ox_grid oy_grid xyreso yawreso radius = Ok s ->
  analystic_expantion calc_all_paths (nstart s) (ngoal s) (P s) = Ok (Some path) ->
  Py.interior (RSPath.directions path) = d0 :: d1 :: dirs ->
  exists p,
    hybrid_astar_planning calc_all_paths (S fuel) sx sy syaw gx gy gyaw ox_grid oy_grid
      xyreso yawreso radius = Ok (Some p)
    /\ Path.x p = Py.interior (RSPath.x path)
    /\ Path.y p = Py.interior (RSPath.y path)
    /\ Path.yaw p = Py.interior (RSPath.yaw path)
    /\ Path.direction p = d1 :: d1 :: dirs
    /\ Path.cost p = calc_rs_path_cost path.
Proof.
  intros Hprep Hrs Hdirs. unfold hybrid_astar_planning. rewrite Hprep. cbn [mbind res_bind].
  pose proof (prepare_start_cost _ _ _ _ _ _ _ _ _ _ _ _ _ Hprep) as Hcost.
  destruct (prepare_shape _ _ _ _ _ _ _ _ _ _ _ _ _ Hprep) as (_ & _ & _ & f & Hinit).
  set (k0 := calc_index (nstart s) (P s)) in *.
  set (fnode := Node.mk (Node.xind (nstart s)) (Node.yind (nstart s))
                  (Node.yawind (nstart s)) (Node.direction (nstart s))
                  (Py.interior (RSPath.x path)) (Py.interior (RSPath.y path))
                  (Py.interior (RSPath.yaw path)) (Py.interior (RSPath.directions path))
                  0 (Node.cost (nstart s) + calc_rs_path_cost path) k0).
  assert (update_node_with_analystic_expantion calc_all_paths (nstart s) (ngoal s) (P s)
          = Ok (Some fnode)) as Hupd.
  { unfold update_node_with_analystic_expantion. rewrite Hrs. reflexivity. }
  assert (iteration calc_all_paths (P s) (hmap s) (ngoal s) (motion s) (initial s)
          = Ok (Search.Break (<[k0 := nstart s]> ∅) fnode)) as Hit.
  { apply break_is_rs_success. rewrite Hinit. cbn [Search.open_set Search.qp Search.closed_set].
    split; [apply insert_non_empty |].
    exists k0, (QueuePrior.discard k0 (QueuePrior.put QueuePrior.new k0 f)), (nstart s).
    split; [reflexivity |]. split; [apply lookup_insert_eq |]. split; [exact Hupd | reflexivity]. }
  cbn [search]. rewrite Hit. cbn [mbind res_bind].
  unfold extract_path. cbn [extract_walk].
  assert (is_same_grid fnode (nstart s) = true) as ->.
  { unfold is_same_grid, fnode. cbn [Node.xind Node.yind Node.yawind].
    rewrite !Z.eqb_refl. reflexivity. }
  cbn [mbind res_bind app]. rewrite !rev_involutive.
  subst fnode. cbn [Node.x Node.y Node.yaw Node.directions Node.cost]. rewrite Hdirs.
  cbn [Py.get lookup list_lookup mbind res_bind].
  assert (Py.setz (d0 :: d1 :: dirs) 0 d1 = Ok (d1 :: d1 :: dirs)) as -> by reflexivity.
  cbn [mbind res_bind]. eexists. split; [reflexivity |].
  cbn [Path.x Path.y Path.yaw Path.direction Path.cost].
  repeat split; try reflexivity. rewrite Hcost. lra.
Qed.

(** A Reeds-Shepp generator that answers with a path standing still on the
    start pose for four samples. *)
Definition standing_rs : R -> R -> R -> R -> R -> R -> R -> R -> list RSPath.t :=
  fun sx sy syaw _ _ _ _ _ =>
    [RSPath.mk [sx; sx; sx; sx] [sy; sy; sy; sy] [syaw; syaw; syaw; syaw]
               [1; 1; 1; 1]%Z [0]].

Lemma center_pose_free (yawreso : R) : is_collision_at (post_para yawreso) 10 10 0 = Ok false.
Proof.
  unfold is_collision_at. cbn [post_para Para.kdtree Para.xyreso].
  rewrite cos_0, sin_0.
  assert (Rmax ((C.RF + C.RB) / 2) (C.W / 2) + 10 = 104 / 10) as ->.
  { unfold C.RF, C.RB, C.W. rewrite Rmax_left by lra. lra. }
  unfold KDTree.query_ball_point. cbn [KDTree.query_from].
  rewrite !within_outside; [reflexivity | | | |];
    unfold C.RF, C.RB; cbn [fst snd]; lra.
Qed.

Lemma standing_path_found :
  analystic_expantion standing_rs (post_node 1 0) (post_node 1 0) (post_para 1)
  = Ok (Some (RSPath.mk [10; 10; 10; 10] [10; 10; 10; 10] [0; 0; 0; 0] [1; 1; 1; 1]%Z [0])).
Proof.
  unfold analystic_expantion, standing_rs.
  cbn [post_node Node.x Node.y Node.yaw Py.last List.map List.last mbind res_bind length seq
       List.fold_left QueuePrior.put QueuePrior.new QueuePrior.discard List.filter app List.nth
       first_collision_free QueuePrior.empty QueuePrior.get QueuePrior.lowest fst snd].
  cbn [Py.get lookup list_lookup mbind res_bind RSPath.x RSPath.y RSPath.yaw].
  change (Py.range_step (length [10; 10; 10; 10]) C.COLLISION_CHECK_STEP) with [0%nat; 2%nat].
  cbn [Py.gets mapM Py.get lookup list_lookup mbind res_bind mret res_ret].
  cbn [is_collision]. rewrite center_pose_free. reflexivity.
Qed.

Lemma first_pass_path_witness :
  exists p,
    hybrid_astar_planning standing_rs 2 10 10 0 10 10 0 two_posts two_posts 10 1 C.RADIUS
    = Ok (Some p)
    /\ Path.x p = Py.interior [10; 10; 10; 10]
    /\ Path.y p = Py.interior [10; 10; 10; 10]
    /\ Path.yaw p = Py.interior [0; 0; 0; 0]
    /\ Path.direction p = [1; 1]%Z
    /\ Path.cost p
       = calc_rs_path_cost
           (RSPath.mk [10; 10; 10; 10] [10; 10; 10; 10] [0; 0; 0; 0] [1; 1; 1; 1]%Z [0]).
Proof.
  assert (1 <> 0) as H1 by lra.
  exact (first_pass_path standing_rs 1 10 10 0 10 10 0 two_posts two_posts 10 1 C.RADIUS
           (post_setup 1 0 0)
           (RSPath.mk [10; 10; 10; 10] [10; 10; 10; 10] [0; 0; 0; 0] [1; 1; 1; 1]%Z [0])
           1%Z 1%Z [] (post_prepare 1 C.RADIUS 0 0 0 H1) standing_path_found eq_refl).
Defined.

(** ** The extracted path *)

(** The nodes [extract_path] visits: from the final node along the parent
    links, up to the first node on the grid cell of the start node. *)
Inductive walk (closed : gmap Z Node.t) (nstart : Node.t) : Node.t -> list Node.t -> Prop :=
| walk_stop (node : Node.t) :
    is_same_grid node nstart = true -> walk closed nstart node [node]
| walk_step (node parent : Node.t) (chain : list Node.t) :
    is_same_grid node nstart = false ->
    closed !! Node.pind node = Some parent ->
    walk closed nstart parent chain ->
    walk closed nstart node (node :: chain).

Lemma extract_walk_spec (fuel : nat) (closed : gmap Z Node.t) (nstart node : Node.t)
    (rx ry ryaw : list R) (direc : list Z) (cost : R)
    (rx' ry' ryaw' : list R) (direc' : list Z) (cost' : R) :
  extract_walk fuel closed nstart node (rx, ry, ryaw, direc, cost)
  = Ok (rx', ry', ryaw', direc', cost') ->
  exists chain,
    walk closed nstart node chain
    /\ rx' = rx ++ concat (List.map (fun n => rev (Node.x n)) chain)
    /\ ry' = ry ++ concat (List.map (fun n => rev (Node.y n)) chain)
    /\ ryaw' = ryaw ++ concat (List.map (fun n => rev (Node.yaw n)) chain)
    /\ direc' = direc ++ concat (List.map (fun n => rev (Node.directions n)) chain)
    /\ cost' = cost + List.fold_right Rplus 0 (List.map Node.cost chain).
Proof.
  revert node rx ry ryaw direc cost.
  induction fuel as [|fuel IH]; intros node rx ry ryaw direc cost H; [discriminate |].
  cbn [extract_walk] in H. destruct (is_same_grid node nstart) eqn:Hsame.
  - injection H as <- <- <- <- <-. exists [node]. split; [constructor; exact Hsame |].
    cbn [List.map concat List.fold_right]. rewrite !app_nil_r.
    repeat split; try reflexivity. lra.
  - bind_ok H. rename a into parent.
    destruct (closed !! Node.pind node) as [p|] eqn:Hp; [| discriminate].
    injection E as ->.
    apply IH in H as (chain & Hw & -> & -> & -> & -> & ->).
    exists (node :: chain). split; [econstructor; eauto |].
    cbn [List.map concat List.fold_right]. rewrite <- !app_assoc.
    repeat split; try reflexivity. lra.
Qed.

Lemma rev_concat_rev {A : Type} (f : Node.t -> list A) (chain : list Node.t) :
  rev (concat (List.map (fun n => rev (f n)) chain)) = concat (List.map f (rev chain)).
Proof.
  induction chain as [|n chain IH]; [reflexivity |].
  cbn [List.map concat rev]. rewrite rev_app_distr, rev_involutive, IH.
  rewrite List.map_app, concat_app. cbn [List.map concat]. rewrite app_nil_r. reflexivity.
Qed.

(** X19.  What [extract_path] returns.  The trajectory is the concatenation
    of the samples of the nodes on the parent chain, from the node on the
    start cell to the final node; at least two samples are needed, and the
    first gear is a copy of the second.  The cost is the sum of the costs of
    all nodes on the chain, each of which already contains the cost of its
    parent. *)
Theorem extract_path_contents (fuel : nat) (closed : gmap Z Node.t) (fnode nstart : Node.t)
    (path : Path.t) :
  extract_path fuel closed fnode nstart = Ok path ->
  exists chain d rest,
    walk closed nstart fnode chain
    /\ Path.x path = concat (List.map Node.x (rev chain))
    /\ Path.y path = concat (List.map Node.y (rev chain))
    /\ Path.yaw path = concat (List.map Node.yaw (rev chain))
    /\ (exists d0, concat (List.map Node.directions (rev chain)) = d0 :: d :: rest)
    /\ Path.direction path = d :: d :: rest
    /\ Path.cost path = List.fold_right Rplus 0 (List.map Node.cost chain).
Proof.
  unfold extract_path. intros H. bind_ok H.
  destruct a as [[[[rx ry] ryaw] direc] cost].
  apply extract_walk_spec in E as (chain & Hw & -> & -> & -> & -> & ->).
  cbn [app] in H. rewrite !rev_concat_rev in H.
  set (dirs := concat (List.map Node.directions (rev chain))) in *.
  bind_ok H. rename a into d1. bind_ok H. rename a into direc. injection H as <-.
  destruct dirs as [|d0 [|d rest]] eqn:Hdirs; [discriminate | discriminate |].
  cbn [Py.get lookup list_lookup] in E. injection E as <-.
  assert (direc = d :: d :: rest) as ->.
  { apply setz_Ok in E0 as (k & Hk & ->). apply index_nonneg in Hk as ->; [reflexivity | lia]. }
  exists chain, d, rest. cbn [Path.x Path.y Path.yaw Path.direction Path.cost].
  split; [exact Hw |]. repeat split; try reflexivity; [eauto | lra].
Qed.

(** A node two samples long on the cell [(0, 0, 0)], and its child on the
    cell [(1, 0, 0)]. *)
Definition chain_root : Node.t := Node.mk 0 0 0 1 [0; 1] [0; 0] [0; 0] [1; 1]%Z 0 3 (-1).

Definition chain_leaf : Node.t := Node.mk 1 0 0 1 [2; 3] [0; 0] [0; 0] [1; 1]%Z 0 7 5.

Lemma chain_extracted :
  extract_path 2 (<[5%Z := chain_root]> ∅) chain_leaf chain_root
  = Ok (Path.mk [0; 1; 2; 3] [0; 0; 0; 0] [0; 0; 0; 0] [1; 1; 1; 1]%Z (0 + 7 + 3)).
Proof.
  unfold extract_path. cbn [extract_walk].
  change (is_same_grid chain_leaf chain_root) with false.
  change (Node.pind chain_leaf) with 5%Z. rewrite lookup_insert_eq.
  cbn [Py.item mbind res_bind]. change (is_same_grid chain_root chain_root) with true.
  reflexivity.
Qed.

Lemma extract_path_contents_witness :
  exists chain d rest,
    walk (<[5%Z := chain_root]> ∅) chain_root chain_leaf chain
    /\ [0; 1; 2; 3] = concat (List.map Node.x (rev chain))
    /\ [0; 0; 0; 0] = concat (List.map Node.y (rev chain))
    /\ [0; 0; 0; 0] = concat (List.map Node.yaw (rev chain))
    /\ (exists d0, concat (List.map Node.directions (rev chain)) = d0 :: d :: rest)
    /\ [1; 1; 1; 1]%Z = d :: d :: rest
    /\ 0 + 7 + 3 = List.fold_right Rplus 0 (List.map Node.cost chain).
Proof.
  exact (extract_path_contents 2 (<[5%Z := chain_root]> ∅) chain_leaf chain_root
           (Path.mk [0; 1; 2; 3] [0; 0; 0; 0] [0; 0; 0; 0] [1; 1; 1; 1]%Z (0 + 7 + 3))
           chain_extracted).
Defined.

(** * Further properties of the tractor-trailer model *)

(** ** Shapes *)

Lemma size_check_inv (m : casadi.matrix) (n : nat) :
  negb (bool_decide (casadi.size m = (n, 1%nat))) = false -> casadi.size m = (n, 1%nat).
Proof. intros H. apply negb_false_iff, bool_decide_eq_true_1 in H. exact H. Qed.

(** X20.  Whenever [dynamics] returns for a model of 4 or of 6 states, the
    derivative is a column vector with as many rows as the state. *)
Theorem dynamics_shape (self : TractorTrailerModel.t) (state input state_dot : casadi.matrix) :
  TractorTrailerModel.dynamics self state input = Ok state_dot ->
  TractorTrailerModel.nx self = 4%nat \/ TractorTrailerModel.nx self = 6%nat ->
  casadi.size state_dot = casadi.size state /\ casadi.wf state_dot.
Proof.
  intros H Hnx. unfold TractorTrailerModel.dynamics in H.
  destruct (negb (bool_decide (casadi.size state = _))) eqn:Hs; [discriminate |].
  apply size_check_inv in Hs.
  destruct (negb (bool_decide (casadi.size input = _))); [discriminate |].
  bind_ok H. bind_ok H. rewrite Hs.
  assert (casadi.size1 state = TractorTrailerModel.nx self) as Hrows
    by (unfold casadi.size in Hs; congruence).
  unfold casadi.vertsplit in H.
  destruct Hnx as [Hnx | Hnx]; rewrite Hnx in *; rewrite Hrows in H; cbn [Nat.eqb andb] in H.
  - destruct (TractorTrailerModel._trailer_based_model self); cbn [negb] in H;
      destruct (casadi.entries state) as [|? [|? [|? [|? [|? ?]]]]]; try discriminate;
      repeat bind_ok H; injection H as <-; split; reflexivity.
  - destruct (casadi.entries state) as [|? [|? [|? [|? [|? [|? [|? ?]]]]]]]; try discriminate.
    repeat bind_ok H. injection H as <-. split; reflexivity.
Qed.

Lemma dynamics_shape_witness :
  exists state_dot,
    TractorTrailerModel.dynamics (TractorTrailerModel.mk 4 2 1 2 false)
      (casadi.vertcat [0; 0; 0; 0]) (casadi.vertcat [1; 0]) = Ok state_dot
    /\ casadi.size state_dot = casadi.size (casadi.vertcat [0; 0; 0; 0])
    /\ casadi.wf state_dot.
Proof.
  assert (exists state_dot,
             TractorTrailerModel.dynamics (TractorTrailerModel.mk 4 2 1 2 false)
               (casadi.vertcat [0; 0; 0; 0]) (casadi.vertcat [1; 0]) = Ok state_dot)
    as [state_dot H].
  { unfold TractorTrailerModel.dynamics.
    cbn [casadi.vertcat casadi.size casadi.size1 casadi.size2 length TractorTrailerModel.nx
         TractorTrailerModel.nu TractorTrailerModel._lf TractorTrailerModel._lb
         TractorTrailerModel._trailer_based_model].
    rewrite !bool_decide_eq_true_2 by reflexivity.
    cbn [negb casadi.getitem casadi.entries lookup list_lookup mbind res_bind Nat.eqb andb
         casadi.vertsplit].
    rewrite !div_Ok by lra. cbn [mbind res_bind]. eauto. }
  exists state_dot. split; [exact H |].
  exact (dynamics_shape (TractorTrailerModel.mk 4 2 1 2 false) (casadi.vertcat [0; 0; 0; 0])
           (casadi.vertcat [1; 0]) state_dot H (or_introl eq_refl)).
Defined.

(** ** The three state layouts agree *)

(** X21.  The 4-state layouts are projections of the 6-state one.  For the
    same lengths and input, the tractor-based derivative of
    [(x1, y1, theta1, theta2 - theta1)] consists of the first three rows of
    the 6-state derivative of [(x1, y1, theta1, x2, y2, theta2)], the
    trailer-based derivative of [(x2, y2, theta2, theta2 - theta1)] consists
    of its last three rows, and in both the rate of the hitch angle is the
    difference of the two heading rates. *)
Theorem dynamics_layouts_agree (nu : nat) (lb lf : R) (flag : bool) (input : casadi.matrix)
    (v1 w1 x1 y1 theta1 x2 y2 theta2 : R) :
  lf <> 0 ->
  casadi.size input = (nu, 1%nat) ->
  casadi.getitem input 0 = Ok v1 ->
  casadi.getitem input 1 = Ok w1 ->
  exists a1 a2 a3 a4 a5 a6 g,
    TractorTrailerModel.dynamics (TractorTrailerModel.mk 6 nu lb lf flag)
      (casadi.vertcat [x1; y1; theta1; x2; y2; theta2]) input
    = Ok (casadi.vertcat [a1; a2; a3; a4; a5; a6])
    /\ TractorTrailerModel.dynamics (TractorTrailerModel.mk 4 nu lb lf false)
         (casadi.vertcat [x1; y1; theta1; theta2 - theta1]) input
       = Ok (casadi.vertcat [a1; a2; a3; g])
    /\ TractorTrailerModel.dynamics (TractorTrailerModel.mk 4 nu lb lf true)
         (casadi.vertcat [x2; y2; theta2; theta2 - theta1]) input
       = Ok (casadi.vertcat [a4; a5; a6; g])
    /\ g = a6 - a3.
Proof.
  intros Hlf Hsize Hv Hw.
  exists (v1 * cos theta1), (v1 * sin theta1), w1,
    (v1 * cos theta2 * cos (theta2 - theta1) - w1 * lb * cos theta2 * sin (theta2 - theta1)),
    (v1 * sin theta2 * cos (theta2 - theta1) - w1 * lb * sin theta2 * sin (theta2 - theta1)),
    (- v1 * (1 / lf) * sin (theta2 - theta1) - w1 * (lb / lf) * cos (theta2 - theta1)),
    (- v1 * (1 / lf) * sin (theta2 - theta1)
     - w1 * (lb / lf * cos (theta2 - theta1) + 1)).
  unfold TractorTrailerModel.dynamics.
  cbn [casadi.vertcat casadi.size casadi.size1 casadi.size2 length TractorTrailerModel.nx
       TractorTrailerModel.nu TractorTrailerModel._lf TractorTrailerModel._lb
       TractorTrailerModel._trailer_based_model].
  rewrite !(bool_decide_eq_true_2 (_ = _)) by (reflexivity || exact Hsize).
  rewrite Hv, Hw.
  cbn [negb mbind res_bind Nat.eqb andb casadi.vertsplit casadi.entries].
  rewrite !div_Ok by exact Hlf. cbn [mbind res_bind].
  split; [reflexivity |]. split; [reflexivity |]. split; [reflexivity |]. ring.
Qed.

Lemma dynamics_layouts_agree_witness :
  exists a1 a2 a3 a4 a5 a6 g,
    TractorTrailerModel.dynamics (TractorTrailerModel.mk 6 2 1 2 false)
      (casadi.vertcat [0; 0; 0; 0; 0; 0]) (casadi.vertcat [1; 0])
    = Ok (casadi.vertcat [a1; a2; a3; a4; a5; a6])
    /\ TractorTrailerModel.dynamics (TractorTrailerModel.mk 4 2 1 2 false)
         (casadi.vertcat [0; 0; 0; 0 - 0]) (casadi.vertcat [1; 0])
       = Ok (casadi.vertcat [a1; a2; a3; g])
    /\ TractorTrailerModel.dynamics (TractorTrailerModel.mk 4 2 1 2 true)
         (casadi.vertcat [0; 0; 0; 0 - 0]) (casadi.vertcat [1; 0])
       = Ok (casadi.vertcat [a4; a5; a6; g])
    /\ g = a6 - a3.
Proof.
  assert (2 <> 0) as H2 by lra.
  exact (dynamics_layouts_agree 2 1 2 false (casadi.vertcat [1; 0]) 1 0 0 0 0 0 0 0 H2
           eq_refl eq_refl eq_refl).
Defined.

(** ** Pose conversions *)

(** The outcome both pose conversions have on a state: a pose of three rows
    for a model of four states; the size-mismatch [Exception] for a wrongly
    sized state; [ValueError], from unpacking the rows into four names, for a
    correctly sized state of any other model. *)
Definition conversion_outcome (self : TractorTrailerModel.t) (state : casadi.matrix)
    (r : res casadi.matrix) : Prop :=
  match r with
  | Ok pose =>
      TractorTrailerModel.nx self = 4%nat /\ casadi.size state = (4%nat, 1%nat)
      /\ casadi.size pose = (3%nat, 1%nat)
  | Raise e =>
      (e = Exception /\ casadi.size state <> (TractorTrailerModel.nx self, 1%nat))
      \/ (e = ValueError /\ casadi.size state = (TractorTrailerModel.nx self, 1%nat)
          /\ TractorTrailerModel.nx self <> 4%nat)
  end.

(** X22.  [compute_tractor_pose_from_trailer_pose] and
    [compute_trailer_pose_from_tractor_pose] work for models of four states
    only: on a model of six states they raise for every state. *)
Theorem pose_conversions_need_four_states (self : TractorTrailerModel.t)
    (state : casadi.matrix) :
  casadi.wf state ->
  conversion_outcome self state
    (TractorTrailerModel.compute_tractor_pose_from_trailer_pose self state)
  /\ conversion_outcome self state
       (TractorTrailerModel.compute_trailer_pose_from_tractor_pose self state).
Proof.
  intros Hwf. unfold casadi.wf in Hwf.
  unfold TractorTrailerModel.compute_tractor_pose_from_trailer_pose,
    TractorTrailerModel.compute_trailer_pose_from_tractor_pose, casadi.vertsplit.
  destruct (decide (casadi.size state = (TractorTrailerModel.nx self, 1%nat))) as [Hs | Hs].
  - rewrite (size_check_true _ _ Hs).
    assert (length (casadi.entries state) = TractorTrailerModel.nx self) as Hlen.
    { unfold casadi.size in Hs. injection Hs as H1 H2. rewrite Hwf, H1, H2. lia. }
    destruct (casadi.entries state) as [|a [|b [|c [|d [|e l]]]]]; cbn [length] in Hlen;
      cbn [conversion_outcome];
      try (split; right; (split; [reflexivity |]); (split; [exact Hs | lia])).
    rewrite <- Hlen in Hs. split; (split; [symmetry; exact Hlen |]); (split; [exact Hs |]);
      reflexivity.
  - rewrite (size_check_false _ _ Hs). cbn [conversion_outcome]. split; left; auto.
Qed.

Lemma pose_conversions_need_four_states_witness :
  casadi.wf (casadi.vertcat [0; 0; 0; 0; 0; 0])
  /\ conversion_outcome (TractorTrailerModel.mk 6 2 1 2 false)
       (casadi.vertcat [0; 0; 0; 0; 0; 0])
       (TractorTrailerModel.compute_tractor_pose_from_trailer_pose
          (TractorTrailerModel.mk 6 2 1 2 false) (casadi.vertcat [0; 0; 0; 0; 0; 0]))
  /\ conversion_outcome (TractorTrailerModel.mk 6 2 1 2 false)
       (casadi.vertcat [0; 0; 0; 0; 0; 0])
       (TractorTrailerModel.compute_trailer_pose_from_tractor_pose
          (TractorTrailerModel.mk 6 2 1 2 false) (casadi.vertcat [0; 0; 0; 0; 0; 0])).
Proof.
  assert (casadi.wf (casadi.vertcat [0; 0; 0; 0; 0; 0])) as Hwf by reflexivity.
  split; [exact Hwf |].
  exact (pose_conversions_need_four_states (TractorTrailerModel.mk 6 2 1 2 false)
           (casadi.vertcat [0; 0; 0; 0; 0; 0]) Hwf).
Defined.

(** Trailer pose to tractor pose and back, with the same hitch angle. *)
Definition trailer_roundtrip (self : TractorTrailerModel.t) (x2 y2 theta2 gamma : R)
  : res casadi.matrix :=
  tractor ← TractorTrailerModel.compute_tractor_pose_from_trailer_pose self
              (casadi.vertcat [x2; y2; theta2; gamma]);
  TractorTrailerModel.compute_trailer_pose_from_tractor_pose self
    (TractorTrailerModel.state_of_pose tractor gamma).

(** X23.  Converting a trailer pose to the tractor pose and back recovers
    the heading, and moves the position by [length_front - length_back]
    times the difference of the direction vectors of the two headings: the
    round trip is exact when the two lengths are equal or the hitch angle is
    zero. *)
Theorem trailer_roundtrip_value (nu : nat) (lb lf : R) (flag : bool) (x2 y2 theta2 gamma : R) :
  trailer_roundtrip (TractorTrailerModel.mk 4 nu lb lf flag) x2 y2 theta2 gamma
  = Ok (casadi.vertcat
          [x2 + (lf - lb) * (cos theta2 - cos (theta2 - gamma));
           y2 + (lf - lb) * (sin theta2 - sin (theta2 - gamma));
           theta2])
  /\ (lf = lb \/ gamma = 0 ->
      trailer_roundtrip (TractorTrailerModel.mk 4 nu lb lf flag) x2 y2 theta2 gamma
      = Ok (casadi.vertcat [x2; y2; theta2])).
Proof.
  assert (trailer_roundtrip (TractorTrailerModel.mk 4 nu lb lf flag) x2 y2 theta2 gamma
          = Ok (casadi.vertcat
                  [x2 + lf * cos theta2 + lb * cos (theta2 - gamma)
                     - lf * cos (theta2 - gamma) - lb * cos (theta2 - gamma + gamma);
                   y2 + lf * sin theta2 + lb * sin (theta2 - gamma)
                     - lf * sin (theta2 - gamma) - lb * sin (theta2 - gamma + gamma);
                   theta2 - gamma + gamma])) as H by reflexivity.
  rewrite H. replace (theta2 - gamma + gamma) with theta2 by lra.
  split; [apply vertcat3_ext; ring |].
  intros [-> | ->]; apply vertcat3_ext; try ring.
  - rewrite Rminus_0_r. ring.
  - rewrite Rminus_0_r. ring.
Qed.

Lemma trailer_roundtrip_value_witness :
  (2 = 2 \/ PI = 0)
  /\ trailer_roundtrip (TractorTrailerModel.mk 4 2 2 2 true) 1 1 0 PI
     = Ok (casadi.vertcat [1; 1; 0]).
Proof.
  assert (2 = 2 \/ PI = 0) as H by (left; reflexivity).
  split; [exact H |].
  exact (proj2 (trailer_roundtrip_value 2 2 2 true 1 1 0 PI) H).
Defined.

(** ** Integration with [BaseModel.step] *)

Lemma vertcat4_ext (a b c d a' b' c' d' : R) :
  a = a' -> b = b' -> c = c' -> d = d' ->
  Ok (casadi.vertcat [a; b; c; d]) = Ok (casadi.vertcat [a'; b'; c'; d']).
Proof. intros -> -> -> ->. reflexivity. Qed.

(** X24.  [step] of the tractor-trailer model raises [Exception] both for a
    method other than ["RK1"] and ["RK4"] and, with a supported method, for
    a state or an input of the wrong size: [dynamics] is evaluated on the
    arguments as given before any arithmetic on the state takes place. *)
Theorem step_raises_exception (self : TractorTrailerModel.t)
    (add : casadi.matrix -> casadi.matrix -> res casadi.matrix)
    (scale : R -> casadi.matrix -> casadi.matrix)
    (state input : casadi.matrix) (step_size : R) (method : string) :
  (method <> "RK1"%string /\ method <> "RK4"%string) \/ size_mismatch self state input ->
  BaseModel.step (TractorTrailerModel.dynamics self) add scale state input step_size method
  = Raise Exception.
Proof.
  intros H. unfold BaseModel.step.
  destruct (String.eqb_spec method "RK1"%string) as [E1 | N1].
  - destruct H as [[H _] | H]; [contradiction |].
    rewrite (dynamics_mismatch _ _ _ H). reflexivity.
  - destruct (String.eqb_spec method "RK4"%string) as [E4 | N4]; [| reflexivity].
    destruct H as [[_ H] | H]; [contradiction |].
    rewrite (dynamics_mismatch _ _ _ H). reflexivity.
Qed.

Lemma step_raises_exception_witness :
  BaseModel.step (TractorTrailerModel.dynamics (TractorTrailerModel.mk 4 2 1 2 false))
    (fun a b => Ok (casadi.plus a b)) casadi.scale
    (casadi.vertcat [0; 0; 0]) (casadi.vertcat [1; 0]) (1 / 10) "RK4"%string
  = Raise Exception.
Proof.
  assert (size_mismatch (TractorTrailerModel.mk 4 2 1 2 false)
            (casadi.vertcat [0; 0; 0]) (casadi.vertcat [1; 0])) as H
    by (left; unfold casadi.size; cbn; intros [=]).
  exact (step_raises_exception (TractorTrailerModel.mk 4 2 1 2 false)
           (fun a b => Ok (casadi.plus a b)) casadi.scale
           (casadi.vertcat [0; 0; 0]) (casadi.vertcat [1; 0]) (1 / 10) "RK4"%string (or_intror H)).
Defined.

(** The derivative of a 4-state model driven straight ahead with the hitch
    angle at zero: the heading and the hitch angle do not change. *)
Lemma dynamics_straight (lb lf : R) (flag : bool) (v x y theta' gamma theta : R) :
  lf <> 0 -> theta' = theta -> gamma = 0 ->
  TractorTrailerModel.dynamics (TractorTrailerModel.mk 4 2 lb lf flag)
    (casadi.mk 4 1 [x; y; theta'; gamma]) (casadi.vertcat [v; 0])
  = Ok (casadi.vertcat [v * cos theta; v * sin theta; 0; 0]).
Proof.
  intros Hlf -> ->. unfold TractorTrailerModel.dynamics.
  cbn [casadi.vertcat casadi.size casadi.size1 casadi.size2 length TractorTrailerModel.nx
       TractorTrailerModel.nu TractorTrailerModel._lf TractorTrailerModel._lb
       TractorTrailerModel._trailer_based_model].
  rewrite !bool_decide_eq_true_2 by reflexivity.
  cbn [negb casadi.getitem casadi.entries lookup list_lookup mbind res_bind Nat.eqb andb
       casadi.vertsplit].
  destruct flag; cbn [negb andb]; rewrite !div_Ok by exact Hlf; cbn [mbind res_bind];
    apply vertcat4_ext; rewrite ?sin_0, ?cos_0; ring.
Qed.

Ltac straight_step Hlf Hadd lb lf flag v theta :=
  first
    [ rewrite (dynamics_straight lb lf flag v _ _ _ _ theta Hlf) by lra
    | rewrite Hadd by reflexivity ];
  unfold casadi.plus, casadi.scale, casadi.vertcat;
  cbn [mbind res_bind casadi.size1 casadi.size2 casadi.entries List.map zip_with length].

(** X25.  Driving a 4-state model straight ahead (zero angular velocity,
    zero hitch angle) for one step moves the position by [step_size * v]
    along the heading and leaves the heading and the hitch angle as they
    are; on this motion ["RK4"] gives the same state as ["RK1"], for every
    step size, also a negative one. *)
Theorem step_straight_line
    (add : casadi.matrix -> casadi.matrix -> res casadi.matrix)
    (lb lf : R) (flag : bool) (v x y theta step_size : R) (method : string) :
  lf <> 0 ->
  (forall a b, casadi.size a = casadi.size b -> add a b = Ok (casadi.plus a b)) ->
  method = "RK1"%string \/ method = "RK4"%string ->
  BaseModel.step (TractorTrailerModel.dynamics (TractorTrailerModel.mk 4 2 lb lf flag))
    add casadi.scale (casadi.vertcat [x; y; theta; 0]) (casadi.vertcat [v; 0])
    step_size method
  = Ok (casadi.vertcat
          [x + step_size * v * cos theta; y + step_size * v * sin theta; theta; 0]).
Proof.
  intros Hlf Hadd Hmethod. unfold BaseModel.step.
  change (casadi.vertcat [x; y; theta; 0]) with (casadi.mk 4 1 [x; y; theta; 0]).
  destruct Hmethod as [-> | ->].
  - rewrite String.eqb_refl.
    repeat straight_step Hlf Hadd lb lf flag v theta.
    apply vertcat4_ext; field.
  - assert (String.eqb "RK4" "RK1" = false) as -> by reflexivity.
    rewrite String.eqb_refl.
    repeat straight_step Hlf Hadd lb lf flag v theta.
    apply vertcat4_ext; field.
Qed.

Lemma step_straight_line_witness :
  BaseModel.step (TractorTrailerModel.dynamics (TractorTrailerModel.mk 4 2 1 2 false))
    (fun a b => Ok (casadi.plus a b)) casadi.scale
    (casadi.vertcat [0; 0; PI / 2; 0]) (casadi.vertcat [1; 0]) (1 / 10) "RK4"%string
  = Ok (casadi.vertcat
          [0 + 1 / 10 * 1 * cos (PI / 2); 0 + 1 / 10 * 1 * sin (PI / 2); PI / 2; 0]).
Proof.
  assert (2 <> 0) as H2 by lra.
  exact (step_straight_line (fun a b => Ok (casadi.plus a b)) 1 2 false 1 0 0 (PI / 2)
           (1 / 10) "RK4"%string H2 (fun a b _ => eq_refl) (or_intror eq_refl)).
Defined.

(** ** Full state trajectories *)

(** The six rows [(x1, y1, theta1, x2, y2, theta2)] that belong to a state
    [(x, y, theta, gamma)] of a 4-state model. *)
Definition full_state (self : TractorTrailerModel.t) (state : list R) : list R :=
  match state with
  | [x; y; theta; gamma] =>
      let lf := TractorTrailerModel._lf self in
      let lb := TractorTrailerModel._lb self in
      if TractorTrailerModel._trailer_based_model self then
        [x + lf * cos theta + lb * cos (theta - gamma);
         y + lf * sin theta + lb * sin (theta - gamma);
         theta - gamma; x; y; theta]
      else
        [x; y; theta;
         x - lf * cos theta - lb * cos (theta + gamma);
         y - lf * sin theta - lb * sin (theta + gamma);
         theta + gamma]
  | _ => []
  end.

Lemma set_rows_fold_other (f : nat -> list R) (r0 : nat) (columns : list nat)
    (full : list (list R)) (j : nat) :
  j ∉ columns ->
  List.fold_left (fun full i => casadi.set_rows full r0 i (f i)) columns full !! j
  = full !! j.
Proof.
  revert full. induction columns as [| i columns IH]; intros full Hout; [reflexivity |].
  apply not_elem_of_cons in Hout as [Hne Hout].
  cbn [List.fold_left]. rewrite IH by exact Hout.
  unfold casadi.set_rows. apply list_lookup_alter_ne. congruence.
Qed.

Lemma set_rows_fold_lookup (f : nat -> list R) (r0 : nat) (columns : list nat)
    (full : list (list R)) (j : nat) :
  NoDup columns -> j ∈ columns ->
  List.fold_left (fun full i => casadi.set_rows full r0 i (f i)) columns full !! j
  = (fun col => take r0 col ++ f j ++ drop (r0 + length (f j)) col) <$> full !! j.
Proof.
  revert full. induction columns as [| i columns IH]; intros full Hnd Hin.
  - apply elem_of_nil in Hin. contradiction.
  - apply NoDup_cons in Hnd as [Hi Hnd]. cbn [List.fold_left].
    destruct (decide (j = i)) as [-> | Hne].
    + rewrite set_rows_fold_other by exact Hi.
      unfold casadi.set_rows. apply list_lookup_alter_eq.
    + apply elem_of_cons in Hin as [? | Hin]; [contradiction |].
      rewrite IH by assumption.
      unfold casadi.set_rows. rewrite list_lookup_alter_ne by congruence. reflexivity.
Qed.

Lemma fill_poses_fold (convert : casadi.matrix -> res casadi.matrix)
    (state_trajectory : casadi.matrix) (g : nat -> list R) (r0 : nat) (columns : list nat)
    (full : list (list R)) :
  (forall i, i ∈ columns ->
     exists pose, convert (casadi.column state_trajectory i) = Ok pose
                  /\ casadi.entries pose = g i) ->
  TractorTrailerModel.fill_poses convert state_trajectory r0 full columns
  = Ok (List.fold_left (fun full i => casadi.set_rows full r0 i (g i)) columns full).
Proof.
  revert full. induction columns as [| i columns IH]; intros full H; [reflexivity |].
  cbn [TractorTrailerModel.fill_poses List.fold_left].
  destruct (H i) as (pose & -> & <-); [left |]. cbn [mbind res_bind].
  apply IH. intros k Hk. apply H. right. exact Hk.
Qed.

Lemma column_length (m : casadi.matrix) (i : nat) :
  casadi.wf m -> (i < casadi.size2 m)%nat ->
  length (casadi.entries (casadi.column m i)) = casadi.size1 m.
Proof.
  unfold casadi.wf, casadi.column. cbn [casadi.entries]. intros Hwf Hi.
  rewrite length_take, length_drop, Hwf. nia.
Qed.

Lemma repeat_replicate {A : Type} (a : A) (n : nat) : repeat a n = replicate n a.
Proof. induction n as [| n IH]; [reflexivity |]. cbn [repeat replicate]. rewrite IH. reflexivity. Qed.

Lemma concat_zero_columns (n m : nat) :
  concat (casadi.zero_columns n m) = repeat 0 (m * n).
Proof.
  unfold casadi.zero_columns. induction m as [| m IH]; [reflexivity |].
  cbn [repeat concat Nat.mul]. rewrite IH, repeat_app. reflexivity.
Qed.

(** Both assignments of [get_full_state_trajectory] on a trajectory of four
    rows: one half of every column is copied, the other half converted. *)
Lemma full_columns (self : TractorTrailerModel.t) (state_trajectory : casadi.matrix)
    (convert : casadi.matrix -> res casadi.matrix) (r0 r1 : nat) :
  casadi.wf state_trajectory ->
  casadi.size1 state_trajectory = 4%nat ->
  (forall x y theta gamma,
      exists pose : casadi.matrix,
        convert (casadi.mk 4 1 [x; y; theta; gamma]) = Ok pose
        /\ length (casadi.entries pose) = 3%nat
        /\ take r1 (take r0 (repeat 0 6) ++ [x; y; theta] ++ drop (r0 + 3) (repeat 0 6))
           ++ casadi.entries pose
           ++ drop (r1 + 3) (take r0 (repeat 0 6) ++ [x; y; theta] ++ drop (r0 + 3) (repeat 0 6))
           = full_state self [x; y; theta; gamma]) ->
  (full ← TractorTrailerModel.fill_poses convert state_trajectory r1
            (TractorTrailerModel.copy_poses state_trajectory r0
               (casadi.zero_columns 6 (casadi.size2 state_trajectory)))
            (seq 0 (casadi.size2 state_trajectory));
   Ok (casadi.of_columns 6 full))
  = Ok (casadi.mk 6 (casadi.size2 state_trajectory)
          (concat (List.map (fun i => full_state self
                                        (casadi.entries (casadi.column state_trajectory i)))
                            (seq 0 (casadi.size2 state_trajectory))))).
Proof.
  intros Hwf Hrows Hconv.
  set (n := casadi.size2 state_trajectory).
  assert (forall i, (i < n)%nat ->
            exists x y theta gamma,
              casadi.column state_trajectory i = casadi.mk 4 1 [x; y; theta; gamma])
    as Hcol.
  { intros i Hi. pose proof (column_length state_trajectory i Hwf Hi) as Hlen.
    unfold casadi.column in *. cbn [casadi.entries] in Hlen. rewrite Hrows in *.
    destruct (take 4 (drop (i * 4) (casadi.entries state_trajectory)))
      as [| x [| y [| theta [| gamma [| ? ?]]]]]; try discriminate.
    eauto. }
  pose (g := fun i : nat =>
               match convert (casadi.column state_trajectory i) with
               | Ok pose => casadi.entries pose
               | Raise _ => []
               end).
  rewrite (fill_poses_fold convert state_trajectory g).
  2:{ intros i Hi. apply elem_of_seq in Hi.
      destruct (Hcol i) as (x & y & theta & gamma & Hc); [lia |].
      destruct (Hconv x y theta gamma) as (pose & Hp & _).
      exists pose. unfold g. rewrite Hc, Hp. split; reflexivity. }
  cbn [mbind res_bind]. unfold casadi.of_columns, TractorTrailerModel.copy_poses. fold n.
  assert (List.fold_left (fun full i => casadi.set_rows full r1 i (g i)) (seq 0 n)
            (List.fold_left
               (fun full i =>
                  casadi.set_rows full r0 i
                    (take 3 (casadi.entries (casadi.column state_trajectory i))))
               (seq 0 n) (casadi.zero_columns 6 n))
          = List.map (fun i => full_state self
                                 (casadi.entries (casadi.column state_trajectory i)))
                     (seq 0 n)) as ->.
  { apply list_eq. intros j.
    rewrite list_lookup_fmap.
    destruct (decide (j ∈ seq 0 n)) as [Hin | Hout].
    - rewrite !set_rows_fold_lookup by (apply NoDup_seq || exact Hin).
      apply elem_of_seq in Hin.
      rewrite lookup_seq_lt by lia. rewrite Nat.add_0_l.
      unfold casadi.zero_columns. rewrite repeat_replicate, lookup_replicate_2 by lia.
      cbn [fmap option_fmap option_map].
      destruct (Hcol j) as (x & y & theta & gamma & Hc); [lia |].
      destruct (Hconv x y theta gamma) as (pose & Hp & Hlen & Heq).
      unfold g. rewrite Hc, Hp. cbn [casadi.entries take length].
      rewrite Hlen. f_equal. exact Heq.
    - rewrite !set_rows_fold_other by exact Hout.
      rewrite lookup_seq_ge by (rewrite elem_of_seq in Hout; lia).
      unfold casadi.zero_columns. rewrite repeat_replicate.
      cbn [fmap option_fmap option_map]. apply lookup_replicate_None.
      rewrite elem_of_seq in Hout. lia. }
  rewrite length_map, length_seq. reflexivity.
Qed.

(** X26.  What [get_full_state_trajectory] returns for a trajectory given
    column by column.  A trajectory whose number of rows differs from the
    number of states raises [Exception].  Of a 6-state model the trajectory
    is returned as it is.  Of a 4-state model every column
    [(x, y, theta, gamma)] becomes the column
    [(x1, y1, theta1, x2, y2, theta2)]: the given pose is copied into the
    rows of its vehicle, and the rows of the other vehicle hold the pose
    computed from the hitch angle.  For any other number of states the
    result is a matrix of zeros. *)
Theorem get_full_state_trajectory_outcome (self : TractorTrailerModel.t)
    (state_trajectory : casadi.matrix) :
  casadi.wf state_trajectory ->
  TractorTrailerModel.get_full_state_trajectory self state_trajectory
  = if decide (casadi.size1 state_trajectory = TractorTrailerModel.nx self) then
      if decide (TractorTrailerModel.nx self = 6%nat) then Ok state_trajectory
      else if decide (TractorTrailerModel.nx self = 4%nat) then
        Ok (casadi.mk 6 (casadi.size2 state_trajectory)
              (concat (List.map
                         (fun i => full_state self
                                     (casadi.entries (casadi.column state_trajectory i)))
                         (seq 0 (casadi.size2 state_trajectory)))))
      else
        Ok (casadi.mk 6 (casadi.size2 state_trajectory)
              (repeat 0 (casadi.size2 state_trajectory * 6)))
    else Raise Exception.
Proof.
  intros Hwf. unfold TractorTrailerModel.get_full_state_trajectory.
  destruct (decide (casadi.size1 state_trajectory = TractorTrailerModel.nx self))
    as [Hrows | Hrows].
  2:{ apply Nat.eqb_neq in Hrows. rewrite Hrows. reflexivity. }
  rewrite <- Hrows, Nat.eqb_refl. cbn [negb].
  destruct (decide (casadi.size1 state_trajectory = 6%nat)) as [H6 | H6].
  { rewrite H6. reflexivity. }
  apply Nat.eqb_neq in H6. rewrite H6.
  destruct (decide (casadi.size1 state_trajectory = 4%nat)) as [H4 | H4].
  - rewrite H4. cbn [Nat.eqb andb].
    destruct (TractorTrailerModel._trailer_based_model self) eqn:Hflag; cbn [negb].
    + apply (full_columns self state_trajectory _ 3 0 Hwf H4).
      intros x y theta gamma.
      unfold TractorTrailerModel.compute_tractor_pose_from_trailer_pose.
      rewrite size_check_true by (unfold casadi.size; cbn; congruence).
      cbn [casadi.vertsplit casadi.entries]. eexists. split; [reflexivity |].
      split; [reflexivity |]. cbn [full_state]. rewrite Hflag. reflexivity.
    + apply (full_columns self state_trajectory _ 0 3 Hwf H4).
      intros x y theta gamma.
      unfold TractorTrailerModel.compute_trailer_pose_from_tractor_pose.
      rewrite size_check_true by (unfold casadi.size; cbn; congruence).
      cbn [casadi.vertsplit casadi.entries]. eexists. split; [reflexivity |].
      split; [reflexivity |]. cbn [full_state]. rewrite Hflag. reflexivity.
  - apply Nat.eqb_neq in H4. rewrite H4. cbn [andb].
    unfold casadi.of_columns. rewrite concat_zero_columns.
    unfold casadi.zero_columns. rewrite repeat_length. reflexivity.
Qed.

Lemma get_full_state_trajectory_outcome_witness :
  casadi.wf (casadi.mk 4 2 [0; 0; 0; 0; 1; 0; 0; 0])
  /\ TractorTrailerModel.get_full_state_trajectory (TractorTrailerModel.mk 4 2 1 2 false)
       (casadi.mk 4 2 [0; 0; 0; 0; 1; 0; 0; 0])
     = Ok (casadi.mk 6 2
             [0; 0; 0; 0 - 2 * cos 0 - 1 * cos (0 + 0); 0 - 2 * sin 0 - 1 * sin (0 + 0); 0 + 0;
              1; 0; 0; 1 - 2 * cos 0 - 1 * cos (0 + 0); 0 - 2 * sin 0 - 1 * sin (0 + 0); 0 + 0]).
Proof.
  assert (casadi.wf (casadi.mk 4 2 [0; 0; 0; 0; 1; 0; 0; 0])) as Hwf by reflexivity.
  split; [exact Hwf |].
  exact (get_full_state_trajectory_outcome (TractorTrailerModel.mk 4 2 1 2 false)
           (casadi.mk 4 2 [0; 0; 0; 0; 1; 0; 0; 0]) Hwf).
Defined.
